(** * memheap: the RT-Thread boundary-tag heap of [src/memheap.c]

    A shallow embedding of the allocator on a 32-bit target.  Block headers
    ([struct rt_memheap_item]) are records kept in a store indexed by their
    address, so that two pointers to the same header alias as they do in C;
    pool descriptors ([struct rt_memheap]) live in a finite map indexed by the
    descriptor's address; payload bytes live in a separate byte store which
    every header store invalidates on the extent of the header it writes. *)

From Stdlib Require Import ZArith Lia List Bool.
From stdpp Require Import base gmap list.

Open Scope Z_scope.

(** ** Machine arithmetic *)

(** [rt_size_t], [rt_ubase_t], [rt_uint32_t] and pointers are 32-bit words. *)
Definition wB : Z := 2 ^ 32.
Definition wrap (x : Z) : Z := x mod wB.

Definition RT_NULL : Z := 0.
Definition RT_EOK : Z := 0.
Definition RT_ERROR : Z := 1.

(** Modelled from the spec: the alignment macros of rtdef.h are not part of
    memheap.c.  [RT_ALIGN] is the spec's [align_up] and [RT_ALIGN_DOWN] its
    "round down to alignment", both in word arithmetic for a power-of-two
    alignment. *)
Definition RT_ALIGN (size align : Z) : Z :=
  Z.land (wrap (size + align - 1)) (wrap (Z.lnot (align - 1))).
Definition RT_ALIGN_DOWN (size align : Z) : Z :=
  Z.land size (wrap (Z.lnot (align - 1))).

(** ** Target configuration

    The build constants that memheap.c takes from rtconfig.h and rtdef.h. *)
Class Target := {
  RT_ALIGN_SIZE : Z;        (* configured alignment A *)
  sizeof_item : Z;          (* sizeof(struct rt_memheap_item) *)
  free_header_offset : Z;   (* offsetof(struct rt_memheap, free_header) *)
  sys_heap : Z              (* address of the facade's static [_heap] *)
}.

(** dynamic pool magic and mask *)
Definition RT_MEMHEAP_MAGIC : Z := 0x1ea01ea0.
Definition RT_MEMHEAP_MASK : Z := 0xfffffffe.
Definition RT_MEMHEAP_USED : Z := 0x01.
Definition RT_MEMHEAP_FREED : Z := 0x00.
Definition RT_MEMHEAP_MINIALLOC : Z := 12.

Definition RT_MEMHEAP_SIZE `{Target} : Z := RT_ALIGN sizeof_item RT_ALIGN_SIZE.

(** ** Data model *)

(** Modelled from the spec: the two structures are declared in rtdef.h; the
    fields are those of the spec's block header and pool descriptor. *)
Record rt_memheap_item := mk_item {
  magic : Z;
  pool_ptr : Z;
  next : Z;
  prev : Z;
  next_free : Z;
  prev_free : Z
}.

(** [lock] is the count of the pool's semaphore; [free_list] points to the
    sentinel [free_header] embedded in the descriptor. *)
Record rt_memheap := mk_heap {
  start_addr : Z;
  pool_size : Z;
  available_size : Z;
  max_used_size : Z;
  block_list : Z;
  free_list : Z;
  lock : Z
}.

Record state := mk_state {
  heaps : gmap Z rt_memheap;          (* objects of class MemHeap, by address *)
  registry : list Z;                  (* the MemHeap object list, in order *)
  items : Z -> rt_memheap_item;       (* headers, by address *)
  bytes : Z -> option Z;              (* payload bytes; None under a header *)
  errno : Z                           (* the thread's error slot *)
}.

Definition item0 : rt_memheap_item := mk_item 0 0 0 0 0 0.
Definition heap0 : rt_memheap := mk_heap 0 0 0 0 0 0 0.

(** *** Header stores *)

Section Stores.
Context `{Target}.

(** A store to a field of the header at [x] leaves no payload data on the
    header's extent [x, x + RT_MEMHEAP_SIZE). *)
Definition clobber (x : Z) (b : Z -> option Z) : Z -> option Z :=
  fun a => if (x <=? a) && (a <? x + RT_MEMHEAP_SIZE) then None else b a.

Definition upd (x : Z) (f : rt_memheap_item -> rt_memheap_item) (s : state) : state :=
  {| heaps := heaps s;
     registry := registry s;
     items := fun a => if a =? x then f (items s a) else items s a;
     bytes := clobber x (bytes s);
     errno := errno s |}.

Definition set_magic (x v : Z) : state -> state :=
  upd x (fun i => mk_item v (pool_ptr i) (next i) (prev i) (next_free i) (prev_free i)).
Definition set_pool_ptr (x v : Z) : state -> state :=
  upd x (fun i => mk_item (magic i) v (next i) (prev i) (next_free i) (prev_free i)).
Definition set_next (x v : Z) : state -> state :=
  upd x (fun i => mk_item (magic i) (pool_ptr i) v (prev i) (next_free i) (prev_free i)).
Definition set_prev (x v : Z) : state -> state :=
  upd x (fun i => mk_item (magic i) (pool_ptr i) (next i) v (next_free i) (prev_free i)).
Definition set_next_free (x v : Z) : state -> state :=
  upd x (fun i => mk_item (magic i) (pool_ptr i) (next i) (prev i) v (prev_free i)).
Definition set_prev_free (x v : Z) : state -> state :=
  upd x (fun i => mk_item (magic i) (pool_ptr i) (next i) (prev i) (next_free i) v).

End Stores.

(** *** Descriptor loads and stores *)

Definition hget (s : state) (hp : Z) : rt_memheap :=
  match heaps s !! hp with Some h => h | None => heap0 end.

Definition hupd (hp : Z) (f : rt_memheap -> rt_memheap) (s : state) : state :=
  {| heaps := <[hp := f (hget s hp)]> (heaps s);
     registry := registry s;
     items := items s;
     bytes := bytes s;
     errno := errno s |}.

Definition set_start_addr (hp v : Z) : state -> state :=
  hupd hp (fun h => mk_heap v (pool_size h) (available_size h) (max_used_size h)
                            (block_list h) (free_list h) (lock h)).
Definition set_pool_size (hp v : Z) : state -> state :=
  hupd hp (fun h => mk_heap (start_addr h) v (available_size h) (max_used_size h)
                            (block_list h) (free_list h) (lock h)).
Definition set_available_size (hp v : Z) : state -> state :=
  hupd hp (fun h => mk_heap (start_addr h) (pool_size h) v (max_used_size h)
                            (block_list h) (free_list h) (lock h)).
Definition set_max_used_size (hp v : Z) : state -> state :=
  hupd hp (fun h => mk_heap (start_addr h) (pool_size h) (available_size h) v
                            (block_list h) (free_list h) (lock h)).
Definition set_block_list (hp v : Z) : state -> state :=
  hupd hp (fun h => mk_heap (start_addr h) (pool_size h) (available_size h) (max_used_size h)
                            v (free_list h) (lock h)).
Definition set_free_list (hp v : Z) : state -> state :=
  hupd hp (fun h => mk_heap (start_addr h) (pool_size h) (available_size h) (max_used_size h)
                            (block_list h) v (lock h)).
Definition set_lock (hp v : Z) : state -> state :=
  hupd hp (fun h => mk_heap (start_addr h) (pool_size h) (available_size h) (max_used_size h)
                            (block_list h) (free_list h) v).

Definition set_errno (v : Z) (s : state) : state :=
  {| heaps := heaps s; registry := registry s; items := items s;
     bytes := bytes s; errno := v |}.

(** *** Kernel services used by memheap.c *)

(** Modelled from the spec: the object registry and the semaphore are
    external collaborators.  [rt_object_init] puts the descriptor at the head
    of the MemHeap object list; the lock is a counting semaphore created with
    count 1; a take on a zero count yields an error code, which is the only
    way the sequential model can continue. *)
Definition rt_object_init (hp : Z) (s : state) : state :=
  {| heaps := <[hp := hget s hp]> (heaps s);
     registry := hp :: registry s;
     items := items s;
     bytes := bytes s;
     errno := errno s |}.

Definition is_memheap (s : state) (hp : Z) : bool :=
  match heaps s !! hp with Some _ => true | None => false end.

Definition rt_sem_init (hp value : Z) (s : state) : state := set_lock hp value s.

Definition rt_sem_take (hp : Z) (s : state) : Z * state :=
  if 0 <? lock (hget s hp)
  then (RT_EOK, set_lock hp (lock (hget s hp) - 1) s)
  else (- RT_ERROR, s).

Definition rt_sem_release (hp : Z) (s : state) : state :=
  set_lock hp (lock (hget s hp) + 1) s.

Definition rt_set_errno (e : Z) (s : state) : state := set_errno e s.

(** Modelled from the spec: [rt_memcpy] is a kernel service; it copies [n]
    bytes from [src] to [dst].  The copy is made on the byte store: a realloc
    that moves a block copies the old payload into the payload of the block
    it has just been given. *)
Definition rt_memcpy (dst src n : Z) (s : state) : state :=
  {| heaps := heaps s; registry := registry s; items := items s;
     bytes := fun a => if (dst <=? a) && (a <? dst + n)
                       then bytes s (src + (a - dst)) else bytes s a;
     errno := errno s |}.

(** ** The allocator *)

Section Memheap.
Context `{Target}.

Definition MEMITEM_SIZE (s : state) (item : Z) : Z :=
  wrap (wrap (next (items s item) - item) - RT_MEMHEAP_SIZE).

Definition MEMITEM (ptr : Z) : Z := wrap (ptr - RT_MEMHEAP_SIZE).

Definition RT_MEMHEAP_IS_USED (s : state) (i : Z) : bool :=
  negb (Z.land (magic (items s i)) RT_MEMHEAP_USED =? 0).

(** Address of [&(memheap->free_header)]. *)
Definition free_header_of (memheap : Z) : Z := wrap (memheap + free_header_offset).

(** *** Statement groups that memheap.c repeats inline

    Each group is the sequence of C statements quoted above it, executed in
    order on the current state. *)

(** [x->next_free->prev_free = x->prev_free;
     x->prev_free->next_free = x->next_free;] *)
Definition list_remove_free (x : Z) (s : state) : state :=
  let s := set_prev_free (next_free (items s x)) (prev_free (items s x)) s in
  set_next_free (prev_free (items s x)) (next_free (items s x)) s.

(** [x->next_free = heap->free_list->next_free;
     x->prev_free = heap->free_list;
     heap->free_list->next_free->prev_free = x;
     heap->free_list->next_free            = x;] *)
Definition list_insert_free (heap x : Z) (s : state) : state :=
  let s := set_next_free x (next_free (items s (free_list (hget s heap)))) s in
  let s := set_prev_free x (free_list (hget s heap)) s in
  let s := set_prev_free (next_free (items s (free_list (hget s heap)))) x s in
  set_next_free (free_list (hget s heap)) x s.

(** "break down the block list":
    [new_ptr->prev = header_ptr;
     new_ptr->next = header_ptr->next;
     header_ptr->next->prev = new_ptr;
     header_ptr->next       = new_ptr;] *)
Definition block_split (header_ptr new_ptr : Z) (s : state) : state :=
  let s := set_prev new_ptr header_ptr s in
  let s := set_next new_ptr (next (items s header_ptr)) s in
  let s := set_prev (next (items s header_ptr)) new_ptr s in
  set_next header_ptr new_ptr s.

(** [x->next->prev = x->prev;
     x->prev->next = x->next;] *)
Definition block_unlink (x : Z) (s : state) : state :=
  let s := set_prev (next (items s x)) (prev (items s x)) s in
  set_next (prev (items s x)) (next (items s x)) s.

(** [if (heap->pool_size - heap->available_size > heap->max_used_size)
       heap->max_used_size = heap->pool_size - heap->available_size;] *)
Definition update_max_used (heap : Z) (s : state) : state :=
  if max_used_size (hget s heap) <?
     wrap (pool_size (hget s heap) - available_size (hget s heap))
  then set_max_used_size heap
         (wrap (pool_size (hget s heap) - available_size (hget s heap))) s
  else s.

(** *** rt_memheap_init *)

(** The descriptor fields set at the top of [rt_memheap_init]. *)
Definition init_pool (memheap start_addr size : Z) (s : state) : state :=
  let s := set_start_addr memheap start_addr s in
  let s := set_pool_size memheap (RT_ALIGN_DOWN size RT_ALIGN_SIZE) s in
  let s := set_available_size memheap
             (wrap (pool_size (hget s memheap) - wrap (2 * RT_MEMHEAP_SIZE))) s in
  set_max_used_size memheap
    (wrap (pool_size (hget s memheap) - available_size (hget s memheap))) s.

(** "initialize the free list header" and "set the free list to free list
    header". *)
Definition init_free_header (memheap : Z) (s : state) : state :=
  let item := free_header_of memheap in
  let s := set_magic item (Z.lor RT_MEMHEAP_MAGIC RT_MEMHEAP_FREED) s in
  let s := set_pool_ptr item memheap s in
  let s := set_next item RT_NULL s in
  let s := set_prev item RT_NULL s in
  let s := set_next_free item item s in
  let s := set_prev_free item item s in
  (* set the free list to free list header *)
  set_free_list memheap item s.

(** "initialize the first big memory block" and "block list header". *)
Definition init_first_block (memheap start_addr : Z) (s : state) : state :=
  let item := start_addr in
  let s := set_magic item (Z.lor RT_MEMHEAP_MAGIC RT_MEMHEAP_FREED) s in
  let s := set_pool_ptr item memheap s in
  let s := set_next item RT_NULL s in
  let s := set_prev item RT_NULL s in
  let s := set_next_free item item s in
  let s := set_prev_free item item s in
  let s := set_next item
             (wrap (wrap (item + available_size (hget s memheap)) + RT_MEMHEAP_SIZE)) s in
  let s := set_prev item (next (items s item)) s in
  (* block list header *)
  set_block_list memheap item s.

(** "move to the end of memory pool to build a small tailer block"; [item]
    is [item->next] of the first block. *)
Definition init_tailer (memheap start_addr item : Z) (s : state) : state :=
  (* it's a used memory block *)
  let s := set_magic item (Z.lor RT_MEMHEAP_MAGIC RT_MEMHEAP_USED) s in
  let s := set_pool_ptr item memheap s in
  let s := set_next item start_addr s in
  let s := set_prev item start_addr s in
  (* not in free list *)
  let s := set_prev_free item RT_NULL s in
  set_next_free item RT_NULL s.

Definition rt_memheap_init (memheap start_addr size : Z) (s : state) : option state :=
  if memheap =? RT_NULL then None else          (* RT_ASSERT(memheap != RT_NULL) *)
  (* initialize pool object *)
  let s := rt_object_init memheap s in
  let s := init_pool memheap start_addr size s in
  let s := init_free_header memheap s in
  let s := init_first_block memheap start_addr s in
  (* place the big memory block to free list *)
  let s := list_insert_free memheap start_addr s in
  let s := init_tailer memheap start_addr (next (items s start_addr)) s in
  (* initialize semaphore lock *)
  let s := rt_sem_init memheap 1 s in
  Some s.

(** *** rt_memheap_detach *)

(** Modelled from the spec: [rt_sem_detach] and [rt_object_detach] are kernel
    services; detaching takes the descriptor off the MemHeap object list.  The
    pool region is left as it is. *)
Definition rt_object_detach (hp : Z) (s : state) : state :=
  {| heaps := delete hp (heaps s);
     registry := filter (fun x => x <> hp) (registry s);
     items := items s;
     bytes := bytes s;
     errno := errno s |}.

Definition rt_sem_detach (hp : Z) (s : state) : state := set_lock hp 0 s.

Definition rt_memheap_detach (heap : Z) (s : state) : option (Z * state) :=
  if heap =? RT_NULL then None else             (* RT_ASSERT(heap) *)
  if negb (is_memheap s heap) then None else    (* RT_ASSERT(object type) *)
  let s := rt_sem_detach heap s in
  let s := rt_object_detach heap s in
  (* Return a successful completion. *)
  Some (RT_EOK, s).

(** *** rt_memheap_alloc *)

(** The first-fit loop
    [while (header_ptr != heap->free_list && free_size < size)].  One unit of
    fuel is one evaluation of the loop condition; [None] is a walk that has not
    left the loop when the fuel is spent. *)
Fixpoint alloc_search (s : state) (heap size : Z) (fuel : nat)
    (header_ptr free_size : Z) : option (Z * Z) :=
  match fuel with
  | O => None
  | S fuel =>
    if negb (header_ptr =? free_list (hget s heap)) && (free_size <? size) then
      (* get current freed memory block size *)
      let free_size := MEMITEM_SIZE s header_ptr in
      if free_size <? size then
        (* move to next free memory block *)
        alloc_search s heap size fuel (next_free (items s header_ptr)) free_size
      else alloc_search s heap size fuel header_ptr free_size
    else Some (header_ptr, free_size)
  end.

(** In a pool of [pool_size] bytes the free list has fewer than [pool_size]
    nodes, which bounds the walk. *)
Definition search_fuel (s : state) (heap : Z) : nat :=
  S (Z.to_nat (pool_size (hget s heap))).

(** The branch of [rt_memheap_alloc] that splits the block found. *)
Definition alloc_split (heap header_ptr size : Z) (s : state) : state :=
  (* split the block. *)
  let new_ptr := wrap (wrap (header_ptr + size) + RT_MEMHEAP_SIZE) in
  (* mark the new block as a memory block and freed. *)
  let s := set_magic new_ptr (Z.lor RT_MEMHEAP_MAGIC RT_MEMHEAP_FREED) s in
  (* put the pool pointer into the new block. *)
  let s := set_pool_ptr new_ptr heap s in
  (* break down the block list *)
  let s := block_split header_ptr new_ptr s in
  (* remove header ptr from free list *)
  let s := list_remove_free header_ptr s in
  let s := set_next_free header_ptr RT_NULL s in
  let s := set_prev_free header_ptr RT_NULL s in
  (* insert new_ptr to free list *)
  let s := list_insert_free heap new_ptr s in
  (* decrement the available byte count. *)
  let s := set_available_size heap
             (wrap (wrap (available_size (hget s heap) - size) - RT_MEMHEAP_SIZE)) s in
  update_max_used heap s.

(** The branch that hands out the whole block. *)
Definition alloc_whole (heap header_ptr free_size : Z) (s : state) : state :=
  (* decrement the entire free size from the available bytes count. *)
  let s := set_available_size heap
             (wrap (available_size (hget s heap) - free_size)) s in
  let s := update_max_used heap s in
  (* remove header_ptr from free list *)
  let s := list_remove_free header_ptr s in
  let s := set_next_free header_ptr RT_NULL s in
  set_prev_free header_ptr RT_NULL s.

Definition rt_memheap_alloc (heap size : Z) (s : state) : option (Z * state) :=
  if heap =? RT_NULL then None else             (* RT_ASSERT(heap != RT_NULL) *)
  if negb (is_memheap s heap) then None else    (* RT_ASSERT(object type) *)
  (* align allocated size *)
  let size := RT_ALIGN size RT_ALIGN_SIZE in
  let size := if size <? RT_MEMHEAP_MINIALLOC then RT_MEMHEAP_MINIALLOC else size in
  if size <? available_size (hget s heap) then
    (* search on free list *)
    let free_size := 0 in
    (* lock memheap *)
    let (result, s) := rt_sem_take heap s in
    if negb (result =? RT_EOK) then Some (RT_NULL, rt_set_errno result s) else
    (* get the first free memory block *)
    let header_ptr := next_free (items s (free_list (hget s heap))) in
    match alloc_search s heap size (search_fuel s heap) header_ptr free_size with
    | None => None
    | Some (header_ptr, free_size) =>
      (* determine if the memory is available. *)
      if size <=? free_size then
        (* a block that satisfies the request has been found. *)
        let s :=
          (* determine if the block needs to be split. *)
          if wrap (wrap (size + RT_MEMHEAP_SIZE) + RT_MEMHEAP_MINIALLOC) <=? free_size
          then alloc_split heap header_ptr size s
          else alloc_whole heap header_ptr free_size s in
        (* Mark the allocated block as not available. *)
        let s := set_magic header_ptr (Z.lor RT_MEMHEAP_MAGIC RT_MEMHEAP_USED) s in
        (* release lock *)
        let s := rt_sem_release heap s in
        (* Return a memory address to the caller. *)
        Some (wrap (header_ptr + RT_MEMHEAP_SIZE), s)
      else
        (* release lock *)
        let s := rt_sem_release heap s in
        Some (RT_NULL, s)
    end
  else
    (* Return the completion status. *)
    Some (RT_NULL, s).

(** *** rt_memheap_free *)

(** [header_ptr->magic = (RT_MEMHEAP_MAGIC | RT_MEMHEAP_FREED);
     heap->available_size += MEMITEM_SIZE(header_ptr);] *)
Definition free_mark (heap header_ptr : Z) (s : state) : state :=
  (* Mark the memory as available. *)
  let s := set_magic header_ptr (Z.lor RT_MEMHEAP_MAGIC RT_MEMHEAP_FREED) s in
  (* Adjust the available number of bytes. *)
  set_available_size heap
    (wrap (available_size (hget s heap) + MEMITEM_SIZE s header_ptr)) s.

(** The merge with the previous neighbor; yields the header to go on with
    and [insert_header]. *)
Definition merge_prev (heap header_ptr : Z) (s : state) : Z * bool * state :=
  (* Determine if the block can be merged with the previous neighbor. *)
  if negb (RT_MEMHEAP_IS_USED s (prev (items s header_ptr))) then
    (* adjust the available number of bytes. *)
    let s := set_available_size heap
               (wrap (available_size (hget s heap) + RT_MEMHEAP_SIZE)) s in
    (* yes, merge block with previous neighbor. *)
    let s := set_next (prev (items s header_ptr)) (next (items s header_ptr)) s in
    let s := set_prev (next (items s header_ptr)) (prev (items s header_ptr)) s in
    (* move header pointer to previous; don't insert header to free list *)
    (prev (items s header_ptr), false, s)
  else (header_ptr, true, s).

(** The merge with the next neighbor. *)
Definition merge_next (heap header_ptr : Z) (s : state) : state :=
  (* determine if the block can be merged with the next neighbor. *)
  if negb (RT_MEMHEAP_IS_USED s (next (items s header_ptr))) then
    (* adjust the available number of bytes. *)
    let s := set_available_size heap
               (wrap (available_size (hget s heap) + RT_MEMHEAP_SIZE)) s in
    (* merge block with next neighbor. *)
    let new_ptr := next (items s header_ptr) in
    let s := set_prev (next (items s new_ptr)) header_ptr s in
    let s := set_next header_ptr (next (items s new_ptr)) s in
    (* remove new ptr from free list *)
    list_remove_free new_ptr s
  else s.

Definition rt_memheap_free (ptr : Z) (s : state) : option state :=
  (* NULL check *)
  if ptr =? RT_NULL then Some s else
  (* set initial status as OK *)
  let header_ptr := wrap (ptr - RT_MEMHEAP_SIZE) in
  (* check magic *)
  if negb (magic (items s header_ptr) =? Z.lor RT_MEMHEAP_MAGIC RT_MEMHEAP_USED)
  then None else                                 (* RT_ASSERT *)
  (* check whether this block of memory has been over-written. *)
  if negb (Z.land (magic (items s (next (items s header_ptr)))) RT_MEMHEAP_MASK
           =? RT_MEMHEAP_MAGIC)
  then None else                                 (* RT_ASSERT *)
  (* get pool ptr *)
  let heap := pool_ptr (items s header_ptr) in
  if heap =? RT_NULL then None else              (* RT_ASSERT(heap) *)
  if negb (is_memheap s heap) then None else     (* RT_ASSERT(object type) *)
  (* lock memheap *)
  let (result, s) := rt_sem_take heap s in
  if negb (result =? RT_EOK) then Some (rt_set_errno result s) else
  let s := free_mark heap header_ptr s in
  let '(header_ptr, insert_header, s) := merge_prev heap header_ptr s in
  let s := merge_next heap header_ptr s in
  let s :=
    if (insert_header : bool)
    then (* no left merge, insert to free list *)
         list_insert_free heap header_ptr s
    else s in
  (* release lock *)
  Some (rt_sem_release heap s).

(** *** rt_memheap_realloc *)

(** The in-place expansion into the free neighbor [next_ptr]. *)
Definition realloc_expand (heap ptr header_ptr next_ptr newsize oldsize : Z)
    (s : state) : state :=
  (* decrement the entire free size from the available bytes count. *)
  let s := set_available_size heap
             (wrap (available_size (hget s heap) - wrap (newsize - oldsize))) s in
  let s := update_max_used heap s in
  (* remove next_ptr from free list *)
  let s := list_remove_free next_ptr s in
  let s := block_unlink next_ptr s in
  (* build a new one on the right place *)
  let next_ptr := wrap (ptr + newsize) in
  (* mark the new block as a memory block and freed. *)
  let s := set_magic next_ptr (Z.lor RT_MEMHEAP_MAGIC RT_MEMHEAP_FREED) s in
  (* put the pool pointer into the new block. *)
  let s := set_pool_ptr next_ptr heap s in
  let s := block_split header_ptr next_ptr s in
  (* insert next_ptr to free list *)
  list_insert_free heap next_ptr s.

(** The merge of the block split off by a shrink with its next neighbor. *)
Definition shrink_merge (heap new_ptr : Z) (s : state) : state :=
  (* determine if the block can be merged with the next neighbor. *)
  if negb (RT_MEMHEAP_IS_USED s (next (items s new_ptr))) then
    (* merge block with next neighbor. *)
    let free_ptr := next (items s new_ptr) in
    let s := set_available_size heap
               (wrap (available_size (hget s heap) - MEMITEM_SIZE s free_ptr)) s in
    let s := set_prev (next (items s free_ptr)) new_ptr s in
    let s := set_next new_ptr (next (items s free_ptr)) s in
    (* remove free ptr from free list *)
    list_remove_free free_ptr s
  else s.

(** The split of a block that is shrunk. *)
Definition realloc_shrink (heap header_ptr newsize : Z) (s : state) : state :=
  (* split the block. *)
  let new_ptr := wrap (wrap (header_ptr + newsize) + RT_MEMHEAP_SIZE) in
  (* mark the new block as a memory block and freed. *)
  let s := set_magic new_ptr (Z.lor RT_MEMHEAP_MAGIC RT_MEMHEAP_FREED) s in
  (* put the pool pointer into the new block. *)
  let s := set_pool_ptr new_ptr heap s in
  (* break down the block list *)
  let s := block_split header_ptr new_ptr s in
  let s := shrink_merge heap new_ptr s in
  (* insert the split block to free list *)
  let s := list_insert_free heap new_ptr s in
  (* increment the available byte count. *)
  set_available_size heap
    (wrap (available_size (hget s heap) + MEMITEM_SIZE s new_ptr)) s.

Definition rt_memheap_realloc (heap ptr newsize : Z) (s : state) : option (Z * state) :=
  if heap =? RT_NULL then None else             (* RT_ASSERT(heap) *)
  if negb (is_memheap s heap) then None else    (* RT_ASSERT(object type) *)
  if newsize =? 0 then
    match rt_memheap_free ptr s with
    | None => None
    | Some s => Some (RT_NULL, s)
    end
  else
  (* align allocated size *)
  let newsize := RT_ALIGN newsize RT_ALIGN_SIZE in
  let newsize := if newsize <? RT_MEMHEAP_MINIALLOC then RT_MEMHEAP_MINIALLOC else newsize in
  if ptr =? RT_NULL then rt_memheap_alloc heap newsize s else
  (* get memory block header and get the size of memory block *)
  let header_ptr := wrap (ptr - RT_MEMHEAP_SIZE) in
  let oldsize := MEMITEM_SIZE s header_ptr in
  (* re-allocate memory *)
  if oldsize <? newsize then
    (* lock memheap *)
    let (result, s) := rt_sem_take heap s in
    if negb (result =? RT_EOK) then Some (RT_NULL, rt_set_errno result s) else
    let next_ptr := next (items s header_ptr) in
    (* header_ptr should not be the tail *)
    if negb (header_ptr <? next_ptr) then None else    (* RT_ASSERT *)
    (* check whether the following free space is enough to expand *)
    if negb (RT_MEMHEAP_IS_USED s next_ptr)
       && (wrap (newsize + RT_MEMHEAP_MINIALLOC)
           <? wrap (MEMITEM_SIZE s next_ptr + oldsize))
    then
      let s := realloc_expand heap ptr header_ptr next_ptr newsize oldsize s in
      (* release lock *)
      let s := rt_sem_release heap s in
      Some (ptr, s)
    else
      (* release lock *)
      let s := rt_sem_release heap s in
      (* re-allocate a memory block *)
      match rt_memheap_alloc heap newsize s with
      | None => None
      | Some (new_ptr, s) =>
        if negb (new_ptr =? RT_NULL) then
          let s := rt_memcpy new_ptr ptr
                     (if oldsize <? newsize then oldsize else newsize) s in
          match rt_memheap_free ptr s with
          | None => None
          | Some s => Some (new_ptr, s)
          end
        else Some (new_ptr, s)
      end
  else
  (* don't split when there is less than one node space left *)
  if oldsize <=? wrap (wrap (newsize + RT_MEMHEAP_SIZE) + RT_MEMHEAP_MINIALLOC)
  then Some (ptr, s) else
  (* lock memheap *)
  let (result, s) := rt_sem_take heap s in
  if negb (result =? RT_EOK) then Some (RT_NULL, rt_set_errno result s) else
  let s := realloc_shrink heap header_ptr newsize s in
  (* release lock *)
  let s := rt_sem_release heap s in
  (* return the old memory block *)
  Some (ptr, s).

(** *** rt_memheap_dump (RT_USING_FINSH) *)

(** What one round of the loop prints: whether the address goes out a first
    time on its own (a used block whose magic word is damaged), the address
    [item + 1], which is the header's address plus the size of the
    structure, the size [MEMITEM_SIZE(item)], and whether the line carries
    the owner tag (a used block) or the marker [<F>]. *)
Record dump_line := mk_dump_line {
  dump_damaged : bool;
  dump_addr : Z;
  dump_size : Z;
  dump_used : bool
}.

(** The loop [while ((rt_ubase_t)item < (rt_ubase_t)end)] with one unit of
    fuel per test of the condition. *)
Fixpoint dump_walk (s : state) (end_ : Z) (fuel : nat) (item : Z)
    : option (list dump_line) :=
  match fuel with
  | O => None
  | S fuel =>
    if item <? end_ then
      match dump_walk s end_ fuel (next (items s item)) with
      | None => None
      | Some ls =>
        Some (mk_dump_line
                (RT_MEMHEAP_IS_USED s item
                 && negb (Z.land (magic (items s item)) RT_MEMHEAP_MASK
                          =? RT_MEMHEAP_MAGIC))
                (wrap (item + sizeof_item)) (MEMITEM_SIZE s item)
                (magic (items s item) =? Z.lor RT_MEMHEAP_MAGIC RT_MEMHEAP_USED)
              :: ls)
      end
    else Some []
  end.

(** The lines printed for the blocks; the lock is taken and released around
    the walk without a test of the result. *)
Definition rt_memheap_dump (heap : Z) (s : state) : option (list dump_line * state) :=
  if heap =? RT_NULL then Some ([], s) else
  if negb (is_memheap s heap) then None else    (* RT_ASSERT(object type) *)
  (* lock memheap *)
  let (_, s) := rt_sem_take heap s in
  let item := block_list (hget s heap) in
  let end_ := wrap (wrap (start_addr (hget s heap) + pool_size (hget s heap))
                    - RT_MEMHEAP_SIZE) in
  match dump_walk s end_ (search_fuel s heap) item with
  | None => None
  | Some ls => Some (ls, rt_sem_release heap s)
  end.

(** *** The system-heap facade (RT_USING_MEMHEAP_AS_HEAP) *)

Definition rt_system_heap_init (begin_addr end_addr : Z) (s : state) : option state :=
  (* initialize a default heap in the system *)
  rt_memheap_init sys_heap begin_addr (wrap (wrap end_addr - wrap begin_addr)) s.

(** The loop of [rt_malloc] over the MemHeap object list, skipping the
    default heap and stopping at the first success. *)
Fixpoint rt_malloc_others (nodes : list Z) (size : Z) (s : state)
    : option (Z * state) :=
  match nodes with
  | [] => Some (RT_NULL, s)
  | heap :: nodes =>
    if heap =? RT_NULL then None else           (* RT_ASSERT(heap) *)
    if negb (is_memheap s heap) then None else  (* RT_ASSERT(object type) *)
    (* not allocate in the default system heap *)
    if heap =? sys_heap then rt_malloc_others nodes size s else
    match rt_memheap_alloc heap size s with
    | None => None
    | Some (ptr, s) =>
      if negb (ptr =? RT_NULL) then Some (ptr, s)
      else rt_malloc_others nodes size s
    end
  end.

Definition rt_malloc (size : Z) (s : state) : option (Z * state) :=
  (* try to allocate in system heap *)
  match rt_memheap_alloc sys_heap size s with
  | None => None
  | Some (ptr, s) =>
    if ptr =? RT_NULL then
      (* try to allocate on other memory heap *)
      rt_malloc_others (registry s) size s
    else Some (ptr, s)
  end.

Definition rt_free (rmem : Z) (s : state) : option state := rt_memheap_free rmem s.

Definition rt_realloc (rmem newsize : Z) (s : state) : option (Z * state) :=
  if rmem =? RT_NULL then rt_malloc newsize s else
  if newsize =? 0 then
    match rt_free rmem s with
    | None => None
    | Some s => Some (RT_NULL, s)
    end
  else
  (* get old memory item *)
  let header_ptr := wrap (rmem - RT_MEMHEAP_SIZE) in
  match rt_memheap_realloc (pool_ptr (items s header_ptr)) rmem newsize s with
  | None => None
  | Some (new_ptr, s) =>
    if (new_ptr =? RT_NULL) && negb (newsize =? 0) then
      (* allocate memory block from other memheap *)
      match rt_malloc newsize s with
      | None => None
      | Some (new_ptr, s) =>
        if negb (new_ptr =? RT_NULL) && negb (rmem =? RT_NULL) then
          (* get the size of old memory block *)
          let oldsize := MEMITEM_SIZE s header_ptr in
          let s := if oldsize <? newsize
                   then rt_memcpy new_ptr rmem oldsize s
                   else rt_memcpy new_ptr rmem newsize s in
          match rt_free rmem s with
          | None => None
          | Some s => Some (new_ptr, s)
          end
        else Some (new_ptr, s)
      end
    else Some (new_ptr, s)
  end.

(** Modelled from the spec: [rt_memset] is a kernel service; it stores the
    byte [c] at the [n] addresses from [dst] on.  The model follows a fill
    that ends at or before the header behind the block in whose payload
    [dst] stands: such a fill changes payload bytes and nothing else.  A
    longer fill runs over the headers that follow (the next block's, the
    tailer's) and, for a length near 2^32, over the end of the address
    space; what it leaves there is a matter of the layout of the memory, and
    the call has no result in the model. *)
Definition rt_memset (dst c n : Z) (s : state) : option state :=
  if dst + n <=? next (items s (MEMITEM dst)) then
    Some {| heaps := heaps s; registry := registry s; items := items s;
            bytes := fun a => if (dst <=? a) && (a <? dst + n)
                              then Some (c mod 256) else bytes s a;
            errno := errno s |}
  else None.

Definition rt_calloc (count size : Z) (s : state) : option (Z * state) :=
  let total_size := wrap (count * size) in
  match rt_malloc total_size s with
  | None => None
  | Some (ptr, s) =>
    if negb (ptr =? RT_NULL) then
      (* clean memory *)
      match rt_memset ptr 0 total_size s with
      | None => None
      | Some s => Some (ptr, s)
      end
    else Some (ptr, s)
  end.


End Memheap.

(** ** Two concrete targets *)

(** A 32-bit build: six 4-byte header fields, 4-byte alignment. *)
Definition target32 : Target :=
  {| RT_ALIGN_SIZE := 4; sizeof_item := 24; free_header_offset := 48; sys_heap := 0x100 |}.

(** The constants of the spec's scenarios: H = 12, A = 4. *)
Definition target_spec : Target :=
  {| RT_ALIGN_SIZE := 4; sizeof_item := 12; free_header_offset := 48; sys_heap := 0x100 |}.

Definition state0 : state :=
  {| heaps := ∅; registry := []; items := fun _ => item0;
     bytes := fun a => Some (a mod 256); errno := 0 |}.

(** ** Specification vocabulary *)

(** Requirements on the build constants: a power-of-two alignment and a
    header that holds its six fields. *)
Record target_ok `{Target} : Prop := {
  align_pos : 0 < RT_ALIGN_SIZE;
  align_pow2 : RT_ALIGN_SIZE = 2 ^ Z.log2 RT_ALIGN_SIZE;
  align_small : RT_ALIGN_SIZE <= 2 ^ 16;
  item_lo : RT_MEMHEAP_MINIALLOC <= sizeof_item;
  item_hi : sizeof_item <= 2 ^ 16;
  offset_lo : 0 <= free_header_offset
}.

Section Vocabulary.
Context `{Target}.

(** The request as adjusted at the top of [rt_memheap_alloc] and
    [rt_memheap_realloc]. *)
Definition normalized (size : Z) : Z :=
  let size := RT_ALIGN size RT_ALIGN_SIZE in
  if size <? RT_MEMHEAP_MINIALLOC then RT_MEMHEAP_MINIALLOC else size.

Definition is_free (s : state) (a : Z) : Prop :=
  magic (items s a) = RT_MEMHEAP_MAGIC.
Definition is_used (s : state) (a : Z) : Prop :=
  magic (items s a) = Z.lor RT_MEMHEAP_MAGIC RT_MEMHEAP_USED.

(** Payload size of the block at [a], as an integer. *)
Definition payload (s : state) (a : Z) : Z := next (items s a) - a - RT_MEMHEAP_SIZE.

(** [seg f g a l z]: following [f] from [a] visits the nodes of [l] in order
    and then reaches [z], and [g] leads back along the same path. *)
Fixpoint seg (f g : Z -> Z) (a : Z) (l : list Z) (z : Z) : Prop :=
  match l with
  | [] => f a = z /\ g z = a
  | b :: l' => f a = b /\ g b = a /\ seg f g b l' z
  end.

(** The last node of the path [a :: l]. *)
Fixpoint last_of (a : Z) (l : list Z) : Z :=
  match l with
  | [] => a
  | b :: l' => last_of b l'
  end.

(** [chain R l]: [R] holds between each element of [l] and its successor. *)
Fixpoint chain (R : Z -> Z -> Prop) (l : list Z) : Prop :=
  match l with
  | a :: l' => match l' with [] => True | b :: _ => R a b end /\ chain R l'
  | [] => True
  end.

Definition sumf (w : Z -> Z) (l : list Z) : Z :=
  fold_right (fun a acc => w a + acc) 0 l.

(** The shape of the physical list: the blocks [bs] from [st] up to the
    tailer [T], at least a header apart, linked in both directions through
    the tailer. *)
Record phys_ok (d st T : Z) (bs : list Z) (nx pv : Z -> Z) : Prop := {
  po_first : hd_error bs = Some st;
  po_gapped : chain (fun a b => a + d <= b) (bs ++ [T]);
  po_seg : seg nx pv T bs T
}.

Definition sum_payload (s : state) (l : list Z) : Z :=
  fold_right (fun a acc => payload s a + acc) 0 l.

(** Address of the tailer sentinel of a pool. *)
Definition tailer (h : rt_memheap) : Z := start_addr h + pool_size h - RT_MEMHEAP_SIZE.

(** The pool invariant between operations.  [bs] lists the headers of the
    physical blocks before the tailer in address order, [fl] the free list in
    list order. *)
Record heap_inv (heap : Z) (bs fl : list Z) (s : state) : Prop := {
  inv_nonnull : heap <> RT_NULL;
  inv_is_heap : is_memheap s heap = true;
  inv_lock : lock (hget s heap) = 1;
  inv_block_list : block_list (hget s heap) = start_addr (hget s heap);
  inv_first : hd_error bs = Some (start_addr (hget s heap));
  inv_region : 0 < start_addr (hget s heap) /\
               start_addr (hget s heap) + pool_size (hget s heap) <= wB;
  inv_sentinel : 0 <= free_list (hget s heap) < wB /\
                 (free_list (hget s heap) + RT_MEMHEAP_SIZE <= start_addr (hget s heap) \/
                  start_addr (hget s heap) + pool_size (hget s heap)
                    <= free_list (hget s heap));
  inv_gapped : chain (fun a b => a + RT_MEMHEAP_SIZE <= b) (bs ++ [tailer (hget s heap)]);
  inv_phys : seg (fun a => next (items s a)) (fun a => prev (items s a))
                 (tailer (hget s heap)) bs (tailer (hget s heap));
  inv_magic : forall a, In a bs -> is_free s a \/ is_used s a;
  inv_tailer : is_used s (tailer (hget s heap));
  inv_pool : forall a, In a bs -> pool_ptr (items s a) = heap;
  inv_fl : forall a, In a fl <-> In a bs /\ is_free s a;
  inv_fl_nodup : List.NoDup fl;
  inv_free : seg (fun a => next_free (items s a)) (fun a => prev_free (items s a))
                 (free_list (hget s heap)) fl (free_list (hget s heap));
  inv_coalesced : chain (fun a b => ~ (is_free s a /\ is_free s b)) bs;
  inv_avail : available_size (hget s heap) = sum_payload s fl;
  inv_max_used : pool_size (hget s heap) - available_size (hget s heap)
                 <= max_used_size (hget s heap) < wB;
  inv_align : RT_MEMHEAP_MINIALLOC mod RT_ALIGN_SIZE = 0 ->
              forall a, In a bs -> (a - start_addr (hget s heap)) mod RT_ALIGN_SIZE = 0
}.

(** The invariant as a check that can be run on a given state. *)
Fixpoint seg_b (f g : Z -> Z) (a : Z) (l : list Z) (z : Z) : bool :=
  match l with
  | [] => (f a =? z) && (g z =? a)
  | b :: l' => (f a =? b) && (g b =? a) && seg_b f g b l' z
  end.

Fixpoint chain_b (R : Z -> Z -> bool) (l : list Z) : bool :=
  match l with
  | a :: l' => match l' with [] => true | b :: _ => R a b end && chain_b R l'
  | [] => true
  end.

Definition mem_b (a : Z) (l : list Z) : bool := existsb (Z.eqb a) l.

Fixpoint nodup_b (l : list Z) : bool :=
  match l with
  | [] => true
  | a :: l' => negb (mem_b a l') && nodup_b l'
  end.

Definition free_b (s : state) (a : Z) : bool :=
  magic (items s a) =? RT_MEMHEAP_MAGIC.
Definition used_b (s : state) (a : Z) : bool :=
  magic (items s a) =? Z.lor RT_MEMHEAP_MAGIC RT_MEMHEAP_USED.

Definition heap_inv_b (heap : Z) (bs fl : list Z) (s : state) : bool :=
  let h := hget s heap in
  let T := tailer h in
  negb (heap =? RT_NULL) && is_memheap s heap && (lock h =? 1) &&
  (block_list h =? start_addr h) &&
  match bs with a :: _ => a =? start_addr h | [] => false end &&
  (0 <? start_addr h) && (start_addr h + pool_size h <=? wB) &&
  (0 <=? free_list h) && (free_list h <? wB) &&
  ((free_list h + RT_MEMHEAP_SIZE <=? start_addr h) ||
   (start_addr h + pool_size h <=? free_list h)) &&
  chain_b (fun a b => a + RT_MEMHEAP_SIZE <=? b) (bs ++ [T]) &&
  seg_b (fun a => next (items s a)) (fun a => prev (items s a)) T bs T &&
  forallb (fun a => free_b s a || used_b s a) bs &&
  used_b s T &&
  forallb (fun a => pool_ptr (items s a) =? heap) bs &&
  forallb (fun a => mem_b a bs && free_b s a) fl &&
  forallb (fun a => negb (free_b s a) || mem_b a fl) bs &&
  nodup_b fl &&
  seg_b (fun a => next_free (items s a)) (fun a => prev_free (items s a))
        (free_list h) fl (free_list h) &&
  chain_b (fun a b => negb (free_b s a && free_b s b)) bs &&
  (available_size h =? sum_payload s fl) &&
  (pool_size h - available_size h <=? max_used_size h) && (max_used_size h <? wB) &&
  (negb (RT_MEMHEAP_MINIALLOC mod RT_ALIGN_SIZE =? 0) ||
   forallb (fun a => (a - start_addr h) mod RT_ALIGN_SIZE =? 0) bs).

(** A payload pointer handed out by the pool and not yet given back. *)
Definition live (bs : list Z) (s : state) (p : Z) : Prop :=
  In (p - RT_MEMHEAP_SIZE) bs /\ is_used s (p - RT_MEMHEAP_SIZE).

(** Walks used to observe a state without reference to the lists above. *)

(** The [n]-th block reached from [block_list] along [next]. *)
Definition nth_block (s : state) (heap : Z) (n : nat) : Z :=
  Nat.iter n (fun a => next (items s a)) (block_list (hget s heap)).

(** The free list as the walk along [next_free] from the sentinel back to
    the sentinel; [None] when the walk does not close within the fuel. *)
Fixpoint free_walk (s : state) (heap : Z) (fuel : nat) (a : Z) : option (list Z) :=
  match fuel with
  | O => None
  | S fuel =>
    if a =? free_list (hget s heap) then Some []
    else match free_walk s heap fuel (next_free (items s a)) with
         | None => None
         | Some l => Some (a :: l)
         end
  end.

Definition free_blocks (s : state) (heap : Z) (fuel : nat) : option (list Z) :=
  free_walk s heap fuel (next_free (items s (free_list (hget s heap)))).

End Vocabulary.

(** ** A client of one pool

    The requests a program makes to one pool.  The program keeps the
    pointers it holds in a list and names them by their position. *)
Inductive request :=
| Alloc (size : Z)
| Free (k : nat)
| Realloc (k : nat) (size : Z).

Section Client.
Context `{Target}.

(** One request served.  A pointer handed out joins the list, a pointer
    given back leaves it, and a pointer resized gives way to the pointer the
    call returns (it stays when the call returns NULL).  A request that
    names no pointer of the list does nothing. *)
Definition serve (heap : Z) (r : request) (c : list Z * state)
    : option (list Z * state) :=
  let '(held, s) := c in
  match r with
  | Alloc size =>
      match rt_memheap_alloc heap size s with
      | None => None
      | Some (p, s') => Some (if p =? RT_NULL then held else p :: held, s')
      end
  | Free k =>
      match held !! k with
      | None => Some (held, s)
      | Some p =>
          match rt_memheap_free p s with
          | None => None
          | Some s' => Some (delete k held, s')
          end
      end
  | Realloc k size =>
      match held !! k with
      | None => Some (held, s)
      | Some p =>
          match rt_memheap_realloc heap p size s with
          | None => None
          | Some (q, s') => Some (if q =? RT_NULL then held else <[k := q]> held, s')
          end
      end
  end.

Fixpoint run (heap : Z) (rs : list request) (c : list Z * state)
    : option (list Z * state) :=
  match rs with
  | [] => Some c
  | r :: rs =>
      match serve heap r c with
      | None => None
      | Some c' => run heap rs c'
      end
  end.

(** The sizes a request may carry: an allocation a word, a resize a word
    other than 0 whose normalized value leaves room for the 12 bytes that
    [rt_memheap_realloc] adds in its grow test. *)
Definition sane (r : request) : Prop :=
  match r with
  | Alloc size => 0 <= size < wB
  | Free _ => True
  | Realloc _ size => 0 < size < wB /\ normalized size + RT_MEMHEAP_MINIALLOC < wB
  end.

(** What holds between the requests: the pool is consistent and the
    pointers of the list are distinct and in use. *)
Definition settled (heap : Z) (held : list Z) (s : state) : Prop :=
  exists bs fl, heap_inv heap bs fl s /\ List.NoDup held /\
                forall p, In p held -> live bs s p.

End Client.

(** Whether a fallible step went through, and the parts of its result. *)
Definition succeeded {A} (o : option A) : bool :=
  match o with Some _ => true | None => false end.

(** Sequencing of fallible steps. *)
Definition bind {A B} (o : option A) (f : A -> option B) : option B :=
  match o with Some a => f a | None => None end.

(** ** Example pools and runs *)

(** A build with 8-byte alignment. *)
Definition target8 : Target :=
  {| RT_ALIGN_SIZE := 8; sizeof_item := 24; free_header_offset := 48; sys_heap := 0x100 |}.

Definition ex_heap : Z := 0x200.
Definition ex_start : Z := 0x1000.

Definition the_state (o : option state) : state :=
  match o with Some s => s | None => state0 end.

(** A 1024-byte pool at 0x1000 on the 32-bit target, and the same pool after
    [rt_memheap_alloc(heap, 100)]. *)
Definition ex32_init : state :=
  the_state (@rt_memheap_init target32 ex_heap ex_start 1024 state0).
Definition ex32_alloc : state :=
  the_state (option_map snd (@rt_memheap_alloc target32 ex_heap 100 ex32_init)).

(** The pool of the spec's scenarios (H = 12). *)
Definition ex_spec_init : option state :=
  @rt_memheap_init target_spec ex_heap ex_start 1024 state0.

(** A run whose second step asks [rt_memheap_realloc] for 0xFFFFFFFC bytes:
    init; p = alloc 100; realloc p 0xFFFFFFFC; alloc 100; y = alloc 100;
    alloc 100; free y; realloc p 244. *)
Definition overflow_run : option state :=
  bind (@rt_memheap_init target32 ex_heap ex_start 1024 state0) (fun s =>
  bind (@rt_memheap_alloc target32 ex_heap 100 s) (fun '(p, s) =>
  bind (@rt_memheap_realloc target32 ex_heap p 0xFFFFFFFC s) (fun '(_, s) =>
  bind (@rt_memheap_alloc target32 ex_heap 100 s) (fun '(_, s) =>
  bind (@rt_memheap_alloc target32 ex_heap 100 s) (fun '(y, s) =>
  bind (@rt_memheap_alloc target32 ex_heap 100 s) (fun '(_, s) =>
  bind (@rt_memheap_free target32 y s) (fun s =>
  bind (@rt_memheap_realloc target32 ex_heap p 244 s) (fun '(_, s) =>
  Some s)))))))).

(** A shorter run with the same second step, ending in a shrink of the
    same block: init; p = alloc 100; realloc p 0xFFFFFFFC; alloc 100;
    alloc 100; realloc p 244. *)
Definition accounting_run : option state :=
  bind (@rt_memheap_init target32 ex_heap ex_start 1024 state0) (fun s =>
  bind (@rt_memheap_alloc target32 ex_heap 100 s) (fun '(p, s) =>
  bind (@rt_memheap_realloc target32 ex_heap p 0xFFFFFFFC s) (fun '(_, s) =>
  bind (@rt_memheap_alloc target32 ex_heap 100 s) (fun '(_, s) =>
  bind (@rt_memheap_alloc target32 ex_heap 100 s) (fun '(_, s) =>
  bind (@rt_memheap_realloc target32 ex_heap p 244 s) (fun '(_, s) =>
  Some s)))))).

(** The 8-byte-aligned pool over the same region. *)
Definition ex8_init : state :=
  the_state (@rt_memheap_init target8 ex_heap ex_start 1024 state0).

(** The system heap of the 32-bit target over the same region. *)
Definition ex32_sys : state :=
  the_state (@rt_system_heap_init target32 ex_start (ex_start + 1024) state0).

(** ** Word arithmetic *)

Lemma wB_eq : wB = 4294967296.
Proof. reflexivity. Qed.

Lemma wrap_small x : 0 <= x < wB -> wrap x = x.
Proof. intros. unfold wrap. apply Z.mod_small. lia. Qed.

Lemma wrap_id x : 0 <= x < 4294967296 -> wrap x = x.
Proof. apply wrap_small. Qed.

Lemma wrap_range x : 0 <= wrap x < wB.
Proof. unfold wrap. apply Z.mod_pos_bound. rewrite wB_eq. lia. Qed.

Lemma wrap_lnot_pow2 k :
  0 <= k <= 32 -> wrap (Z.lnot (2 ^ k - 1)) = wB - 2 ^ k.
Proof.
  intros Hk. unfold wrap, Z.lnot.
  replace (Z.pred (- (2 ^ k - 1))) with (- 2 ^ k) by lia.
  assert (0 < 2 ^ k <= wB).
  { split; [apply Z.pow_pos_nonneg; lia|].
    unfold wB. apply Z.pow_le_mono_r; lia. }
  rewrite <- (Z.mod_add _ 1) by (rewrite wB_eq; lia).
  rewrite Z.mod_small; lia.
Qed.

Lemma land_high_mask k y :
  0 <= k <= 32 -> 0 <= y < wB -> Z.land y (wB - 2 ^ k) = y - y mod 2 ^ k.
Proof.
  intros Hk Hy.
  rewrite <- wrap_lnot_pow2 by lia. unfold wrap, wB.
  rewrite <- Z.land_ones by lia.
  rewrite Z.land_assoc, (Z.land_comm y), <- Z.land_assoc.
  rewrite (Z.land_ones y 32) by lia.
  fold wB. rewrite (Z.mod_small y wB) by lia.
  rewrite Z.land_comm.
  replace (2 ^ k - 1) with (Z.ones k) by (rewrite Z.ones_equiv; lia).
  rewrite <- Z.ldiff_land, Z.ldiff_ones_r by lia.
  rewrite Z.shiftr_div_pow2, Z.shiftl_mul_pow2 by lia.
  pose proof (Z.div_mod y (2 ^ k)).
  assert (0 < 2 ^ k) by (apply Z.pow_pos_nonneg; lia). lia.
Qed.

Lemma RT_ALIGN_DOWN_pow2 k x :
  0 <= k <= 32 -> 0 <= x < wB -> RT_ALIGN_DOWN x (2 ^ k) = x - x mod 2 ^ k.
Proof.
  intros Hk Hx. unfold RT_ALIGN_DOWN.
  rewrite wrap_lnot_pow2, land_high_mask by lia. reflexivity.
Qed.

Lemma RT_ALIGN_pow2 k x :
  0 <= k <= 16 -> 0 <= x < wB ->
  RT_ALIGN x (2 ^ k) =
  if x + 2 ^ k - 1 <? wB
  then (x + 2 ^ k - 1) - (x + 2 ^ k - 1) mod 2 ^ k
  else 0.
Proof.
  intros Hk Hx. unfold RT_ALIGN.
  assert (0 < 2 ^ k <= 2 ^ 16).
  { split; [apply Z.pow_pos_nonneg; lia|apply Z.pow_le_mono_r; lia]. }
  rewrite wrap_lnot_pow2 by lia.
  destruct (Z.ltb_spec (x + 2 ^ k - 1) wB).
  - rewrite (wrap_small (x + 2 ^ k - 1)) by lia.
    rewrite land_high_mask by lia. reflexivity.
  - assert (Hw : wrap (x + 2 ^ k - 1) = x + 2 ^ k - 1 - wB).
    { unfold wrap. rewrite <- (Z.mod_add _ (-1)) by (rewrite wB_eq; lia).
      rewrite Z.mod_small; rewrite ?wB_eq in *; lia. }
    rewrite Hw, land_high_mask by (rewrite ?wB_eq in *; lia).
    rewrite Z.mod_small by lia. lia.
Qed.

Section Arith.
Context `{Target} (OK : target_ok).

Local Abbreviation A := RT_ALIGN_SIZE.
Local Abbreviation HSZ := RT_MEMHEAP_SIZE.

Lemma align_log2 : 0 <= Z.log2 A <= 16.
Proof.
  destruct OK. split; [apply Z.log2_nonneg|].
  destruct (Z_le_gt_dec (Z.log2 A) 16); [done|].
  assert (2 ^ 17 <= 2 ^ Z.log2 A) by (apply Z.pow_le_mono_r; lia).
  lia.
Qed.

Lemma RT_ALIGN_DOWN_eq x :
  0 <= x < wB -> RT_ALIGN_DOWN x A = x - x mod A.
Proof.
  intros Hx. pose proof align_log2. pose proof (align_pow2 OK) as HA.
  replace (RT_ALIGN_DOWN x A) with (RT_ALIGN_DOWN x (2 ^ Z.log2 A))
    by (rewrite <- HA; reflexivity).
  rewrite RT_ALIGN_DOWN_pow2 by lia. rewrite <- HA. reflexivity.
Qed.

Lemma RT_ALIGN_eq x :
  0 <= x -> x + A - 1 < wB -> RT_ALIGN x A = (x + A - 1) - (x + A - 1) mod A.
Proof.
  intros Hx Hlt. pose proof align_log2. pose proof (align_pow2 OK) as HA.
  pose proof (align_pos OK).
  replace (RT_ALIGN x A) with (RT_ALIGN x (2 ^ Z.log2 A))
    by (rewrite <- HA; reflexivity).
  rewrite RT_ALIGN_pow2 by lia. rewrite <- HA.
  destruct (Z.ltb_spec (x + A - 1) wB); [reflexivity|lia].
Qed.

Lemma RT_ALIGN_wraps x :
  0 <= x < wB -> wB <= x + A - 1 -> RT_ALIGN x A = 0.
Proof.
  intros Hx Hge. pose proof align_log2. pose proof (align_pow2 OK) as HA.
  replace (RT_ALIGN x A) with (RT_ALIGN x (2 ^ Z.log2 A))
    by (rewrite <- HA; reflexivity).
  rewrite RT_ALIGN_pow2 by lia. rewrite <- HA.
  destruct (Z.ltb_spec (x + A - 1) wB); [lia|reflexivity].
Qed.

(** Facts about an aligned-up value, in the form [lia] uses. *)
Lemma RT_ALIGN_spec x :
  0 <= x -> x + A - 1 < wB ->
  x <= RT_ALIGN x A < x + A /\ RT_ALIGN x A mod A = 0.
Proof.
  intros Hx Hlt. rewrite RT_ALIGN_eq by lia. pose proof (align_pos OK).
  assert (0 <= (x + A - 1) mod A < A) by (apply Z.mod_pos_bound; lia).
  split; [lia|].
  rewrite Zminus_mod, Z.mod_mod, Z.sub_diag by lia. apply Z.mod_0_l. lia.
Qed.

Lemma wB_mod_align : wB mod A = 0.
Proof.
  pose proof align_log2. pose proof (align_pow2 OK) as HA.
  rewrite HA. unfold wB.
  replace 32 with ((32 - Z.log2 A) + Z.log2 A) by lia.
  rewrite Z.pow_add_r by lia. apply Z_mod_mult.
Qed.

Lemma aligned_room x : 0 <= x < wB -> x mod A = 0 -> x + A <= wB.
Proof.
  intros Hx Hm. pose proof (align_pos OK). pose proof wB_mod_align as Hw.
  apply Z.mod_divide in Hm, Hw; try lia.
  destruct Hm as [q Hq], Hw as [w Hw].
  assert (q < w) by nia. assert ((q + 1) * A <= w * A) by nia. lia.
Qed.

Lemma RT_ALIGN_fix x :
  0 <= x < wB -> x mod A = 0 -> RT_ALIGN x A = x.
Proof.
  intros Hx Hm. pose proof (align_pos OK).
  pose proof (aligned_room x Hx Hm).
  rewrite RT_ALIGN_eq by lia.
  replace (x + A - 1) with ((A - 1) + x) by lia.
  apply Z.mod_divide in Hm; try lia. destruct Hm as [q Hq]. rewrite Hq.
  rewrite Z.mod_add by lia. rewrite Z.mod_small by lia. lia.
Qed.

Lemma HSZ_spec : sizeof_item <= HSZ < sizeof_item + A /\ HSZ mod A = 0.
Proof.
  destruct OK. unfold RT_MEMHEAP_SIZE. apply RT_ALIGN_spec.
  - unfold RT_MEMHEAP_MINIALLOC in *. lia.
  - rewrite wB_eq. lia.
Qed.

Lemma HSZ_bounds : 12 <= HSZ < 131072.
Proof.
  pose proof HSZ_spec. destruct OK. unfold RT_MEMHEAP_MINIALLOC in *.
  change (2 ^ 16) with 65536 in *. lia.
Qed.

Lemma normalized_range n : 0 <= n < wB -> 12 <= normalized n < wB.
Proof.
  intros Hn. unfold normalized, RT_MEMHEAP_MINIALLOC. pose proof (align_pos OK).
  destruct (Z_lt_ge_dec (n + A - 1) wB).
  - pose proof (RT_ALIGN_spec n ltac:(lia) ltac:(lia)).
    destruct (Z.ltb_spec (RT_ALIGN n A) 12); rewrite ?wB_eq in *; lia.
  - rewrite RT_ALIGN_wraps by lia. simpl. rewrite wB_eq. lia.
Qed.

Lemma normalized_ge n :
  0 <= n -> n + A - 1 < wB -> n <= normalized n.
Proof.
  intros Hn Hlt. unfold normalized, RT_MEMHEAP_MINIALLOC.
  pose proof (RT_ALIGN_spec n ltac:(lia) ltac:(lia)).
  destruct (Z.ltb_spec (RT_ALIGN n A) 12); lia.
Qed.

Lemma normalized_aligned n :
  0 <= n < wB -> RT_MEMHEAP_MINIALLOC mod A = 0 -> normalized n mod A = 0.
Proof.
  intros Hn Hm. unfold normalized. pose proof (align_pos OK).
  destruct (Z.ltb_spec (RT_ALIGN n A) RT_MEMHEAP_MINIALLOC); [done|].
  destruct (Z_lt_ge_dec (n + A - 1) wB).
  - apply RT_ALIGN_spec; lia.
  - rewrite RT_ALIGN_wraps by lia. apply Z.mod_0_l. lia.
Qed.

Lemma normalized_idem n :
  0 <= n < wB -> RT_MEMHEAP_MINIALLOC mod A = 0 ->
  normalized (normalized n) = normalized n.
Proof.
  intros Hn Hm. pose proof (normalized_range n Hn).
  pose proof (normalized_aligned n Hn Hm).
  unfold normalized at 1. rewrite RT_ALIGN_fix by lia.
  destruct (Z.ltb_spec (normalized n) RT_MEMHEAP_MINIALLOC);
    unfold RT_MEMHEAP_MINIALLOC in *; lia.
Qed.

End Arith.

(** ** Loads after stores *)

Section Fields.
Context `{Target}.

Lemma hget_hupd hp f s : hget (hupd hp f s) hp = f (hget s hp).
Proof. unfold hget, hupd; simpl. now rewrite lookup_insert_eq. Qed.

Lemma hget_hupd_ne hp hp' f s : hp <> hp' -> hget (hupd hp f s) hp' = hget s hp'.
Proof. intros. unfold hget, hupd; simpl. now rewrite lookup_insert_ne. Qed.

Lemma is_memheap_hupd hp f s hp' :
  is_memheap s hp' = true -> is_memheap (hupd hp f s) hp' = true.
Proof.
  unfold is_memheap, hupd; simpl. intros Hm.
  destruct (decide (hp = hp')) as [->|Hne].
  - now rewrite lookup_insert_eq.
  - now rewrite lookup_insert_ne.
Qed.

Lemma is_memheap_hupd_same hp f s : is_memheap (hupd hp f s) hp = true.
Proof. unfold is_memheap, hupd; simpl. now rewrite lookup_insert_eq. Qed.

Lemma items_upd x f s a :
  items (upd x f s) a = if a =? x then f (items s a) else items s a.
Proof. reflexivity. Qed.

Lemma item_ext i j :
  magic i = magic j -> pool_ptr i = pool_ptr j -> next i = next j -> prev i = prev j ->
  next_free i = next_free j -> prev_free i = prev_free j -> i = j.
Proof. destruct i, j; simpl; congruence. Qed.

Lemma heap_ext h k :
  start_addr h = start_addr k -> pool_size h = pool_size k ->
  available_size h = available_size k -> max_used_size h = max_used_size k ->
  block_list h = block_list k -> free_list h = free_list k -> lock h = lock k -> h = k.
Proof. destruct h, k; simpl; congruence. Qed.

End Fields.

Ltac field_tac :=
  intros; unfold set_magic, set_pool_ptr, set_next, set_prev, set_next_free,
            set_prev_free; rewrite items_upd;
  match goal with |- context [?a =? ?x] => destruct (a =? x) end; reflexivity.

Ltac hfield_tac :=
  intros; unfold set_start_addr, set_pool_size, set_available_size, set_max_used_size,
            set_block_list, set_free_list, set_lock; rewrite hget_hupd; reflexivity.

Section ItemFields.
Context `{Target}.
Variables (x v : Z) (s : state) (a : Z).

Lemma magic_set_magic :
  magic (items (set_magic x v s) a) = if a =? x then v else magic (items s a).
Proof. field_tac. Qed.
Lemma magic_set_pool_ptr : magic (items (set_pool_ptr x v s) a) = magic (items s a).
Proof. field_tac. Qed.
Lemma magic_set_next : magic (items (set_next x v s) a) = magic (items s a).
Proof. field_tac. Qed.
Lemma magic_set_prev : magic (items (set_prev x v s) a) = magic (items s a).
Proof. field_tac. Qed.
Lemma magic_set_next_free : magic (items (set_next_free x v s) a) = magic (items s a).
Proof. field_tac. Qed.
Lemma magic_set_prev_free : magic (items (set_prev_free x v s) a) = magic (items s a).
Proof. field_tac. Qed.
Lemma pool_ptr_set_magic : pool_ptr (items (set_magic x v s) a) = pool_ptr (items s a).
Proof. field_tac. Qed.
Lemma pool_ptr_set_pool_ptr :
  pool_ptr (items (set_pool_ptr x v s) a) = if a =? x then v else pool_ptr (items s a).
Proof. field_tac. Qed.
Lemma pool_ptr_set_next : pool_ptr (items (set_next x v s) a) = pool_ptr (items s a).
Proof. field_tac. Qed.
Lemma pool_ptr_set_prev : pool_ptr (items (set_prev x v s) a) = pool_ptr (items s a).
Proof. field_tac. Qed.
Lemma pool_ptr_set_next_free : pool_ptr (items (set_next_free x v s) a) = pool_ptr (items s a).
Proof. field_tac. Qed.
Lemma pool_ptr_set_prev_free : pool_ptr (items (set_prev_free x v s) a) = pool_ptr (items s a).
Proof. field_tac. Qed.
Lemma next_set_magic : next (items (set_magic x v s) a) = next (items s a).
Proof. field_tac. Qed.
Lemma next_set_pool_ptr : next (items (set_pool_ptr x v s) a) = next (items s a).
Proof. field_tac. Qed.
Lemma next_set_next :
  next (items (set_next x v s) a) = if a =? x then v else next (items s a).
Proof. field_tac. Qed.
Lemma next_set_prev : next (items (set_prev x v s) a) = next (items s a).
Proof. field_tac. Qed.
Lemma next_set_next_free : next (items (set_next_free x v s) a) = next (items s a).
Proof. field_tac. Qed.
Lemma next_set_prev_free : next (items (set_prev_free x v s) a) = next (items s a).
Proof. field_tac. Qed.
Lemma prev_set_magic : prev (items (set_magic x v s) a) = prev (items s a).
Proof. field_tac. Qed.
Lemma prev_set_pool_ptr : prev (items (set_pool_ptr x v s) a) = prev (items s a).
Proof. field_tac. Qed.
Lemma prev_set_next : prev (items (set_next x v s) a) = prev (items s a).
Proof. field_tac. Qed.
Lemma prev_set_prev :
  prev (items (set_prev x v s) a) = if a =? x then v else prev (items s a).
Proof. field_tac. Qed.
Lemma prev_set_next_free : prev (items (set_next_free x v s) a) = prev (items s a).
Proof. field_tac. Qed.
Lemma prev_set_prev_free : prev (items (set_prev_free x v s) a) = prev (items s a).
Proof. field_tac. Qed.
Lemma next_free_set_magic : next_free (items (set_magic x v s) a) = next_free (items s a).
Proof. field_tac. Qed.
Lemma next_free_set_pool_ptr : next_free (items (set_pool_ptr x v s) a) = next_free (items s a).
Proof. field_tac. Qed.
Lemma next_free_set_next : next_free (items (set_next x v s) a) = next_free (items s a).
Proof. field_tac. Qed.
Lemma next_free_set_prev : next_free (items (set_prev x v s) a) = next_free (items s a).
Proof. field_tac. Qed.
Lemma next_free_set_next_free :
  next_free (items (set_next_free x v s) a) = if a =? x then v else next_free (items s a).
Proof. field_tac. Qed.
Lemma next_free_set_prev_free : next_free (items (set_prev_free x v s) a) = next_free (items s a).
Proof. field_tac. Qed.
Lemma prev_free_set_magic : prev_free (items (set_magic x v s) a) = prev_free (items s a).
Proof. field_tac. Qed.
Lemma prev_free_set_pool_ptr : prev_free (items (set_pool_ptr x v s) a) = prev_free (items s a).
Proof. field_tac. Qed.
Lemma prev_free_set_next : prev_free (items (set_next x v s) a) = prev_free (items s a).
Proof. field_tac. Qed.
Lemma prev_free_set_prev : prev_free (items (set_prev x v s) a) = prev_free (items s a).
Proof. field_tac. Qed.
Lemma prev_free_set_next_free : prev_free (items (set_next_free x v s) a) = prev_free (items s a).
Proof. field_tac. Qed.
Lemma prev_free_set_prev_free :
  prev_free (items (set_prev_free x v s) a) = if a =? x then v else prev_free (items s a).
Proof. field_tac. Qed.

End ItemFields.

Section HeapFields.
Context `{Target}.
Variables (x v : Z) (s : state) (hp : Z).

Lemma hget_set_magic : hget (set_magic x v s) hp = hget s hp.
Proof. reflexivity. Qed.
Lemma is_memheap_set_magic : is_memheap (set_magic x v s) hp = is_memheap s hp.
Proof. reflexivity. Qed.
Lemma hget_set_pool_ptr : hget (set_pool_ptr x v s) hp = hget s hp.
Proof. reflexivity. Qed.
Lemma is_memheap_set_pool_ptr : is_memheap (set_pool_ptr x v s) hp = is_memheap s hp.
Proof. reflexivity. Qed.
Lemma hget_set_next : hget (set_next x v s) hp = hget s hp.
Proof. reflexivity. Qed.
Lemma is_memheap_set_next : is_memheap (set_next x v s) hp = is_memheap s hp.
Proof. reflexivity. Qed.
Lemma hget_set_prev : hget (set_prev x v s) hp = hget s hp.
Proof. reflexivity. Qed.
Lemma is_memheap_set_prev : is_memheap (set_prev x v s) hp = is_memheap s hp.
Proof. reflexivity. Qed.
Lemma hget_set_next_free : hget (set_next_free x v s) hp = hget s hp.
Proof. reflexivity. Qed.
Lemma is_memheap_set_next_free : is_memheap (set_next_free x v s) hp = is_memheap s hp.
Proof. reflexivity. Qed.
Lemma hget_set_prev_free : hget (set_prev_free x v s) hp = hget s hp.
Proof. reflexivity. Qed.
Lemma is_memheap_set_prev_free : is_memheap (set_prev_free x v s) hp = is_memheap s hp.
Proof. reflexivity. Qed.
Lemma items_set_start_addr : items (set_start_addr hp v s) = items s.
Proof. reflexivity. Qed.
Lemma is_memheap_set_start_addr : is_memheap (set_start_addr hp v s) hp = true.
Proof. apply is_memheap_hupd_same. Qed.
Lemma items_set_pool_size : items (set_pool_size hp v s) = items s.
Proof. reflexivity. Qed.
Lemma is_memheap_set_pool_size : is_memheap (set_pool_size hp v s) hp = true.
Proof. apply is_memheap_hupd_same. Qed.
Lemma items_set_available_size : items (set_available_size hp v s) = items s.
Proof. reflexivity. Qed.
Lemma is_memheap_set_available_size : is_memheap (set_available_size hp v s) hp = true.
Proof. apply is_memheap_hupd_same. Qed.
Lemma items_set_max_used_size : items (set_max_used_size hp v s) = items s.
Proof. reflexivity. Qed.
Lemma is_memheap_set_max_used_size : is_memheap (set_max_used_size hp v s) hp = true.
Proof. apply is_memheap_hupd_same. Qed.
Lemma items_set_block_list : items (set_block_list hp v s) = items s.
Proof. reflexivity. Qed.
Lemma is_memheap_set_block_list : is_memheap (set_block_list hp v s) hp = true.
Proof. apply is_memheap_hupd_same. Qed.
Lemma items_set_free_list : items (set_free_list hp v s) = items s.
Proof. reflexivity. Qed.
Lemma is_memheap_set_free_list : is_memheap (set_free_list hp v s) hp = true.
Proof. apply is_memheap_hupd_same. Qed.
Lemma items_set_lock : items (set_lock hp v s) = items s.
Proof. reflexivity. Qed.
Lemma is_memheap_set_lock : is_memheap (set_lock hp v s) hp = true.
Proof. apply is_memheap_hupd_same. Qed.
Lemma start_addr_set_start_addr : start_addr (hget (set_start_addr hp v s) hp) = v.
Proof. hfield_tac. Qed.
Lemma start_addr_set_pool_size : start_addr (hget (set_pool_size hp v s) hp) = start_addr (hget s hp).
Proof. hfield_tac. Qed.
Lemma start_addr_set_available_size : start_addr (hget (set_available_size hp v s) hp) = start_addr (hget s hp).
Proof. hfield_tac. Qed.
Lemma start_addr_set_max_used_size : start_addr (hget (set_max_used_size hp v s) hp) = start_addr (hget s hp).
Proof. hfield_tac. Qed.
Lemma start_addr_set_block_list : start_addr (hget (set_block_list hp v s) hp) = start_addr (hget s hp).
Proof. hfield_tac. Qed.
Lemma start_addr_set_free_list : start_addr (hget (set_free_list hp v s) hp) = start_addr (hget s hp).
Proof. hfield_tac. Qed.
Lemma start_addr_set_lock : start_addr (hget (set_lock hp v s) hp) = start_addr (hget s hp).
Proof. hfield_tac. Qed.
Lemma pool_size_set_start_addr : pool_size (hget (set_start_addr hp v s) hp) = pool_size (hget s hp).
Proof. hfield_tac. Qed.
Lemma pool_size_set_pool_size : pool_size (hget (set_pool_size hp v s) hp) = v.
Proof. hfield_tac. Qed.
Lemma pool_size_set_available_size : pool_size (hget (set_available_size hp v s) hp) = pool_size (hget s hp).
Proof. hfield_tac. Qed.
Lemma pool_size_set_max_used_size : pool_size (hget (set_max_used_size hp v s) hp) = pool_size (hget s hp).
Proof. hfield_tac. Qed.
Lemma pool_size_set_block_list : pool_size (hget (set_block_list hp v s) hp) = pool_size (hget s hp).
Proof. hfield_tac. Qed.
Lemma pool_size_set_free_list : pool_size (hget (set_free_list hp v s) hp) = pool_size (hget s hp).
Proof. hfield_tac. Qed.
Lemma pool_size_set_lock : pool_size (hget (set_lock hp v s) hp) = pool_size (hget s hp).
Proof. hfield_tac. Qed.
Lemma available_size_set_start_addr : available_size (hget (set_start_addr hp v s) hp) = available_size (hget s hp).
Proof. hfield_tac. Qed.
Lemma available_size_set_pool_size : available_size (hget (set_pool_size hp v s) hp) = available_size (hget s hp).
Proof. hfield_tac. Qed.
Lemma available_size_set_available_size : available_size (hget (set_available_size hp v s) hp) = v.
Proof. hfield_tac. Qed.
Lemma available_size_set_max_used_size : available_size (hget (set_max_used_size hp v s) hp) = available_size (hget s hp).
Proof. hfield_tac. Qed.
Lemma available_size_set_block_list : available_size (hget (set_block_list hp v s) hp) = available_size (hget s hp).
Proof. hfield_tac. Qed.
Lemma available_size_set_free_list : available_size (hget (set_free_list hp v s) hp) = available_size (hget s hp).
Proof. hfield_tac. Qed.
Lemma available_size_set_lock : available_size (hget (set_lock hp v s) hp) = available_size (hget s hp).
Proof. hfield_tac. Qed.
Lemma max_used_size_set_start_addr : max_used_size (hget (set_start_addr hp v s) hp) = max_used_size (hget s hp).
Proof. hfield_tac. Qed.
Lemma max_used_size_set_pool_size : max_used_size (hget (set_pool_size hp v s) hp) = max_used_size (hget s hp).
Proof. hfield_tac. Qed.
Lemma max_used_size_set_available_size : max_used_size (hget (set_available_size hp v s) hp) = max_used_size (hget s hp).
Proof. hfield_tac. Qed.
Lemma max_used_size_set_max_used_size : max_used_size (hget (set_max_used_size hp v s) hp) = v.
Proof. hfield_tac. Qed.
Lemma max_used_size_set_block_list : max_used_size (hget (set_block_list hp v s) hp) = max_used_size (hget s hp).
Proof. hfield_tac. Qed.
Lemma max_used_size_set_free_list : max_used_size (hget (set_free_list hp v s) hp) = max_used_size (hget s hp).
Proof. hfield_tac. Qed.
Lemma max_used_size_set_lock : max_used_size (hget (set_lock hp v s) hp) = max_used_size (hget s hp).
Proof. hfield_tac. Qed.
Lemma block_list_set_start_addr : block_list (hget (set_start_addr hp v s) hp) = block_list (hget s hp).
Proof. hfield_tac. Qed.
Lemma block_list_set_pool_size : block_list (hget (set_pool_size hp v s) hp) = block_list (hget s hp).
Proof. hfield_tac. Qed.
Lemma block_list_set_available_size : block_list (hget (set_available_size hp v s) hp) = block_list (hget s hp).
Proof. hfield_tac. Qed.
Lemma block_list_set_max_used_size : block_list (hget (set_max_used_size hp v s) hp) = block_list (hget s hp).
Proof. hfield_tac. Qed.
Lemma block_list_set_block_list : block_list (hget (set_block_list hp v s) hp) = v.
Proof. hfield_tac. Qed.
Lemma block_list_set_free_list : block_list (hget (set_free_list hp v s) hp) = block_list (hget s hp).
Proof. hfield_tac. Qed.
Lemma block_list_set_lock : block_list (hget (set_lock hp v s) hp) = block_list (hget s hp).
Proof. hfield_tac. Qed.
Lemma free_list_set_start_addr : free_list (hget (set_start_addr hp v s) hp) = free_list (hget s hp).
Proof. hfield_tac. Qed.
Lemma free_list_set_pool_size : free_list (hget (set_pool_size hp v s) hp) = free_list (hget s hp).
Proof. hfield_tac. Qed.
Lemma free_list_set_available_size : free_list (hget (set_available_size hp v s) hp) = free_list (hget s hp).
Proof. hfield_tac. Qed.
Lemma free_list_set_max_used_size : free_list (hget (set_max_used_size hp v s) hp) = free_list (hget s hp).
Proof. hfield_tac. Qed.
Lemma free_list_set_block_list : free_list (hget (set_block_list hp v s) hp) = free_list (hget s hp).
Proof. hfield_tac. Qed.
Lemma free_list_set_free_list : free_list (hget (set_free_list hp v s) hp) = v.
Proof. hfield_tac. Qed.
Lemma free_list_set_lock : free_list (hget (set_lock hp v s) hp) = free_list (hget s hp).
Proof. hfield_tac. Qed.
Lemma lock_set_start_addr : lock (hget (set_start_addr hp v s) hp) = lock (hget s hp).
Proof. hfield_tac. Qed.
Lemma lock_set_pool_size : lock (hget (set_pool_size hp v s) hp) = lock (hget s hp).
Proof. hfield_tac. Qed.
Lemma lock_set_available_size : lock (hget (set_available_size hp v s) hp) = lock (hget s hp).
Proof. hfield_tac. Qed.
Lemma lock_set_max_used_size : lock (hget (set_max_used_size hp v s) hp) = lock (hget s hp).
Proof. hfield_tac. Qed.
Lemma lock_set_block_list : lock (hget (set_block_list hp v s) hp) = lock (hget s hp).
Proof. hfield_tac. Qed.
Lemma lock_set_free_list : lock (hget (set_free_list hp v s) hp) = lock (hget s hp).
Proof. hfield_tac. Qed.
Lemma lock_set_lock : lock (hget (set_lock hp v s) hp) = v.
Proof. hfield_tac. Qed.

Lemma hget_rt_object_init : hget (rt_object_init hp s) hp = hget s hp.
Proof. unfold hget at 1, rt_object_init; simpl. now rewrite lookup_insert_eq. Qed.
Lemma items_rt_object_init : items (rt_object_init hp s) = items s.
Proof. reflexivity. Qed.
Lemma items_set_errno : items (set_errno v s) = items s.
Proof. reflexivity. Qed.
Lemma hget_set_errno : hget (set_errno v s) hp = hget s hp.
Proof. reflexivity. Qed.

End HeapFields.

Create HintDb fields discriminated.

#[export] Hint Rewrite
  @magic_set_magic
  @magic_set_pool_ptr
  @magic_set_next
  @magic_set_prev
  @magic_set_next_free
  @magic_set_prev_free
  @pool_ptr_set_magic
  @pool_ptr_set_pool_ptr
  @pool_ptr_set_next
  @pool_ptr_set_prev
  @pool_ptr_set_next_free
  @pool_ptr_set_prev_free
  @next_set_magic
  @next_set_pool_ptr
  @next_set_next
  @next_set_prev
  @next_set_next_free
  @next_set_prev_free
  @prev_set_magic
  @prev_set_pool_ptr
  @prev_set_next
  @prev_set_prev
  @prev_set_next_free
  @prev_set_prev_free
  @next_free_set_magic
  @next_free_set_pool_ptr
  @next_free_set_next
  @next_free_set_prev
  @next_free_set_next_free
  @next_free_set_prev_free
  @prev_free_set_magic
  @prev_free_set_pool_ptr
  @prev_free_set_next
  @prev_free_set_prev
  @prev_free_set_next_free
  @prev_free_set_prev_free
  @hget_set_magic
  @is_memheap_set_magic
  @hget_set_pool_ptr
  @is_memheap_set_pool_ptr
  @hget_set_next
  @is_memheap_set_next
  @hget_set_prev
  @is_memheap_set_prev
  @hget_set_next_free
  @is_memheap_set_next_free
  @hget_set_prev_free
  @is_memheap_set_prev_free
  @items_set_start_addr
  @is_memheap_set_start_addr
  @items_set_pool_size
  @is_memheap_set_pool_size
  @items_set_available_size
  @is_memheap_set_available_size
  @items_set_max_used_size
  @is_memheap_set_max_used_size
  @items_set_block_list
  @is_memheap_set_block_list
  @items_set_free_list
  @is_memheap_set_free_list
  @items_set_lock
  @is_memheap_set_lock
  @start_addr_set_start_addr
  @start_addr_set_pool_size
  @start_addr_set_available_size
  @start_addr_set_max_used_size
  @start_addr_set_block_list
  @start_addr_set_free_list
  @start_addr_set_lock
  @pool_size_set_start_addr
  @pool_size_set_pool_size
  @pool_size_set_available_size
  @pool_size_set_max_used_size
  @pool_size_set_block_list
  @pool_size_set_free_list
  @pool_size_set_lock
  @available_size_set_start_addr
  @available_size_set_pool_size
  @available_size_set_available_size
  @available_size_set_max_used_size
  @available_size_set_block_list
  @available_size_set_free_list
  @available_size_set_lock
  @max_used_size_set_start_addr
  @max_used_size_set_pool_size
  @max_used_size_set_available_size
  @max_used_size_set_max_used_size
  @max_used_size_set_block_list
  @max_used_size_set_free_list
  @max_used_size_set_lock
  @block_list_set_start_addr
  @block_list_set_pool_size
  @block_list_set_available_size
  @block_list_set_max_used_size
  @block_list_set_block_list
  @block_list_set_free_list
  @block_list_set_lock
  @free_list_set_start_addr
  @free_list_set_pool_size
  @free_list_set_available_size
  @free_list_set_max_used_size
  @free_list_set_block_list
  @free_list_set_free_list
  @free_list_set_lock
  @lock_set_start_addr
  @lock_set_pool_size
  @lock_set_available_size
  @lock_set_max_used_size
  @lock_set_block_list
  @lock_set_free_list
  @lock_set_lock
  @hget_rt_object_init
  @items_rt_object_init
  @items_set_errno
  @hget_set_errno
  : fields.

Lemma target32_ok : @target_ok target32.
Proof. split; vm_compute; try reflexivity; discriminate. Qed.
Lemma target_spec_ok : @target_ok target_spec.
Proof. split; vm_compute; try reflexivity; discriminate. Qed.
Lemma target8_ok : @target_ok target8.
Proof. split; vm_compute; try reflexivity; discriminate. Qed.

Section Easy.
Context `{Target}.

(** C7 (early rejection): when the normalized request is not smaller than
    [available_size], [rt_memheap_alloc] returns NULL without taking the
    lock and leaves the state, the lists and the counters as they were. *)
Theorem alloc_early_reject heap size s :
  heap <> RT_NULL -> is_memheap s heap = true ->
  available_size (hget s heap) <= normalized size ->
  rt_memheap_alloc heap size s = Some (RT_NULL, s).
Proof.
  intros Hn Hm Hle. unfold rt_memheap_alloc.
  rewrite (proj2 (Z.eqb_neq _ _) Hn), Hm. cbn [negb].
  fold (normalized size). cbv zeta.
  rewrite (proj2 (Z.ltb_ge _ _) Hle). reflexivity.
Qed.

End Easy.

Lemma alloc_early_reject_witness :
  @rt_memheap_alloc target32 ex_heap 976 ex32_init = Some (RT_NULL, ex32_init).
Proof.
  apply (@alloc_early_reject target32 ex_heap 976 ex32_init).
  - discriminate.
  - vm_compute. reflexivity.
  - vm_compute. discriminate.
Defined.

Ltac eqb_lia :=
  repeat match goal with
  | |- context [?a =? ?b] =>
      first [ rewrite (proj2 (Z.eqb_eq a b)) by lia
            | rewrite (proj2 (Z.eqb_neq a b)) by lia ]
  end.

Ltac wrap_lia :=
  repeat match goal with
  | |- context [wrap ?x] => rewrite (wrap_id x) by lia
  end.

Ltac fsimp := repeat (progress (autorewrite with fields; wrap_lia; eqb_lia)).

Ltac heap_fields :=
  apply heap_ext;
  cbn [start_addr pool_size available_size max_used_size block_list free_list lock].
Ltac item_fields :=
  apply item_ext; cbn [magic pool_ptr next prev next_free prev_free].

Section Init.
Context `{Target} (OK : target_ok).

Lemma init_pool_hget memheap start size s :
  0 <= size < wB -> 2 * RT_MEMHEAP_SIZE + RT_ALIGN_SIZE <= size ->
  hget (init_pool memheap start size s) memheap =
  mk_heap start (size - size mod RT_ALIGN_SIZE)
    (size - size mod RT_ALIGN_SIZE - 2 * RT_MEMHEAP_SIZE) (2 * RT_MEMHEAP_SIZE)
    (block_list (hget s memheap)) (free_list (hget s memheap)) (lock (hget s memheap)).
Proof.
  intros Hsz Hbig. pose proof (HSZ_bounds OK) as HH. pose proof (align_pos OK).
  assert (Hmod : 0 <= size mod RT_ALIGN_SIZE < RT_ALIGN_SIZE)
    by (apply Z.mod_pos_bound; lia).
  unfold init_pool. cbv zeta. rewrite RT_ALIGN_DOWN_eq by (auto; lia).
  rewrite wB_eq in *.
  heap_fields; fsimp; try reflexivity; lia.
Qed.

Lemma init_free_header_hget memheap s :
  hget (init_free_header memheap s) memheap =
  mk_heap (start_addr (hget s memheap)) (pool_size (hget s memheap))
    (available_size (hget s memheap)) (max_used_size (hget s memheap))
    (block_list (hget s memheap)) (free_header_of memheap) (lock (hget s memheap)).
Proof. unfold init_free_header. cbv zeta. heap_fields; fsimp; reflexivity. Qed.

Lemma init_free_header_items memheap s a :
  items (init_free_header memheap s) a =
  if a =? free_header_of memheap
  then mk_item RT_MEMHEAP_MAGIC memheap 0 0 (free_header_of memheap) (free_header_of memheap)
  else items s a.
Proof.
  unfold init_free_header. cbv zeta.
  destruct (Z.eqb_spec a (free_header_of memheap)) as [->|Hne];
    item_fields; fsimp; reflexivity.
Qed.

Lemma init_first_block_hget memheap start s :
  hget (init_first_block memheap start s) memheap =
  mk_heap (start_addr (hget s memheap)) (pool_size (hget s memheap))
    (available_size (hget s memheap)) (max_used_size (hget s memheap))
    start (free_list (hget s memheap)) (lock (hget s memheap)).
Proof. unfold init_first_block. cbv zeta. heap_fields; fsimp; reflexivity. Qed.

Lemma init_first_block_items memheap start s a :
  0 <= start ->
  0 <= available_size (hget s memheap) ->
  start + available_size (hget s memheap) + RT_MEMHEAP_SIZE < wB ->
  items (init_first_block memheap start s) a =
  if a =? start
  then mk_item RT_MEMHEAP_MAGIC memheap
         (start + available_size (hget s memheap) + RT_MEMHEAP_SIZE)
         (start + available_size (hget s memheap) + RT_MEMHEAP_SIZE) start start
  else items s a.
Proof.
  intros Hs Hav Hlt. pose proof (HSZ_bounds OK) as HH. rewrite wB_eq in *.
  unfold init_first_block. cbv zeta.
  destruct (Z.eqb_spec a start) as [->|Hne];
    item_fields; fsimp; reflexivity.
Qed.

Lemma init_tailer_items memheap start item s a :
  items (init_tailer memheap start item s) a =
  if a =? item
  then mk_item (Z.lor RT_MEMHEAP_MAGIC RT_MEMHEAP_USED) memheap start start 0 0
  else items s a.
Proof.
  unfold init_tailer. cbv zeta.
  destruct (Z.eqb_spec a item) as [->|Hne];
    item_fields; fsimp; reflexivity.
Qed.

Lemma list_insert_free_items heap x s a :
  items (list_insert_free heap x s) a =
  let fh := free_list (hget s heap) in
  let i := items s a in
  mk_item (magic i) (pool_ptr i) (next i) (prev i)
    (if a =? fh then x else if a =? x then next_free (items s fh) else next_free i)
    (if a =? next_free (items s fh) then x else if a =? x then fh else prev_free i).
Proof.
  unfold list_insert_free. cbv zeta.
  item_fields; fsimp; try reflexivity.
  - destruct (Z.eqb_spec (free_list (hget s heap)) x); reflexivity.
Qed.

End Init.

(** ** Doubly linked segments *)

Section Seg.
Implicit Types (f g : Z -> Z) (l : list Z).

Lemma last_of_app a l1 b l2 : last_of a (l1 ++ b :: l2) = last_of b l2.
Proof. revert a. induction l1 as [|c l1 IH]; intros a; simpl; auto. Qed.

Lemma last_of_snoc a l b : last_of a (l ++ [b]) = b.
Proof. apply last_of_app. Qed.

Lemma last_of_in a l : last_of a l = a \/ In (last_of a l) l.
Proof.
  revert a. induction l as [|b l IH]; intros a; simpl; [auto|].
  destruct (IH b) as [->|Hin]; auto.
Qed.

Lemma seg_app f g a l1 m l2 z :
  seg f g a (l1 ++ m :: l2) z <-> seg f g a l1 m /\ seg f g m l2 z.
Proof.
  revert a. induction l1 as [|b l1 IH]; intros a; simpl.
  - tauto.
  - rewrite IH. tauto.
Qed.

(** The links at the two ends of a segment. *)
Lemma seg_hd f g a l z : seg f g a l z -> f a = hd z l /\ g (hd z l) = a.
Proof. destruct l; simpl; tauto. Qed.

Lemma seg_last f g a l z : seg f g a l z -> f (last_of a l) = z /\ g z = last_of a l.
Proof.
  revert a. induction l as [|b l IH]; intros a; simpl.
  - tauto.
  - intros (_ & _ & Hs). apply (IH b Hs).
Qed.

(** A segment only depends on [f] at its sources and on [g] at its targets. *)
Lemma seg_frame f g f' g' a l z :
  (forall x, x = a \/ In x l -> f' x = f x) ->
  (forall y, In y l \/ y = z -> g' y = g y) ->
  seg f g a l z -> seg f' g' a l z.
Proof.
  revert a. induction l as [|b l IH]; intros a Hf Hg; simpl.
  - intros [H1 H2]. split; [rewrite Hf by auto|rewrite Hg by auto]; assumption.
  - intros (H1 & H2 & Hs). split; [|split].
    + rewrite Hf by auto. assumption.
    + rewrite Hg by (left; left; auto). assumption.
    + apply IH; auto.
      * intros x [->|Hx]; apply Hf; simpl; auto.
      * intros y [Hy| ->]; apply Hg; simpl; auto.
Qed.

Lemma seg_ext f g f' g' a l z :
  (forall x, f' x = f x) -> (forall y, g' y = g y) ->
  seg f g a l z -> seg f' g' a l z.
Proof. intros Hf Hg. apply seg_frame; auto. Qed.

Lemma seg_remove_aux f g f' g' x l2 z P N :
  seg f g x l2 z -> N = hd z l2 ->
  (forall y, f' y = if y =? P then N else f y) ->
  (forall y, g' y = if y =? N then P else g y) ->
  forall l1 a,
  seg f g a l1 x -> P = last_of a l1 ->
  List.NoDup (a :: l1 ++ x :: l2) -> ~ In z (l1 ++ x :: l2) ->
  seg f' g' a (l1 ++ l2) z.
Proof.
  intros Hs2 HN Hf Hg. induction l1 as [|b l1 IH]; intros a Hs1 HP Hnd Hz.
  - simpl in *. subst P. apply NoDup_cons_iff in Hnd as [Ha Hnd].
    apply NoDup_cons_iff in Hnd as [Hx Hnd].
    destruct l2 as [|n l2]; simpl in *.
    + subst N. rewrite Hf, Hg, !Z.eqb_refl. auto.
    + subst N. destruct Hs2 as (_ & _ & Hs2).
      rewrite Hf, Hg, !Z.eqb_refl. repeat split.
      apply NoDup_cons_iff in Hnd as [Hn Hnd].
      eapply seg_frame; [| |exact Hs2].
      * intros y Hy. rewrite Hf.
        destruct (Z.eqb_spec y a) as [->|]; [|reflexivity].
        exfalso. destruct Hy as [->|Hy]; tauto.
      * intros y Hy. rewrite Hg.
        destruct (Z.eqb_spec y n) as [->|]; [|reflexivity].
        exfalso. destruct Hy as [Hy| ->]; tauto.
  - simpl in Hs1. destruct Hs1 as (Hfa & Hgb & Hs1).
    change ((b :: l1) ++ l2) with (b :: (l1 ++ l2)). simpl.
    simpl in HP, Hnd, Hz.
    apply NoDup_cons_iff in Hnd as [Ha Hnd].
    assert (HPb : P = b \/ In P l1) by (rewrite HP; apply last_of_in).
    split; [|split].
    + rewrite Hf. destruct (Z.eqb_spec a P) as [e|]; [|exact Hfa].
      exfalso. apply Ha. rewrite e. destruct HPb as [->|Hin]; simpl; auto.
      right. apply in_app_iff. auto.
    + rewrite Hg. destruct (Z.eqb_spec b N) as [e|]; [|exact Hgb].
      exfalso. subst N. apply NoDup_cons_iff in Hnd as [Hb _].
      destruct l2 as [|n l2]; simpl in e.
      * apply Hz. rewrite <- e. auto.
      * apply Hb. rewrite e. apply in_app_iff. right. simpl. auto.
    + apply IH; auto.
Qed.

(** Unlinking the node [x]: its predecessor and successor are linked to each
    other. *)
Lemma seg_remove f g f' g' a l1 x l2 z :
  List.NoDup (a :: l1 ++ x :: l2) -> ~ In z (l1 ++ x :: l2) ->
  seg f g a (l1 ++ x :: l2) z ->
  (forall y, f' y = if y =? g x then f x else f y) ->
  (forall y, g' y = if y =? f x then g x else g y) ->
  seg f' g' a (l1 ++ l2) z.
Proof.
  intros Hnd Hz Hs Hf Hg.
  apply seg_app in Hs as [Hs1 Hs2].
  pose proof (seg_last _ _ _ _ _ Hs1) as [HP1 HP2].
  pose proof (seg_hd _ _ _ _ _ Hs2) as [HN1 HN2].
  eapply (seg_remove_aux f g f' g' x l2 z (last_of a l1) (hd z l2)); eauto.
  - intros y. rewrite Hf, HP2, HN1. reflexivity.
  - intros y. rewrite Hg, HP2, HN1. reflexivity.
Qed.

(** Linking the new node [x] after the last node of [a :: l1]. *)
Lemma seg_insert f g f' g' a l1 x l2 z :
  List.NoDup (a :: l1 ++ l2) -> ~ In z (l1 ++ l2) ->
  ~ In x (a :: l1 ++ l2) -> x <> z ->
  seg f g a (l1 ++ l2) z ->
  (forall y, f' y = if y =? last_of a l1 then x
                    else if y =? x then f (last_of a l1) else f y) ->
  (forall y, g' y = if y =? f (last_of a l1) then x
                    else if y =? x then last_of a l1 else g y) ->
  seg f' g' a (l1 ++ x :: l2) z.
Proof.
  intros Hnd Hz Hx Hxz Hs Hf Hg.
  revert a Hnd Hx Hs Hf Hg. induction l1 as [|b l1 IH]; intros a Hnd Hx Hs Hf Hg.
  - simpl in *. pose proof (seg_hd _ _ _ _ _ Hs) as [HN1 HN2].
    rewrite HN1 in Hf, Hg.
    apply NoDup_cons_iff in Hnd as [Ha Hnd].
    rewrite Hf, Z.eqb_refl. rewrite (Hg x).
    assert (x <> hd z l2).
    { destruct l2; simpl; [auto|]. intros ->. apply Hx. simpl. auto. }
    assert (Hxa : x <> a) by (intros ->; apply Hx; simpl; auto).
    rewrite (proj2 (Z.eqb_neq _ _) H), Z.eqb_refl.
    repeat split.
    destruct l2 as [|n l2]; simpl in *.
    + rewrite Hf, Hg, !Z.eqb_refl.
      rewrite (proj2 (Z.eqb_neq x a)) by assumption. auto.
    + destruct Hs as (Hfa & Hgn & Hs).
      rewrite Hf, Hg, !Z.eqb_refl.
      rewrite (proj2 (Z.eqb_neq x a)) by assumption.
      repeat split.
      apply NoDup_cons_iff in Hnd as [Hn Hnd].
      eapply seg_frame; [| |exact Hs].
      * intros y Hy. rewrite Hf.
        destruct (Z.eqb_spec y a) as [->|]; [exfalso; destruct Hy as [->|Hy]; tauto|].
        destruct (Z.eqb_spec y x) as [->|]; [exfalso; destruct Hy as [->|Hy]; tauto|].
        reflexivity.
      * intros y Hy. rewrite Hg.
        destruct (Z.eqb_spec y n) as [->|];
          [exfalso; destruct Hy as [Hy| ->]; tauto|].
        destruct (Z.eqb_spec y x) as [->|]; [exfalso; destruct Hy as [Hy| ->]; tauto|].
        reflexivity.
  - simpl in Hs. destruct Hs as (Hfa & Hgb & Hs).
    change ((b :: l1) ++ x :: l2) with (b :: (l1 ++ x :: l2)). simpl.
    simpl in Hf, Hg, Hnd, Hx, Hz.
    apply NoDup_cons_iff in Hnd as [Ha Hnd].
    assert (HPb : last_of b l1 = b \/ In (last_of b l1) l1) by apply last_of_in.
    assert (HPin : In (last_of b l1) (b :: l1 ++ l2)).
    { destruct HPb as [->|Hin]; simpl; auto. right. apply in_app_iff. auto. }
    pose proof (seg_app f g b l1) as Happ.
    assert (HN : f (last_of b l1) = hd z l2).
    { destruct l2 as [|n l2].
      - rewrite app_nil_r in Hs. apply (seg_last _ _ _ _ _ Hs).
      - apply Happ in Hs as [Hs1 Hs2]. apply (seg_last _ _ _ _ _ Hs1). }
    split; [|split].
    + rewrite Hf.
      destruct (Z.eqb_spec a (last_of b l1)) as [e|]; [exfalso; apply Ha; rewrite e; exact HPin|].
      destruct (Z.eqb_spec a x) as [e|]; [exfalso; apply Hx; auto|].
      exact Hfa.
    + rewrite Hg, HN.
      destruct (Z.eqb_spec b (hd z l2)) as [e|].
      { exfalso. destruct l2 as [|n l2]; simpl in e.
        - apply Hz. rewrite <- e. auto.
        - apply NoDup_cons_iff in Hnd as [Hb _]. apply Hb. rewrite e.
          apply in_app_iff. right. simpl. auto. }
      destruct (Z.eqb_spec b x) as [e|]; [exfalso; apply Hx; rewrite e; auto|].
      exact Hgb.
    + apply IH; auto.
Qed.

End Seg.

(** ** Chains *)

Section Chain.
Implicit Types (R : Z -> Z -> Prop) (l : list Z).

Lemma chain_cons R a b l : chain R (a :: b :: l) <-> R a b /\ chain R (b :: l).
Proof. simpl. tauto. Qed.

Lemma chain_app R l1 a l2 :
  chain R (l1 ++ a :: l2) <-> chain R (l1 ++ [a]) /\ chain R (a :: l2).
Proof.
  induction l1 as [|b l1 IH].
  - simpl. tauto.
  - change ((b :: l1) ++ a :: l2) with (b :: (l1 ++ a :: l2)).
    change ((b :: l1) ++ [a]) with (b :: (l1 ++ [a])).
    destruct l1 as [|c l1].
    + simpl in *. tauto.
    + change ((c :: l1) ++ a :: l2) with (c :: (l1 ++ a :: l2)) in *.
      change ((c :: l1) ++ [a]) with (c :: (l1 ++ [a])) in *.
      rewrite !chain_cons. rewrite IH. tauto.
Qed.

Lemma chain_mono R R' l :
  (forall a b, In a l -> In b l -> R a b -> R' a b) -> chain R l -> chain R' l.
Proof.
  induction l as [|a l IH]; [auto|]. intros Himp. destruct l as [|b l].
  - simpl. auto.
  - rewrite !chain_cons. intros [Hab Hc]. split.
    + apply Himp; simpl; auto.
    + apply IH; auto. intros x y Hx Hy. apply Himp; simpl; auto.
Qed.

Lemma chain_tail R a l : chain R (a :: l) -> chain R l.
Proof. simpl. tauto. Qed.

End Chain.

(** ** Loads after the statement groups *)

Lemma if_same (b : bool) (v : Z) : (if b then v else v) = v.
Proof. destruct b; reflexivity. Qed.

#[export] Hint Rewrite if_same : fields.

Ltac group_tac :=
  intros;
  unfold list_remove_free, list_insert_free, block_split, block_unlink; cbv zeta;
  autorewrite with fields;
  repeat match goal with |- context [?a =? ?b] => destruct (Z.eqb_spec a b) end;
  try reflexivity; try congruence; try lia.

Section Groups.
Context `{Target}.
Variables (heap x c new : Z) (s : state) (a hp : Z).

Lemma magic_list_remove_free : magic (items (list_remove_free x s) a) = magic (items s a).
Proof. group_tac. Qed.
Lemma pool_ptr_list_remove_free : pool_ptr (items (list_remove_free x s) a) = pool_ptr (items s a).
Proof. group_tac. Qed.
Lemma next_list_remove_free : next (items (list_remove_free x s) a) = next (items s a).
Proof. group_tac. Qed.
Lemma prev_list_remove_free : prev (items (list_remove_free x s) a) = prev (items s a).
Proof. group_tac. Qed.
Lemma next_free_list_remove_free :
  next_free (items (list_remove_free x s) a) =
  if a =? prev_free (items s x) then next_free (items s x) else next_free (items s a).
Proof. group_tac. Qed.
Lemma prev_free_list_remove_free :
  prev_free (items (list_remove_free x s) a) =
  if a =? next_free (items s x) then prev_free (items s x) else prev_free (items s a).
Proof. group_tac. Qed.
Lemma hget_list_remove_free : hget (list_remove_free x s) hp = hget s hp.
Proof. reflexivity. Qed.
Lemma is_memheap_list_remove_free : is_memheap (list_remove_free x s) hp = is_memheap s hp.
Proof. reflexivity. Qed.
Lemma magic_list_insert_free : magic (items (list_insert_free heap x s) a) = magic (items s a).
Proof. group_tac. Qed.
Lemma pool_ptr_list_insert_free : pool_ptr (items (list_insert_free heap x s) a) = pool_ptr (items s a).
Proof. group_tac. Qed.
Lemma next_list_insert_free : next (items (list_insert_free heap x s) a) = next (items s a).
Proof. group_tac. Qed.
Lemma prev_list_insert_free : prev (items (list_insert_free heap x s) a) = prev (items s a).
Proof. group_tac. Qed.
Lemma next_free_list_insert_free :
  next_free (items (list_insert_free heap x s) a) =
  if a =? free_list (hget s heap) then x
  else if a =? x then next_free (items s (free_list (hget s heap))) else next_free (items s a).
Proof. group_tac. Qed.
Lemma prev_free_list_insert_free :
  prev_free (items (list_insert_free heap x s) a) =
  if a =? next_free (items s (free_list (hget s heap))) then x
  else if a =? x then free_list (hget s heap) else prev_free (items s a).
Proof. group_tac. Qed.
Lemma hget_list_insert_free : hget (list_insert_free heap x s) hp = hget s hp.
Proof. reflexivity. Qed.
Lemma is_memheap_list_insert_free : is_memheap (list_insert_free heap x s) hp = is_memheap s hp.
Proof. reflexivity. Qed.
Lemma magic_block_split : magic (items (block_split c new s) a) = magic (items s a).
Proof. group_tac. Qed.
Lemma pool_ptr_block_split : pool_ptr (items (block_split c new s) a) = pool_ptr (items s a).
Proof. group_tac. Qed.
Lemma next_block_split :
  next (items (block_split c new s) a) =
  if a =? c then new else if a =? new then next (items s c) else next (items s a).
Proof. group_tac. Qed.
Lemma prev_block_split :
  prev (items (block_split c new s) a) =
  if a =? next (items s c) then new else if a =? new then c else prev (items s a).
Proof. group_tac. Qed.
Lemma next_free_block_split : next_free (items (block_split c new s) a) = next_free (items s a).
Proof. group_tac. Qed.
Lemma prev_free_block_split : prev_free (items (block_split c new s) a) = prev_free (items s a).
Proof. group_tac. Qed.
Lemma hget_block_split : hget (block_split c new s) hp = hget s hp.
Proof. reflexivity. Qed.
Lemma is_memheap_block_split : is_memheap (block_split c new s) hp = is_memheap s hp.
Proof. reflexivity. Qed.
Lemma magic_block_unlink : magic (items (block_unlink x s) a) = magic (items s a).
Proof. group_tac. Qed.
Lemma pool_ptr_block_unlink : pool_ptr (items (block_unlink x s) a) = pool_ptr (items s a).
Proof. group_tac. Qed.
Lemma next_block_unlink :
  next (items (block_unlink x s) a) =
  if a =? prev (items s x) then next (items s x) else next (items s a).
Proof. group_tac. Qed.
Lemma prev_block_unlink :
  prev (items (block_unlink x s) a) =
  if a =? next (items s x) then prev (items s x) else prev (items s a).
Proof. group_tac. Qed.
Lemma next_free_block_unlink : next_free (items (block_unlink x s) a) = next_free (items s a).
Proof. group_tac. Qed.
Lemma prev_free_block_unlink : prev_free (items (block_unlink x s) a) = prev_free (items s a).
Proof. group_tac. Qed.
Lemma hget_block_unlink : hget (block_unlink x s) hp = hget s hp.
Proof. reflexivity. Qed.
Lemma is_memheap_block_unlink : is_memheap (block_unlink x s) hp = is_memheap s hp.
Proof. reflexivity. Qed.

End Groups.

Section MaxUsed.
Context `{Target}.
Variables (heap : Z) (s : state).

Lemma items_update_max_used : items (update_max_used heap s) = items s.
Proof. unfold update_max_used. destruct (_ <? _); reflexivity. Qed.
Lemma is_memheap_update_max_used :
  is_memheap s heap = true -> is_memheap (update_max_used heap s) heap = true.
Proof.
  unfold update_max_used. destruct (_ <? _); [|auto]. intros _.
  apply is_memheap_set_max_used_size.
Qed.
Lemma start_addr_update_max_used :
  start_addr (hget (update_max_used heap s) heap) = start_addr (hget s heap).
Proof. unfold update_max_used. destruct (_ <? _); autorewrite with fields; reflexivity. Qed.
Lemma pool_size_update_max_used :
  pool_size (hget (update_max_used heap s) heap) = pool_size (hget s heap).
Proof. unfold update_max_used. destruct (_ <? _); autorewrite with fields; reflexivity. Qed.
Lemma available_size_update_max_used :
  available_size (hget (update_max_used heap s) heap) = available_size (hget s heap).
Proof. unfold update_max_used. destruct (_ <? _); autorewrite with fields; reflexivity. Qed.
Lemma block_list_update_max_used :
  block_list (hget (update_max_used heap s) heap) = block_list (hget s heap).
Proof. unfold update_max_used. destruct (_ <? _); autorewrite with fields; reflexivity. Qed.
Lemma free_list_update_max_used :
  free_list (hget (update_max_used heap s) heap) = free_list (hget s heap).
Proof. unfold update_max_used. destruct (_ <? _); autorewrite with fields; reflexivity. Qed.
Lemma lock_update_max_used :
  lock (hget (update_max_used heap s) heap) = lock (hget s heap).
Proof. unfold update_max_used. destruct (_ <? _); autorewrite with fields; reflexivity. Qed.

(** After the update the high-water mark covers the current use. *)
Lemma max_used_update_max_used :
  0 <= max_used_size (hget s heap) < wB ->
  0 <= pool_size (hget s heap) - available_size (hget s heap) < wB ->
  pool_size (hget s heap) - available_size (hget s heap)
    <= max_used_size (hget (update_max_used heap s) heap) < wB /\
  max_used_size (hget s heap) <= max_used_size (hget (update_max_used heap s) heap).
Proof.
  intros Hm Hu. unfold update_max_used. rewrite wrap_small by lia.
  destruct (Z.ltb_spec (max_used_size (hget s heap))
              (pool_size (hget s heap) - available_size (hget s heap)));
    autorewrite with fields; lia.
Qed.

End MaxUsed.

#[export] Hint Rewrite
  @items_update_max_used @start_addr_update_max_used @pool_size_update_max_used
  @available_size_update_max_used @block_list_update_max_used
  @free_list_update_max_used @lock_update_max_used : fields.

#[export] Hint Rewrite
  @magic_list_remove_free
  @pool_ptr_list_remove_free
  @next_list_remove_free
  @prev_list_remove_free
  @next_free_list_remove_free
  @prev_free_list_remove_free
  @hget_list_remove_free
  @is_memheap_list_remove_free
  @magic_list_insert_free
  @pool_ptr_list_insert_free
  @next_list_insert_free
  @prev_list_insert_free
  @next_free_list_insert_free
  @prev_free_list_insert_free
  @hget_list_insert_free
  @is_memheap_list_insert_free
  @magic_block_split
  @pool_ptr_block_split
  @next_block_split
  @prev_block_split
  @next_free_block_split
  @prev_free_block_split
  @hget_block_split
  @is_memheap_block_split
  @magic_block_unlink
  @pool_ptr_block_unlink
  @next_block_unlink
  @prev_block_unlink
  @next_free_block_unlink
  @prev_free_block_unlink
  @hget_block_unlink
  @is_memheap_block_unlink
  : fields.

(** ** Consequences of the pool invariant *)

Section Gapped.
Variable d : Z.
Hypothesis Hd : 0 < d.

Let G := fun a b : Z => a + d <= b.

Lemma gapped_after a l : chain G (a :: l) -> forall x, In x l -> a + d <= x.
Proof.
  revert a. induction l as [|b l IH]; intros a Hc x Hx; [destruct Hx|].
  apply chain_cons in Hc as [Hab Hc]. unfold G in Hab.
  destruct Hx as [<-|Hx]; [exact Hab|].
  specialize (IH b Hc x Hx). lia.
Qed.

Lemma gapped_before l a : chain G (l ++ [a]) -> forall x, In x l -> x + d <= a.
Proof.
  induction l as [|b l IH]; intros Hc x Hx; [destruct Hx|].
  change ((b :: l) ++ [a]) with (b :: (l ++ [a])) in Hc.
  destruct Hx as [<-|Hx].
  - apply (gapped_after _ _ Hc). apply in_app_iff. simpl. auto.
  - apply IH; auto. apply (chain_tail _ _ _ Hc).
Qed.

Lemma gapped_split l1 a l2 :
  chain G (l1 ++ a :: l2) ->
  (forall x, In x l1 -> x + d <= a) /\ (forall x, In x l2 -> a + d <= x).
Proof.
  intros Hc. apply chain_app in Hc as [H1 H2]. split.
  - apply gapped_before; auto.
  - apply gapped_after; auto.
Qed.

Lemma gapped_NoDup l : chain G l -> List.NoDup l.
Proof.
  induction l as [|a l IH]; intros Hc; constructor.
  - intros Hin. pose proof (gapped_after _ _ Hc a Hin). lia.
  - apply IH. apply (chain_tail _ _ _ Hc).
Qed.

Lemma gapped_length l lo hi :
  chain G l -> (forall x, In x l -> lo <= x < hi) -> Z.of_nat (length l) <= Z.max 0 (hi - lo).
Proof.
  revert lo. induction l as [|a l IH]; intros lo Hc Hr; simpl length; [lia|].
  assert (lo <= a < hi) by (apply Hr; simpl; auto).
  specialize (IH (a + 1) (chain_tail _ _ _ Hc)).
  assert (Z.of_nat (length l) <= Z.max 0 (hi - (a + 1))).
  { apply IH. intros x Hx. pose proof (gapped_after _ _ Hc x Hx).
    assert (lo <= x < hi) by (apply Hr; simpl; auto). lia. }
  lia.
Qed.

End Gapped.

(** ** Sums over lists of blocks *)

Section Sums.
Implicit Types (w : Z -> Z) (l : list Z).

Lemma sumf_app w l1 l2 : sumf w (l1 ++ l2) = sumf w l1 + sumf w l2.
Proof. induction l1 as [|a l1 IH]; simpl; [reflexivity|]. rewrite IH. lia. Qed.

Lemma sumf_ext w w' l : (forall a, In a l -> w' a = w a) -> sumf w' l = sumf w l.
Proof.
  induction l as [|a l IH]; intros E; simpl; [reflexivity|].
  rewrite E by (simpl; auto). rewrite IH; auto. intros; apply E; simpl; auto.
Qed.

Lemma sumf_nonneg w l : (forall a, In a l -> 0 <= w a) -> 0 <= sumf w l.
Proof.
  induction l as [|a l IH]; intros E; simpl; [lia|].
  assert (0 <= w a) by (apply E; simpl; auto).
  assert (0 <= sumf w l) by (apply IH; intros; apply E; simpl; auto). lia.
Qed.

Lemma sumf_incl w l m :
  List.NoDup l -> (forall a, In a l -> In a m) -> (forall a, In a m -> 0 <= w a) ->
  sumf w l <= sumf w m.
Proof.
  revert m. induction l as [|a l IH]; intros m Hnd Hin Hw; simpl.
  - apply sumf_nonneg; auto.
  - apply NoDup_cons_iff in Hnd as [Ha Hnd].
    destruct (in_split a m) as (m1 & m2 & ->); [apply Hin; simpl; auto|].
    rewrite sumf_app. simpl.
    assert (sumf w l <= sumf w (m1 ++ m2)).
    { apply IH; auto.
      - intros b Hb. assert (In b (m1 ++ a :: m2)) by (apply Hin; simpl; auto).
        rewrite in_app_iff in *. simpl in *.
        destruct H as [?|[<-|?]]; tauto.
      - intros b Hb. apply Hw. rewrite in_app_iff in *. simpl. tauto. }
    rewrite sumf_app in H. lia.
Qed.

(** Along a path the steps add up to the distance of its ends. *)
Lemma seg_telescope f g a l z :
  seg f g a l z -> sumf (fun x => f x - x) (a :: l) = z - a.
Proof.
  revert a. induction l as [|b l IH]; intros a; simpl.
  - intros [-> _]. lia.
  - intros (Hf & _ & Hs). specialize (IH b Hs). simpl in IH. lia.
Qed.

End Sums.

Section PhysFacts.
Context {d st T : Z} {bs : list Z} {nx pv : Z -> Z}.
Hypothesis Hd : 0 < d.
Hypothesis PO : phys_ok d st T bs nx pv.

Lemma po_range a : In a bs -> st <= a /\ a + d <= T.
Proof.
  intros Ha. pose proof (po_gapped _ _ _ _ _ _ PO) as Hg.
  pose proof (po_first _ _ _ _ _ _ PO) as Hf.
  split.
  - destruct bs as [|b l]; [destruct Ha|]. simpl in Hf. injection Hf as ->.
    destruct Ha as [<-|Ha]; [lia|].
    change ((st :: l) ++ [T]) with (st :: (l ++ [T])) in Hg.
    pose proof (gapped_after _ Hd _ _ Hg a) as Hx. rewrite in_app_iff in Hx.
    specialize (Hx (or_introl Ha)). lia.
  - apply (gapped_before _ Hd _ _ Hg a Ha).
Qed.

Lemma po_start_in : In st bs.
Proof.
  pose proof (po_first _ _ _ _ _ _ PO). destruct bs; [discriminate|].
  simpl in *. left. congruence.
Qed.

Lemma po_tailer_notin : ~ In T bs.
Proof. intros Hin. pose proof (po_range _ Hin). lia. Qed.

Lemma po_NoDup : List.NoDup (T :: bs).
Proof.
  constructor; [apply po_tailer_notin|].
  pose proof (po_gapped _ _ _ _ _ _ PO) as Hg.
  apply (gapped_NoDup _ Hd) in Hg. apply NoDup_app_remove_r in Hg. exact Hg.
Qed.

Lemma po_neighbours l1 a l2 :
  bs = l1 ++ a :: l2 ->
  nx a = hd T l2 /\ pv (hd T l2) = a /\ pv a = last_of T l1 /\ nx (last_of T l1) = a.
Proof.
  intros E. pose proof (po_seg _ _ _ _ _ _ PO) as Hp. rewrite E in Hp.
  apply seg_app in Hp as [H1 H2].
  apply seg_last in H1 as [H1a H1b]. apply seg_hd in H2 as [H2a H2b].
  auto.
Qed.

Lemma po_split_order l1 a l2 :
  bs = l1 ++ a :: l2 ->
  (forall x, In x l1 -> st <= x /\ x + d <= a) /\
  (forall x, In x l2 -> a + d <= x /\ x + d <= T).
Proof.
  intros E. pose proof (po_gapped _ _ _ _ _ _ PO) as Hg. rewrite E in Hg.
  rewrite <- app_assoc in Hg. change ((a :: l2) ++ [T]) with (a :: (l2 ++ [T])) in Hg.
  apply (gapped_split _ Hd) in Hg as [Hg1 Hg2]. split; intros x Hx.
  - split; [|apply Hg1; auto]. apply po_range. rewrite E. apply in_app_iff. auto.
  - split; [apply Hg2; apply in_app_iff; auto|].
    apply po_range. rewrite E. apply in_app_iff. simpl. auto.
Qed.

Lemma po_next_range a : In a bs -> a + d <= nx a <= T.
Proof.
  intros Ha. apply in_split in Ha as (l1 & l2 & E).
  pose proof (po_neighbours _ _ _ E) as (Hn & _). rewrite Hn.
  pose proof (po_split_order _ _ _ E) as [_ Ho].
  assert (In a bs) by (rewrite E; apply in_app_iff; simpl; auto).
  pose proof (po_range _ H).
  destruct l2 as [|b l2]; simpl; [lia|].
  specialize (Ho b (or_introl eq_refl)). lia.
Qed.

Lemma po_prev_tailer : pv st = T.
Proof.
  pose proof (po_first _ _ _ _ _ _ PO) as Hf. pose proof (po_seg _ _ _ _ _ _ PO) as Hp.
  clear PO. destruct bs as [|b l]; [discriminate|].
  simpl in Hf. injection Hf as ->. simpl in Hp. tauto.
Qed.

(** The spans of distinct blocks fit between the first block and the tailer. *)
Lemma po_sum_bound l :
  List.NoDup l -> (forall a, In a l -> In a bs) ->
  0 <= sumf (fun a => nx a - a - d) l /\
  sumf (fun a => nx a - a - d) l + d * Z.of_nat (length l) <= T - st.
Proof.
  intros Hnd Hin.
  assert (Hspan : sumf (fun a => nx a - a) bs = T - st).
  { pose proof (po_seg _ _ _ _ _ _ PO) as Hp.
    pose proof (po_first _ _ _ _ _ _ PO) as Hf. clear Hin PO.
    destruct bs as [|b l0]; [discriminate|]. simpl in Hf. injection Hf as ->.
    simpl in Hp. destruct Hp as (_ & _ & Hp).
    apply (seg_telescope _ _ _ _ _ Hp). }
  assert (Hle : sumf (fun a => nx a - a) l <= sumf (fun a => nx a - a) bs).
  { apply sumf_incl; auto. intros a Ha. pose proof (po_next_range a Ha). lia. }
  assert (Heq : forall l', (forall a, In a l' -> In a bs) ->
            sumf (fun a => nx a - a) l' =
            sumf (fun a => nx a - a - d) l' + d * Z.of_nat (length l')).
  { induction l' as [|a l' IH]; intros Hl'; simpl sumf; simpl length; [lia|].
    rewrite IH by (intros; apply Hl'; simpl; auto). lia. }
  rewrite Heq in Hle by auto. split; [|lia].
  apply sumf_nonneg. intros a Ha. pose proof (po_next_range a (Hin a Ha)). lia.
Qed.

End PhysFacts.

(** *** Surgery on the physical list *)

Section PhysSurgery.
Context {d st T : Z} {nx pv nx' pv' : Z -> Z}.
Hypothesis Hd : 0 < d.

(** Splitting the block [c] at the address [new]. *)
Lemma phys_split l1 c l2 new :
  phys_ok d st T (l1 ++ c :: l2) nx pv ->
  c + d <= new -> new + d <= nx c ->
  (forall y, nx' y = if y =? c then new else if y =? new then nx c else nx y) ->
  (forall y, pv' y = if y =? nx c then new else if y =? new then c else pv y) ->
  phys_ok d st T (l1 ++ c :: new :: l2) nx' pv'.
Proof.
  intros PO Hlo Hhi Hnx Hpv.
  pose proof (po_neighbours PO l1 c l2 eq_refl) as (Hn & _).
  pose proof (po_split_order Hd PO l1 c l2 eq_refl) as [Ho1 Ho2].
  pose proof (po_NoDup Hd PO) as Hnd.
  pose proof (po_tailer_notin Hd PO) as HT.
  assert (Hc : In c (l1 ++ c :: l2)) by (apply in_app_iff; simpl; auto).
  pose proof (po_range Hd PO c Hc) as Hcr.
  pose proof (po_next_range Hd PO c Hc) as Hcn.
  destruct PO as [Hf Hg Hs].
  constructor.
  - destruct l1; simpl in *; auto.
  - rewrite <- app_assoc in Hg |- *.
    change ((c :: l2) ++ [T]) with (c :: (l2 ++ [T])) in Hg.
    change ((c :: new :: l2) ++ [T]) with (c :: new :: (l2 ++ [T])).
    apply chain_app in Hg as [Hg1 Hg2]. apply chain_app. split; [exact Hg1|].
    apply chain_cons. split; [exact Hlo|].
    destruct l2 as [|e l2]; simpl in Hn, Hg2 |- *.
    + split; [lia|auto].
    + split; [lia|]. tauto.
  - replace (l1 ++ c :: new :: l2) with ((l1 ++ [c]) ++ new :: l2)
      by (rewrite <- app_assoc; reflexivity).
    assert (E : (l1 ++ [c]) ++ l2 = l1 ++ c :: l2) by (rewrite <- app_assoc; reflexivity).
    assert (Hnew : ~ In new (T :: l1 ++ c :: l2)).
    { simpl. rewrite in_app_iff. simpl. intros [e|[Hin|[e|Hin]]].
      - lia.
      - specialize (Ho1 _ Hin). lia.
      - lia.
      - specialize (Ho2 _ Hin). destruct l2 as [|e l2]; [destruct Hin|].
        simpl in Hn. pose proof (Ho2' := Ho2).
        assert (nx c <= new).
        { rewrite Hn. destruct Hin as [<-|Hin]; [lia|].
          rewrite <- app_assoc in Hg.
          apply chain_app in Hg as [_ Hg].
          change ((c :: e :: l2) ++ [T]) with (c :: e :: (l2 ++ [T])) in Hg.
          apply chain_tail in Hg.
          pose proof (gapped_after _ Hd _ _ Hg new) as Hx.
          rewrite in_app_iff in Hx. specialize (Hx (or_introl Hin)). lia. }
        lia. }
    eapply (seg_insert nx pv nx' pv' T (l1 ++ [c]) new l2 T).
    + rewrite E. exact Hnd.
    + rewrite E. exact HT.
    + rewrite E. exact Hnew.
    + lia.
    + rewrite E. exact Hs.
    + intros y. rewrite last_of_snoc. apply Hnx.
    + intros y. rewrite last_of_snoc. apply Hpv.
Qed.

(** Unlinking the block [x], whose span goes to its predecessor. *)
Lemma phys_remove l1 x l2 :
  phys_ok d st T (l1 ++ x :: l2) nx pv -> l1 <> [] ->
  (forall y, nx' y = if y =? pv x then nx x else nx y) ->
  (forall y, pv' y = if y =? nx x then pv x else pv y) ->
  phys_ok d st T (l1 ++ l2) nx' pv'.
Proof.
  intros PO Hl1 Hnx Hpv.
  pose proof (po_split_order Hd PO l1 x l2 eq_refl) as [Ho1 Ho2].
  pose proof (po_NoDup Hd PO) as Hnd.
  pose proof (po_tailer_notin Hd PO) as HT.
  assert (Hc : In x (l1 ++ x :: l2)) by (apply in_app_iff; simpl; auto).
  pose proof (po_range Hd PO x Hc) as Hcr.
  destruct PO as [Hf Hg Hs].
  constructor.
  - destruct l1; [congruence|]. simpl in *; auto.
  - rewrite <- app_assoc in Hg |- *.
    change ((x :: l2) ++ [T]) with (x :: (l2 ++ [T])) in Hg.
    destruct (l2 ++ [T]) as [|e l3] eqn:E3; [destruct l2; discriminate|].
    apply chain_app in Hg as [Hg1 Hg2]. apply chain_cons in Hg2 as [Hxe Hg2].
    destruct (exists_last Hl1) as (l0 & q & ->).
    rewrite <- app_assoc. simpl.
    rewrite <- app_assoc in Hg1. simpl in Hg1.
    apply chain_app in Hg1 as [Hg0 Hg1]. apply chain_app. split; [exact Hg0|].
    apply chain_cons. split; [|exact Hg2].
    simpl in Hg1. lia.
  - eapply (seg_remove nx pv nx' pv' T l1 x l2 T); eauto.
Qed.

End PhysSurgery.

Section InvFacts.
Context `{Target} (OK : target_ok).
Context {heap : Z} {bs fl : list Z} {s : state}.
Hypothesis INV : heap_inv heap bs fl s.

Local Abbreviation HS := RT_MEMHEAP_SIZE.
Local Abbreviation st := (start_addr (hget s heap)).
Local Abbreviation tl := (tailer (hget s heap)).
Local Abbreviation fh := (free_list (hget s heap)).

Lemma HS_pos : 0 < HS.
Proof. pose proof (HSZ_bounds OK). lia. Qed.

Lemma inv_phys_ok :
  phys_ok HS st tl bs (fun a => next (items s a)) (fun a => prev (items s a)).
Proof. destruct INV. constructor; auto. Qed.

Lemma inv_bs_range a : In a bs -> st <= a /\ a + HS <= tl.
Proof. apply (po_range HS_pos inv_phys_ok). Qed.

Lemma inv_start_in : In st bs.
Proof. apply (po_start_in inv_phys_ok). Qed.

Lemma inv_pool_size : 2 * HS <= pool_size (hget s heap).
Proof. pose proof (inv_bs_range _ inv_start_in). unfold tailer in *. lia. Qed.

Lemma inv_tailer_notin : ~ In tl bs.
Proof. apply (po_tailer_notin HS_pos inv_phys_ok). Qed.

Lemma inv_bs_NoDup : List.NoDup (tl :: bs).
Proof. apply (po_NoDup HS_pos inv_phys_ok). Qed.

Lemma inv_fh_notin : ~ In fh bs.
Proof.
  intros Hin. pose proof (inv_bs_range _ Hin). pose proof HS_pos.
  pose proof (inv_sentinel _ _ _ _ INV). unfold tailer in *. lia.
Qed.

Lemma inv_fh_tailer : fh <> tl.
Proof.
  pose proof HS_pos. pose proof (inv_sentinel _ _ _ _ INV).
  pose proof inv_pool_size. unfold tailer in *. lia.
Qed.

Lemma inv_fl_bs a : In a fl -> In a bs.
Proof. intros Ha. apply (inv_fl _ _ _ _ INV) in Ha. tauto. Qed.

Lemma inv_fl_free a : In a fl -> is_free s a.
Proof. intros Ha. apply (inv_fl _ _ _ _ INV) in Ha. tauto. Qed.

Lemma inv_fh_notin_fl : ~ In fh fl.
Proof. intros Hin. apply inv_fh_notin. apply inv_fl_bs. exact Hin. Qed.

Lemma inv_fl_NoDup : List.NoDup (fh :: fl).
Proof. constructor; [apply inv_fh_notin_fl|apply (inv_fl_nodup _ _ _ _ INV)]. Qed.

(** The neighbours of a block in the physical list. *)
Lemma inv_neighbours l1 a l2 :
  bs = l1 ++ a :: l2 ->
  next (items s a) = hd tl l2 /\ prev (items s (hd tl l2)) = a /\
  prev (items s a) = last_of tl l1 /\ next (items s (last_of tl l1)) = a.
Proof. apply (po_neighbours inv_phys_ok). Qed.

Lemma inv_next_range a : In a bs -> a + HS <= next (items s a) <= tl.
Proof. apply (po_next_range HS_pos inv_phys_ok). Qed.

Lemma inv_payload_range a :
  In a bs -> 0 <= payload s a /\ a + HS + payload s a <= tl.
Proof. intros Ha. pose proof (inv_next_range _ Ha). unfold payload. lia. Qed.

Lemma inv_addr_range a : In a bs -> 0 < a /\ a + 2 * HS <= wB.
Proof.
  intros Ha. pose proof (inv_bs_range _ Ha). pose proof (inv_region _ _ _ _ INV).
  unfold tailer in *. lia.
Qed.

Lemma inv_tailer_range : 0 < tl /\ tl + HS <= wB.
Proof.
  pose proof (inv_bs_range _ inv_start_in). pose proof (inv_region _ _ _ _ INV).
  pose proof HS_pos. unfold tailer in *. lia.
Qed.

(** [MEMITEM_SIZE] is the payload of a block of the list. *)
Lemma inv_MEMITEM_SIZE a : In a bs -> MEMITEM_SIZE s a = payload s a.
Proof.
  intros Ha. pose proof (inv_payload_range _ Ha). pose proof (inv_addr_range _ Ha).
  pose proof (inv_bs_range _ Ha). pose proof (inv_region _ _ _ _ INV).
  pose proof HS_pos.
  unfold MEMITEM_SIZE, payload in *. unfold tailer in *. rewrite wB_eq in *.
  wrap_lia. reflexivity.
Qed.

Lemma sum_payload_sumf l : sum_payload s l = sumf (payload s) l.
Proof. reflexivity. Qed.

Lemma sum_payload_app l1 l2 :
  sum_payload s (l1 ++ l2) = sum_payload s l1 + sum_payload s l2.
Proof. apply sumf_app. Qed.

Lemma inv_avail_range :
  0 <= available_size (hget s heap) /\
  available_size (hget s heap) + HS <= pool_size (hget s heap) - HS.
Proof.
  rewrite (inv_avail _ _ _ _ INV).
  destruct (po_sum_bound HS_pos inv_phys_ok fl
              (inv_fl_nodup _ _ _ _ INV) inv_fl_bs) as [H1 H2].
  change (sumf (fun a => next (items s a) - a - HS) fl) with (sum_payload s fl) in *.
  unfold tailer in H2. split; [exact H1|].
  pose proof inv_pool_size. pose proof HS_pos.
  assert (Z.of_nat (length fl) = 0 \/ 1 <= Z.of_nat (length fl)) as [E|E] by lia.
  - assert (E' : fl = []) by (apply length_zero_iff_nil; lia).
    rewrite E'. simpl. lia.
  - nia.
Qed.

(** The free payloads and one more block fit between the first header and
    the tailer. *)
Lemma inv_avail_with a :
  In a bs -> ~ In a fl ->
  available_size (hget s heap) + payload s a + HS <= tl - st.
Proof.
  intros Ha Hna. rewrite (inv_avail _ _ _ _ INV).
  assert (Hnd : List.NoDup (a :: fl))
    by (constructor; [exact Hna|apply (inv_fl_nodup _ _ _ _ INV)]).
  assert (Hin : forall x, In x (a :: fl) -> In x bs)
    by (intros x [<-|Hx]; [exact Ha|apply inv_fl_bs; exact Hx]).
  destruct (po_sum_bound HS_pos inv_phys_ok (a :: fl) Hnd Hin) as [_ H2].
  change (sumf (fun a => next (items s a) - a - HS) (a :: fl))
    with (payload s a + sum_payload s fl) in H2.
  pose proof HS_pos. simpl length in H2. nia.
Qed.

Lemma inv_used_notin_fl a : is_used s a -> ~ In a fl.
Proof.
  intros Hu Hin. apply (inv_fl _ _ _ _ INV) in Hin as [_ Hf].
  unfold is_free, is_used in *. rewrite Hu in Hf. discriminate.
Qed.

(** Blocks do not overlap: an address of the list inside a block is that
    block's header. *)
Lemma inv_block_at a c :
  In a bs -> In c bs -> c <= a -> a < next (items s c) -> a = c.
Proof.
  intros Ha Hc Hle Hlt. destruct (in_split _ _ Hc) as (l1 & l2 & E).
  pose proof (po_split_order HS_pos inv_phys_ok l1 c l2 E) as [Ho1 Ho2].
  pose proof (inv_neighbours l1 c l2 E) as (Hn & _).
  pose proof HS_pos.
  rewrite E in Ha. apply in_app_iff in Ha as [Ha|[Ha|Ha]].
  - specialize (Ho1 _ Ha). lia.
  - auto.
  - destruct l2 as [|e l2]; [destruct Ha|]. cbn [hd] in Hn.
    destruct Ha as [<-|Ha]; [lia|].
    assert (E2 : bs = (l1 ++ [c]) ++ e :: l2) by (rewrite <- app_assoc; exact E).
    pose proof (po_split_order HS_pos inv_phys_ok _ e l2 E2) as [_ Ho3].
    specialize (Ho3 _ Ha). lia.
Qed.

Lemma inv_notin_fl_used a : In a bs -> ~ In a fl -> is_used s a.
Proof.
  intros Ha Hn. destruct (inv_magic _ _ _ _ INV a Ha) as [Hf|Hu]; [|exact Hu].
  exfalso. apply Hn. apply (inv_fl _ _ _ _ INV). auto.
Qed.

Lemma inv_avail_split flA r flB :
  fl = flA ++ r :: flB ->
  available_size (hget s heap) = payload s r + sum_payload s (flA ++ flB) /\
  0 <= sum_payload s (flA ++ flB).
Proof.
  intros E. rewrite (inv_avail _ _ _ _ INV). split.
  - rewrite E, !sum_payload_app. simpl. lia.
  - apply sumf_nonneg. intros a Ha. apply inv_payload_range. apply inv_fl_bs.
    rewrite E. rewrite in_app_iff in *. simpl. tauto.
Qed.

Lemma inv_is_used_false a : is_free s a -> RT_MEMHEAP_IS_USED s a = false.
Proof. unfold is_free, RT_MEMHEAP_IS_USED. intros ->. reflexivity. Qed.

Lemma inv_is_used_true a : is_used s a -> RT_MEMHEAP_IS_USED s a = true.
Proof. unfold is_used, RT_MEMHEAP_IS_USED. intros ->. reflexivity. Qed.

Lemma free_not_used a : is_free s a -> is_used s a -> False.
Proof. unfold is_free, is_used. intros -> E. discriminate. Qed.

End InvFacts.

(** The invariant stated on the six field maps of a state. *)
Section Intro.
Context `{Target}.

Lemma heap_inv_intro heap bs fl s (mg pl nx pv nf pf : Z -> Z) :
  (forall a, magic (items s a) = mg a) ->
  (forall a, pool_ptr (items s a) = pl a) ->
  (forall a, next (items s a) = nx a) ->
  (forall a, prev (items s a) = pv a) ->
  (forall a, next_free (items s a) = nf a) ->
  (forall a, prev_free (items s a) = pf a) ->
  heap <> RT_NULL ->
  is_memheap s heap = true ->
  lock (hget s heap) = 1 ->
  block_list (hget s heap) = start_addr (hget s heap) ->
  0 < start_addr (hget s heap) /\
    start_addr (hget s heap) + pool_size (hget s heap) <= wB ->
  0 <= free_list (hget s heap) < wB /\
    (free_list (hget s heap) + RT_MEMHEAP_SIZE <= start_addr (hget s heap) \/
     start_addr (hget s heap) + pool_size (hget s heap) <= free_list (hget s heap)) ->
  phys_ok RT_MEMHEAP_SIZE (start_addr (hget s heap)) (tailer (hget s heap)) bs nx pv ->
  (forall a, In a bs ->
     mg a = RT_MEMHEAP_MAGIC \/ mg a = Z.lor RT_MEMHEAP_MAGIC RT_MEMHEAP_USED) ->
  mg (tailer (hget s heap)) = Z.lor RT_MEMHEAP_MAGIC RT_MEMHEAP_USED ->
  (forall a, In a bs -> pl a = heap) ->
  (forall a, In a fl <-> In a bs /\ mg a = RT_MEMHEAP_MAGIC) ->
  List.NoDup fl ->
  seg nf pf (free_list (hget s heap)) fl (free_list (hget s heap)) ->
  chain (fun a b => ~ (mg a = RT_MEMHEAP_MAGIC /\ mg b = RT_MEMHEAP_MAGIC)) bs ->
  available_size (hget s heap) = sumf (fun a => nx a - a - RT_MEMHEAP_SIZE) fl ->
  pool_size (hget s heap) - available_size (hget s heap)
    <= max_used_size (hget s heap) < wB ->
  (RT_MEMHEAP_MINIALLOC mod RT_ALIGN_SIZE = 0 ->
   forall a, In a bs -> (a - start_addr (hget s heap)) mod RT_ALIGN_SIZE = 0) ->
  heap_inv heap bs fl s.
Proof.
  intros Hmg Hpl Hnx Hpv Hnf Hpf ? ? ? ? ? ? PO Hm Ht Hp Hfl Hnd Hfr Hco Hav Hmu Hal.
  destruct PO as [Hf Hg Hs].
  constructor; auto.
  - eapply seg_ext; [| |exact Hs]; auto.
  - intros a Ha. unfold is_free, is_used. rewrite Hmg. auto.
  - unfold is_used. rewrite Hmg. exact Ht.
  - intros a Ha. rewrite Hpl. auto.
  - intros a. unfold is_free. rewrite Hmg. apply Hfl.
  - eapply seg_ext; [| |exact Hfr]; auto.
  - eapply chain_mono; [|exact Hco]. intros a b _ _. unfold is_free. rewrite !Hmg. auto.
  - rewrite Hav. unfold sum_payload. apply sumf_ext. intros a _. unfold payload.
    rewrite Hnx. reflexivity.
Qed.

End Intro.

(** ** Soundness of the executable invariant check *)

Section Checker.
Context `{Target}.

Lemma seg_b_sound f g l : forall a z, seg_b f g a l z = true -> seg f g a l z.
Proof.
  induction l as [|b l IH]; intros a z; simpl.
  - rewrite andb_true_iff, !Z.eqb_eq. tauto.
  - rewrite !andb_true_iff, !Z.eqb_eq. intros [[? ?] ?]. auto.
Qed.

Lemma chain_b_sound (R : Z -> Z -> Prop) (Rb : Z -> Z -> bool) l :
  (forall a b, Rb a b = true -> R a b) -> chain_b Rb l = true -> chain R l.
Proof.
  intros HR. induction l as [|a l IH]; simpl; [auto|].
  rewrite andb_true_iff. intros [Hh Ht]. split; [|auto].
  destruct l; auto.
Qed.

Lemma mem_b_In a l : mem_b a l = true <-> In a l.
Proof.
  unfold mem_b. rewrite existsb_exists. split.
  - intros (x & Hx & E). apply Z.eqb_eq in E. subst. exact Hx.
  - intros Hx. exists a. split; [exact Hx|apply Z.eqb_refl].
Qed.

Lemma nodup_b_sound l : nodup_b l = true -> List.NoDup l.
Proof.
  induction l as [|a l IH]; simpl; [constructor|].
  rewrite andb_true_iff, negb_true_iff. intros [Hn Ht].
  constructor; [|auto]. rewrite <- mem_b_In. congruence.
Qed.

Lemma free_b_spec s a : free_b s a = true <-> is_free s a.
Proof. apply Z.eqb_eq. Qed.

Lemma used_b_spec s a : used_b s a = true <-> is_used s a.
Proof. apply Z.eqb_eq. Qed.

Lemma heap_inv_b_sound heap bs fl s :
  heap_inv_b heap bs fl s = true -> heap_inv heap bs fl s.
Proof.
  unfold heap_inv_b. cbv zeta. rewrite !andb_true_iff.
  intros [[[[[[[[[[[[[[[[[[[[[[[H1 H2] H3] H4] H5] H6] H7] H8] H9] H10] H11] H12] H13] H14] H15] H16] H17] H18] H19] H20] H21] H22] H23] H24].
  rewrite forallb_forall in H13, H15, H16, H17.
  constructor.
  - apply negb_true_iff, Z.eqb_neq in H1. exact H1.
  - exact H2.
  - apply Z.eqb_eq. exact H3.
  - apply Z.eqb_eq. exact H4.
  - destruct bs as [|a l]; [discriminate|]. apply Z.eqb_eq in H5. simpl. congruence.
  - apply Z.ltb_lt in H6. apply Z.leb_le in H7. auto.
  - apply Z.leb_le in H8. apply Z.ltb_lt in H9. apply orb_true_iff in H10.
    rewrite !Z.leb_le in H10. auto.
  - revert H11. apply chain_b_sound. intros a b. apply Z.leb_le.
  - apply seg_b_sound. exact H12.
  - intros a Ha. specialize (H13 a Ha). apply orb_true_iff in H13.
    rewrite free_b_spec, used_b_spec in H13. exact H13.
  - apply used_b_spec. exact H14.
  - intros a Ha. apply Z.eqb_eq. auto.
  - intros a. split.
    + intros Ha. specialize (H16 a Ha). apply andb_true_iff in H16.
      rewrite mem_b_In, free_b_spec in H16. exact H16.
    + intros [Ha Hf]. specialize (H17 a Ha). apply orb_true_iff in H17.
      apply free_b_spec in Hf. rewrite Hf in H17. apply mem_b_In.
      destruct H17; [discriminate|assumption].
  - apply nodup_b_sound. exact H18.
  - apply seg_b_sound. exact H19.
  - revert H20. apply chain_b_sound. intros a b.
    rewrite negb_true_iff, andb_false_iff, <- !not_true_iff_false, !free_b_spec. tauto.
  - apply Z.eqb_eq. exact H21.
  - apply Z.leb_le in H22. apply Z.ltb_lt in H23. auto.
  - intros Hm a Ha. apply orb_true_iff in H24. destruct H24 as [H24|H24].
    + apply negb_true_iff, Z.eqb_neq in H24. contradiction.
    + rewrite forallb_forall in H24. apply Z.eqb_eq. auto.
Qed.

End Checker.

Example ex32_init_inv : @heap_inv target32 ex_heap [0x1000] [0x1000] ex32_init.
Proof. apply heap_inv_b_sound. vm_compute. reflexivity. Qed.

Example ex32_alloc_inv : @heap_inv target32 ex_heap [0x1000; 0x107C] [0x107C] ex32_alloc.
Proof. apply heap_inv_b_sound. vm_compute. reflexivity. Qed.

(** ** rt_memheap_init *)

Section InitInv.
Context `{Target} (OK : target_ok).

Lemma align_le_HSZ : RT_ALIGN_SIZE <= RT_MEMHEAP_SIZE.
Proof.
  pose proof (HSZ_bounds OK) as HH. pose proof (align_pos OK).
  pose proof (HSZ_spec OK) as [HH1 HH2].
  apply Z.mod_divide in HH2; [|lia]. destruct HH2 as [q Hq].
  assert (0 < q) by nia. nia.
Qed.

Lemma hget_init_tailer memheap start item s hp :
  hget (init_tailer memheap start item s) hp = hget s hp.
Proof. reflexivity. Qed.

Lemma init_fields memheap start size s :
  memheap <> RT_NULL ->
  0 <= start -> 0 <= size < wB -> start + size <= wB ->
  3 * RT_MEMHEAP_SIZE + RT_MEMHEAP_MINIALLOC <= size ->
  let fh := free_header_of memheap in
  let psz := size - size mod RT_ALIGN_SIZE in
  let av := psz - 2 * RT_MEMHEAP_SIZE in
  let tl := start + RT_MEMHEAP_SIZE + av in
  (fh + RT_MEMHEAP_SIZE <= start \/ start + size <= fh) ->
  exists s',
    rt_memheap_init memheap start size s = Some s' /\
    hget s' memheap = mk_heap start psz av (2 * RT_MEMHEAP_SIZE) start fh 1 /\
    items s' start = mk_item RT_MEMHEAP_MAGIC memheap tl tl fh fh /\
    items s' tl = mk_item (Z.lor RT_MEMHEAP_MAGIC RT_MEMHEAP_USED) memheap start start 0 0 /\
    items s' fh = mk_item RT_MEMHEAP_MAGIC memheap 0 0 start start /\
    is_memheap s' memheap = true.
Proof.
  intros Hn Hs Hsz Hreg Hbig fh psz av tl Hfh.
  pose proof (HSZ_bounds OK) as HH. pose proof (align_pos OK). pose proof align_le_HSZ.
  assert (Hmod : 0 <= size mod RT_ALIGN_SIZE < RT_ALIGN_SIZE)
    by (apply Z.mod_pos_bound; lia).
  unfold RT_MEMHEAP_MINIALLOC in *.
  unfold rt_memheap_init. rewrite (proj2 (Z.eqb_neq _ _) Hn). cbv zeta.
  eexists. split; [reflexivity|].
  set (s0 := init_pool memheap start size (rt_object_init memheap s)).
  assert (Hh0 : hget s0 memheap = mk_heap start psz av (2 * RT_MEMHEAP_SIZE)
                 (block_list (hget s memheap)) (free_list (hget s memheap))
                 (lock (hget s memheap))).
  { subst s0. rewrite init_pool_hget by (auto; lia).
    rewrite hget_rt_object_init. reflexivity. }
  clearbody s0.
  set (sA := init_free_header memheap s0).
  assert (HA : hget sA memheap = mk_heap start psz av (2 * RT_MEMHEAP_SIZE)
                 (block_list (hget s memheap)) fh (lock (hget s memheap))).
  { subst sA. rewrite init_free_header_hget, Hh0. reflexivity. }
  assert (HAi : forall a, items sA a =
            if a =? fh then mk_item RT_MEMHEAP_MAGIC memheap 0 0 fh fh else items s0 a).
  { intros a. subst sA. apply init_free_header_items. }
  clearbody sA.
  set (sB := init_first_block memheap start sA).
  assert (HB : hget sB memheap = mk_heap start psz av (2 * RT_MEMHEAP_SIZE)
                 start fh (lock (hget s memheap))).
  { subst sB. rewrite init_first_block_hget, HA. reflexivity. }
  assert (Htl : tl = start + av + RT_MEMHEAP_SIZE) by (subst tl; lia).
  assert (HBi : forall a, items sB a =
            if a =? start then mk_item RT_MEMHEAP_MAGIC memheap tl tl start start
            else items sA a).
  { intros a. subst sB. rewrite init_first_block_items; auto;
      rewrite HA; cbn [available_size]; rewrite ?Htl; try reflexivity;
      subst av psz; rewrite ?wB_eq in *; lia. }
  clearbody sB.
  set (sC := list_insert_free memheap start sB).
  assert (HC : hget sC memheap = hget sB memheap)
    by (subst sC; apply hget_list_insert_free).
  assert (Hsf : start <> fh) by lia.
  assert (HCi : forall a, items sC a =
            if a =? start then mk_item RT_MEMHEAP_MAGIC memheap tl tl fh fh
            else if a =? fh then mk_item RT_MEMHEAP_MAGIC memheap 0 0 start start
            else items sB a).
  { intros a. subst sC. rewrite list_insert_free_items. cbv zeta.
    rewrite HB. cbn [free_list]. rewrite !HBi, !HAi.
    rewrite (proj2 (Z.eqb_neq fh start)) by lia. rewrite (Z.eqb_refl fh).
    cbn [next_free].
    destruct (Z.eqb_spec a start) as [->|Hne1].
    - rewrite (proj2 (Z.eqb_neq start fh)) by lia. reflexivity.
    - destruct (Z.eqb_spec a fh) as [->|Hne2]; [reflexivity|].
      destruct (items s0 a); reflexivity. }
  clearbody sC.
  rewrite (HCi start), Z.eqb_refl. cbn [next].
  assert (Hts : tl <> start) by (subst tl av psz; lia).
  assert (Htf : tl <> fh) by (subst tl av psz; lia).
  split.
  { unfold rt_sem_init. heap_fields; autorewrite with fields; try reflexivity;
      rewrite hget_init_tailer, HC, HB; reflexivity. }
  unfold rt_sem_init. rewrite !items_set_lock, !init_tailer_items, !HCi.
  rewrite !Z.eqb_refl.
  rewrite (proj2 (Z.eqb_neq start tl)) by lia.
  rewrite (proj2 (Z.eqb_neq fh tl)) by lia.
  rewrite (proj2 (Z.eqb_neq fh start)) by lia.
  repeat split. apply is_memheap_set_lock.
Qed.

(** A pool built by [rt_memheap_init] satisfies the invariant with the big
    block as its only block. *)
Lemma init_inv memheap start size s :
  memheap <> RT_NULL ->
  0 < start -> 0 <= size < wB -> start + size <= wB ->
  3 * RT_MEMHEAP_SIZE + RT_MEMHEAP_MINIALLOC <= size ->
  (free_header_of memheap + RT_MEMHEAP_SIZE <= start \/
   start + size <= free_header_of memheap) ->
  exists s', rt_memheap_init memheap start size s = Some s' /\
             heap_inv memheap [start] [start] s'.
Proof.
  intros Hn Hs Hsz Hreg Hbig Hfh.
  destruct (init_fields memheap start size s Hn ltac:(lia) Hsz Hreg Hbig Hfh)
    as (s' & Hinit & Hh & Hi1 & Hi2 & Hi3 & Hm).
  exists s'. split; [exact Hinit|].
  pose proof (HSZ_bounds OK) as HH. pose proof (align_pos OK). pose proof align_le_HSZ.
  assert (Hmod : 0 <= size mod RT_ALIGN_SIZE < RT_ALIGN_SIZE)
    by (apply Z.mod_pos_bound; lia).
  unfold RT_MEMHEAP_MINIALLOC in *.
  set (fh := free_header_of memheap) in *.
  set (psz := size - size mod RT_ALIGN_SIZE) in *.
  set (av := psz - 2 * RT_MEMHEAP_SIZE) in *.
  set (tl := start + RT_MEMHEAP_SIZE + av) in *.
  assert (Htl : tailer (hget s' memheap) = tl).
  { rewrite Hh. unfold tailer. cbn [start_addr pool_size]. subst tl av. lia. }
  assert (Hfr : 0 <= fh < wB) by apply wrap_range.
  constructor; rewrite ?Htl, ?Hh; cbn [start_addr pool_size available_size
    max_used_size block_list free_list lock]; auto.
  - subst psz. rewrite wB_eq in *. lia.
  - split; [exact Hfr|]. subst psz. lia.
  - simpl. subst tl av psz. lia.
  - simpl. rewrite Hi1, Hi2. cbn. auto.
  - intros a [<-|[]]. left. unfold is_free. rewrite Hi1. reflexivity.
  - unfold is_used. rewrite Hi2. reflexivity.
  - intros a [<-|[]]. rewrite Hi1. reflexivity.
  - intros a. split.
    + intros [<-|[]]. split; [left; reflexivity|]. unfold is_free. rewrite Hi1. reflexivity.
    + tauto.
  - repeat constructor. simpl. tauto.
  - simpl. rewrite Hi1, Hi3. cbn. auto.
  - simpl. auto.
  - unfold sum_payload, payload. simpl. rewrite Hi1. cbn. subst tl. lia.
  - subst av. rewrite wB_eq. lia.
  - intros _ a [<-|[]]. rewrite Z.sub_diag. apply Z.mod_0_l. lia.
Qed.

End InitInv.

(** * Payload bytes under the header stores *)

Section BytesStores.
Context `{Target}.

Lemma bytes_set_magic x v s : bytes (set_magic x v s) = clobber x (bytes s).
Proof. reflexivity. Qed.
Lemma bytes_set_pool_ptr x v s : bytes (set_pool_ptr x v s) = clobber x (bytes s).
Proof. reflexivity. Qed.
Lemma bytes_set_next x v s : bytes (set_next x v s) = clobber x (bytes s).
Proof. reflexivity. Qed.
Lemma bytes_set_prev x v s : bytes (set_prev x v s) = clobber x (bytes s).
Proof. reflexivity. Qed.
Lemma bytes_set_next_free x v s : bytes (set_next_free x v s) = clobber x (bytes s).
Proof. reflexivity. Qed.
Lemma bytes_set_prev_free x v s : bytes (set_prev_free x v s) = clobber x (bytes s).
Proof. reflexivity. Qed.
Lemma bytes_set_available_size hp v s : bytes (set_available_size hp v s) = bytes s.
Proof. reflexivity. Qed.
Lemma bytes_set_max_used_size hp v s : bytes (set_max_used_size hp v s) = bytes s.
Proof. reflexivity. Qed.
Lemma bytes_set_lock hp v s : bytes (set_lock hp v s) = bytes s.
Proof. reflexivity. Qed.
Lemma bytes_rt_sem_release hp s : bytes (rt_sem_release hp s) = bytes s.
Proof. reflexivity. Qed.
Lemma bytes_update_max_used hp s : bytes (update_max_used hp s) = bytes s.
Proof. unfold update_max_used. destruct (_ <? _); reflexivity. Qed.

(** The headers a statement group writes. *)
Lemma bytes_list_remove_free x s :
  bytes (list_remove_free x s)
  = clobber (prev_free (items s x)) (clobber (next_free (items s x)) (bytes s)).
Proof.
  unfold list_remove_free. cbv zeta. rewrite bytes_set_next_free, prev_free_set_prev_free.
  rewrite if_same. reflexivity.
Qed.

Lemma bytes_list_insert_free heap x s :
  bytes (list_insert_free heap x s)
  = clobber (free_list (hget s heap))
      (clobber (next_free (items s (free_list (hget s heap))))
         (clobber x (clobber x (bytes s)))).
Proof.
  unfold list_insert_free. cbv zeta.
  rewrite bytes_set_next_free, bytes_set_prev_free.
  autorewrite with fields.
  destruct (Z.eqb_spec (free_list (hget s heap)) x); reflexivity.
Qed.

Lemma bytes_block_split x v s :
  bytes (block_split x v s)
  = clobber x (clobber (next (items s x)) (clobber v (clobber v (bytes s)))).
Proof.
  unfold block_split. cbv zeta.
  rewrite bytes_set_next, bytes_set_prev.
  autorewrite with fields.
  destruct (Z.eqb_spec x v); reflexivity.
Qed.

Lemma bytes_block_unlink x s :
  bytes (block_unlink x s)
  = clobber (prev (items s x)) (clobber (next (items s x)) (bytes s)).
Proof.
  unfold block_unlink. cbv zeta. rewrite bytes_set_next, prev_set_prev.
  rewrite if_same. reflexivity.
Qed.

Lemma clobber_away x a (b : Z -> option Z) :
  x + RT_MEMHEAP_SIZE <= a \/ a < x -> clobber x b a = b a.
Proof.
  intros Hx. unfold clobber.
  destruct (Z.leb_spec x a); destruct (Z.ltb_spec a (x + RT_MEMHEAP_SIZE));
    cbn [andb]; try reflexivity. lia.
Qed.

End BytesStores.

Create HintDb bytesdb discriminated.

#[export] Hint Rewrite
  @bytes_set_magic @bytes_set_pool_ptr @bytes_set_next @bytes_set_prev
  @bytes_set_next_free @bytes_set_prev_free
  @bytes_set_available_size @bytes_set_max_used_size @bytes_set_lock
  @bytes_rt_sem_release @bytes_update_max_used
  @bytes_list_remove_free @bytes_list_insert_free @bytes_block_split @bytes_block_unlink
  : bytesdb.

(** ** The headers of a consistent pool *)

Section SegClosed.

Lemma seg_next_in (f g : Z -> Z) l : forall a z,
  seg f g a l z -> forall x, x = a \/ In x l -> In (f x) l \/ f x = z.
Proof.
  induction l as [|b l IH]; intros a z Hseg x Hx.
  - destruct Hseg as [Hf _]. destruct Hx as [->|[]]. auto.
  - destruct Hseg as (Hf & _ & Hseg). destruct Hx as [->|Hx].
    + left. rewrite Hf. simpl. auto.
    + destruct (IH b z Hseg x) as [Hin|Hz].
      * destruct Hx as [e|Hx]; [left; symmetry; exact e|right; exact Hx].
      * left. simpl. auto.
      * auto.
Qed.

Lemma seg_prev_in (f g : Z -> Z) l : forall a z,
  seg f g a l z -> forall x, In x l \/ x = z -> In (g x) l \/ g x = a.
Proof.
  induction l as [|b l IH]; intros a z Hseg x Hx.
  - destruct Hseg as [_ Hg]. destruct Hx as [[]| ->]. auto.
  - destruct Hseg as (_ & Hg & Hseg).
    destruct (Z.eq_dec x b) as [->|Hne].
    + right. exact Hg.
    + destruct (IH b z Hseg x) as [Hin|Hb].
      * destruct Hx as [[e|Hx]|Hx]; [congruence|auto|auto].
      * left. simpl. auto.
      * left. simpl. auto.
Qed.

End SegClosed.

(** ** Blocks of a consistent pool do not overlap *)

Section BlocksApart.
Context `{Target} (OK : target_ok).
Variables (heap : Z) (bs fl : list Z) (s : state).
Hypothesis INV : heap_inv heap bs fl s.

Lemma inv_blocks_apart a c :
  In a bs -> In c bs -> a <> c ->
  next (items s a) <= c \/ next (items s c) <= a.
Proof.
  intros Ha Hc Hne.
  destruct (Z_lt_ge_dec a c) as [Hlt|Hge].
  - left. destruct (Z_le_gt_dec (next (items s a)) c) as [Hle|Hgt]; [exact Hle|].
    exfalso. apply Hne. symmetry.
    apply (inv_block_at OK INV c a Hc Ha); lia.
  - right. destruct (Z_le_gt_dec (next (items s c)) a) as [Hle|Hgt]; [exact Hle|].
    exfalso. apply Hne.
    apply (inv_block_at OK INV a c Ha Hc); lia.
Qed.

End BlocksApart.

Section Nodes.
Context `{Target} (OK : target_ok).
Variables (heap : Z) (bs fl : list Z) (s : state).
Hypothesis INV : heap_inv heap bs fl s.

Local Abbreviation HS := RT_MEMHEAP_SIZE.
Local Abbreviation tl := (tailer (hget s heap)).
Local Abbreviation fh := (free_list (hget s heap)).

(** The addresses at which the pool keeps a header. *)
Local Abbreviation node := (fun x : Z => In x bs \/ x = tl \/ x = fh).

Lemma node_next x : In x bs \/ x = tl -> node (next (items s x)).
Proof.
  intros Hx. cbv beta.
  destruct (seg_next_in _ _ bs tl tl (inv_phys _ _ _ _ INV) x) as [Hin|He]; [tauto|auto|auto].
Qed.

Lemma node_prev x : In x bs \/ x = tl -> node (prev (items s x)).
Proof.
  intros Hx. cbv beta.
  destruct (seg_prev_in _ _ bs tl tl (inv_phys _ _ _ _ INV) x) as [Hin|He]; [tauto|auto|auto].
Qed.

Lemma node_next_free x : In x fl \/ x = fh -> node (next_free (items s x)).
Proof.
  intros Hx. cbv beta.
  destruct (seg_next_in _ _ fl fh fh (inv_free _ _ _ _ INV) x) as [Hin|He];
    [tauto|left; apply (inv_fl_bs INV _ Hin)|auto].
Qed.

Lemma node_prev_free x : In x fl \/ x = fh -> node (prev_free (items s x)).
Proof.
  intros Hx. cbv beta.
  destruct (seg_prev_in _ _ fl fh fh (inv_free _ _ _ _ INV) x) as [Hin|He];
    [tauto|left; apply (inv_fl_bs INV _ Hin)|auto].
Qed.

(** No header of the pool stands in the payload of a block. *)
Lemma payload_away q a :
  In (q - HS) bs -> q <= a < next (items s (q - HS)) ->
  forall x, node x -> x + HS <= a \/ a < x.
Proof.
  intros Hq Ha x Hx. pose proof (HS_pos OK) as HH.
  pose proof (inv_next_range OK INV _ Hq) as Hqn.
  pose proof (inv_bs_range OK INV _ Hq) as Hqr.
  destruct Hx as [Hx|[->| ->]].
  - destruct (Z.eq_dec x (q - HS)) as [->|Hne]; [left; lia|].
    pose proof (inv_next_range OK INV _ Hx) as Hxn.
    destruct (inv_blocks_apart OK heap bs fl s INV x (q - HS) Hx Hq Hne); lia.
  - right. lia.
  - pose proof (inv_sentinel _ _ _ _ INV) as [_ Hs]. unfold tailer in *.
    destruct Hs; [left|right]; lia.
Qed.

End Nodes.

(** ** Bytes away from every header *)

Ltac split_ifs :=
  repeat match goal with
  | |- context [if ?c then _ else _] => destruct c
  end.

Section Away.
Context `{Target} (OK : target_ok).
Variables (heap : Z) (bs fl : list Z) (s : state).
Hypothesis INV : heap_inv heap bs fl s.

Local Abbreviation HS := RT_MEMHEAP_SIZE.
Local Abbreviation tl := (tailer (hget s heap)).
Local Abbreviation fh := (free_list (hget s heap)).

Variable a : Z.
Hypothesis Haw : forall x, In x bs \/ x = tl \/ x = fh -> x + HS <= a \/ a < x.

Lemma aw_node x : In x bs -> x + HS <= a \/ a < x.
Proof using All. intros Hx. apply Haw. auto. Qed.
Lemma aw_tl : tl + HS <= a \/ a < tl.
Proof using All. apply Haw. auto. Qed.
Lemma aw_fh : fh + HS <= a \/ a < fh.
Proof using All. apply Haw. auto. Qed.
Lemma aw_next x : In x bs \/ x = tl -> next (items s x) + HS <= a \/ a < next (items s x).
Proof using All. intros Hx. apply Haw. apply (node_next heap bs fl s INV). auto. Qed.
Lemma aw_prev x : In x bs \/ x = tl -> prev (items s x) + HS <= a \/ a < prev (items s x).
Proof using All. intros Hx. apply Haw. apply (node_prev heap bs fl s INV). auto. Qed.
Lemma aw_next_free x :
  In x fl \/ x = fh -> next_free (items s x) + HS <= a \/ a < next_free (items s x).
Proof using All. intros Hx. apply Haw. apply (node_next_free heap bs fl s INV). auto. Qed.
Lemma aw_prev_free x :
  In x fl \/ x = fh -> prev_free (items s x) + HS <= a \/ a < prev_free (items s x).
Proof using All. intros Hx. apply Haw. apply (node_prev_free heap bs fl s INV). auto. Qed.

End Away.

(** ** The lock *)

Section Lock.
Context `{Target}.

Lemma rt_sem_take_ok heap s :
  lock (hget s heap) = 1 -> rt_sem_take heap s = (RT_EOK, set_lock heap 0 s).
Proof. intros E. unfold rt_sem_take. rewrite E. reflexivity. Qed.

Lemma rt_sem_take_busy heap s :
  lock (hget s heap) <= 0 -> rt_sem_take heap s = (- RT_ERROR, s).
Proof.
  intros E. unfold rt_sem_take.
  destruct (Z.ltb_spec 0 (lock (hget s heap))); [lia|reflexivity].
Qed.

End Lock.

(** ** rt_memheap_realloc: expansion in place *)

Section Expand.
Context `{Target} (OK : target_ok).
Variables (heap : Z) (bs fl : list Z) (s : state).
Hypothesis INV : heap_inv heap bs fl s.

Local Abbreviation HS := RT_MEMHEAP_SIZE.

Lemma realloc_expand_eq p newsize :
  0 < newsize < wB ->
  live bs s p ->
  let b := p - HS in
  let n := normalized newsize in
  let r := next (items s b) in
  is_free s r ->
  payload s b < n ->
  n + RT_MEMHEAP_MINIALLOC < payload s r + payload s b ->
  rt_memheap_realloc heap p newsize s =
  Some (p, rt_sem_release heap
             (realloc_expand heap p b r n (payload s b) (set_lock heap 0 s))).
Proof.
  intros Hsz [Hb Hused] b n r Hfree Hgrow Hroom.
  fold b in Hb, Hused.
  pose proof (HS_pos OK) as HH. pose proof (HSZ_bounds OK).
  pose proof (inv_addr_range OK INV _ Hb) as Hba.
  pose proof (inv_next_range OK INV _ Hb) as Hbn. fold r in Hbn.
  pose proof (inv_payload_range OK INV _ Hb) as Hbp.
  pose proof (inv_tailer_range OK INV) as Htl.
  assert (Hr : In r bs).
  { apply in_split in Hb as (l1 & l2 & E).
    pose proof (inv_neighbours INV _ _ _ E) as (Hn & _). fold r in Hn.
    destruct l2 as [|r' l2]; simpl in Hn.
    - exfalso. apply (free_not_used r Hfree). rewrite Hn. apply (inv_tailer _ _ _ _ INV).
    - rewrite E, Hn. apply in_app_iff. simpl. auto. }
  pose proof (inv_payload_range OK INV _ Hr) as Hrp.
  pose proof (normalized_range OK newsize ltac:(lia)) as Hn.
  unfold rt_memheap_realloc.
  rewrite (proj2 (Z.eqb_neq _ _) (inv_nonnull _ _ _ _ INV)).
  rewrite (inv_is_heap _ _ _ _ INV). cbn [negb].
  rewrite (proj2 (Z.eqb_neq newsize 0)) by lia.
  fold (normalized newsize). fold n. cbv zeta.
  rewrite (proj2 (Z.eqb_neq p RT_NULL)) by (unfold RT_NULL; lia).
  assert (Hwb : wrap (p - HS) = b) by (apply wrap_id; rewrite wB_eq in *; lia).
  rewrite Hwb.
  rewrite (inv_MEMITEM_SIZE OK INV _ Hb).
  rewrite (proj2 (Z.ltb_lt _ _) Hgrow).
  rewrite (rt_sem_take_ok _ _ (inv_lock _ _ _ _ INV)).
  change (RT_EOK =? RT_EOK) with true. cbn [negb].
  rewrite items_set_lock. fold r.
  rewrite (proj2 (Z.ltb_lt b r)) by lia. cbn [negb].
  assert (Hu : RT_MEMHEAP_IS_USED (set_lock heap 0 s) r = false)
    by (apply (inv_is_used_false r Hfree)).
  rewrite Hu. cbn [negb andb].
  assert (Hm : MEMITEM_SIZE (set_lock heap 0 s) r = payload s r)
    by (apply (inv_MEMITEM_SIZE OK INV _ Hr)).
  rewrite Hm.
  assert (Hpb : payload s b = r - b - HS) by reflexivity.
  unfold RT_MEMHEAP_MINIALLOC in *. unfold tailer in *. rewrite wB_eq in *.
  rewrite (wrap_id (n + 12)) by lia.
  rewrite (wrap_id (payload s r + payload s b)) by lia.
  rewrite (proj2 (Z.ltb_lt _ _)) by lia.
  reflexivity.
Qed.

Lemma lor_freed : Z.lor RT_MEMHEAP_MAGIC RT_MEMHEAP_FREED = RT_MEMHEAP_MAGIC.
Proof. reflexivity. Qed.

Lemma magic_cases_ne : RT_MEMHEAP_MAGIC <> Z.lor RT_MEMHEAP_MAGIC RT_MEMHEAP_USED.
Proof. discriminate. Qed.

Lemma realloc_expand_inv_bytes p n l1 r l2 flA flB :
  let b := p - HS in
  bs = l1 ++ b :: r :: l2 -> fl = flA ++ r :: flB ->
  is_used s b ->
  payload s b < n -> n + RT_MEMHEAP_MINIALLOC < payload s r + payload s b ->
  (RT_MEMHEAP_MINIALLOC mod RT_ALIGN_SIZE = 0 -> n mod RT_ALIGN_SIZE = 0) ->
  let s' := rt_sem_release heap
              (realloc_expand heap p b r n (payload s b) (set_lock heap 0 s)) in
  heap_inv heap (l1 ++ b :: (p + n) :: l2) ((p + n) :: flA ++ flB) s' /\
  available_size (hget s' heap) = available_size (hget s heap) - (n - payload s b) /\
  tailer (hget s' heap) = tailer (hget s heap) /\
  (forall a,
     (forall x, In x bs \/ x = tailer (hget s heap) \/ x = free_list (hget s heap) ->
                x + HS <= a \/ a < x) ->
     p + n + HS <= a \/ a < p + n ->
     bytes s' a = bytes s a).
Proof.
  intros b Ebs Efl Hused Hgrow Hroom Haln s'.
  pose proof (HS_pos OK) as HH. pose proof (HSZ_bounds OK) as HHb.
  assert (Hb : In b bs) by (rewrite Ebs; apply in_app_iff; simpl; auto).
  assert (Hr : In r bs) by (rewrite Ebs; apply in_app_iff; simpl; auto).
  assert (Hrfl : In r fl) by (rewrite Efl; apply in_app_iff; simpl; auto).
  pose proof (inv_fl_free INV _ Hrfl) as Hfree.
  pose proof (inv_neighbours INV l1 b (r :: l2) Ebs) as (Hnb & Hpr & _).
  simpl in Hnb, Hpr.
  assert (Ebs' : bs = (l1 ++ [b]) ++ r :: l2) by (rewrite <- app_assoc; exact Ebs).
  pose proof (inv_neighbours INV _ r l2 Ebs') as (Hnr & _).
  set (N := hd (tailer (hget s heap)) l2) in *.
  pose proof (inv_addr_range OK INV _ Hb) as Hba.
  pose proof (inv_next_range OK INV _ Hb) as Hbn. rewrite Hnb in Hbn.
  pose proof (inv_next_range OK INV _ Hr) as Hrn. rewrite Hnr in Hrn.
  pose proof (inv_tailer_range OK INV) as Htl.
  pose proof (inv_avail_range OK INV) as Hav.
  pose proof (inv_avail_split OK INV _ _ _ Efl) as [Hav1 Hav2].
  pose proof (inv_region _ _ _ _ INV) as Hreg.
  pose proof (inv_sentinel _ _ _ _ INV) as Hsen.
  pose proof (inv_bs_range OK INV) as Hrange.
  assert (Hpb : payload s b = r - b - HS) by (unfold payload; rewrite Hnb; reflexivity).
  assert (Hpr' : payload s r = N - r - HS) by (unfold payload; rewrite Hnr; reflexivity).
  assert (Hp : p = b + HS) by (subst b; lia).
  unfold RT_MEMHEAP_MINIALLOC in Hroom.
  set (new := p + n).
  assert (Hnew1 : b + HS <= new) by (subst new; lia).
  assert (Hnew2 : new + HS <= N) by (subst new; lia).
  assert (Hnew3 : r < new) by (subst new; lia).
  (* the field maps of the final state *)
  set (nx1 := fun y => if y =? prev (items s r) then next (items s r) else next (items s y)).
  set (pv1 := fun y => if y =? next (items s r) then prev (items s r) else prev (items s y)).
  set (nf1 := fun y => if y =? prev_free (items s r) then next_free (items s r)
                       else next_free (items s y)).
  set (pf1 := fun y => if y =? next_free (items s r) then prev_free (items s r)
                       else prev_free (items s y)).
  set (fh := free_list (hget s heap)) in *.
  assert (Hwn : wrap (p + n) = new).
  { apply wrap_id. unfold tailer in *. rewrite wB_eq in *. subst new. lia. }
  assert (Vmg : forall a, magic (items s' a) =
            if a =? new then RT_MEMHEAP_MAGIC else magic (items s a)).
  { intros a. unfold s'. unfold rt_sem_release, realloc_expand. cbv zeta.
    rewrite Hwn. autorewrite with fields. reflexivity. }
  assert (Vpl : forall a, pool_ptr (items s' a) =
            if a =? new then heap else pool_ptr (items s a)).
  { intros a. unfold s'. unfold rt_sem_release, realloc_expand. cbv zeta.
    rewrite Hwn. autorewrite with fields. reflexivity. }
  assert (Vnx : forall a, next (items s' a) =
            if a =? b then new else if a =? new then nx1 b else nx1 a).
  { intros a. unfold s'. unfold rt_sem_release, realloc_expand. cbv zeta.
    rewrite Hwn. autorewrite with fields. reflexivity. }
  assert (Vpv : forall a, prev (items s' a) =
            if a =? nx1 b then new else if a =? new then b else pv1 a).
  { intros a. unfold s'. unfold rt_sem_release, realloc_expand. cbv zeta.
    rewrite Hwn. autorewrite with fields. reflexivity. }
  assert (Vnf : forall a, next_free (items s' a) =
            if a =? fh then new else if a =? new then nf1 fh else nf1 a).
  { intros a. unfold s'. unfold rt_sem_release, realloc_expand. cbv zeta.
    rewrite Hwn. autorewrite with fields. reflexivity. }
  assert (Vpf : forall a, prev_free (items s' a) =
            if a =? nf1 fh then new else if a =? new then fh else pf1 a).
  { intros a. unfold s'. unfold rt_sem_release, realloc_expand. cbv zeta.
    rewrite Hwn. autorewrite with fields. reflexivity. }
  assert (Dst : start_addr (hget s' heap) = start_addr (hget s heap)).
  { unfold s'. unfold rt_sem_release, realloc_expand. cbv zeta.
    autorewrite with fields. reflexivity. }
  assert (Dps : pool_size (hget s' heap) = pool_size (hget s heap)).
  { unfold s'. unfold rt_sem_release, realloc_expand. cbv zeta.
    autorewrite with fields. reflexivity. }
  assert (Dbl : block_list (hget s' heap) = block_list (hget s heap)).
  { unfold s'. unfold rt_sem_release, realloc_expand. cbv zeta.
    autorewrite with fields. reflexivity. }
  assert (Dfl : free_list (hget s' heap) = fh).
  { unfold s'. unfold rt_sem_release, realloc_expand. cbv zeta.
    autorewrite with fields. reflexivity. }
  assert (Dlk : lock (hget s' heap) = 1).
  { unfold s'. unfold rt_sem_release, realloc_expand. cbv zeta.
    autorewrite with fields. reflexivity. }
  assert (Dav : available_size (hget s' heap) =
                available_size (hget s heap) - (n - payload s b)).
  { unfold s'. unfold rt_sem_release, realloc_expand. cbv zeta.
    autorewrite with fields. unfold tailer in *. rewrite wB_eq in *.
    wrap_lia. reflexivity. }
  assert (Dmu : pool_size (hget s' heap) - available_size (hget s' heap)
                <= max_used_size (hget s' heap) < wB).
  { rewrite Dav. unfold s'. unfold rt_sem_release, realloc_expand. cbv zeta.
    autorewrite with fields.
    pose proof (inv_max_used _ _ _ _ INV) as Hmu.
    destruct (max_used_update_max_used heap
                (set_available_size heap
                   (wrap (available_size (hget (set_lock heap 0 s) heap)
                          - wrap (n - payload s b))) (set_lock heap 0 s))) as [Hm1 Hm2];
      autorewrite with fields; unfold tailer in *; rewrite ?wB_eq in *; wrap_lia; try lia.
    revert Hm1. autorewrite with fields. wrap_lia. lia. }
  assert (Dmem : is_memheap s' heap = true).
  { unfold s'. unfold rt_sem_release. apply is_memheap_set_lock. }
  assert (Vby : forall a,
            (forall x, In x bs \/ x = tailer (hget s heap) \/ x = fh ->
                       x + HS <= a \/ a < x) ->
            new + HS <= a \/ a < new -> bytes s' a = bytes s a).
  { intros a Haw Hnew. unfold s', realloc_expand. cbv zeta.
    autorewrite with bytesdb. autorewrite with fields. rewrite Hwn.
    pose proof (aw_node OK heap bs fl s INV a Haw b Hb).
    pose proof (aw_fh OK heap bs fl s INV a Haw).
    pose proof (aw_next OK heap bs fl s INV a Haw b (or_introl Hb)).
    pose proof (aw_next OK heap bs fl s INV a Haw r (or_introl Hr)).
    pose proof (aw_prev OK heap bs fl s INV a Haw r (or_introl Hr)).
    pose proof (aw_next_free OK heap bs fl s INV a Haw r (or_introl Hrfl)).
    pose proof (aw_prev_free OK heap bs fl s INV a Haw r (or_introl Hrfl)).
    pose proof (aw_next_free OK heap bs fl s INV a Haw fh (or_intror eq_refl)).
    split_ifs; rewrite !clobber_away by assumption; reflexivity. }
  clearbody s'.
  assert (Hnx1b : nx1 b = N).
  { unfold nx1. rewrite Hpr, Hnr, Z.eqb_refl. reflexivity. }
  pose proof (inv_phys_ok INV) as PO. rewrite Ebs' in PO.
  assert (PO1 : phys_ok HS (start_addr (hget s heap)) (tailer (hget s heap))
                  ((l1 ++ [b]) ++ l2) nx1 pv1).
  { eapply (phys_remove HH _ r _ PO); [destruct l1; discriminate| |]; reflexivity. }
  rewrite <- app_assoc in PO1. simpl in PO1.
  assert (PO2 : phys_ok HS (start_addr (hget s heap)) (tailer (hget s heap))
                  (l1 ++ b :: new :: l2)
                  (fun a => if a =? b then new else if a =? new then nx1 b else nx1 a)
                  (fun a => if a =? nx1 b then new else if a =? new then b else pv1 a)).
  { eapply (phys_split HH _ b _ new PO1); try reflexivity; rewrite ?Hnx1b; lia. }
  assert (Hnewbs : ~ In new bs).
  { rewrite Ebs. intros Hin. apply in_app_iff in Hin.
    pose proof (po_split_order HH (inv_phys_ok INV) l1 b (r :: l2) Ebs) as [Ho1 Ho2].
    pose proof (po_split_order HH (inv_phys_ok INV) _ r l2 Ebs') as [_ Ho3].
    destruct Hin as [Hin|[e|[e|Hin]]].
    - specialize (Ho1 _ Hin). lia.
    - lia.
    - lia.
    - specialize (Ho3 _ Hin). pose proof (inv_neighbours INV _ r l2 Ebs') as (Hx & _).
      destruct l2 as [|e l2]; [destruct Hin|]. simpl in N. subst N.
      destruct Hin as [<-|Hin]; [lia|].
      pose proof (inv_gapped _ _ _ _ INV) as Hg. rewrite Ebs' in Hg.
      rewrite <- app_assoc in Hg. apply chain_app in Hg as [_ Hg].
      change ((r :: e :: l2) ++ [tailer (hget s heap)])
        with (r :: e :: (l2 ++ [tailer (hget s heap)])) in Hg.
      apply chain_tail in Hg.
      pose proof (gapped_after _ HH _ _ Hg new) as Hy. rewrite in_app_iff in Hy.
      specialize (Hy (or_introl Hin)). lia. }
  assert (Hin' : forall a, In a (l1 ++ b :: new :: l2) <-> a = new \/ (In a bs /\ a <> r)).
  { intros a. rewrite Ebs. rewrite !in_app_iff. simpl.
    pose proof (inv_bs_NoDup OK INV) as Hnd. apply NoDup_cons_iff in Hnd as [_ Hnd].
    rewrite Ebs' in Hnd. apply NoDup_remove_2 in Hnd.
    rewrite <- app_assoc in Hnd. rewrite in_app_iff in Hnd. simpl in Hnd.
    split.
    - intros [?|[?|[?|?]]]; auto; right; split; auto; intros ->; tauto.
    - intros [->|[[?|[?|[?|?]]] ?]]; auto. congruence. }
  assert (Hfin : forall a, In a (flA ++ flB) <-> In a fl /\ a <> r).
  { intros a. rewrite Efl. rewrite !in_app_iff. simpl.
    pose proof (inv_fl_nodup _ _ _ _ INV) as Hnd. rewrite Efl in Hnd.
    apply NoDup_remove_2 in Hnd. rewrite in_app_iff in Hnd.
    split.
    - intros [?|?]; (split; [tauto|intros ->; tauto]).
    - intros [[?|[?|?]] ?]; auto. congruence. }
  assert (Dtl : tailer (hget s' heap) = tailer (hget s heap))
    by (unfold tailer; rewrite Dst, Dps; reflexivity).
  set (T := tailer (hget s heap)) in *.
  assert (Hmgb : magic (items s b) <> RT_MEMHEAP_MAGIC).
  { rewrite Hused. discriminate. }
  split; [|exact (conj Dav (conj Dtl Vby))].
  apply (heap_inv_intro heap _ _ s' _ _ _ _ _ _ Vmg Vpl Vnx Vpv Vnf Vpf);
    rewrite ?Dtl, ?Dst, ?Dps, ?Dbl, ?Dfl, ?Dlk; auto.
  - apply (inv_nonnull _ _ _ _ INV).
  - apply (inv_block_list _ _ _ _ INV).
  - (* magic *)
    intros a Ha. apply Hin' in Ha as [->|[Ha Har]].
    + rewrite Z.eqb_refl. auto.
    + rewrite (proj2 (Z.eqb_neq a new)) by (intros ->; tauto).
      apply (inv_magic _ _ _ _ INV a Ha).
  - (* tailer *)
    rewrite (proj2 (Z.eqb_neq T new)) by lia. apply (inv_tailer _ _ _ _ INV).
  - (* pool *)
    intros a Ha. apply Hin' in Ha as [->|[Ha Har]].
    + rewrite Z.eqb_refl. auto.
    + rewrite (proj2 (Z.eqb_neq a new)) by (intros ->; tauto).
      apply (inv_pool _ _ _ _ INV a Ha).
  - (* free list membership *)
    intros a. simpl. rewrite Hfin, Hin'. split.
    + intros [<-|[Ha Har]].
      * rewrite Z.eqb_refl. auto.
      * pose proof (inv_fl_bs INV _ Ha). pose proof (inv_fl_free INV _ Ha).
        rewrite (proj2 (Z.eqb_neq a new)) by (intros ->; tauto). auto.
    + intros [[->|[Ha Har]] Hm]; [auto|].
      rewrite (proj2 (Z.eqb_neq a new)) in Hm by (intros ->; tauto).
      right. split; [|exact Har]. apply (inv_fl _ _ _ _ INV). auto.
  - (* no duplicates *)
    constructor.
    + rewrite Hfin. intros [Ha _]. apply Hnewbs. apply (inv_fl_bs INV _ Ha).
    + pose proof (inv_fl_nodup _ _ _ _ INV) as Hnd. rewrite Efl in Hnd.
      apply NoDup_remove_1 in Hnd. exact Hnd.
  - (* free list links *)
    pose proof (inv_fl_NoDup OK INV) as Hnd. fold fh in Hnd. rewrite Efl in Hnd.
    pose proof (inv_fh_notin_fl OK INV) as Hfh. fold fh in Hfh. rewrite Efl in Hfh.
    pose proof (inv_free _ _ _ _ INV) as Hfs. fold fh in Hfs. rewrite Efl in Hfs.
    assert (S1 : seg nf1 pf1 fh (flA ++ flB) fh).
    { eapply (seg_remove _ _ nf1 pf1 fh flA r flB fh Hnd Hfh Hfs); reflexivity. }
    apply (seg_insert nf1 pf1 _ _ fh [] new (flA ++ flB) fh).
    + simpl. apply NoDup_cons_iff in Hnd as [Hx Hnd]. apply NoDup_remove in Hnd as [Hnd _].
      constructor; auto. rewrite in_app_iff in *. simpl in Hx. tauto.
    + simpl. rewrite in_app_iff in *. simpl in Hfh. tauto.
    + simpl. intros [e|Hin].
      * pose proof (inv_sentinel _ _ _ _ INV). fold fh in H0.
        specialize (Hrange _ Hb). unfold T, tailer in *. lia.
      * apply Hfin in Hin as [Hin _]. apply Hnewbs. apply (inv_fl_bs INV _ Hin).
    + pose proof (inv_sentinel _ _ _ _ INV). fold fh in H0.
      specialize (Hrange _ Hb). unfold T, tailer in *. lia.
    + exact S1.
    + reflexivity.
    + reflexivity.
  - (* coalesced *)
    pose proof (inv_coalesced _ _ _ _ INV) as Hco. rewrite Ebs in Hco.
    assert (Hmono : forall l, (forall x, In x l -> In x bs) ->
              chain (fun a b => ~ (is_free s a /\ is_free s b)) l ->
              chain (fun a b => ~ ((if a =? new then RT_MEMHEAP_MAGIC else magic (items s a))
                                     = RT_MEMHEAP_MAGIC /\
                                   (if b =? new then RT_MEMHEAP_MAGIC else magic (items s b))
                                     = RT_MEMHEAP_MAGIC)) l).
    { intros l Hl. apply chain_mono. intros x y Hx Hy HR.
      rewrite (proj2 (Z.eqb_neq x new)) by (intros ->; apply Hnewbs, Hl, Hx).
      rewrite (proj2 (Z.eqb_neq y new)) by (intros ->; apply Hnewbs, Hl, Hy).
      exact HR. }
    apply chain_app in Hco as [Hc1 Hc2]. apply chain_app. split.
    + apply Hmono; [|exact Hc1]. intros x Hx. rewrite Ebs.
      rewrite in_app_iff in *. simpl in *. tauto.
    + apply chain_cons. split.
      * rewrite (proj2 (Z.eqb_neq b new)) by lia. tauto.
      * apply chain_tail in Hc2. destruct l2 as [|e l2]; [simpl; auto|].
        apply chain_cons in Hc2 as [Hre Hc2]. apply chain_cons. split.
        -- rewrite (proj2 (Z.eqb_neq e new))
             by (intros ->; apply Hnewbs; rewrite Ebs, in_app_iff; simpl; auto).
           unfold is_free in Hre. tauto.
        -- apply Hmono; [|exact Hc2]. intros x Hx. rewrite Ebs.
           rewrite in_app_iff. simpl in *. tauto.
  - (* accounting *)
    rewrite Dav, Hav1.
    change (new :: flA ++ flB) with ([new] ++ (flA ++ flB)). rewrite sumf_app.
    rewrite (sumf_ext (payload s)
               (fun a => (if a =? b then new else if a =? new then nx1 b else nx1 a)
                         - a - HS) (flA ++ flB)).
    + unfold sumf at 1. cbn [fold_right].
      rewrite (proj2 (Z.eqb_neq new b)) by lia. rewrite Z.eqb_refl, Hnx1b.
      rewrite sum_payload_sumf. lia.
    + intros a Ha. apply Hfin in Ha as [Ha Har].
      pose proof (inv_fl_bs INV _ Ha) as Hab. pose proof (inv_fl_free INV _ Ha) as Haf.
      assert (a <> b) by (intros ->; unfold is_free in Haf; congruence).
      assert (a <> new) by (intros ->; tauto).
      rewrite (proj2 (Z.eqb_neq a b)), (proj2 (Z.eqb_neq a new)) by assumption.
      unfold nx1. rewrite Hpr. rewrite (proj2 (Z.eqb_neq a b)) by assumption.
      reflexivity.
  - rewrite <- Dps. exact Dmu.
  - (* alignment *)
    intros Hm a Ha. apply Hin' in Ha as [->|[Ha _]].
    + pose proof (inv_align _ _ _ _ INV Hm b Hb) as Hbal.
      pose proof (HSZ_spec OK) as [_ HHal]. specialize (Haln Hm).
      pose proof (align_pos OK).
      replace (new - start_addr (hget s heap))
        with ((b - start_addr (hget s heap)) + (HS + n)) by (unfold new; lia).
      rewrite Z.add_mod, Hbal by lia. rewrite Z.add_0_l, Z.mod_mod by lia.
      rewrite Z.add_mod, HHal, Haln by lia. reflexivity.
    + apply (inv_align _ _ _ _ INV Hm a Ha).
Qed.

Lemma realloc_expand_inv p n l1 r l2 flA flB :
  let b := p - HS in
  bs = l1 ++ b :: r :: l2 -> fl = flA ++ r :: flB ->
  is_used s b ->
  payload s b < n -> n + RT_MEMHEAP_MINIALLOC < payload s r + payload s b ->
  (RT_MEMHEAP_MINIALLOC mod RT_ALIGN_SIZE = 0 -> n mod RT_ALIGN_SIZE = 0) ->
  let s' := rt_sem_release heap
              (realloc_expand heap p b r n (payload s b) (set_lock heap 0 s)) in
  heap_inv heap (l1 ++ b :: (p + n) :: l2) ((p + n) :: flA ++ flB) s' /\
  available_size (hget s' heap) = available_size (hget s heap) - (n - payload s b) /\
  tailer (hget s' heap) = tailer (hget s heap).
Proof.
  intros b Ebs Efl Hused Hgrow Hroom Haln s'.
  destruct (realloc_expand_inv_bytes p n l1 r l2 flA flB Ebs Efl Hused Hgrow Hroom Haln)
    as (INV' & Hav & Htl & _).
  auto.
Qed.

(** C5 (in-place grow): for a live payload pointer [p] of a used block [b]
    whose physical successor [r] is free, and a request whose normalized size
    [n] exceeds the old payload with [payload r + old > n + MINIALLOC],
    [rt_memheap_realloc] returns [p] itself; [r] leaves the physical list and
    the free list, a new free block at [p + n] takes its place in the physical
    list and stands at the head of the free list, [b] stays used with payload
    [n], and [available_size] drops by exactly [n - old]. *)
Theorem realloc_grows_in_place p newsize :
  0 < newsize < wB ->
  live bs s p ->
  let b := p - HS in
  let n := normalized newsize in
  let r := next (items s b) in
  is_free s r ->
  payload s b < n ->
  n + RT_MEMHEAP_MINIALLOC < payload s r + payload s b ->
  exists l1 l2 flA flB s',
    bs = l1 ++ b :: r :: l2 /\ fl = flA ++ r :: flB /\
    rt_memheap_realloc heap p newsize s = Some (p, s') /\
    heap_inv heap (l1 ++ b :: (p + n) :: l2) ((p + n) :: flA ++ flB) s' /\
    is_used s' b /\ payload s' b = n /\
    is_free s' (p + n) /\
    next_free (items s' (free_list (hget s' heap))) = p + n /\
    payload s' (p + n) = payload s r - (n - payload s b) /\
    available_size (hget s' heap) = available_size (hget s heap) - (n - payload s b).
Proof.
  intros Hsz Hlive b n r Hfree Hgrow Hroom.
  pose proof (realloc_expand_eq p newsize Hsz Hlive Hfree Hgrow Hroom) as Heq.
  destruct Hlive as [Hb Hused]. fold b in Hb, Hused.
  pose proof (HS_pos OK) as HH.
  destruct (in_split _ _ Hb) as (l1 & l2' & Ebs0).
  pose proof (inv_neighbours INV _ _ _ Ebs0) as (Hn & _). fold r in Hn.
  destruct l2' as [|r' l2]; simpl in Hn.
  { exfalso. apply (free_not_used r Hfree). rewrite Hn. apply (inv_tailer _ _ _ _ INV). }
  subst r'.
  assert (Hr : In r bs) by (rewrite Ebs0; apply in_app_iff; simpl; auto).
  assert (Hrfl : In r fl) by (apply (inv_fl _ _ _ _ INV); auto).
  destruct (in_split _ _ Hrfl) as (flA & flB & Efl).
  assert (Haln : RT_MEMHEAP_MINIALLOC mod RT_ALIGN_SIZE = 0 -> n mod RT_ALIGN_SIZE = 0).
  { intros Hm. apply (normalized_aligned OK); [lia|exact Hm]. }
  destruct (realloc_expand_inv p n l1 r l2 flA flB Ebs0 Efl Hused Hgrow Hroom Haln)
    as (INV' & Hav' & Htl).
  fold b in Heq, INV', Hav', Htl.
  change (next (items s b)) with r in Heq. change (normalized newsize) with n in Heq.
  set (s' := rt_sem_release heap
               (realloc_expand heap p b r n (payload s b) (set_lock heap 0 s))) in *.
  clearbody s'.
  exists l1, l2, flA, flB, s'.
  pose proof (inv_neighbours INV' l1 b ((p + n) :: l2) eq_refl) as (Hnb' & _).
  simpl in Hnb'.
  assert (E2 : l1 ++ b :: (p + n) :: l2 = (l1 ++ [b]) ++ (p + n) :: l2)
    by (rewrite <- app_assoc; reflexivity).
  pose proof (inv_neighbours INV' _ (p + n) l2 E2) as (Hnn' & _).
  assert (Ebs' : bs = (l1 ++ [b]) ++ r :: l2) by (rewrite <- app_assoc; exact Ebs0).
  pose proof (inv_neighbours INV _ r l2 Ebs') as (Hnr & _).
  assert (Hnewfl : In (p + n) ((p + n) :: flA ++ flB)) by (simpl; auto).
  assert (Hnfree : is_free s' (p + n)) by (apply (inv_fl_free INV' _ Hnewfl)).
  assert (Hb' : In b (l1 ++ b :: (p + n) :: l2)) by (apply in_app_iff; simpl; auto).
  split; [exact Ebs0|]. split; [exact Efl|]. split; [exact Heq|].
  split; [exact INV'|]. repeat split; auto.
  - destruct (inv_magic _ _ _ _ INV' b Hb') as [Hf|Hu]; [|exact Hu].
    exfalso. assert (Hbfl : In b ((p + n) :: flA ++ flB))
      by (apply (inv_fl _ _ _ _ INV'); auto).
    destruct Hbfl as [e|Hbfl].
    { pose proof (normalized_range OK newsize ltac:(lia)). unfold b, n in *. lia. }
    assert (In b fl) by (rewrite Efl; rewrite in_app_iff in *; simpl; tauto).
    apply (free_not_used b (inv_fl_free INV _ H0) Hused).
  - unfold payload. rewrite Hnb'. unfold b. lia.
  - pose proof (inv_free _ _ _ _ INV') as Hs. simpl in Hs. tauto.
  - unfold payload. rewrite Hnn', Hnr, Htl.
    pose proof (inv_neighbours INV _ _ _ Ebs0) as (Hx & _). simpl in Hx.
    fold r in Hx. unfold b in *. lia.
Qed.

End Expand.

Section GrowExample.
Local Existing Instance target32.

Lemma realloc_grows_in_place_witness :
  let p := 0x1018 in
  let b := p - RT_MEMHEAP_SIZE in
  let n := normalized 150 in
  let r := next (items ex32_alloc b) in
  exists l1 l2 flA flB s',
    [0x1000; 0x107C] = l1 ++ b :: r :: l2 /\ [0x107C] = flA ++ r :: flB /\
    rt_memheap_realloc ex_heap p 150 ex32_alloc = Some (p, s') /\
    heap_inv ex_heap (l1 ++ b :: (p + n) :: l2) ((p + n) :: flA ++ flB) s' /\
    is_used s' b /\ payload s' b = n /\
    is_free s' (p + n) /\
    next_free (items s' (free_list (hget s' ex_heap))) = p + n /\
    payload s' (p + n) = payload ex32_alloc r - (n - payload ex32_alloc b) /\
    available_size (hget s' ex_heap)
      = available_size (hget ex32_alloc ex_heap) - (n - payload ex32_alloc b).
Proof.
  apply (realloc_grows_in_place target32_ok ex_heap [0x1000; 0x107C] [0x107C]
           ex32_alloc ex32_alloc_inv 0x1018 150).
  - vm_compute. split; reflexivity.
  - vm_compute. split; [left|]; reflexivity.
  - vm_compute. reflexivity.
  - vm_compute. reflexivity.
  - vm_compute. reflexivity.
Defined.

End GrowExample.

Ltac eqb_cases :=
  first
    [ reflexivity
    | repeat match goal with
      | |- context [?x =? ?y] => destruct (Z.eqb_spec x y); try lia
      end; try reflexivity; try congruence; try lia ].

Section ListFacts.

Lemma in_middle (a x : Z) l1 l2 : In a (l1 ++ x :: l2) <-> a = x \/ In a (l1 ++ l2).
Proof. rewrite !in_app_iff. simpl. intuition congruence. Qed.

Lemma in_removed (a x : Z) l1 l2 :
  List.NoDup (l1 ++ x :: l2) -> In a (l1 ++ l2) <-> In a (l1 ++ x :: l2) /\ a <> x.
Proof.
  intros Hnd. apply NoDup_remove_2 in Hnd. rewrite in_middle. split.
  - intros Ha. split; [auto|]. intros ->. contradiction.
  - intros [[->|Ha] Hne]; [congruence|exact Ha].
Qed.

Lemma phys_ok_ext d st T bs nx pv nx' pv' :
  phys_ok d st T bs nx pv ->
  (forall x, x = T \/ In x bs -> nx' x = nx x /\ pv' x = pv x) ->
  phys_ok d st T bs nx' pv'.
Proof.
  intros [H1 H2 H3] E. constructor; auto.
  revert H3. apply seg_frame.
  - intros x Hx. apply E. exact Hx.
  - intros y Hy. apply E. tauto.
Qed.

End ListFacts.

(** ** rt_memheap_realloc: shrinking in place *)

Section Shrink.
Context `{Target} (OK : target_ok).
Variables (heap : Z) (bs fl : list Z) (s : state).
Hypothesis INV : heap_inv heap bs fl s.

Local Abbreviation HS := RT_MEMHEAP_SIZE.

Lemma shrink_merge_used new st :
  RT_MEMHEAP_IS_USED st (next (items st new)) = true -> shrink_merge heap new st = st.
Proof. intros HU. unfold shrink_merge. rewrite HU. reflexivity. Qed.

Lemma shrink_merge_free new st :
  RT_MEMHEAP_IS_USED st (next (items st new)) = false ->
  shrink_merge heap new st =
  let free_ptr := next (items st new) in
  let s1 := set_available_size heap
              (wrap (available_size (hget st heap) - MEMITEM_SIZE st free_ptr)) st in
  let s2 := set_prev (next (items s1 free_ptr)) new s1 in
  let s3 := set_next new (next (items s2 free_ptr)) s2 in
  list_remove_free free_ptr s3.
Proof. intros HU. unfold shrink_merge. rewrite HU. reflexivity. Qed.

(** The request fits and leaves less than a header and a minimal payload:
    nothing is done. *)
Lemma realloc_keep p newsize :
  0 < newsize < wB ->
  live bs s p ->
  let b := p - HS in
  let n := normalized newsize in
  n <= payload s b <= n + HS + RT_MEMHEAP_MINIALLOC ->
  rt_memheap_realloc heap p newsize s = Some (p, s).
Proof.
  intros Hsz [Hb Hused] b n Hfit. fold b in Hb, Hused.
  pose proof (HS_pos OK) as HH. pose proof (HSZ_bounds OK).
  pose proof (inv_addr_range OK INV _ Hb) as Hba.
  pose proof (inv_payload_range OK INV _ Hb) as Hbp.
  pose proof (inv_tailer_range OK INV) as Htl.
  pose proof (normalized_range OK newsize ltac:(lia)) as Hn.
  unfold rt_memheap_realloc.
  rewrite (proj2 (Z.eqb_neq _ _) (inv_nonnull _ _ _ _ INV)).
  rewrite (inv_is_heap _ _ _ _ INV). cbn [negb].
  rewrite (proj2 (Z.eqb_neq newsize 0)) by lia.
  fold (normalized newsize). fold n. cbv zeta.
  rewrite (proj2 (Z.eqb_neq p RT_NULL)) by (unfold RT_NULL, b in *; lia).
  assert (Hwb : wrap (p - HS) = b) by (apply wrap_id; unfold b in *; rewrite wB_eq in *; lia).
  rewrite Hwb.
  rewrite (inv_MEMITEM_SIZE OK INV _ Hb).
  rewrite (proj2 (Z.ltb_ge _ _)) by lia.
  unfold RT_MEMHEAP_MINIALLOC in *. unfold tailer in *. rewrite wB_eq in *.
  rewrite (wrap_id (n + HS)) by lia.
  rewrite (wrap_id (n + HS + 12)) by lia.
  rewrite (proj2 (Z.leb_le _ _)) by lia.
  reflexivity.
Qed.

Lemma realloc_shrink_eq p newsize :
  0 < newsize < wB ->
  live bs s p ->
  let b := p - HS in
  let n := normalized newsize in
  n + HS + RT_MEMHEAP_MINIALLOC < payload s b ->
  rt_memheap_realloc heap p newsize s =
  Some (p, rt_sem_release heap (realloc_shrink heap b n (set_lock heap 0 s))).
Proof.
  intros Hsz [Hb Hused] b n Hfit. fold b in Hb, Hused.
  pose proof (HS_pos OK) as HH. pose proof (HSZ_bounds OK).
  pose proof (inv_addr_range OK INV _ Hb) as Hba.
  pose proof (inv_payload_range OK INV _ Hb) as Hbp.
  pose proof (inv_tailer_range OK INV) as Htl.
  pose proof (normalized_range OK newsize ltac:(lia)) as Hn.
  unfold rt_memheap_realloc.
  rewrite (proj2 (Z.eqb_neq _ _) (inv_nonnull _ _ _ _ INV)).
  rewrite (inv_is_heap _ _ _ _ INV). cbn [negb].
  rewrite (proj2 (Z.eqb_neq newsize 0)) by lia.
  fold (normalized newsize). fold n. cbv zeta.
  rewrite (proj2 (Z.eqb_neq p RT_NULL)) by (unfold RT_NULL, b in *; lia).
  assert (Hwb : wrap (p - HS) = b) by (apply wrap_id; unfold b in *; rewrite wB_eq in *; lia).
  rewrite Hwb.
  rewrite (inv_MEMITEM_SIZE OK INV _ Hb).
  unfold RT_MEMHEAP_MINIALLOC in *.
  rewrite (proj2 (Z.ltb_ge _ _)) by lia.
  unfold tailer in *. rewrite wB_eq in *.
  rewrite (wrap_id (n + HS)) by lia.
  rewrite (wrap_id (n + HS + 12)) by lia.
  rewrite (proj2 (Z.leb_gt _ _)) by lia.
  rewrite (rt_sem_take_ok _ _ (inv_lock _ _ _ _ INV)).
  change (RT_EOK =? RT_EOK) with true. cbn [negb].
  reflexivity.
Qed.

Lemma realloc_shrink_inv_used_bytes p n l1 l2 :
  let b := p - HS in
  bs = l1 ++ b :: l2 -> is_used s b -> is_used s (next (items s b)) ->
  RT_MEMHEAP_MINIALLOC <= n -> n + HS + RT_MEMHEAP_MINIALLOC < payload s b ->
  (RT_MEMHEAP_MINIALLOC mod RT_ALIGN_SIZE = 0 -> n mod RT_ALIGN_SIZE = 0) ->
  let s' := rt_sem_release heap (realloc_shrink heap b n (set_lock heap 0 s)) in
  heap_inv heap (l1 ++ b :: (p + n) :: l2) ((p + n) :: fl) s' /\
  available_size (hget s' heap) = available_size (hget s heap) + (payload s b - n - HS) /\
  tailer (hget s' heap) = tailer (hget s heap) /\
  (forall a,
     (forall x, In x bs \/ x = tailer (hget s heap) \/ x = free_list (hget s heap) ->
                x + HS <= a \/ a < x) ->
     p + n + HS <= a \/ a < p + n ->
     bytes s' a = bytes s a).
Proof.
  intros b Ebs Hused HusedN Hn Hfit Haln s'.
  pose proof (HS_pos OK) as HH. pose proof (HSZ_bounds OK) as HHb.
  assert (Hb : In b bs) by (rewrite Ebs; apply in_app_iff; simpl; auto).
  pose proof (inv_neighbours INV l1 b l2 Ebs) as (Hnb & Hpn & _).
  set (T := tailer (hget s heap)) in *.
  set (N := next (items s b)) in *.
  pose proof (inv_addr_range OK INV _ Hb) as Hba.
  pose proof (inv_next_range OK INV _ Hb) as Hbn. fold N T in Hbn.
  pose proof (inv_tailer_range OK INV) as Htl. fold T in Htl.
  pose proof (inv_avail_range OK INV) as Hav.
  pose proof (inv_avail_with OK INV b Hb (inv_used_notin_fl INV b Hused)) as Hav3.
  fold T in Hav3.
  pose proof (inv_region _ _ _ _ INV) as Hreg.
  pose proof (inv_sentinel _ _ _ _ INV) as Hsen.
  pose proof (inv_bs_range OK INV) as Hrange. fold T in Hrange.
  assert (Hpb : payload s b = N - b - HS) by reflexivity.
  assert (Hp : p = b + HS) by (subst b; lia).
  unfold RT_MEMHEAP_MINIALLOC in Hfit, Hn.
  set (new := p + n).
  assert (Hnew1 : b + HS <= new) by (subst new; lia).
  assert (Hnew2 : new + HS + 12 < N) by (subst new; lia).
  set (fh := free_list (hget s heap)) in *.
  assert (Hwn : wrap (wrap (b + n) + HS) = new).
  { unfold T, tailer in *. rewrite wB_eq in *. wrap_lia. subst new. lia. }
  assert (HnewT : new <> T) by lia.
  assert (Hnewfh : new <> fh).
  { specialize (Hrange _ Hb). unfold T, tailer in *. lia. }
  set (S1 := block_split b new
               (set_pool_ptr new heap
                  (set_magic new (Z.lor RT_MEMHEAP_MAGIC RT_MEMHEAP_FREED)
                     (set_lock heap 0 s)))).
  assert (HU : RT_MEMHEAP_IS_USED S1 (next (items S1 new)) = true).
  { assert (E : next (items S1 new) = N) by (unfold S1; fsimp; reflexivity).
    rewrite E. unfold RT_MEMHEAP_IS_USED, S1. fsimp. fold N in HusedN.
    rewrite HusedN. reflexivity. }
  assert (Es' : s' = rt_sem_release heap
            (set_available_size heap
               (wrap (available_size (hget (list_insert_free heap new S1) heap)
                      + MEMITEM_SIZE (list_insert_free heap new S1) new))
               (list_insert_free heap new S1))).
  { unfold s', realloc_shrink. cbv zeta. rewrite Hwn. fold S1.
    rewrite (shrink_merge_used new S1 HU). reflexivity. }
  assert (Vmg : forall a, magic (items s' a) =
            if a =? new then RT_MEMHEAP_MAGIC else magic (items s a)).
  { intros a. rewrite Es'. unfold rt_sem_release, S1. autorewrite with fields.
    reflexivity. }
  assert (Vpl : forall a, pool_ptr (items s' a) =
            if a =? new then heap else pool_ptr (items s a)).
  { intros a. rewrite Es'. unfold rt_sem_release, S1. autorewrite with fields.
    reflexivity. }
  assert (Vnx : forall a, next (items s' a) =
            if a =? b then new else if a =? new then N else next (items s a)).
  { intros a. rewrite Es'. unfold rt_sem_release, S1. autorewrite with fields.
    reflexivity. }
  assert (Vpv : forall a, prev (items s' a) =
            if a =? N then new else if a =? new then b else prev (items s a)).
  { intros a. rewrite Es'. unfold rt_sem_release, S1. autorewrite with fields.
    reflexivity. }
  assert (Vnf : forall a, next_free (items s' a) =
            if a =? fh then new else if a =? new then next_free (items s fh)
            else next_free (items s a)).
  { intros a. rewrite Es'. unfold rt_sem_release, S1. autorewrite with fields.
    reflexivity. }
  assert (Vpf : forall a, prev_free (items s' a) =
            if a =? next_free (items s fh) then new else if a =? new then fh
            else prev_free (items s a)).
  { intros a. rewrite Es'. unfold rt_sem_release, S1. autorewrite with fields.
    reflexivity. }
  assert (Dst : start_addr (hget s' heap) = start_addr (hget s heap)).
  { rewrite Es'. unfold rt_sem_release, S1. autorewrite with fields. reflexivity. }
  assert (Dps : pool_size (hget s' heap) = pool_size (hget s heap)).
  { rewrite Es'. unfold rt_sem_release, S1. autorewrite with fields. reflexivity. }
  assert (Dbl : block_list (hget s' heap) = block_list (hget s heap)).
  { rewrite Es'. unfold rt_sem_release, S1. autorewrite with fields. reflexivity. }
  assert (Dfl : free_list (hget s' heap) = fh).
  { rewrite Es'. unfold rt_sem_release, S1. autorewrite with fields. reflexivity. }
  assert (Dlk : lock (hget s' heap) = 1).
  { rewrite Es'. unfold rt_sem_release, S1. autorewrite with fields. reflexivity. }
  assert (Dmx : max_used_size (hget s' heap) = max_used_size (hget s heap)).
  { rewrite Es'. unfold rt_sem_release, S1. autorewrite with fields. reflexivity. }
  assert (Dav : available_size (hget s' heap) =
                available_size (hget s heap) + (payload s b - n - HS)).
  { rewrite Es'. unfold rt_sem_release, S1, MEMITEM_SIZE. autorewrite with fields.
    rewrite (proj2 (Z.eqb_neq new b)) by lia. rewrite Z.eqb_refl. fold N.
    unfold T, tailer in *. rewrite wB_eq in *. wrap_lia. subst new. lia. }
  assert (Dmem : is_memheap s' heap = true).
  { rewrite Es'. unfold rt_sem_release. apply is_memheap_set_lock. }
  assert (Dtl : tailer (hget s' heap) = T)
    by (unfold T, tailer; rewrite Dst, Dps; reflexivity).
  assert (Vby : forall a,
            (forall x, In x bs \/ x = tailer (hget s heap) \/ x = fh ->
                       x + HS <= a \/ a < x) ->
            new + HS <= a \/ a < new -> bytes s' a = bytes s a).
  { intros a Haw Hnew. rewrite Es'. unfold S1.
    autorewrite with bytesdb. autorewrite with fields.
    pose proof (aw_node OK heap bs fl s INV a Haw b Hb).
    pose proof (aw_fh OK heap bs fl s INV a Haw).
    pose proof (aw_next OK heap bs fl s INV a Haw b (or_introl Hb)).
    pose proof (aw_next_free OK heap bs fl s INV a Haw fh (or_intror eq_refl)).
    split_ifs; rewrite !clobber_away by assumption; reflexivity. }
  clear Es' HU. clearbody s'. clear S1.
  pose proof (inv_phys_ok INV) as PO. rewrite Ebs in PO. fold T in PO.
  assert (PO2 : phys_ok HS (start_addr (hget s heap)) T (l1 ++ b :: new :: l2)
                  (fun a => if a =? b then new else if a =? new then N
                            else next (items s a))
                  (fun a => if a =? N then new else if a =? new then b
                            else prev (items s a))).
  { eapply (phys_split HH _ b _ new PO); try reflexivity; fold N; lia. }
  assert (Hnewbs : ~ In new bs).
  { rewrite Ebs. intros Hin. apply in_middle in Hin as [e|Hin]; [lia|].
    pose proof (po_split_order HH (inv_phys_ok INV) l1 b l2 Ebs) as [Ho1 Ho2].
    apply in_app_iff in Hin as [Hin|Hin].
    - specialize (Ho1 _ Hin). lia.
    - pose proof (inv_gapped _ _ _ _ INV) as Hg. rewrite Ebs in Hg.
      rewrite <- app_assoc in Hg. apply chain_app in Hg as [_ Hg].
      destruct l2 as [|e l2]; [destruct Hin|]. simpl in Hnb.
      change ((b :: e :: l2) ++ [tailer (hget s heap)])
        with (b :: e :: (l2 ++ [tailer (hget s heap)])) in Hg.
      apply chain_tail in Hg.
      destruct Hin as [<-|Hin]; [lia|].
      pose proof (gapped_after _ HH _ _ Hg new) as Hy. rewrite in_app_iff in Hy.
      specialize (Hy (or_introl Hin)). lia. }
  assert (Hin' : forall a, In a (l1 ++ b :: new :: l2) <-> a = new \/ In a bs).
  { intros a. rewrite Ebs. rewrite !in_app_iff. simpl. intuition congruence. }
  split; [|exact (conj Dav (conj Dtl Vby))].
  apply (heap_inv_intro heap _ _ s' _ _ _ _ _ _ Vmg Vpl Vnx Vpv Vnf Vpf);
    rewrite ?Dtl, ?Dst, ?Dps, ?Dbl, ?Dfl, ?Dlk, ?Dmx; auto.
  - apply (inv_nonnull _ _ _ _ INV).
  - apply (inv_block_list _ _ _ _ INV).
  - intros a Ha. apply Hin' in Ha as [->|Ha].
    + rewrite Z.eqb_refl. auto.
    + rewrite (proj2 (Z.eqb_neq a new)) by (intros ->; tauto).
      apply (inv_magic _ _ _ _ INV a Ha).
  - rewrite (proj2 (Z.eqb_neq T new)) by lia. apply (inv_tailer _ _ _ _ INV).
  - intros a Ha. apply Hin' in Ha as [->|Ha].
    + rewrite Z.eqb_refl. auto.
    + rewrite (proj2 (Z.eqb_neq a new)) by (intros ->; tauto).
      apply (inv_pool _ _ _ _ INV a Ha).
  - intros a. simpl. rewrite Hin'. split.
    + intros [<-|Ha].
      * rewrite Z.eqb_refl. auto.
      * pose proof (inv_fl_bs INV _ Ha). pose proof (inv_fl_free INV _ Ha).
        rewrite (proj2 (Z.eqb_neq a new)) by (intros ->; tauto). auto.
    + intros [[->|Ha] Hm]; [auto|].
      rewrite (proj2 (Z.eqb_neq a new)) in Hm by (intros ->; tauto).
      right. apply (inv_fl _ _ _ _ INV). auto.
  - constructor.
    + intros Ha. apply Hnewbs. apply (inv_fl_bs INV _ Ha).
    + apply (inv_fl_nodup _ _ _ _ INV).
  - pose proof (inv_fl_NoDup OK INV) as Hnd. fold fh in Hnd.
    pose proof (inv_fh_notin_fl OK INV) as Hfh. fold fh in Hfh.
    pose proof (inv_free _ _ _ _ INV) as Hfs. fold fh in Hfs.
    apply (seg_insert (fun a => next_free (items s a)) (fun a => prev_free (items s a))
             _ _ fh [] new fl fh); auto.
    simpl. intros [e|Hin]; [congruence|]. apply Hnewbs. apply (inv_fl_bs INV _ Hin).
  - (* coalesced *)
    pose proof (inv_coalesced _ _ _ _ INV) as Hco. rewrite Ebs in Hco.
    assert (Hmono : forall l, (forall x, In x l -> In x bs) ->
              chain (fun a b => ~ (is_free s a /\ is_free s b)) l ->
              chain (fun a b => ~ ((if a =? new then RT_MEMHEAP_MAGIC else magic (items s a))
                                     = RT_MEMHEAP_MAGIC /\
                                   (if b =? new then RT_MEMHEAP_MAGIC else magic (items s b))
                                     = RT_MEMHEAP_MAGIC)) l).
    { intros l Hl. apply chain_mono. intros x y Hx Hy HR.
      rewrite (proj2 (Z.eqb_neq x new)) by (intros ->; apply Hnewbs, Hl, Hx).
      rewrite (proj2 (Z.eqb_neq y new)) by (intros ->; apply Hnewbs, Hl, Hy).
      exact HR. }
    assert (Hmgb : magic (items s b) <> RT_MEMHEAP_MAGIC).
    { rewrite Hused. discriminate. }
    apply chain_app in Hco as [Hc1 Hc2]. apply chain_app. split.
    + apply Hmono; [|exact Hc1]. intros x Hx. rewrite Ebs.
      rewrite in_app_iff in *. simpl in *. tauto.
    + apply chain_cons. split.
      * rewrite (proj2 (Z.eqb_neq b new)) by lia. tauto.
      * destruct l2 as [|e l2]; [simpl; auto|].
        apply chain_tail in Hc2. apply chain_cons. split.
        -- rewrite (proj2 (Z.eqb_neq e new))
             by (intros ->; apply Hnewbs; rewrite Ebs, in_app_iff; simpl; auto).
           simpl in Hnb. fold N in Hnb. rewrite <- Hnb.
           unfold is_used in HusedN. rewrite HusedN. intros [_ Hx]. discriminate.
        -- apply Hmono; [|exact Hc2]. intros x Hx. rewrite Ebs.
           rewrite in_app_iff. simpl in *. tauto.
  - (* accounting *)
    rewrite Dav, (inv_avail _ _ _ _ INV).
    change (new :: fl) with ([new] ++ fl). rewrite sumf_app.
    rewrite (sumf_ext (payload s)
               (fun a => (if a =? b then new else if a =? new then N
                          else next (items s a)) - a - HS) fl).
    + unfold sumf at 1. cbn [fold_right].
      rewrite (proj2 (Z.eqb_neq new b)) by lia. rewrite Z.eqb_refl.
      rewrite sum_payload_sumf. subst new. lia.
    + intros a Ha.
      pose proof (inv_fl_bs INV _ Ha) as Hab. pose proof (inv_fl_free INV _ Ha) as Haf.
      assert (a <> b) by (intros ->; exact (free_not_used b Haf Hused)).
      assert (a <> new) by (intros ->; tauto).
      rewrite (proj2 (Z.eqb_neq a b)), (proj2 (Z.eqb_neq a new)) by assumption.
      reflexivity.
  - rewrite Dav. pose proof (inv_max_used _ _ _ _ INV). lia.
  - intros Hm a Ha. apply Hin' in Ha as [->|Ha].
    + pose proof (inv_align _ _ _ _ INV Hm b Hb) as Hbal.
      pose proof (HSZ_spec OK) as [_ HHal]. specialize (Haln Hm).
      pose proof (align_pos OK).
      replace (new - start_addr (hget s heap))
        with ((b - start_addr (hget s heap)) + (HS + n)) by (unfold new; lia).
      rewrite Z.add_mod, Hbal by lia. rewrite Z.add_0_l, Z.mod_mod by lia.
      rewrite Z.add_mod, HHal, Haln by lia. reflexivity.
    + apply (inv_align _ _ _ _ INV Hm a Ha).
Qed.

Lemma realloc_shrink_inv_used p n l1 l2 :
  let b := p - HS in
  bs = l1 ++ b :: l2 -> is_used s b -> is_used s (next (items s b)) ->
  RT_MEMHEAP_MINIALLOC <= n -> n + HS + RT_MEMHEAP_MINIALLOC < payload s b ->
  (RT_MEMHEAP_MINIALLOC mod RT_ALIGN_SIZE = 0 -> n mod RT_ALIGN_SIZE = 0) ->
  let s' := rt_sem_release heap (realloc_shrink heap b n (set_lock heap 0 s)) in
  heap_inv heap (l1 ++ b :: (p + n) :: l2) ((p + n) :: fl) s' /\
  available_size (hget s' heap) = available_size (hget s heap) + (payload s b - n - HS) /\
  tailer (hget s' heap) = tailer (hget s heap).
Proof.
  intros b Ebs Hused HusedN Hn Hfit Haln s'.
  destruct (realloc_shrink_inv_used_bytes p n l1 l2 Ebs Hused HusedN Hn Hfit Haln)
    as (X1 & X2 & X3 & _).
  auto.
Qed.

Lemma realloc_shrink_inv_free_bytes p n l1 r l2 flA flB :
  let b := p - HS in
  bs = l1 ++ b :: r :: l2 -> fl = flA ++ r :: flB -> is_used s b ->
  RT_MEMHEAP_MINIALLOC <= n -> n + HS + RT_MEMHEAP_MINIALLOC < payload s b ->
  (RT_MEMHEAP_MINIALLOC mod RT_ALIGN_SIZE = 0 -> n mod RT_ALIGN_SIZE = 0) ->
  let s' := rt_sem_release heap (realloc_shrink heap b n (set_lock heap 0 s)) in
  heap_inv heap (l1 ++ b :: (p + n) :: l2) ((p + n) :: flA ++ flB) s' /\
  available_size (hget s' heap) = available_size (hget s heap) + (payload s b - n) /\
  tailer (hget s' heap) = tailer (hget s heap) /\
  (forall a,
     (forall x, In x bs \/ x = tailer (hget s heap) \/ x = free_list (hget s heap) ->
                x + HS <= a \/ a < x) ->
     p + n + HS <= a \/ a < p + n ->
     bytes s' a = bytes s a).
Proof.
  intros b Ebs Efl Hused Hn Hfit Haln s'.
  pose proof (HS_pos OK) as HH. pose proof (HSZ_bounds OK) as HHb.
  assert (Hb : In b bs) by (rewrite Ebs; apply in_app_iff; simpl; auto).
  assert (Hr : In r bs) by (rewrite Ebs; apply in_app_iff; simpl; auto).
  assert (Hrfl : In r fl) by (rewrite Efl; apply in_app_iff; simpl; auto).
  pose proof (inv_fl_free INV _ Hrfl) as Hfree.
  pose proof (inv_neighbours INV l1 b (r :: l2) Ebs) as (Hnb & Hpr & _).
  simpl in Hnb, Hpr.
  assert (Ebs' : bs = (l1 ++ [b]) ++ r :: l2) by (rewrite <- app_assoc; exact Ebs).
  pose proof (inv_neighbours INV _ r l2 Ebs') as (Hnr & _).
  set (T := tailer (hget s heap)) in *.
  set (N := hd T l2) in *.
  pose proof (inv_addr_range OK INV _ Hb) as Hba.
  pose proof (inv_addr_range OK INV _ Hr) as Hra.
  pose proof (inv_next_range OK INV _ Hb) as Hbn. rewrite Hnb in Hbn.
  pose proof (inv_next_range OK INV _ Hr) as Hrn. rewrite Hnr in Hrn. fold T in Hrn.
  pose proof (inv_tailer_range OK INV) as Htl. fold T in Htl.
  pose proof (inv_avail_range OK INV) as Hav.
  pose proof (inv_avail_with OK INV b Hb (inv_used_notin_fl INV b Hused)) as Hav3.
  fold T in Hav3.
  pose proof (inv_avail_split OK INV _ _ _ Efl) as [Hav1 Hav2].
  pose proof (inv_region _ _ _ _ INV) as Hreg.
  pose proof (inv_sentinel _ _ _ _ INV) as Hsen.
  pose proof (inv_bs_range OK INV) as Hrange. fold T in Hrange.
  assert (Hpb : payload s b = r - b - HS) by (unfold payload; rewrite Hnb; reflexivity).
  assert (Hpr' : payload s r = N - r - HS) by (unfold payload; rewrite Hnr; reflexivity).
  assert (Hp : p = b + HS) by (subst b; lia).
  unfold RT_MEMHEAP_MINIALLOC in Hfit, Hn.
  set (new := p + n).
  assert (Hnew1 : b + HS <= new) by (subst new; lia).
  assert (Hnew2 : new + HS + 12 < r) by (subst new; lia).
  set (nf1 := fun y => if y =? prev_free (items s r) then next_free (items s r)
                       else next_free (items s y)).
  set (pf1 := fun y => if y =? next_free (items s r) then prev_free (items s r)
                       else prev_free (items s y)).
  set (fh := free_list (hget s heap)) in *.
  assert (Hwn : wrap (wrap (b + n) + HS) = new).
  { unfold T, tailer in *. rewrite wB_eq in *. wrap_lia. subst new. lia. }
  assert (HnewT : new <> T) by lia.
  assert (Hnewfh : new <> fh).
  { specialize (Hrange _ Hb). unfold T, tailer in *. lia. }
  set (S1 := block_split b new
               (set_pool_ptr new heap
                  (set_magic new (Z.lor RT_MEMHEAP_MAGIC RT_MEMHEAP_FREED)
                     (set_lock heap 0 s)))).
  assert (E1 : next (items S1 new) = r) by (unfold S1; fsimp; exact Hnb).
  assert (HU : RT_MEMHEAP_IS_USED S1 (next (items S1 new)) = false).
  { rewrite E1. unfold RT_MEMHEAP_IS_USED, S1. fsimp.
    unfold is_free in Hfree. rewrite Hfree. reflexivity. }
  assert (Es' : s' = rt_sem_release heap
    (let s4 := list_insert_free heap new
                 (let s1 := set_available_size heap
                     (wrap (available_size (hget S1 heap) - MEMITEM_SIZE S1 r)) S1 in
                  let s2 := set_prev (next (items s1 r)) new s1 in
                  let s3 := set_next new (next (items s2 r)) s2 in
                  list_remove_free r s3) in
     set_available_size heap (wrap (available_size (hget s4 heap) + MEMITEM_SIZE s4 new)) s4)).
  { unfold s', realloc_shrink. cbv zeta. rewrite Hwn. fold S1.
    rewrite (shrink_merge_free new S1 HU). rewrite E1. reflexivity. }
  cbv zeta in Es'.
  assert (Vmg : forall a, magic (items s' a) =
            if a =? new then RT_MEMHEAP_MAGIC else magic (items s a)).
  { intros a. rewrite Es'. unfold rt_sem_release, S1. autorewrite with fields.
    reflexivity. }
  assert (Vpl : forall a, pool_ptr (items s' a) =
            if a =? new then heap else pool_ptr (items s a)).
  { intros a. rewrite Es'. unfold rt_sem_release, S1. autorewrite with fields.
    reflexivity. }
  assert (Vnx : forall a, next (items s' a) =
            if a =? b then new else if a =? new then N else next (items s a)).
  { intros a. rewrite Es'. unfold rt_sem_release, S1. fsimp. rewrite ?Hnb, ?Hnr.
    eqb_cases. }
  assert (Vpv : forall a, prev (items s' a) =
            if a =? N then new else if a =? r then new else if a =? new then b
            else prev (items s a)).
  { intros a. rewrite Es'. unfold rt_sem_release, S1. fsimp. rewrite ?Hnb, ?Hnr.
    eqb_cases. }
  assert (Vnf : forall a, next_free (items s' a) =
            if a =? fh then new else if a =? new then nf1 fh else nf1 a).
  { intros a. rewrite Es'. unfold rt_sem_release, S1. autorewrite with fields.
    reflexivity. }
  assert (Vpf : forall a, prev_free (items s' a) =
            if a =? nf1 fh then new else if a =? new then fh else pf1 a).
  { intros a. rewrite Es'. unfold rt_sem_release, S1. autorewrite with fields.
    reflexivity. }
  assert (Dst : start_addr (hget s' heap) = start_addr (hget s heap)).
  { rewrite Es'. unfold rt_sem_release, S1. autorewrite with fields. reflexivity. }
  assert (Dps : pool_size (hget s' heap) = pool_size (hget s heap)).
  { rewrite Es'. unfold rt_sem_release, S1. autorewrite with fields. reflexivity. }
  assert (Dbl : block_list (hget s' heap) = block_list (hget s heap)).
  { rewrite Es'. unfold rt_sem_release, S1. autorewrite with fields. reflexivity. }
  assert (Dfl : free_list (hget s' heap) = fh).
  { rewrite Es'. unfold rt_sem_release, S1. autorewrite with fields. reflexivity. }
  assert (Dlk : lock (hget s' heap) = 1).
  { rewrite Es'. unfold rt_sem_release, S1. autorewrite with fields. reflexivity. }
  assert (Dmx : max_used_size (hget s' heap) = max_used_size (hget s heap)).
  { rewrite Es'. unfold rt_sem_release, S1. autorewrite with fields. reflexivity. }
  assert (Dav : available_size (hget s' heap) =
                available_size (hget s heap) + (payload s b - n)).
  { rewrite Es'. unfold rt_sem_release, S1, MEMITEM_SIZE. autorewrite with fields.
    rewrite ?Hnb, ?Hnr. eqb_lia. rewrite ?Hnb, ?Hnr.
    unfold T, tailer in *. rewrite wB_eq in *. wrap_lia. subst new. lia. }
  assert (Dmem : is_memheap s' heap = true).
  { rewrite Es'. unfold rt_sem_release. apply is_memheap_set_lock. }
  assert (Dtl : tailer (hget s' heap) = T)
    by (unfold T, tailer; rewrite Dst, Dps; reflexivity).
  assert (Vby : forall a,
            (forall x, In x bs \/ x = tailer (hget s heap) \/ x = fh ->
                       x + HS <= a \/ a < x) ->
            new + HS <= a \/ a < new -> bytes s' a = bytes s a).
  { intros a Haw Hnew. rewrite Es'. unfold S1.
    autorewrite with bytesdb. autorewrite with fields.
    pose proof (aw_node OK heap bs fl s INV a Haw b Hb).
    pose proof (aw_node OK heap bs fl s INV a Haw r Hr).
    pose proof (aw_fh OK heap bs fl s INV a Haw).
    pose proof (aw_next OK heap bs fl s INV a Haw b (or_introl Hb)).
    pose proof (aw_next OK heap bs fl s INV a Haw r (or_introl Hr)).
    pose proof (aw_prev OK heap bs fl s INV a Haw r (or_introl Hr)).
    pose proof (aw_next_free OK heap bs fl s INV a Haw r (or_introl Hrfl)).
    pose proof (aw_prev_free OK heap bs fl s INV a Haw r (or_introl Hrfl)).
    pose proof (aw_next_free OK heap bs fl s INV a Haw fh (or_intror eq_refl)).
    split_ifs; rewrite !clobber_away by assumption; reflexivity. }
  clear Es' HU E1. clearbody s'. clear S1.
  pose proof (inv_phys_ok INV) as PO. rewrite Ebs' in PO. fold T in PO.
  set (nx1 := fun y => if y =? prev (items s r) then next (items s r) else next (items s y)).
  set (pv1 := fun y => if y =? next (items s r) then prev (items s r) else prev (items s y)).
  assert (Hnx1b : nx1 b = N).
  { unfold nx1. rewrite Hpr, Hnr, Z.eqb_refl. reflexivity. }
  assert (PO1 : phys_ok HS (start_addr (hget s heap)) T ((l1 ++ [b]) ++ l2) nx1 pv1).
  { eapply (phys_remove HH _ r _ PO); [destruct l1; discriminate| |]; reflexivity. }
  rewrite <- app_assoc in PO1. simpl in PO1.
  assert (PO2 : phys_ok HS (start_addr (hget s heap)) T (l1 ++ b :: new :: l2)
                  (fun a => if a =? b then new else if a =? new then nx1 b else nx1 a)
                  (fun a => if a =? nx1 b then new else if a =? new then b else pv1 a)).
  { eapply (phys_split HH _ b _ new PO1); try reflexivity; rewrite ?Hnx1b; lia. }
  assert (Hnewbs : ~ In new bs).
  { rewrite Ebs. intros Hin. apply in_app_iff in Hin.
    pose proof (po_split_order HH (inv_phys_ok INV) l1 b (r :: l2) Ebs) as [Ho1 Ho2].
    destruct Hin as [Hin|[e|Hin]].
    - specialize (Ho1 _ Hin). lia.
    - lia.
    - pose proof (po_split_order HH (inv_phys_ok INV) _ r l2 Ebs') as [_ Ho3].
      destruct Hin as [e|Hin]; [lia|]. specialize (Ho3 _ Hin). lia. }
  assert (Hin' : forall a, In a (l1 ++ b :: new :: l2) <-> a = new \/ (In a bs /\ a <> r)).
  { intros a. rewrite Ebs. rewrite !in_app_iff. simpl.
    pose proof (inv_bs_NoDup OK INV) as Hnd. apply NoDup_cons_iff in Hnd as [_ Hnd].
    rewrite Ebs' in Hnd. apply NoDup_remove_2 in Hnd.
    rewrite <- app_assoc in Hnd. rewrite in_app_iff in Hnd. simpl in Hnd.
    split.
    - intros [?|[?|[?|?]]]; auto; right; split; auto; intros ->; tauto.
    - intros [->|[[?|[?|[?|?]]] ?]]; auto. congruence. }
  assert (Hfin : forall a, In a (flA ++ flB) <-> In a fl /\ a <> r).
  { intros a. rewrite Efl. apply in_removed. rewrite <- Efl.
    apply (inv_fl_nodup _ _ _ _ INV). }
  assert (PO3 : phys_ok HS (start_addr (hget s heap)) T (l1 ++ b :: new :: l2)
                  (fun a => if a =? b then new else if a =? new then N
                            else next (items s a))
                  (fun a => if a =? N then new else if a =? r then new
                            else if a =? new then b else prev (items s a))).
  { apply (phys_ok_ext _ _ _ _ _ _ _ _ PO2). intros x Hx.
    assert (Hxr : x <> r).
    { destruct Hx as [->|Hx]; [lia|]. apply Hin' in Hx as [->|[_ Hx]]; [lia|exact Hx]. }
    rewrite Hnx1b. unfold nx1, pv1. rewrite Hpr, Hnr. fold N.
    split; eqb_cases. }
  split; [|exact (conj Dav (conj Dtl Vby))].
  apply (heap_inv_intro heap _ _ s' _ _ _ _ _ _ Vmg Vpl Vnx Vpv Vnf Vpf);
    rewrite ?Dtl, ?Dst, ?Dps, ?Dbl, ?Dfl, ?Dlk, ?Dmx; auto.
  - apply (inv_nonnull _ _ _ _ INV).
  - apply (inv_block_list _ _ _ _ INV).
  - intros a Ha. apply Hin' in Ha as [->|[Ha Har]].
    + rewrite Z.eqb_refl. auto.
    + rewrite (proj2 (Z.eqb_neq a new)) by (intros ->; tauto).
      apply (inv_magic _ _ _ _ INV a Ha).
  - rewrite (proj2 (Z.eqb_neq T new)) by lia. apply (inv_tailer _ _ _ _ INV).
  - intros a Ha. apply Hin' in Ha as [->|[Ha Har]].
    + rewrite Z.eqb_refl. auto.
    + rewrite (proj2 (Z.eqb_neq a new)) by (intros ->; tauto).
      apply (inv_pool _ _ _ _ INV a Ha).
  - intros a. simpl. rewrite Hfin, Hin'. split.
    + intros [<-|[Ha Har]].
      * rewrite Z.eqb_refl. auto.
      * pose proof (inv_fl_bs INV _ Ha). pose proof (inv_fl_free INV _ Ha).
        rewrite (proj2 (Z.eqb_neq a new)) by (intros ->; tauto). auto.
    + intros [[->|[Ha Har]] Hm]; [auto|].
      rewrite (proj2 (Z.eqb_neq a new)) in Hm by (intros ->; tauto).
      right. split; [|exact Har]. apply (inv_fl _ _ _ _ INV). auto.
  - constructor.
    + rewrite Hfin. intros [Ha _]. apply Hnewbs. apply (inv_fl_bs INV _ Ha).
    + pose proof (inv_fl_nodup _ _ _ _ INV) as Hnd. rewrite Efl in Hnd.
      apply NoDup_remove_1 in Hnd. exact Hnd.
  - pose proof (inv_fl_NoDup OK INV) as Hnd. fold fh in Hnd. rewrite Efl in Hnd.
    pose proof (inv_fh_notin_fl OK INV) as Hfh. fold fh in Hfh. rewrite Efl in Hfh.
    pose proof (inv_free _ _ _ _ INV) as Hfs. fold fh in Hfs. rewrite Efl in Hfs.
    assert (S1 : seg nf1 pf1 fh (flA ++ flB) fh).
    { eapply (seg_remove _ _ nf1 pf1 fh flA r flB fh Hnd Hfh Hfs); reflexivity. }
    apply (seg_insert nf1 pf1 _ _ fh [] new (flA ++ flB) fh).
    + simpl. apply NoDup_cons_iff in Hnd as [Hx Hnd]. apply NoDup_remove in Hnd as [Hnd _].
      constructor; auto. rewrite in_app_iff in *. simpl in Hx. tauto.
    + simpl. rewrite in_app_iff in *. simpl in Hfh. tauto.
    + simpl. intros [e|Hin]; [congruence|].
      apply Hfin in Hin as [Hin _]. apply Hnewbs. apply (inv_fl_bs INV _ Hin).
    + exact Hnewfh.
    + exact S1.
    + reflexivity.
    + reflexivity.
  - (* coalesced *)
    pose proof (inv_coalesced _ _ _ _ INV) as Hco. rewrite Ebs in Hco.
    assert (Hmono : forall l, (forall x, In x l -> In x bs) ->
              chain (fun a b => ~ (is_free s a /\ is_free s b)) l ->
              chain (fun a b => ~ ((if a =? new then RT_MEMHEAP_MAGIC else magic (items s a))
                                     = RT_MEMHEAP_MAGIC /\
                                   (if b =? new then RT_MEMHEAP_MAGIC else magic (items s b))
                                     = RT_MEMHEAP_MAGIC)) l).
    { intros l Hl. apply chain_mono. intros x y Hx Hy HR.
      rewrite (proj2 (Z.eqb_neq x new)) by (intros ->; apply Hnewbs, Hl, Hx).
      rewrite (proj2 (Z.eqb_neq y new)) by (intros ->; apply Hnewbs, Hl, Hy).
      exact HR. }
    assert (Hmgb : magic (items s b) <> RT_MEMHEAP_MAGIC).
    { rewrite Hused. discriminate. }
    apply chain_app in Hco as [Hc1 Hc2]. apply chain_app. split.
    + apply Hmono; [|exact Hc1]. intros x Hx. rewrite Ebs.
      rewrite in_app_iff in *. simpl in *. tauto.
    + apply chain_cons. split.
      * rewrite (proj2 (Z.eqb_neq b new)) by lia. tauto.
      * apply chain_tail in Hc2. destruct l2 as [|e l2]; [simpl; auto|].
        apply chain_cons in Hc2 as [Hre Hc2]. apply chain_cons. split.
        -- rewrite (proj2 (Z.eqb_neq e new))
             by (intros ->; apply Hnewbs; rewrite Ebs, in_app_iff; simpl; auto).
           unfold is_free in Hre. tauto.
        -- apply Hmono; [|exact Hc2]. intros x Hx. rewrite Ebs.
           rewrite in_app_iff. simpl in *. tauto.
  - (* accounting *)
    rewrite Dav, Hav1.
    change (new :: flA ++ flB) with ([new] ++ (flA ++ flB)). rewrite sumf_app.
    rewrite (sumf_ext (payload s)
               (fun a => (if a =? b then new else if a =? new then N
                          else next (items s a)) - a - HS) (flA ++ flB)).
    + unfold sumf at 1. cbn [fold_right].
      rewrite (proj2 (Z.eqb_neq new b)) by lia. rewrite Z.eqb_refl.
      rewrite sum_payload_sumf. subst new. lia.
    + intros a Ha. apply Hfin in Ha as [Ha Har].
      pose proof (inv_fl_bs INV _ Ha) as Hab. pose proof (inv_fl_free INV _ Ha) as Haf.
      assert (a <> b) by (intros ->; exact (free_not_used b Haf Hused)).
      assert (a <> new) by (intros ->; tauto).
      rewrite (proj2 (Z.eqb_neq a b)), (proj2 (Z.eqb_neq a new)) by assumption.
      reflexivity.
  - rewrite Dav. pose proof (inv_max_used _ _ _ _ INV). lia.
  - intros Hm a Ha. apply Hin' in Ha as [->|[Ha _]].
    + pose proof (inv_align _ _ _ _ INV Hm b Hb) as Hbal.
      pose proof (HSZ_spec OK) as [_ HHal]. specialize (Haln Hm).
      pose proof (align_pos OK).
      replace (new - start_addr (hget s heap))
        with ((b - start_addr (hget s heap)) + (HS + n)) by (unfold new; lia).
      rewrite Z.add_mod, Hbal by lia. rewrite Z.add_0_l, Z.mod_mod by lia.
      rewrite Z.add_mod, HHal, Haln by lia. reflexivity.
    + apply (inv_align _ _ _ _ INV Hm a Ha).
Qed.

Lemma realloc_shrink_inv_free p n l1 r l2 flA flB :
  let b := p - HS in
  bs = l1 ++ b :: r :: l2 -> fl = flA ++ r :: flB -> is_used s b ->
  RT_MEMHEAP_MINIALLOC <= n -> n + HS + RT_MEMHEAP_MINIALLOC < payload s b ->
  (RT_MEMHEAP_MINIALLOC mod RT_ALIGN_SIZE = 0 -> n mod RT_ALIGN_SIZE = 0) ->
  let s' := rt_sem_release heap (realloc_shrink heap b n (set_lock heap 0 s)) in
  heap_inv heap (l1 ++ b :: (p + n) :: l2) ((p + n) :: flA ++ flB) s' /\
  available_size (hget s' heap) = available_size (hget s heap) + (payload s b - n) /\
  tailer (hget s' heap) = tailer (hget s heap).
Proof.
  intros b Ebs Efl Hused Hn Hfit Haln s'.
  destruct (realloc_shrink_inv_free_bytes p n l1 r l2 flA flB Ebs Efl Hused Hn Hfit Haln)
    as (X1 & X2 & X3 & _).
  auto.
Qed.

(** The physical successor of a block of the list is free or used. *)
Lemma next_free_or_used b :
  In b bs ->
  (is_used s (next (items s b)) /\ exists l1 l2, bs = l1 ++ b :: l2) \/
  (is_free s (next (items s b)) /\
   exists l1 l2 flA flB, bs = l1 ++ b :: next (items s b) :: l2 /\
                         fl = flA ++ next (items s b) :: flB).
Proof.
  intros Hb. destruct (in_split _ _ Hb) as (l1 & l2 & E).
  pose proof (inv_neighbours INV _ _ _ E) as (Hn & _).
  destruct l2 as [|r l2]; simpl in Hn.
  - left. split; [|eauto]. rewrite Hn. apply (inv_tailer _ _ _ _ INV).
  - assert (Hr : In r bs) by (rewrite E; apply in_app_iff; simpl; auto).
    destruct (inv_magic _ _ _ _ INV r Hr) as [Hf|Hu].
    + right. rewrite Hn. split; [exact Hf|].
      assert (Hrfl : In r fl) by (apply (inv_fl _ _ _ _ INV); auto).
      destruct (in_split _ _ Hrfl) as (flA & flB & Efl). eauto 6.
    + left. rewrite Hn. split; [exact Hu|eauto].
Qed.

(** X12 (what a shrinking realloc does): for a live payload pointer [p]
    with payload [old] and a request whose normalized size [n] is at most
    [old], [rt_memheap_realloc] returns [p].  The guard of line 480 leaves
    the state as it is when [old - n <= H + MINIALLOC]; when
    [old - n > H + MINIALLOC] a new free block at [p + n] is split off and
    put at the head of the free list: next to a used neighbour it has
    payload [old - n - H] and [available_size] grows by that amount; next to
    a free neighbour [r] it absorbs [r], has payload [old - n + payload r],
    and [available_size] grows by [old - n]. *)
Theorem realloc_shrink_threshold p newsize :
  0 < newsize < wB ->
  live bs s p ->
  let b := p - HS in
  let n := normalized newsize in
  let old := payload s b in
  let r := next (items s b) in
  n <= old ->
  exists s', rt_memheap_realloc heap p newsize s = Some (p, s') /\
    ((old - n <= HS + RT_MEMHEAP_MINIALLOC /\ s' = s) \/
     (HS + RT_MEMHEAP_MINIALLOC < old - n /\ is_used s r /\
      (exists l1 l2, bs = l1 ++ b :: l2 /\
         heap_inv heap (l1 ++ b :: (p + n) :: l2) ((p + n) :: fl) s') /\
      is_free s' (p + n) /\ payload s' b = n /\
      payload s' (p + n) = old - n - HS /\
      available_size (hget s' heap) = available_size (hget s heap) + (old - n - HS)) \/
     (HS + RT_MEMHEAP_MINIALLOC < old - n /\ is_free s r /\
      (exists l1 l2 flA flB, bs = l1 ++ b :: r :: l2 /\ fl = flA ++ r :: flB /\
         heap_inv heap (l1 ++ b :: (p + n) :: l2) ((p + n) :: flA ++ flB) s') /\
      is_free s' (p + n) /\ payload s' b = n /\
      payload s' (p + n) = old - n + payload s r /\
      available_size (hget s' heap) = available_size (hget s heap) + (old - n))).
Proof.
  intros Hsz Hlive b n old r Hle.
  pose proof (HS_pos OK) as HH.
  pose proof (normalized_range OK newsize ltac:(lia)) as Hn.
  assert (Haln : RT_MEMHEAP_MINIALLOC mod RT_ALIGN_SIZE = 0 -> n mod RT_ALIGN_SIZE = 0).
  { intros Hm. apply (normalized_aligned OK); [lia|exact Hm]. }
  destruct (Z_le_gt_dec (old - n) (HS + RT_MEMHEAP_MINIALLOC)) as [Hk|Hk].
  { exists s. split; [|left; auto]. apply realloc_keep; auto. fold b n old. lia. }
  assert (Hfit : n + HS + RT_MEMHEAP_MINIALLOC < payload s b) by (fold old; lia).
  pose proof (realloc_shrink_eq p newsize Hsz Hlive Hfit) as Heq.
  destruct Hlive as [Hb Hused]. fold b in Hb, Hused, Heq. fold n in Heq.
  assert (Hn12 : RT_MEMHEAP_MINIALLOC <= n) by (unfold RT_MEMHEAP_MINIALLOC; lia).
  destruct (next_free_or_used b Hb) as [[Hu (l1 & l2 & E)]|[Hf (l1 & l2 & flA & flB & E & Efl)]].
  - destruct (realloc_shrink_inv_used p n l1 l2 E Hused Hu Hn12 Hfit Haln)
      as (INV' & Hav' & Htl).
    fold b in INV', Hav', Htl.
    set (s' := rt_sem_release heap (realloc_shrink heap b n (set_lock heap 0 s))) in *.
    clearbody s'. exists s'. split; [exact Heq|]. right. left.
    pose proof (inv_neighbours INV' l1 b ((p + n) :: l2) eq_refl) as (Hnb' & _).
    simpl in Hnb'.
    assert (E2 : l1 ++ b :: (p + n) :: l2 = (l1 ++ [b]) ++ (p + n) :: l2)
      by (rewrite <- app_assoc; reflexivity).
    pose proof (inv_neighbours INV' _ (p + n) l2 E2) as (Hnn' & _).
    pose proof (inv_neighbours INV _ _ _ E) as (Hx & _).
    split; [lia|]. split; [exact Hu|]. split; [eauto|].
    split; [apply (inv_fl_free INV' (p + n)); simpl; auto|].
    split; [unfold payload; rewrite Hnb'; unfold b; lia|].
    split; [|exact Hav'].
    unfold payload. rewrite Hnn', Htl. unfold old, payload. rewrite Hx. unfold b. lia.
  - fold r in Hf, E, Efl.
    destruct (realloc_shrink_inv_free p n l1 r l2 flA flB E Efl Hused Hn12 Hfit Haln)
      as (INV' & Hav' & Htl).
    fold b in INV', Hav', Htl.
    set (s' := rt_sem_release heap (realloc_shrink heap b n (set_lock heap 0 s))) in *.
    clearbody s'. exists s'. split; [exact Heq|]. right. right.
    pose proof (inv_neighbours INV' l1 b ((p + n) :: l2) eq_refl) as (Hnb' & _).
    simpl in Hnb'.
    assert (E2 : l1 ++ b :: (p + n) :: l2 = (l1 ++ [b]) ++ (p + n) :: l2)
      by (rewrite <- app_assoc; reflexivity).
    pose proof (inv_neighbours INV' _ (p + n) l2 E2) as (Hnn' & _).
    assert (E3 : bs = (l1 ++ [b]) ++ r :: l2) by (rewrite <- app_assoc; exact E).
    pose proof (inv_neighbours INV _ r l2 E3) as (Hnr & _).
    split; [lia|]. split; [exact Hf|]. split; [eauto 7|].
    split; [apply (inv_fl_free INV' (p + n)); simpl; auto|].
    split; [unfold payload; rewrite Hnb'; unfold b; lia|].
    split; [|exact Hav'].
    unfold payload. rewrite Hnn', Htl, Hnr. unfold old, payload. fold r. unfold b. lia.
Qed.

End Shrink.

Section ShrinkExamples.
Local Existing Instance target32.

(** C3 (shrink split threshold) fails on the code at the boundary.  On the
    32-bit build the block at 0x1000 has a payload of 100 bytes and the
    request of 64 leaves [old - n = 36 = H + MINIALLOC], room for a header
    and a smallest payload; the claim asks for a split there, and
    [rt_memheap_realloc] returns the pointer with the state as it was: no
    free block stands at [p + n]. *)
Lemma realloc_shrink_boundary_unchanged :
  payload ex32_alloc 0x1000 - normalized 64 = RT_MEMHEAP_SIZE + RT_MEMHEAP_MINIALLOC /\
  live [0x1000; 0x107C] ex32_alloc 0x1018 /\
  rt_memheap_realloc ex_heap 0x1018 64 ex32_alloc = Some (0x1018, ex32_alloc) /\
  ~ is_free ex32_alloc (0x1018 + normalized 64).
Proof.
  split; [vm_compute; reflexivity|].
  assert (L : live [0x1000; 0x107C] ex32_alloc 0x1018)
    by (vm_compute; split; [left|]; reflexivity).
  split; [exact L|]. split.
  - apply (realloc_keep target32_ok ex_heap _ _ ex32_alloc ex32_alloc_inv 0x1018 64).
    + vm_compute. split; reflexivity.
    + exact L.
    + vm_compute. split; discriminate.
  - vm_compute. discriminate.
Qed.

Lemma realloc_shrink_threshold_witness :
  let p := 0x1018 in
  let b := p - RT_MEMHEAP_SIZE in
  let n := normalized 40 in
  let old := payload ex32_alloc b in
  let r := next (items ex32_alloc b) in
  exists s', rt_memheap_realloc ex_heap p 40 ex32_alloc = Some (p, s') /\
    ((old - n <= RT_MEMHEAP_SIZE + RT_MEMHEAP_MINIALLOC /\ s' = ex32_alloc) \/
     (RT_MEMHEAP_SIZE + RT_MEMHEAP_MINIALLOC < old - n /\ is_used ex32_alloc r /\
      (exists l1 l2, [0x1000; 0x107C] = l1 ++ b :: l2 /\
         heap_inv ex_heap (l1 ++ b :: (p + n) :: l2) ((p + n) :: [0x107C]) s') /\
      is_free s' (p + n) /\ payload s' b = n /\
      payload s' (p + n) = old - n - RT_MEMHEAP_SIZE /\
      available_size (hget s' ex_heap)
        = available_size (hget ex32_alloc ex_heap) + (old - n - RT_MEMHEAP_SIZE)) \/
     (RT_MEMHEAP_SIZE + RT_MEMHEAP_MINIALLOC < old - n /\ is_free ex32_alloc r /\
      (exists l1 l2 flA flB, [0x1000; 0x107C] = l1 ++ b :: r :: l2 /\
         [0x107C] = flA ++ r :: flB /\
         heap_inv ex_heap (l1 ++ b :: (p + n) :: l2) ((p + n) :: flA ++ flB) s') /\
      is_free s' (p + n) /\ payload s' b = n /\
      payload s' (p + n) = old - n + payload ex32_alloc r /\
      available_size (hget s' ex_heap)
        = available_size (hget ex32_alloc ex_heap) + (old - n))).
Proof.
  apply (realloc_shrink_threshold target32_ok ex_heap [0x1000; 0x107C] [0x107C]
           ex32_alloc ex32_alloc_inv 0x1018 40).
  - vm_compute. split; reflexivity.
  - vm_compute. split; [left|]; reflexivity.
  - vm_compute. discriminate.
Defined.

End ShrinkExamples.

(** ** Results of runs *)

Lemma some_the_state (o : option state) :
  succeeded o = true -> o = Some (the_state o).
Proof. destruct o; [reflexivity|discriminate]. Qed.

Lemma some_ptr_state (o : option (Z * state)) p :
  option_map fst o = Some p -> o = Some (p, the_state (option_map snd o)).
Proof. destruct o as [[q s]|]; simpl; [intros [= ->]; reflexivity|discriminate]. Qed.

(** ** The split test of the allocation at its boundary *)

Section SplitBoundary.
Local Existing Instance target32.

(** [rt_memheap_alloc] splits a free block that holds exactly the request,
    a header and a smallest payload: from the block of 976 bytes a request
    of 940 takes 940 and leaves a free block of 12 bytes at 0x13C4. *)
Example alloc_splits_at_boundary :
  payload ex32_init 0x1000 = normalized 940 + RT_MEMHEAP_SIZE + RT_MEMHEAP_MINIALLOC /\
  exists s', rt_memheap_alloc ex_heap 940 ex32_init = Some (0x1018, s') /\
    payload s' 0x1000 = 940 /\
    is_free s' 0x13C4 /\
    payload s' 0x13C4 = 12.
Proof.
  split; [vm_compute; reflexivity|].
  eexists. split; [apply some_ptr_state; vm_compute; reflexivity|].
  vm_compute. repeat split; reflexivity.
Qed.

End SplitBoundary.

(** ** Requests near the top of the word range *)

Section Overflow.
Local Existing Instance target32.

(** C1 (coalescing completeness) fails on the code: after the run
    init; p = alloc 100; realloc p 0xFFFFFFFC; alloc 100; y = alloc 100;
    alloc 100; free y; realloc p 244, with the lock released, the third block
    reached from [block_list] is free and so is its successor. *)
Theorem overflow_run_adjacent_free :
  exists s, overflow_run = Some s /\
    lock (hget s ex_heap) = 1 /\
    nth_block s ex_heap 3 = 0x1090 /\
    is_free s 0x1090 /\
    next (items s 0x1090) = 0x110C /\
    is_free s 0x110C.
Proof.
  exists (the_state overflow_run).
  split; [apply some_the_state; vm_compute; reflexivity|].
  vm_compute. repeat split; reflexivity.
Qed.

(** C2 (accounting) fails on the code: after the run
    init; p = alloc 100; realloc p 0xFFFFFFFC; alloc 100; alloc 100;
    realloc p 244, with the lock released, the free list holds the one block
    0x110C, linked to itself, with [MEMITEM_SIZE] 4294967024, and
    [available_size] is 436. *)
Theorem accounting_run_mismatch :
  exists s, accounting_run = Some s /\
    lock (hget s ex_heap) = 1 /\
    available_size (hget s ex_heap) = 436 /\
    next_free (items s (free_list (hget s ex_heap))) = 0x110C /\
    next_free (items s 0x110C) = 0x110C /\
    MEMITEM_SIZE s 0x110C = 4294967024 /\
    free_blocks s ex_heap 1000 = None.
Proof.
  exists (the_state accounting_run).
  split; [apply some_the_state; vm_compute; reflexivity|].
  vm_compute. repeat split; reflexivity.
Qed.

(** C8 (content preservation) fails on the code: [realloc p 0xFFFFFFFC] on a
    block of 100 bytes returns [p], and the first payload byte, 24 before the
    call, lies under the header written at [p - 4]. *)
Theorem realloc_overflow_clobbers_payload :
  live [0x1000; 0x107C] ex32_alloc 0x1018 /\
  payload ex32_alloc 0x1000 = 100 /\
  bytes ex32_alloc 0x1018 = Some 24 /\
  exists s, rt_memheap_realloc ex_heap 0x1018 0xFFFFFFFC ex32_alloc = Some (0x1018, s) /\
    next (items s 0x1000) = 0x1014 /\
    bytes s 0x1018 = None.
Proof.
  split; [vm_compute; split; [left|]; reflexivity|].
  split; [vm_compute; reflexivity|]. split; [vm_compute; reflexivity|].
  eexists. split; [apply some_ptr_state; vm_compute; reflexivity|].
  vm_compute. split; reflexivity.
Qed.

End Overflow.

(** C6 (allocation postcondition) fails on the code.  On the 8-byte-aligned
    build the second of two [alloc 1] returns 0x103C, which is 4 modulo 8;
    on the 32-bit build [alloc 0xFFFFFFFD] returns 0x1018 in a block whose
    successor stands at 0x1024, 12 bytes further. *)
Theorem alloc_postcondition_fails :
  (exists p s q s',
     @rt_memheap_alloc target8 ex_heap 1 ex8_init = Some (p, s) /\
     @rt_memheap_alloc target8 ex_heap 1 s = Some (q, s') /\
     q = 0x103C /\ q mod @RT_ALIGN_SIZE target8 = 4) /\
  (exists s,
     @rt_memheap_alloc target32 ex_heap 0xFFFFFFFD ex32_init = Some (0x1018, s) /\
     next (items s 0x1000) = 0x1024 /\
     next (items s 0x1000) < 0x1018 + 0xFFFFFFFD).
Proof.
  split.
  - eexists _, _, _, _.
    split; [apply some_ptr_state; vm_compute; reflexivity|].
    split; [apply some_ptr_state; vm_compute; reflexivity|].
    split; reflexivity.
  - eexists. split; [apply some_ptr_state; vm_compute; reflexivity|].
    vm_compute. split; reflexivity.
Qed.

(** ** rt_memheap_realloc: the degenerate arguments *)

Section Degenerate.
Context `{Target} (OK : target_ok).

(** [rt_memheap_alloc] sees its request only through the normalized size. *)
Lemma alloc_by_normalized heap m n s :
  normalized m = normalized n ->
  rt_memheap_alloc heap m s = rt_memheap_alloc heap n s.
Proof.
  intros E. unfold rt_memheap_alloc.
  fold (normalized m). fold (normalized n). rewrite E. reflexivity.
Qed.

(** C4, amended (degenerate arguments of realloc): [realloc(heap, NULL, 0)]
    returns NULL and leaves the state as it is; for a request [n] other than
    0, [realloc(heap, NULL, n)] is [alloc(heap, n')] with [n'] the normalized
    [n], which is [alloc(heap, n)] when [MINIALLOC] is a multiple of the
    alignment; and [realloc(heap, p, 0)] is [free(p)] with result NULL. *)
Theorem realloc_degenerate heap p n s :
  heap <> RT_NULL -> is_memheap s heap = true ->
  rt_memheap_realloc heap RT_NULL 0 s = Some (RT_NULL, s) /\
  (n <> 0 ->
   rt_memheap_realloc heap RT_NULL n s = rt_memheap_alloc heap (normalized n) s) /\
  (0 < n < wB -> RT_MEMHEAP_MINIALLOC mod RT_ALIGN_SIZE = 0 ->
   rt_memheap_realloc heap RT_NULL n s = rt_memheap_alloc heap n s) /\
  rt_memheap_realloc heap p 0 s =
    match rt_memheap_free p s with
    | Some s' => Some (RT_NULL, s')
    | None => None
    end.
Proof.
  intros Hh Hm.
  assert (E0 : forall q, rt_memheap_realloc heap q 0 s =
            match rt_memheap_free q s with
            | Some s' => Some (RT_NULL, s')
            | None => None
            end).
  { intros q. unfold rt_memheap_realloc.
    rewrite (proj2 (Z.eqb_neq _ _) Hh), Hm. reflexivity. }
  assert (E1 : n <> 0 ->
            rt_memheap_realloc heap RT_NULL n s = rt_memheap_alloc heap (normalized n) s).
  { intros Hn. unfold rt_memheap_realloc.
    rewrite (proj2 (Z.eqb_neq _ _) Hh), Hm.
    rewrite (proj2 (Z.eqb_neq _ _) Hn). reflexivity. }
  split; [rewrite E0; reflexivity|]. split; [exact E1|]. split; [|apply E0].
  intros Hn Hal. rewrite E1 by lia. apply alloc_by_normalized.
  apply (normalized_idem OK); [lia|exact Hal].
Qed.

End Degenerate.

Section DegenerateExamples.
Local Existing Instance target32.

(** C4 as stated fails at [n = 0]: [realloc(heap, NULL, 0)] returns NULL
    where [alloc(heap, 0)] returns a block. *)
Lemma realloc_null_zero_differs :
  option_map fst (rt_memheap_realloc ex_heap RT_NULL 0 ex32_init) = Some RT_NULL /\
  option_map fst (rt_memheap_alloc ex_heap 0 ex32_init) = Some 0x1018 /\
  rt_memheap_realloc ex_heap RT_NULL 0 ex32_init <> rt_memheap_alloc ex_heap 0 ex32_init.
Proof.
  assert (E1 : option_map fst (rt_memheap_realloc ex_heap RT_NULL 0 ex32_init)
               = Some RT_NULL) by (vm_compute; reflexivity).
  assert (E2 : option_map fst (rt_memheap_alloc ex_heap 0 ex32_init) = Some 0x1018)
    by (vm_compute; reflexivity).
  split; [exact E1|]. split; [exact E2|].
  intros E. rewrite E in E1. rewrite E1 in E2. discriminate E2.
Qed.

Lemma realloc_degenerate_witness :
  rt_memheap_realloc ex_heap RT_NULL 0 ex32_init = Some (RT_NULL, ex32_init) /\
  (100 <> 0 ->
   rt_memheap_realloc ex_heap RT_NULL 100 ex32_init
   = rt_memheap_alloc ex_heap (normalized 100) ex32_init) /\
  (0 < 100 < wB -> RT_MEMHEAP_MINIALLOC mod RT_ALIGN_SIZE = 0 ->
   rt_memheap_realloc ex_heap RT_NULL 100 ex32_init
   = rt_memheap_alloc ex_heap 100 ex32_init) /\
  rt_memheap_realloc ex_heap 0x1018 0 ex32_init =
    match rt_memheap_free 0x1018 ex32_init with
    | Some s' => Some (RT_NULL, s')
    | None => None
    end.
Proof.
  apply (realloc_degenerate target32_ok ex_heap 0x1018 100 ex32_init).
  - vm_compute. discriminate.
  - vm_compute. reflexivity.
Defined.

End DegenerateExamples.

(** ** rt_memheap_init: the state it leaves *)

Section InitPost.
Context `{Target} (OK : target_ok).

(** C9, amended (init postcondition): for a descriptor outside a region
    [start, start + S) that lies in the address space, with
    [S >= 3H + MINIALLOC], [rt_memheap_init] sets [pool_size] to [S] rounded
    down to the alignment, [available_size] to [pool_size - 2H] and
    [max_used_size] to [2H]; the pool holds one free block at [start] of
    payload [available_size], followed by the used tailer at
    [start + H + available_size], whose header ends the pool and whose
    [next] and [prev] are [start]; and the free list is that one block.
    (With S = 1024 and H = 12 the tailer stands at [start + 0x3F4].) *)
Theorem init_postcondition memheap start size s :
  memheap <> RT_NULL ->
  0 < start -> 0 <= size < wB -> start + size <= wB ->
  3 * RT_MEMHEAP_SIZE + RT_MEMHEAP_MINIALLOC <= size ->
  (free_header_of memheap + RT_MEMHEAP_SIZE <= start \/
   start + size <= free_header_of memheap) ->
  let psz := size - size mod RT_ALIGN_SIZE in
  let av := psz - 2 * RT_MEMHEAP_SIZE in
  let tl := start + RT_MEMHEAP_SIZE + av in
  exists s',
    rt_memheap_init memheap start size s = Some s' /\
    pool_size (hget s' memheap) = psz /\
    available_size (hget s' memheap) = av /\
    max_used_size (hget s' memheap) = 2 * RT_MEMHEAP_SIZE /\
    heap_inv memheap [start] [start] s' /\
    is_free s' start /\ payload s' start = av /\ next (items s' start) = tl /\
    is_used s' tl /\ tl + RT_MEMHEAP_SIZE = start + psz /\
    next (items s' tl) = start /\ prev (items s' tl) = start /\
    free_blocks s' memheap 2 = Some [start].
Proof.
  intros Hn Hs Hsz Hreg Hbig Hfh psz av tl.
  destruct (init_fields OK memheap start size s Hn ltac:(lia) Hsz Hreg Hbig Hfh)
    as (s' & Hinit & Hh & Hi1 & Hi2 & Hi3 & Hm).
  destruct (init_inv OK memheap start size s Hn Hs Hsz Hreg Hbig Hfh)
    as (s2 & Hinit2 & INV).
  rewrite Hinit in Hinit2. injection Hinit2 as <-.
  subst tl av psz. cbv zeta in Hh, Hi1, Hi2.
  pose proof (HSZ_bounds OK) as HH. unfold RT_MEMHEAP_MINIALLOC in Hbig.
  exists s'. split; [exact Hinit|].
  split; [rewrite Hh; reflexivity|]. split; [rewrite Hh; reflexivity|].
  split; [rewrite Hh; reflexivity|]. split; [exact INV|].
  unfold is_free, is_used, payload, free_blocks, free_walk.
  rewrite Hh. cbn [free_list]. rewrite Hi3. cbn [next_free].
  rewrite Hi1. cbn [magic next prev next_free]. rewrite Hi2. cbn [magic next prev].
  rewrite (proj2 (Z.eqb_neq start (free_header_of memheap))) by lia.
  rewrite Z.eqb_refl.
  repeat split; try reflexivity; lia.
Qed.

End InitPost.

Section InitExamples.
Local Existing Instance target_spec.

(** C9 as stated fails in its example: with S = 1024 and H = 12 the tailer
    stands at [start + 0x3F4]; nothing is written at [start + 0x404]. *)
Lemma init_example_tailer_address :
  RT_MEMHEAP_SIZE = 12 /\
  exists s', ex_spec_init = Some s' /\
    available_size (hget s' ex_heap) = 1000 /\
    next (items s' ex_start) = ex_start + 0x3F4 /\
    is_used s' (ex_start + 0x3F4) /\
    next (items s' ex_start) <> ex_start + 0x404 /\
    ~ is_used s' (ex_start + 0x404).
Proof.
  split; [reflexivity|].
  exists (the_state ex_spec_init).
  split; [apply some_the_state; vm_compute; reflexivity|].
  vm_compute. repeat split; try reflexivity; discriminate.
Qed.

Lemma init_postcondition_witness :
  let psz := 1024 - 1024 mod RT_ALIGN_SIZE in
  let av := psz - 2 * RT_MEMHEAP_SIZE in
  let tl := ex_start + RT_MEMHEAP_SIZE + av in
  exists s',
    rt_memheap_init ex_heap ex_start 1024 state0 = Some s' /\
    pool_size (hget s' ex_heap) = psz /\
    available_size (hget s' ex_heap) = av /\
    max_used_size (hget s' ex_heap) = 2 * RT_MEMHEAP_SIZE /\
    heap_inv ex_heap [ex_start] [ex_start] s' /\
    is_free s' ex_start /\ payload s' ex_start = av /\ next (items s' ex_start) = tl /\
    is_used s' tl /\ tl + RT_MEMHEAP_SIZE = ex_start + psz /\
    next (items s' tl) = ex_start /\ prev (items s' tl) = ex_start /\
    free_blocks s' ex_heap 2 = Some [ex_start].
Proof.
  apply (init_postcondition target_spec_ok ex_heap ex_start 1024 state0).
  - vm_compute. discriminate.
  - vm_compute. reflexivity.
  - vm_compute. split; [discriminate|reflexivity].
  - vm_compute. discriminate.
  - vm_compute. discriminate.
  - left. vm_compute. discriminate.
Defined.

End InitExamples.

(** ** Taking and releasing the lock *)

Section LockRestore.
Context `{Target}.

Lemma state_ext s t :
  heaps s = heaps t -> registry s = registry t -> items s = items t ->
  bytes s = bytes t -> errno s = errno t -> s = t.
Proof. destruct s, t; simpl; intros; subst; reflexivity. Qed.

Lemma lock_restore heap s :
  is_memheap s heap = true -> lock (hget s heap) = 1 ->
  rt_sem_release heap (set_lock heap 0 s) = s.
Proof.
  intros Hm Hl. unfold is_memheap in Hm.
  destruct (heaps s !! heap) as [h|] eqn:E; [|discriminate].
  assert (Hg : hget s heap = h) by (unfold hget; rewrite E; reflexivity).
  apply state_ext; try reflexivity.
  unfold rt_sem_release. rewrite lock_set_lock.
  unfold set_lock, hupd. cbn [heaps]. rewrite insert_insert_eq.
  rewrite Hg. unfold hget. cbn [heaps]. rewrite lookup_insert_eq.
  cbn [start_addr pool_size available_size max_used_size block_list free_list lock].
  apply insert_id. rewrite E. f_equal. rewrite Hg in Hl.
  destruct h; simpl in *; subst; reflexivity.
Qed.

End LockRestore.

(** ** rt_memheap_alloc: the first-fit search *)

Section Search.
Context `{Target}.
Variables (st : state) (heap n : Z).

Local Abbreviation fhd := (free_list (hget st heap)).
Local Abbreviation nf := (fun a => next_free (items st a)).
Local Abbreviation pf := (fun a => prev_free (items st a)).

(** The walk stops at the first block that is large enough. *)
Lemma alloc_search_found l1 c l2 : forall a fsz fuel,
  seg nf pf a (l1 ++ c :: l2) fhd ->
  ~ In fhd (l1 ++ c :: l2) ->
  (forall x, In x l1 -> MEMITEM_SIZE st x < n) ->
  n <= MEMITEM_SIZE st c ->
  fsz < n ->
  (length l1 + 2 <= fuel)%nat ->
  alloc_search st heap n fuel (nf a) fsz = Some (c, MEMITEM_SIZE st c).
Proof.
  induction l1 as [|b l1 IH]; intros a fsz fuel Hs Hfh Hsmall Hfit Hf Hfuel.
  - simpl in Hs. destruct Hs as (Ha & _ & _). rewrite Ha.
    destruct fuel as [|[|fuel]]; [simpl in Hfuel; lia..|].
    assert (c <> fhd) by (intros ->; apply Hfh; simpl; auto).
    cbn [alloc_search]. rewrite (proj2 (Z.eqb_neq _ _) H0). cbn [negb andb].
    rewrite (proj2 (Z.ltb_lt _ _) Hf). cbv zeta.
    rewrite (proj2 (Z.ltb_ge _ _) Hfit).
    cbn [alloc_search]. reflexivity.
  - change ((b :: l1) ++ c :: l2) with (b :: (l1 ++ c :: l2)) in *.
    simpl in Hs. destruct Hs as (Ha & _ & Hs). rewrite Ha.
    destruct fuel as [|fuel]; [simpl in Hfuel; lia|].
    assert (b <> fhd) by (intros ->; apply Hfh; simpl; auto).
    assert (Hb : MEMITEM_SIZE st b < n) by (apply Hsmall; simpl; auto).
    cbn [alloc_search]. rewrite (proj2 (Z.eqb_neq _ _) H0). cbn [negb andb].
    rewrite (proj2 (Z.ltb_lt _ _) Hf). cbv zeta.
    rewrite (proj2 (Z.ltb_lt _ _) Hb).
    apply (IH b); auto.
    + intros Hin. apply Hfh. simpl. auto.
    + intros x Hx. apply Hsmall. simpl. auto.
    + simpl in Hfuel. lia.
Qed.

(** No block is large enough: the walk ends at the sentinel. *)
Lemma alloc_search_none l : forall a fsz fuel,
  seg nf pf a l fhd ->
  ~ In fhd l ->
  (forall x, In x l -> MEMITEM_SIZE st x < n) ->
  fsz < n ->
  (length l + 1 <= fuel)%nat ->
  exists f', f' < n /\ alloc_search st heap n fuel (nf a) fsz = Some (fhd, f').
Proof.
  induction l as [|b l IH]; intros a fsz fuel Hs Hfh Hsmall Hf Hfuel.
  - simpl in Hs. destruct Hs as (Ha & _). rewrite Ha.
    destruct fuel as [|fuel]; [simpl in Hfuel; lia|].
    exists fsz. split; [exact Hf|].
    cbn [alloc_search]. rewrite Z.eqb_refl. reflexivity.
  - simpl in Hs. destruct Hs as (Ha & _ & Hs). rewrite Ha.
    destruct fuel as [|fuel]; [simpl in Hfuel; lia|].
    assert (b <> fhd) by (intros ->; apply Hfh; simpl; auto).
    assert (Hb : MEMITEM_SIZE st b < n) by (apply Hsmall; simpl; auto).
    cbn [alloc_search]. rewrite (proj2 (Z.eqb_neq _ _) H0). cbn [negb andb].
    rewrite (proj2 (Z.ltb_lt _ _) Hf). cbv zeta.
    rewrite (proj2 (Z.ltb_lt _ _) Hb).
    apply (IH b); auto.
    + intros Hin. apply Hfh. simpl. auto.
    + intros x Hx. apply Hsmall. simpl. auto.
    + simpl in Hfuel. lia.
Qed.

End Search.

(** The free list splits at its first block of at least [n] bytes. *)
Lemma first_fit_split (w : Z -> Z) (n : Z) (l : list Z) :
  (forall x, In x l -> w x < n) \/
  exists l1 c l2, l = l1 ++ c :: l2 /\ (forall x, In x l1 -> w x < n) /\ n <= w c.
Proof.
  induction l as [|a l IH].
  - left. intros x [].
  - destruct (Z_lt_ge_dec (w a) n) as [Ha|Ha].
    + destruct IH as [IH|(l1 & c & l2 & E & Hs & Hc)].
      * left. intros x [<-|Hx]; auto.
      * right. exists (a :: l1), c, l2. rewrite E. split; [reflexivity|].
        split; [|exact Hc]. intros x [<-|Hx]; auto.
    + right. exists [], a, l. split; [reflexivity|]. split; [intros x []|lia].
Qed.

(** ** rt_memheap_alloc under the invariant *)

Section Alloc.
Context `{Target} (OK : target_ok).
Variables (heap : Z) (bs fl : list Z) (s : state).
Hypothesis INV : heap_inv heap bs fl s.

Local Abbreviation HS := RT_MEMHEAP_SIZE.

Lemma inv_free_count : (length fl + 2 <= search_fuel (set_lock heap 0 s) heap)%nat.
Proof.
  unfold search_fuel. autorewrite with fields.
  pose proof (HS_pos OK) as HH. pose proof (HSZ_bounds OK) as HHb.
  destruct (po_sum_bound HH (inv_phys_ok INV) fl
              (inv_fl_nodup _ _ _ _ INV) (inv_fl_bs INV)) as [H1 H2].
  unfold tailer in H2.
  assert (Z.of_nat (length fl) + 12 <= pool_size (hget s heap)) by nia.
  lia.
Qed.

Lemma inv_free_seg_locked :
  seg (fun a => next_free (items (set_lock heap 0 s) a))
      (fun a => prev_free (items (set_lock heap 0 s) a))
      (free_list (hget (set_lock heap 0 s) heap)) fl
      (free_list (hget (set_lock heap 0 s) heap)).
Proof. rewrite free_list_set_lock. apply (inv_free _ _ _ _ INV). Qed.

(** The search fails: the call gives NULL and leaves the state as it was. *)
Lemma alloc_no_fit size :
  0 <= size < wB ->
  let n := normalized size in
  n < available_size (hget s heap) ->
  (forall x, In x fl -> payload s x < n) ->
  rt_memheap_alloc heap size s = Some (RT_NULL, s).
Proof.
  intros Hsz n Hav Hsmall.
  pose proof (normalized_range OK size Hsz) as Hn. fold n in Hn.
  unfold rt_memheap_alloc.
  rewrite (proj2 (Z.eqb_neq _ _) (inv_nonnull _ _ _ _ INV)).
  rewrite (inv_is_heap _ _ _ _ INV). cbn [negb].
  fold (normalized size). fold n. cbv zeta.
  rewrite (proj2 (Z.ltb_lt _ _) Hav).
  rewrite (rt_sem_take_ok _ _ (inv_lock _ _ _ _ INV)).
  change (RT_EOK =? RT_EOK) with true. cbn [negb].
  destruct (alloc_search_none (set_lock heap 0 s) heap n fl
              (free_list (hget (set_lock heap 0 s) heap)) 0
              (search_fuel (set_lock heap 0 s) heap))
    as (f' & Hf' & Hsearch).
  - apply inv_free_seg_locked.
  - rewrite free_list_set_lock. apply (inv_fh_notin_fl OK INV).
  - intros x Hx. change (MEMITEM_SIZE (set_lock heap 0 s) x) with (MEMITEM_SIZE s x).
    rewrite (inv_MEMITEM_SIZE OK INV x (inv_fl_bs INV x Hx)). auto.
  - lia.
  - pose proof inv_free_count. lia.
  - rewrite Hsearch. rewrite (proj2 (Z.leb_gt _ _) Hf').
    rewrite (lock_restore heap s (inv_is_heap _ _ _ _ INV) (inv_lock _ _ _ _ INV)).
    reflexivity.
Qed.

(** The search stops at [c], the first free block of at least [n] bytes. *)
Lemma alloc_fit size flA c flB :
  0 <= size < wB ->
  let n := normalized size in
  n < available_size (hget s heap) ->
  fl = flA ++ c :: flB ->
  (forall x, In x flA -> payload s x < n) ->
  n <= payload s c ->
  rt_memheap_alloc heap size s =
  Some (c + HS,
        rt_sem_release heap
          (set_magic c (Z.lor RT_MEMHEAP_MAGIC RT_MEMHEAP_USED)
             (if n + HS + RT_MEMHEAP_MINIALLOC <=? payload s c
              then alloc_split heap c n (set_lock heap 0 s)
              else alloc_whole heap c (payload s c) (set_lock heap 0 s)))).
Proof.
  intros Hsz n Hav Efl Hsmall Hfit.
  pose proof (normalized_range OK size Hsz) as Hn. fold n in Hn.
  pose proof (HSZ_bounds OK) as HHb.
  assert (Hc : In c bs) by (apply (inv_fl_bs INV); rewrite Efl, in_app_iff; simpl; auto).
  pose proof (inv_addr_range OK INV _ Hc) as Hca.
  pose proof (inv_payload_range OK INV _ Hc) as Hcp.
  pose proof (inv_tailer_range OK INV) as Htl.
  pose proof (inv_avail_range OK INV) as Havr.
  pose proof (inv_region _ _ _ _ INV) as Hreg.
  unfold rt_memheap_alloc.
  rewrite (proj2 (Z.eqb_neq _ _) (inv_nonnull _ _ _ _ INV)).
  rewrite (inv_is_heap _ _ _ _ INV). cbn [negb].
  fold (normalized size). fold n. cbv zeta.
  rewrite (proj2 (Z.ltb_lt _ _) Hav).
  rewrite (rt_sem_take_ok _ _ (inv_lock _ _ _ _ INV)).
  change (RT_EOK =? RT_EOK) with true. cbn [negb].
  pose proof inv_free_seg_locked as Hseg. rewrite Efl in Hseg.
  rewrite (alloc_search_found (set_lock heap 0 s) heap n flA c flB
             (free_list (hget (set_lock heap 0 s) heap)) 0
             (search_fuel (set_lock heap 0 s) heap) Hseg).
  - change (MEMITEM_SIZE (set_lock heap 0 s) c) with (MEMITEM_SIZE s c).
    rewrite (inv_MEMITEM_SIZE OK INV c Hc).
    rewrite (proj2 (Z.leb_le _ _) Hfit).
    unfold RT_MEMHEAP_MINIALLOC in *. unfold tailer in *. rewrite wB_eq in *.
    rewrite (wrap_id (n + HS)) by lia.
    rewrite (wrap_id (n + HS + 12)) by lia.
    rewrite (wrap_id (c + HS)) by lia.
    destruct (n + HS + 12 <=? payload s c); reflexivity.
  - rewrite free_list_set_lock. rewrite <- Efl. apply (inv_fh_notin_fl OK INV).
  - intros x Hx. change (MEMITEM_SIZE (set_lock heap 0 s) x) with (MEMITEM_SIZE s x).
    rewrite (inv_MEMITEM_SIZE OK INV x); [auto|].
    apply (inv_fl_bs INV). rewrite Efl, in_app_iff. auto.
  - change (MEMITEM_SIZE (set_lock heap 0 s) c) with (MEMITEM_SIZE s c).
    rewrite (inv_MEMITEM_SIZE OK INV c Hc). exact Hfit.
  - lia.
  - pose proof inv_free_count as Hc'. rewrite Efl in Hc'.
    rewrite length_app in Hc'. simpl in Hc'. lia.
Qed.

Lemma alloc_split_inv_bytes n l1 c l2 flA flB :
  bs = l1 ++ c :: l2 -> fl = flA ++ c :: flB ->
  RT_MEMHEAP_MINIALLOC <= n -> n + HS + RT_MEMHEAP_MINIALLOC <= payload s c ->
  (RT_MEMHEAP_MINIALLOC mod RT_ALIGN_SIZE = 0 -> n mod RT_ALIGN_SIZE = 0) ->
  let new := c + HS + n in
  let s' := rt_sem_release heap
              (set_magic c (Z.lor RT_MEMHEAP_MAGIC RT_MEMHEAP_USED)
                 (alloc_split heap c n (set_lock heap 0 s))) in
  heap_inv heap (l1 ++ c :: new :: l2) (new :: flA ++ flB) s' /\
  available_size (hget s' heap) = available_size (hget s heap) - n - HS /\
  max_used_size (hget s heap) <= max_used_size (hget s' heap) /\
  tailer (hget s' heap) = tailer (hget s heap) /\
  (forall a,
     (forall x, In x bs \/ x = tailer (hget s heap) \/ x = free_list (hget s heap) ->
                x + HS <= a \/ a < x) ->
     c + HS + n + HS <= a \/ a < c + HS + n ->
     bytes s' a = bytes s a) /\
  (forall a, In a bs -> a <> c -> next (items s' a) = next (items s a)).
Proof.
  intros Ebs Efl Hn Hfit Haln new s'.
  pose proof (HS_pos OK) as HH. pose proof (HSZ_bounds OK) as HHb.
  assert (Hc : In c bs) by (rewrite Ebs; apply in_app_iff; simpl; auto).
  assert (Hcfl : In c fl) by (rewrite Efl; apply in_app_iff; simpl; auto).
  pose proof (inv_fl_free INV _ Hcfl) as Hfree.
  pose proof (inv_neighbours INV l1 c l2 Ebs) as (Hnc & Hpn & _).
  set (T := tailer (hget s heap)) in *.
  set (N := next (items s c)) in *.
  pose proof (inv_addr_range OK INV _ Hc) as Hca.
  pose proof (inv_next_range OK INV _ Hc) as Hcn. fold N T in Hcn.
  pose proof (inv_tailer_range OK INV) as Htl. fold T in Htl.
  pose proof (inv_avail_range OK INV) as Hav.
  pose proof (inv_avail_split OK INV _ _ _ Efl) as [Hav1 Hav2].
  pose proof (inv_region _ _ _ _ INV) as Hreg.
  pose proof (inv_sentinel _ _ _ _ INV) as Hsen.
  pose proof (inv_max_used _ _ _ _ INV) as Hmu.
  pose proof (inv_bs_range OK INV) as Hrange. fold T in Hrange.
  assert (Hpc : payload s c = N - c - HS) by reflexivity.
  unfold RT_MEMHEAP_MINIALLOC in Hfit, Hn.
  assert (Hnew1 : c + HS <= new) by (subst new; lia).
  assert (Hnew2 : new + HS + 12 <= N) by (subst new; lia).
  set (fh := free_list (hget s heap)) in *.
  assert (Hwn : wrap (wrap (c + n) + HS) = new).
  { unfold T, tailer in *. rewrite wB_eq in *. wrap_lia. subst new. lia. }
  assert (HnewT : new <> T) by lia.
  assert (Hnewfh : new <> fh).
  { specialize (Hrange _ Hc). unfold T, tailer in *. lia. }
  assert (Hcfh : c <> fh).
  { intros ->. apply (inv_fh_notin_fl OK INV). exact Hcfl. }
  set (nf1 := fun y => if y =? prev_free (items s c) then next_free (items s c)
                       else next_free (items s y)).
  set (pf1 := fun y => if y =? next_free (items s c) then prev_free (items s c)
                       else prev_free (items s y)).
  assert (Vmg : forall a, magic (items s' a) =
            if a =? c then Z.lor RT_MEMHEAP_MAGIC RT_MEMHEAP_USED
            else if a =? new then RT_MEMHEAP_MAGIC else magic (items s a)).
  { intros a. unfold s'. unfold rt_sem_release, alloc_split. cbv zeta.
    rewrite Hwn. autorewrite with fields. reflexivity. }
  assert (Vpl : forall a, pool_ptr (items s' a) =
            if a =? new then heap else pool_ptr (items s a)).
  { intros a. unfold s'. unfold rt_sem_release, alloc_split. cbv zeta.
    rewrite Hwn. autorewrite with fields. reflexivity. }
  assert (Vnx : forall a, next (items s' a) =
            if a =? c then new else if a =? new then N else next (items s a)).
  { intros a. unfold s'. unfold rt_sem_release, alloc_split. cbv zeta.
    rewrite Hwn. autorewrite with fields. reflexivity. }
  assert (Vpv : forall a, prev (items s' a) =
            if a =? N then new else if a =? new then c else prev (items s a)).
  { intros a. unfold s'. unfold rt_sem_release, alloc_split. cbv zeta.
    rewrite Hwn. autorewrite with fields. reflexivity. }
  assert (Vnf : forall a, next_free (items s' a) =
            if a =? fh then new
            else if a =? new then (if fh =? c then RT_NULL else nf1 fh)
            else if a =? c then RT_NULL else nf1 a).
  { intros a. unfold s'. unfold rt_sem_release, alloc_split. cbv zeta.
    rewrite Hwn. autorewrite with fields. reflexivity. }
  assert (Vpf : forall a, prev_free (items s' a) =
            if a =? (if fh =? c then RT_NULL else nf1 fh) then new
            else if a =? new then fh
            else if a =? c then RT_NULL else pf1 a).
  { intros a. unfold s'. unfold rt_sem_release, alloc_split. cbv zeta.
    rewrite Hwn. autorewrite with fields. reflexivity. }
  assert (Dst : start_addr (hget s' heap) = start_addr (hget s heap)).
  { unfold s'. unfold rt_sem_release, alloc_split. cbv zeta.
    autorewrite with fields. reflexivity. }
  assert (Dps : pool_size (hget s' heap) = pool_size (hget s heap)).
  { unfold s'. unfold rt_sem_release, alloc_split. cbv zeta.
    autorewrite with fields. reflexivity. }
  assert (Dbl : block_list (hget s' heap) = block_list (hget s heap)).
  { unfold s'. unfold rt_sem_release, alloc_split. cbv zeta.
    autorewrite with fields. reflexivity. }
  assert (Dfl : free_list (hget s' heap) = fh).
  { unfold s'. unfold rt_sem_release, alloc_split. cbv zeta.
    autorewrite with fields. reflexivity. }
  assert (Dlk : lock (hget s' heap) = 1).
  { unfold s'. unfold rt_sem_release, alloc_split. cbv zeta.
    autorewrite with fields. reflexivity. }
  assert (Dav : available_size (hget s' heap) = available_size (hget s heap) - n - HS).
  { unfold s'. unfold rt_sem_release, alloc_split. cbv zeta.
    autorewrite with fields. unfold T, tailer in *. rewrite wB_eq in *.
    wrap_lia. reflexivity. }
  assert (Dmu : (pool_size (hget s' heap) - available_size (hget s' heap)
                 <= max_used_size (hget s' heap) < wB) /\
                max_used_size (hget s heap) <= max_used_size (hget s' heap)).
  { rewrite Dav, Dps. unfold s'. unfold rt_sem_release, alloc_split. cbv zeta.
    rewrite Hwn. autorewrite with fields.
    match goal with
    | |- context [update_max_used heap ?X] =>
        destruct (max_used_update_max_used heap X) as [Hm1 Hm2];
          [| |revert Hm1 Hm2]
    end; autorewrite with fields; unfold T, tailer in *; rewrite ?wB_eq in *;
      wrap_lia; lia. }
  destruct Dmu as [Dmu Dmono].
  assert (Dmem : is_memheap s' heap = true).
  { unfold s'. unfold rt_sem_release. apply is_memheap_set_lock. }
  assert (Dtl : tailer (hget s' heap) = T)
    by (unfold T, tailer; rewrite Dst, Dps; reflexivity).
  assert (Vby : forall a,
            (forall x, In x bs \/ x = tailer (hget s heap) \/ x = fh ->
                       x + HS <= a \/ a < x) ->
            new + HS <= a \/ a < new -> bytes s' a = bytes s a).
  { intros a Haw Hnew. unfold s', alloc_split. cbv zeta. rewrite Hwn.
    autorewrite with bytesdb. autorewrite with fields.
    pose proof (aw_node OK heap bs fl s INV a Haw c Hc).
    pose proof (aw_fh OK heap bs fl s INV a Haw).
    pose proof (aw_next OK heap bs fl s INV a Haw c (or_introl Hc)).
    pose proof (aw_next_free OK heap bs fl s INV a Haw c (or_introl Hcfl)).
    pose proof (aw_prev_free OK heap bs fl s INV a Haw c (or_introl Hcfl)).
    pose proof (aw_next_free OK heap bs fl s INV a Haw fh (or_intror eq_refl)).
    rewrite ?(proj2 (Z.eqb_neq (free_list (hget s heap)) c))
      by exact (fun e => Hcfh (eq_sym e)).
    split_ifs; rewrite !clobber_away by assumption; reflexivity. }
  clearbody s'.
  rewrite (proj2 (Z.eqb_neq fh c)) in Vnf, Vpf by congruence.
  pose proof (inv_phys_ok INV) as PO. rewrite Ebs in PO. fold T in PO.
  assert (PO2 : phys_ok HS (start_addr (hget s heap)) T (l1 ++ c :: new :: l2)
                  (fun a => if a =? c then new else if a =? new then N
                            else next (items s a))
                  (fun a => if a =? N then new else if a =? new then c
                            else prev (items s a))).
  { eapply (phys_split HH _ c _ new PO); try reflexivity; fold N; lia. }
  assert (Hnewbs : ~ In new bs).
  { rewrite Ebs. intros Hin. apply in_middle in Hin as [e|Hin]; [lia|].
    pose proof (po_split_order HH (inv_phys_ok INV) l1 c l2 Ebs) as [Ho1 Ho2].
    apply in_app_iff in Hin as [Hin|Hin].
    - specialize (Ho1 _ Hin). lia.
    - destruct l2 as [|e l2]; [destruct Hin|]. simpl in Hnc.
      pose proof (inv_gapped _ _ _ _ INV) as Hg. rewrite Ebs in Hg.
      rewrite <- app_assoc in Hg. apply chain_app in Hg as [_ Hg].
      change ((c :: e :: l2) ++ [tailer (hget s heap)])
        with (c :: e :: (l2 ++ [tailer (hget s heap)])) in Hg.
      apply chain_tail in Hg.
      destruct Hin as [<-|Hin]; [lia|].
      pose proof (gapped_after _ HH _ _ Hg new) as Hy. rewrite in_app_iff in Hy.
      specialize (Hy (or_introl Hin)). lia. }
  assert (Hin' : forall a, In a (l1 ++ c :: new :: l2) <-> a = new \/ In a bs).
  { intros a. rewrite Ebs. rewrite !in_app_iff. simpl. intuition congruence. }
  assert (Hfin : forall a, In a (flA ++ flB) <-> In a fl /\ a <> c).
  { intros a. rewrite Efl. apply in_removed. rewrite <- Efl.
    apply (inv_fl_nodup _ _ _ _ INV). }
  assert (HNfree : ~ is_free s N).
  { pose proof (inv_coalesced _ _ _ _ INV) as Hco. rewrite Ebs in Hco.
    apply chain_app in Hco as [_ Hco]. destruct l2 as [|e l2]; simpl in Hnc.
    - fold N in Hnc. rewrite Hnc. intros Hf.
      apply (free_not_used _ Hf (inv_tailer _ _ _ _ INV)).
    - apply chain_cons in Hco as [Hce _]. fold N in Hnc. rewrite Hnc. tauto. }
  split; [|split; [exact Dav|split; [exact Dmono|split; [exact Dtl|split; [exact Vby|]]]]].
  2: { intros a Ha Hac. rewrite Vnx. rewrite (proj2 (Z.eqb_neq a c)) by assumption.
       rewrite (proj2 (Z.eqb_neq a new)) by (intros ->; contradiction). reflexivity. }
  apply (heap_inv_intro heap _ _ s' _ _ _ _ _ _ Vmg Vpl Vnx Vpv Vnf Vpf);
    rewrite ?Dtl, ?Dst, ?Dps, ?Dbl, ?Dfl, ?Dlk; auto.
  - apply (inv_nonnull _ _ _ _ INV).
  - apply (inv_block_list _ _ _ _ INV).
  - intros a Ha. destruct (Z.eqb_spec a c); [auto|].
    apply Hin' in Ha as [->|Ha].
    + rewrite Z.eqb_refl. auto.
    + rewrite (proj2 (Z.eqb_neq a new)) by (intros ->; tauto).
      apply (inv_magic _ _ _ _ INV a Ha).
  - rewrite (proj2 (Z.eqb_neq T c)) by (specialize (Hrange _ Hc); lia).
    rewrite (proj2 (Z.eqb_neq T new)) by lia. apply (inv_tailer _ _ _ _ INV).
  - intros a Ha. apply Hin' in Ha as [->|Ha].
    + rewrite Z.eqb_refl. auto.
    + rewrite (proj2 (Z.eqb_neq a new)) by (intros ->; tauto).
      apply (inv_pool _ _ _ _ INV a Ha).
  - intros a. simpl. rewrite Hfin, Hin'. split.
    + intros [<-|[Ha Har]].
      * rewrite (proj2 (Z.eqb_neq new c)) by lia. rewrite Z.eqb_refl. auto.
      * pose proof (inv_fl_bs INV _ Ha). pose proof (inv_fl_free INV _ Ha).
        rewrite (proj2 (Z.eqb_neq a c)) by assumption.
        rewrite (proj2 (Z.eqb_neq a new)) by (intros ->; tauto). auto.
    + intros [Hab Hm]. destruct (Z.eqb_spec a c); [discriminate Hm|].
      destruct Hab as [->|Ha]; [auto|].
      rewrite (proj2 (Z.eqb_neq a new)) in Hm by (intros ->; tauto).
      right. split; [|assumption]. apply (inv_fl _ _ _ _ INV). auto.
  - constructor.
    + rewrite Hfin. intros [Ha _]. apply Hnewbs. apply (inv_fl_bs INV _ Ha).
    + pose proof (inv_fl_nodup _ _ _ _ INV) as Hnd. rewrite Efl in Hnd.
      apply NoDup_remove_1 in Hnd. exact Hnd.
  - pose proof (inv_fl_NoDup OK INV) as Hnd. fold fh in Hnd. rewrite Efl in Hnd.
    pose proof (inv_fh_notin_fl OK INV) as Hfh. fold fh in Hfh. rewrite Efl in Hfh.
    pose proof (inv_free _ _ _ _ INV) as Hfs. fold fh in Hfs. rewrite Efl in Hfs.
    assert (S1 : seg nf1 pf1 fh (flA ++ flB) fh).
    { eapply (seg_remove _ _ nf1 pf1 fh flA c flB fh Hnd Hfh Hfs); reflexivity. }
    assert (Hcnot : ~ In c (flA ++ flB)) by (rewrite Hfin; tauto).
    assert (S2 : seg (fun a => if a =? c then RT_NULL else nf1 a)
                     (fun a => if a =? c then RT_NULL else pf1 a) fh (flA ++ flB) fh).
    { revert S1. apply seg_frame.
      - intros x [->|Hx]; rewrite (proj2 (Z.eqb_neq _ c)); auto. intros ->. tauto.
      - intros x [Hx| ->]; rewrite (proj2 (Z.eqb_neq _ c)); auto. intros ->. tauto. }
    apply (seg_insert _ _ _ _ fh [] new (flA ++ flB) fh) with (5 := S2).
    + simpl. apply NoDup_cons_iff in Hnd as [Hx Hnd]. apply NoDup_remove in Hnd as [Hnd _].
      constructor; auto. rewrite in_app_iff in *. simpl in Hx. tauto.
    + simpl. rewrite in_app_iff in *. simpl in Hfh. tauto.
    + simpl. intros [e|Hin]; [congruence|].
      apply Hfin in Hin as [Hin _]. apply Hnewbs. apply (inv_fl_bs INV _ Hin).
    + exact Hnewfh.
    + intros y. cbn [last_of app]. rewrite (proj2 (Z.eqb_neq fh c)) by congruence.
      reflexivity.
    + intros y. cbn [last_of app]. rewrite (proj2 (Z.eqb_neq fh c)) by congruence.
      reflexivity.
  - (* coalesced *)
    pose proof (inv_coalesced _ _ _ _ INV) as Hco. rewrite Ebs in Hco.
    set (mg' := fun a => if a =? c then Z.lor RT_MEMHEAP_MAGIC RT_MEMHEAP_USED
                         else if a =? new then RT_MEMHEAP_MAGIC else magic (items s a)).
    assert (Hmono : forall l, (forall x, In x l -> In x bs) ->
              chain (fun a b => ~ (is_free s a /\ is_free s b)) l ->
              chain (fun a b => ~ (mg' a = RT_MEMHEAP_MAGIC /\ mg' b = RT_MEMHEAP_MAGIC)) l).
    { intros l Hl. apply chain_mono. intros x y Hx Hy HR. unfold mg'.
      destruct (Z.eqb_spec x c); [intros [Hx' _]; discriminate Hx'|].
      destruct (Z.eqb_spec y c); [intros [_ Hy']; discriminate Hy'|].
      rewrite (proj2 (Z.eqb_neq x new)) by (intros ->; apply Hnewbs, Hl, Hx).
      rewrite (proj2 (Z.eqb_neq y new)) by (intros ->; apply Hnewbs, Hl, Hy).
      exact HR. }
    change (chain (fun a b => ~ (mg' a = RT_MEMHEAP_MAGIC /\ mg' b = RT_MEMHEAP_MAGIC))
              (l1 ++ c :: new :: l2)).
    apply chain_app in Hco as [Hc1 Hc2]. apply chain_app. split.
    + apply Hmono; [|exact Hc1]. intros x Hx. rewrite Ebs.
      rewrite in_app_iff in *. simpl in *. tauto.
    + apply chain_cons. split.
      * unfold mg'. rewrite Z.eqb_refl. intros [Hx _]. discriminate Hx.
      * destruct l2 as [|e l2]; [simpl; auto|].
        apply chain_tail in Hc2. apply chain_cons. split.
        -- unfold mg'. simpl in Hnc. fold N in Hnc. rewrite <- Hnc.
           destruct (Z.eqb_spec N c); [intros [_ Hx]; discriminate Hx|].
           rewrite (proj2 (Z.eqb_neq N new)) by lia.
           unfold is_free in HNfree. tauto.
        -- apply Hmono; [|exact Hc2]. intros x Hx. rewrite Ebs.
           rewrite in_app_iff. simpl in *. tauto.
  - (* accounting *)
    rewrite Dav, Hav1.
    change (new :: flA ++ flB) with ([new] ++ (flA ++ flB)). rewrite sumf_app.
    rewrite (sumf_ext (payload s)
               (fun a => (if a =? c then new else if a =? new then N
                          else next (items s a)) - a - HS) (flA ++ flB)).
    + unfold sumf at 1. cbn [fold_right].
      rewrite (proj2 (Z.eqb_neq new c)) by lia. rewrite Z.eqb_refl.
      rewrite sum_payload_sumf. subst new. lia.
    + intros a Ha. apply Hfin in Ha as [Ha Har].
      pose proof (inv_fl_bs INV _ Ha) as Hab.
      assert (a <> new) by (intros ->; tauto).
      rewrite (proj2 (Z.eqb_neq a c)), (proj2 (Z.eqb_neq a new)) by assumption.
      reflexivity.
  - rewrite <- Dps. exact Dmu.
  - intros Hm a Ha. apply Hin' in Ha as [->|Ha].
    + pose proof (inv_align _ _ _ _ INV Hm c Hc) as Hbal.
      pose proof (HSZ_spec OK) as [_ HHal]. specialize (Haln Hm).
      pose proof (align_pos OK).
      replace (new - start_addr (hget s heap))
        with ((c - start_addr (hget s heap)) + (HS + n)) by (unfold new; lia).
      rewrite Z.add_mod, Hbal by lia. rewrite Z.add_0_l, Z.mod_mod by lia.
      rewrite Z.add_mod, HHal, Haln by lia. reflexivity.
    + apply (inv_align _ _ _ _ INV Hm a Ha).
Qed.

Lemma alloc_split_inv n l1 c l2 flA flB :
  bs = l1 ++ c :: l2 -> fl = flA ++ c :: flB ->
  RT_MEMHEAP_MINIALLOC <= n -> n + HS + RT_MEMHEAP_MINIALLOC <= payload s c ->
  (RT_MEMHEAP_MINIALLOC mod RT_ALIGN_SIZE = 0 -> n mod RT_ALIGN_SIZE = 0) ->
  let new := c + HS + n in
  let s' := rt_sem_release heap
              (set_magic c (Z.lor RT_MEMHEAP_MAGIC RT_MEMHEAP_USED)
                 (alloc_split heap c n (set_lock heap 0 s))) in
  heap_inv heap (l1 ++ c :: new :: l2) (new :: flA ++ flB) s' /\
  available_size (hget s' heap) = available_size (hget s heap) - n - HS /\
  max_used_size (hget s heap) <= max_used_size (hget s' heap) /\
  tailer (hget s' heap) = tailer (hget s heap) /\
  (forall a, In a bs -> a <> c -> next (items s' a) = next (items s a)).
Proof.
  intros Ebs Efl Hn Hfit Haln new s'.
  destruct (alloc_split_inv_bytes n l1 c l2 flA flB Ebs Efl Hn Hfit Haln)
    as (X1 & X2 & X3 & X4 & _ & X5).
  exact (conj X1 (conj X2 (conj X3 (conj X4 X5)))).
Qed.

Lemma alloc_whole_inv_bytes c flA flB :
  fl = flA ++ c :: flB ->
  let s' := rt_sem_release heap
              (set_magic c (Z.lor RT_MEMHEAP_MAGIC RT_MEMHEAP_USED)
                 (alloc_whole heap c (payload s c) (set_lock heap 0 s))) in
  heap_inv heap bs (flA ++ flB) s' /\
  available_size (hget s' heap) = available_size (hget s heap) - payload s c /\
  max_used_size (hget s heap) <= max_used_size (hget s' heap) /\
  tailer (hget s' heap) = tailer (hget s heap) /\
  (forall a,
     (forall x, In x bs \/ x = tailer (hget s heap) \/ x = free_list (hget s heap) ->
                x + HS <= a \/ a < x) ->
     bytes s' a = bytes s a) /\
  (forall a, next (items s' a) = next (items s a)) /\
  is_used s' c.
Proof.
  intros Efl s'.
  pose proof (HS_pos OK) as HH. pose proof (HSZ_bounds OK) as HHb.
  assert (Hcfl : In c fl) by (rewrite Efl; apply in_app_iff; simpl; auto).
  assert (Hc : In c bs) by (apply (inv_fl_bs INV _ Hcfl)).
  pose proof (inv_fl_free INV _ Hcfl) as Hfree.
  set (T := tailer (hget s heap)) in *.
  pose proof (inv_addr_range OK INV _ Hc) as Hca.
  pose proof (inv_payload_range OK INV _ Hc) as Hcp. fold T in Hcp.
  pose proof (inv_tailer_range OK INV) as Htl. fold T in Htl.
  pose proof (inv_avail_range OK INV) as Hav.
  pose proof (inv_avail_split OK INV _ _ _ Efl) as [Hav1 Hav2].
  pose proof (inv_region _ _ _ _ INV) as Hreg.
  pose proof (inv_sentinel _ _ _ _ INV) as Hsen.
  pose proof (inv_max_used _ _ _ _ INV) as Hmu.
  pose proof (inv_bs_range OK INV) as Hrange. fold T in Hrange.
  set (fh := free_list (hget s heap)) in *.
  assert (Hcfh : c <> fh).
  { intros ->. apply (inv_fh_notin_fl OK INV). exact Hcfl. }
  set (nf1 := fun y => if y =? prev_free (items s c) then next_free (items s c)
                       else next_free (items s y)).
  set (pf1 := fun y => if y =? next_free (items s c) then prev_free (items s c)
                       else prev_free (items s y)).
  assert (Vmg : forall a, magic (items s' a) =
            if a =? c then Z.lor RT_MEMHEAP_MAGIC RT_MEMHEAP_USED
            else magic (items s a)).
  { intros a. unfold s'. unfold rt_sem_release, alloc_whole. cbv zeta.
    autorewrite with fields. reflexivity. }
  assert (Vpl : forall a, pool_ptr (items s' a) = pool_ptr (items s a)).
  { intros a. unfold s'. unfold rt_sem_release, alloc_whole. cbv zeta.
    autorewrite with fields. reflexivity. }
  assert (Vnx : forall a, next (items s' a) = next (items s a)).
  { intros a. unfold s'. unfold rt_sem_release, alloc_whole. cbv zeta.
    autorewrite with fields. reflexivity. }
  assert (Vpv : forall a, prev (items s' a) = prev (items s a)).
  { intros a. unfold s'. unfold rt_sem_release, alloc_whole. cbv zeta.
    autorewrite with fields. reflexivity. }
  assert (Vnf : forall a, next_free (items s' a) =
            if a =? c then RT_NULL else nf1 a).
  { intros a. unfold s'. unfold rt_sem_release, alloc_whole. cbv zeta.
    autorewrite with fields. reflexivity. }
  assert (Vpf : forall a, prev_free (items s' a) =
            if a =? c then RT_NULL else pf1 a).
  { intros a. unfold s'. unfold rt_sem_release, alloc_whole. cbv zeta.
    autorewrite with fields. reflexivity. }
  assert (Dst : start_addr (hget s' heap) = start_addr (hget s heap)).
  { unfold s'. unfold rt_sem_release, alloc_whole. cbv zeta.
    autorewrite with fields. reflexivity. }
  assert (Dps : pool_size (hget s' heap) = pool_size (hget s heap)).
  { unfold s'. unfold rt_sem_release, alloc_whole. cbv zeta.
    autorewrite with fields. reflexivity. }
  assert (Dbl : block_list (hget s' heap) = block_list (hget s heap)).
  { unfold s'. unfold rt_sem_release, alloc_whole. cbv zeta.
    autorewrite with fields. reflexivity. }
  assert (Dfl : free_list (hget s' heap) = fh).
  { unfold s'. unfold rt_sem_release, alloc_whole. cbv zeta.
    autorewrite with fields. reflexivity. }
  assert (Dlk : lock (hget s' heap) = 1).
  { unfold s'. unfold rt_sem_release, alloc_whole. cbv zeta.
    autorewrite with fields. reflexivity. }
  assert (Dav : available_size (hget s' heap) = available_size (hget s heap) - payload s c).
  { unfold s'. unfold rt_sem_release, alloc_whole. cbv zeta.
    autorewrite with fields. unfold T, tailer in *. rewrite wB_eq in *.
    wrap_lia. reflexivity. }
  assert (Dmu : (pool_size (hget s' heap) - available_size (hget s' heap)
                 <= max_used_size (hget s' heap) < wB) /\
                max_used_size (hget s heap) <= max_used_size (hget s' heap)).
  { rewrite Dav, Dps. unfold s'. unfold rt_sem_release, alloc_whole. cbv zeta.
    autorewrite with fields.
    match goal with
    | |- context [update_max_used heap ?X] =>
        destruct (max_used_update_max_used heap X) as [Hm1 Hm2];
          [| |revert Hm1 Hm2]
    end; autorewrite with fields; unfold T, tailer in *; rewrite ?wB_eq in *;
      wrap_lia; lia. }
  destruct Dmu as [Dmu Dmono].
  assert (Dmem : is_memheap s' heap = true).
  { unfold s'. unfold rt_sem_release. apply is_memheap_set_lock. }
  assert (Dtl : tailer (hget s' heap) = T)
    by (unfold T, tailer; rewrite Dst, Dps; reflexivity).
  assert (Vby : forall a,
            (forall x, In x bs \/ x = tailer (hget s heap) \/ x = fh ->
                       x + HS <= a \/ a < x) ->
            bytes s' a = bytes s a).
  { intros a Haw. unfold s', alloc_whole. cbv zeta.
    autorewrite with bytesdb. autorewrite with fields.
    pose proof (aw_node OK heap bs fl s INV a Haw c Hc).
    pose proof (aw_next_free OK heap bs fl s INV a Haw c (or_introl Hcfl)).
    pose proof (aw_prev_free OK heap bs fl s INV a Haw c (or_introl Hcfl)).
    split_ifs; rewrite !clobber_away by assumption; reflexivity. }
  clearbody s'.
  assert (Hfin : forall a, In a (flA ++ flB) <-> In a fl /\ a <> c).
  { intros a. rewrite Efl. apply in_removed. rewrite <- Efl.
    apply (inv_fl_nodup _ _ _ _ INV). }
  split; [|split; [exact Dav|split; [exact Dmono|split; [exact Dtl|split; [exact Vby|split; [exact Vnx|]]]]]].
  2: { unfold is_used. rewrite Vmg, Z.eqb_refl. reflexivity. }
  apply (heap_inv_intro heap _ _ s' _ _ _ _ _ _ Vmg Vpl Vnx Vpv Vnf Vpf);
    rewrite ?Dtl, ?Dst, ?Dps, ?Dbl, ?Dfl, ?Dlk; auto.
  - apply (inv_nonnull _ _ _ _ INV).
  - apply (inv_block_list _ _ _ _ INV).
  - apply (inv_phys_ok INV).
  - intros a Ha. destruct (Z.eqb_spec a c); [auto|].
    apply (inv_magic _ _ _ _ INV a Ha).
  - rewrite (proj2 (Z.eqb_neq T c)) by (specialize (Hrange _ Hc); lia).
    apply (inv_tailer _ _ _ _ INV).
  - apply (inv_pool _ _ _ _ INV).
  - intros a. rewrite Hfin. split.
    + intros [Ha Hac]. rewrite (proj2 (Z.eqb_neq a c)) by assumption.
      split; [apply (inv_fl_bs INV _ Ha)|apply (inv_fl_free INV _ Ha)].
    + intros [Hab Hm]. destruct (Z.eqb_spec a c); [discriminate Hm|].
      split; [|assumption]. apply (inv_fl _ _ _ _ INV). auto.
  - pose proof (inv_fl_nodup _ _ _ _ INV) as Hnd. rewrite Efl in Hnd.
    apply NoDup_remove_1 in Hnd. exact Hnd.
  - pose proof (inv_fl_NoDup OK INV) as Hnd. fold fh in Hnd. rewrite Efl in Hnd.
    pose proof (inv_fh_notin_fl OK INV) as Hfh. fold fh in Hfh. rewrite Efl in Hfh.
    pose proof (inv_free _ _ _ _ INV) as Hfs. fold fh in Hfs. rewrite Efl in Hfs.
    assert (S1 : seg nf1 pf1 fh (flA ++ flB) fh).
    { eapply (seg_remove _ _ nf1 pf1 fh flA c flB fh Hnd Hfh Hfs); reflexivity. }
    assert (Hcnot : ~ In c (flA ++ flB)) by (rewrite Hfin; tauto).
    revert S1. apply seg_frame.
    + intros x [->|Hx]; rewrite (proj2 (Z.eqb_neq _ c)); auto. intros ->. tauto.
    + intros x [Hx| ->]; rewrite (proj2 (Z.eqb_neq _ c)); auto. intros ->. tauto.
  - pose proof (inv_coalesced _ _ _ _ INV) as Hco. revert Hco.
    apply chain_mono. intros x y Hx Hy HR.
    destruct (Z.eqb_spec x c); [intros [Hx' _]; discriminate Hx'|].
    destruct (Z.eqb_spec y c); [intros [_ Hy']; discriminate Hy'|].
    exact HR.
  - rewrite Dav, Hav1. rewrite sum_payload_sumf. unfold payload. lia.
  - rewrite <- Dps. exact Dmu.
  - apply (inv_align _ _ _ _ INV).
Qed.

Lemma alloc_whole_inv c flA flB :
  fl = flA ++ c :: flB ->
  let s' := rt_sem_release heap
              (set_magic c (Z.lor RT_MEMHEAP_MAGIC RT_MEMHEAP_USED)
                 (alloc_whole heap c (payload s c) (set_lock heap 0 s))) in
  heap_inv heap bs (flA ++ flB) s' /\
  available_size (hget s' heap) = available_size (hget s heap) - payload s c /\
  max_used_size (hget s heap) <= max_used_size (hget s' heap) /\
  tailer (hget s' heap) = tailer (hget s heap) /\
  (forall a, next (items s' a) = next (items s a)) /\
  is_used s' c.
Proof.
  intros Efl s'.
  destruct (alloc_whole_inv_bytes c flA flB Efl)
    as (X1 & X2 & X3 & X4 & _ & X5).
  exact (conj X1 (conj X2 (conj X3 (conj X4 X5)))).
Qed.

(** The outcomes of [rt_memheap_alloc] on a consistent pool. *)
Lemma alloc_cases size :
  0 <= size < wB ->
  let n := normalized size in
  (rt_memheap_alloc heap size s = Some (RT_NULL, s) /\
   (available_size (hget s heap) <= n \/ forall x, In x fl -> payload s x < n)) \/
  (exists flA c flB l1 l2 s',
     fl = flA ++ c :: flB /\ bs = l1 ++ c :: l2 /\
     (forall x, In x flA -> payload s x < n) /\ n <= payload s c /\
     n < available_size (hget s heap) /\
     rt_memheap_alloc heap size s = Some (c + HS, s') /\
     tailer (hget s' heap) = tailer (hget s heap) /\
     max_used_size (hget s heap) <= max_used_size (hget s' heap) /\
     (forall a, In a bs -> a <> c -> next (items s' a) = next (items s a)) /\
     ((n + HS + RT_MEMHEAP_MINIALLOC <= payload s c /\
       heap_inv heap (l1 ++ c :: (c + HS + n) :: l2) ((c + HS + n) :: flA ++ flB) s' /\
       available_size (hget s' heap) = available_size (hget s heap) - n - HS /\
       payload s' c = n) \/
      (payload s c < n + HS + RT_MEMHEAP_MINIALLOC /\
       heap_inv heap bs (flA ++ flB) s' /\
       available_size (hget s' heap) = available_size (hget s heap) - payload s c /\
       payload s' c = payload s c))).
Proof.
  intros Hsz n.
  pose proof (normalized_range OK size Hsz) as Hn. fold n in Hn.
  destruct (Z_le_gt_dec (available_size (hget s heap)) n) as [Hle|Hgt].
  { left. split; [|left; exact Hle].
    unfold rt_memheap_alloc.
    rewrite (proj2 (Z.eqb_neq _ _) (inv_nonnull _ _ _ _ INV)).
    rewrite (inv_is_heap _ _ _ _ INV). cbn [negb].
    fold (normalized size). fold n. cbv zeta.
    rewrite (proj2 (Z.ltb_ge _ _) Hle). reflexivity. }
  destruct (first_fit_split (payload s) n fl) as [Hnone|(flA & c & flB & Efl & Hsmall & Hfit)].
  { left. split; [|right; exact Hnone]. apply alloc_no_fit; auto. lia. }
  right.
  assert (Hcfl : In c fl) by (rewrite Efl; apply in_app_iff; simpl; auto).
  assert (Hc : In c bs) by (apply (inv_fl_bs INV _ Hcfl)).
  destruct (in_split _ _ Hc) as (l1 & l2 & Ebs).
  pose proof (alloc_fit size flA c flB Hsz ltac:(fold n; lia) Efl Hsmall Hfit) as Heq.
  fold n in Heq.
  assert (Haln : RT_MEMHEAP_MINIALLOC mod RT_ALIGN_SIZE = 0 -> n mod RT_ALIGN_SIZE = 0).
  { intros Hm. apply (normalized_aligned OK); [lia|exact Hm]. }
  destruct (Z.leb_spec (n + HS + RT_MEMHEAP_MINIALLOC) (payload s c)) as [Hsp|Hsp].
  - pose proof (alloc_split_inv n l1 c l2 flA flB Ebs Efl
                  ltac:(unfold RT_MEMHEAP_MINIALLOC; lia) Hsp Haln) as Hinv.
    cbv zeta in Hinv.
    set (s' := rt_sem_release heap
                 (set_magic c (Z.lor RT_MEMHEAP_MAGIC RT_MEMHEAP_USED)
                    (alloc_split heap c n (set_lock heap 0 s)))) in *.
    clearbody s'. destruct Hinv as (INV' & Hav' & Hmx & Htl & Hnx).
    exists flA, c, flB, l1, l2, s'.
    split; [exact Efl|]. split; [exact Ebs|]. split; [exact Hsmall|].
    split; [exact Hfit|]. split; [lia|]. split; [exact Heq|].
    split; [exact Htl|]. split; [exact Hmx|]. split; [exact Hnx|]. left.
    split; [exact Hsp|]. split; [exact INV'|]. split; [exact Hav'|].
    pose proof (inv_neighbours INV' l1 c ((c + HS + n) :: l2) eq_refl) as (Hx & _).
    cbn [hd] in Hx. unfold payload. rewrite Hx. lia.
  - pose proof (alloc_whole_inv c flA flB Efl) as Hinv. cbv zeta in Hinv.
    set (s' := rt_sem_release heap
                 (set_magic c (Z.lor RT_MEMHEAP_MAGIC RT_MEMHEAP_USED)
                    (alloc_whole heap c (payload s c) (set_lock heap 0 s)))) in *.
    clearbody s'. destruct Hinv as (INV' & Hav' & Hmx & Htl & Hnx & Hu).
    exists flA, c, flB, l1, l2, s'.
    split; [exact Efl|]. split; [exact Ebs|]. split; [exact Hsmall|].
    split; [exact Hfit|]. split; [lia|]. split; [exact Heq|].
    split; [exact Htl|]. split; [exact Hmx|]. split; [intros a _ _; apply Hnx|]. right.
    split; [exact Hsp|]. split; [exact INV'|]. split; [exact Hav'|].
    unfold payload. rewrite Hnx. reflexivity.
Qed.

(** [rt_memheap_alloc] always returns on a consistent pool, and leaves it
    consistent; a block it hands out is new, large enough, and the blocks in
    use stay in use. *)
Lemma alloc_total size :
  0 <= size < wB ->
  exists p s' bs' fl',
    rt_memheap_alloc heap size s = Some (p, s') /\
    heap_inv heap bs' fl' s' /\
    tailer (hget s' heap) = tailer (hget s heap) /\
    max_used_size (hget s heap) <= max_used_size (hget s' heap) /\
    (p = RT_NULL -> s' = s) /\
    (p <> RT_NULL ->
       live bs' s' p /\ In (p - HS) fl /\
       normalized size <= payload s' (p - HS) <= payload s (p - HS)) /\
    (forall a, In a bs -> is_used s a ->
       In a bs' /\ is_used s' a /\ payload s' a = payload s a) /\
    (forall a, In a bs' -> is_used s' a -> a <> p - HS -> In a bs /\ is_used s a).
Proof.
  intros Hsz. pose proof (HS_pos OK) as HH.
  destruct (alloc_cases size Hsz)
    as [[Heq _]|(flA & c & flB & l1 & l2 & s' & Efl & Ebs & Hsmall & Hfit & Hav & Heq
                 & Htl & Hmx & Hnx & Hcase)].
  { exists RT_NULL, s, bs, fl. split; [exact Heq|]. split; [exact INV|].
    split; [reflexivity|]. split; [lia|]. split; [reflexivity|].
    split; [intros Hx; contradiction|]. split; auto. }
  assert (Hcfl : In c fl) by (rewrite Efl; apply in_app_iff; simpl; auto).
  assert (Hc : In c bs) by (apply (inv_fl_bs INV _ Hcfl)).
  pose proof (inv_addr_range OK INV _ Hc) as Hca.
  assert (Hpc : c + HS - HS = c) by lia.
  assert (Hfin : forall a, In a (flA ++ flB) <-> In a fl /\ a <> c).
  { intros a. rewrite Efl. apply in_removed. rewrite <- Efl.
    apply (inv_fl_nodup _ _ _ _ INV). }
  destruct Hcase as [(Hsp & INV' & Hav' & Hpay)|(Hsp & INV' & Hav' & Hpay)].
  - set (new := c + HS + normalized size) in *.
    assert (Hnewbs : ~ In new bs).
    { intros Hin. pose proof (inv_bs_NoDup OK INV') as Hnd.
      apply NoDup_cons_iff in Hnd as [_ Hnd].
      change (l1 ++ c :: new :: l2) with (l1 ++ [c] ++ new :: l2) in Hnd.
      rewrite app_assoc in Hnd. apply NoDup_remove_2 in Hnd. apply Hnd.
      rewrite <- app_assoc. simpl. rewrite <- Ebs. exact Hin. }
    assert (Hin' : forall a, In a (l1 ++ c :: new :: l2) <-> a = new \/ In a bs).
    { intros a. rewrite Ebs. rewrite !in_app_iff. simpl. intuition congruence. }
    assert (Hcu : is_used s' c).
    { apply (inv_notin_fl_used INV'); [apply Hin'; auto|].
      simpl. rewrite Hfin. intros [e|[_ e]]; [|congruence].
      apply Hnewbs. rewrite e. exact Hc. }
    exists (c + HS), s', (l1 ++ c :: new :: l2), (new :: flA ++ flB).
    split; [exact Heq|]. split; [exact INV'|]. split; [exact Htl|]. split; [exact Hmx|].
    split; [unfold RT_NULL; lia|]. split; [|split].
    + intros _. unfold live. rewrite Hpc.
      split; [split; [apply Hin'; auto|exact Hcu]|]. split; [exact Hcfl|].
      pose proof (normalized_range OK size Hsz). lia.
    + intros a Ha Hu. split; [apply Hin'; auto|]. split.
      * apply (inv_notin_fl_used INV'); [apply Hin'; auto|].
        simpl. rewrite Hfin. intros [e|[Hx _]].
        -- apply Hnewbs. rewrite e. exact Ha.
        -- apply (inv_used_notin_fl INV a Hu Hx).
      * unfold payload. rewrite Hnx; [reflexivity|exact Ha|].
        intros ->. apply (inv_used_notin_fl INV c Hu Hcfl).
    + rewrite Hpc. intros a Ha Hu Hac. apply Hin' in Ha as [->|Ha].
      * exfalso. apply (free_not_used new (inv_fl_free INV' new ltac:(simpl; auto)) Hu).
      * split; [exact Ha|]. apply (inv_notin_fl_used INV a Ha).
        intros Hx. apply (inv_used_notin_fl INV' a Hu). simpl. right. apply Hfin. auto.
  - assert (Hcu : is_used s' c).
    { apply (inv_notin_fl_used INV' c Hc). rewrite Hfin. tauto. }
    exists (c + HS), s', bs, (flA ++ flB).
    split; [exact Heq|]. split; [exact INV'|]. split; [exact Htl|]. split; [exact Hmx|].
    split; [unfold RT_NULL; lia|]. split; [|split].
    + intros _. unfold live. rewrite Hpc.
      split; [split; [exact Hc|exact Hcu]|]. split; [exact Hcfl|]. lia.
    + intros a Ha Hu. split; [exact Ha|]. split.
      * apply (inv_notin_fl_used INV' a Ha). rewrite Hfin. intros [Hx _].
        apply (inv_used_notin_fl INV a Hu Hx).
      * unfold payload. rewrite Hnx; [reflexivity|exact Ha|].
        intros ->. apply (inv_used_notin_fl INV c Hu Hcfl).
    + rewrite Hpc. intros a Ha Hu Hac. split; [exact Ha|].
      apply (inv_notin_fl_used INV a Ha).
      intros Hx. apply (inv_used_notin_fl INV' a Hu). apply Hfin. auto.
Qed.

End Alloc.

(** ** rt_memheap_free under the invariant *)

Section SumUpdate.

Lemma sumf_update (w w' : Z -> Z) q l :
  List.NoDup l -> In q l ->
  (forall a, In a l -> a <> q -> w' a = w a) ->
  sumf w' l = sumf w l + (w' q - w q).
Proof.
  induction l as [|a l IH]; intros Hnd Hin Hw; [destruct Hin|].
  apply NoDup_cons_iff in Hnd as [Ha Hnd]. cbn [sumf fold_right].
  fold (sumf w' l). fold (sumf w l).
  destruct Hin as [->|Hin].
  - rewrite (sumf_ext w w' l); [lia|].
    intros x Hx. apply Hw; [simpl; auto|]. intros ->. contradiction.
  - rewrite IH; auto.
    + rewrite (Hw a); [lia|simpl; auto|]. intros ->. contradiction.
    + intros x Hx Hxq. apply Hw; simpl; auto.
Qed.

Lemma list_snoc_cases (l : list Z) : l = [] \/ exists l0 q, l = l0 ++ [q].
Proof.
  induction l as [|a l IH]; [auto|]. right.
  destruct IH as [->|(l0 & q & ->)].
  - exists [], a. reflexivity.
  - exists (a :: l0), q. reflexivity.
Qed.

End SumUpdate.

Section Free.
Context `{Target} (OK : target_ok).
Variables (heap : Z) (bs fl : list Z) (s : state).
Hypothesis INV : heap_inv heap bs fl s.

Local Abbreviation HS := RT_MEMHEAP_SIZE.

Lemma merge_prev_used h st :
  RT_MEMHEAP_IS_USED st (prev (items st h)) = true ->
  merge_prev heap h st = (h, true, st).
Proof. intros HU. unfold merge_prev. rewrite HU. reflexivity. Qed.

Lemma merge_prev_free h st :
  RT_MEMHEAP_IS_USED st (prev (items st h)) = false ->
  merge_prev heap h st =
  let s1 := set_available_size heap (wrap (available_size (hget st heap) + HS)) st in
  let s2 := set_next (prev (items s1 h)) (next (items s1 h)) s1 in
  let s3 := set_prev (next (items s2 h)) (prev (items s2 h)) s2 in
  (prev (items s3 h), false, s3).
Proof. intros HU. unfold merge_prev. rewrite HU. reflexivity. Qed.

Lemma merge_next_used h st :
  RT_MEMHEAP_IS_USED st (next (items st h)) = true -> merge_next heap h st = st.
Proof. intros HU. unfold merge_next. rewrite HU. reflexivity. Qed.

Lemma merge_next_free h st :
  RT_MEMHEAP_IS_USED st (next (items st h)) = false ->
  merge_next heap h st =
  let s1 := set_available_size heap (wrap (available_size (hget st heap) + HS)) st in
  let new_ptr := next (items s1 h) in
  let s2 := set_prev (next (items s1 new_ptr)) h s1 in
  let s3 := set_next h (next (items s2 new_ptr)) s2 in
  list_remove_free new_ptr s3.
Proof. intros HU. unfold merge_next. rewrite HU. reflexivity. Qed.

(** The magic word of a block or of the tailer passes the check of
    [rt_memheap_free] on the next header. *)
Lemma magic_mask_ok a :
  is_free s a \/ is_used s a ->
  Z.land (magic (items s a)) RT_MEMHEAP_MASK = RT_MEMHEAP_MAGIC.
Proof. unfold is_free, is_used. intros [-> | ->]; reflexivity. Qed.

Lemma inv_next_magic b :
  In b bs -> is_free s (next (items s b)) \/ is_used s (next (items s b)).
Proof.
  intros Hb. destruct (in_split _ _ Hb) as (l1 & l2 & E).
  pose proof (inv_neighbours INV _ _ _ E) as (Hn & _). rewrite Hn.
  destruct l2 as [|r l2]; simpl.
  - right. apply (inv_tailer _ _ _ _ INV).
  - apply (inv_magic _ _ _ _ INV). rewrite E. apply in_app_iff. simpl. auto.
Qed.

Lemma inv_prev_magic b :
  In b bs -> is_free s (prev (items s b)) \/ is_used s (prev (items s b)).
Proof.
  intros Hb. destruct (in_split _ _ Hb) as (l1 & l2 & E).
  pose proof (inv_neighbours INV _ _ _ E) as (_ & _ & Hp & _). rewrite Hp.
  destruct (last_of_in (tailer (hget s heap)) l1) as [Hl|Hl].
  - rewrite Hl. right. apply (inv_tailer _ _ _ _ INV).
  - apply (inv_magic _ _ _ _ INV). rewrite E. apply in_app_iff. auto.
Qed.

(** A live pointer passes the assertions, and the call is the sequence of
    marking, merging and insertion under the lock. *)
Lemma free_eq p :
  live bs s p ->
  let b := p - HS in
  rt_memheap_free p s =
  Some (rt_sem_release heap
          (let s1 := free_mark heap b (set_lock heap 0 s) in
           let '(h, ins, s2) := merge_prev heap b s1 in
           let s3 := merge_next heap h s2 in
           if (ins : bool) then list_insert_free heap h s3 else s3)).
Proof.
  intros [Hb Hused] b. fold b in Hb, Hused.
  pose proof (HS_pos OK) as HH. pose proof (HSZ_bounds OK).
  pose proof (inv_addr_range OK INV _ Hb) as Hba.
  unfold rt_memheap_free.
  rewrite (proj2 (Z.eqb_neq p RT_NULL)) by (unfold RT_NULL, b in *; lia).
  assert (Hwb : wrap (p - HS) = b) by (apply wrap_id; unfold b in *; rewrite wB_eq in *; lia).
  cbv zeta. rewrite Hwb.
  unfold is_used in Hused. rewrite Hused, Z.eqb_refl. cbn [negb].
  rewrite (magic_mask_ok _ (inv_next_magic b Hb)), Z.eqb_refl. cbn [negb].
  rewrite (inv_pool _ _ _ _ INV b Hb).
  rewrite (proj2 (Z.eqb_neq _ _) (inv_nonnull _ _ _ _ INV)).
  rewrite (inv_is_heap _ _ _ _ INV). cbn [negb].
  rewrite (rt_sem_take_ok _ _ (inv_lock _ _ _ _ INV)).
  change (RT_EOK =? RT_EOK) with true. cbn [negb].
  destruct (merge_prev heap b (free_mark heap b (set_lock heap 0 s))) as [[h ins] s2].
  reflexivity.
Qed.

(** *** No neighbour is free *)

Lemma free_inv_uu_bytes p l1 l2 :
  let b := p - HS in
  bs = l1 ++ b :: l2 -> is_used s b ->
  is_used s (prev (items s b)) -> is_used s (next (items s b)) ->
  exists s', rt_memheap_free p s = Some s' /\
    heap_inv heap bs (b :: fl) s' /\
    available_size (hget s' heap) = available_size (hget s heap) + payload s b /\
    max_used_size (hget s' heap) = max_used_size (hget s heap) /\
    tailer (hget s' heap) = tailer (hget s heap) /\
    (forall a,
       (forall x, In x bs \/ x = tailer (hget s heap) \/ x = free_list (hget s heap) ->
                  x + HS <= a \/ a < x) ->
       bytes s' a = bytes s a) /\
    (forall a, a <> b -> ~ is_free s a -> next (items s' a) = next (items s a)).
Proof.
  intros b Ebs Hused HuP HuN.
  pose proof (HS_pos OK) as HH. pose proof (HSZ_bounds OK) as HHb.
  assert (Hb : In b bs) by (rewrite Ebs; apply in_app_iff; simpl; auto).
  pose proof (inv_neighbours INV l1 b l2 Ebs) as (Hnb & Hpn & Hpb & Hnp).
  set (T := tailer (hget s heap)) in *.
  set (N := next (items s b)) in *.
  set (P := prev (items s b)) in *.
  pose proof (inv_addr_range OK INV _ Hb) as Hba.
  pose proof (inv_next_range OK INV _ Hb) as Hbn. fold N T in Hbn.
  pose proof (inv_tailer_range OK INV) as Htl. fold T in Htl.
  pose proof (inv_avail_range OK INV) as Hav.
  pose proof (inv_avail_with OK INV b Hb (inv_used_notin_fl INV b Hused)) as Hav3.
  fold T in Hav3.
  pose proof (inv_region _ _ _ _ INV) as Hreg.
  pose proof (inv_sentinel _ _ _ _ INV) as Hsen.
  pose proof (inv_bs_range OK INV) as Hrange. fold T in Hrange.
  assert (Hpb' : payload s b = N - b - HS) by reflexivity.
  set (fh := free_list (hget s heap)) in *.
  assert (Hbfh : b <> fh).
  { specialize (Hrange _ Hb). unfold T, tailer in *. lia. }
  assert (HPb : P <> b).
  { intros e. unfold is_used in HuP, Hused. destruct (last_of_in T l1) as [Hl|Hl].
    - specialize (Hrange _ Hb). rewrite Hpb, Hl in e. lia.
    - pose proof (po_split_order HH (inv_phys_ok INV) l1 b l2 Ebs) as [Ho1 _].
      specialize (Ho1 _ Hl). rewrite Hpb in e. lia. }
  assert (HNb : N <> b) by lia.
  set (S1 := free_mark heap b (set_lock heap 0 s)).
  assert (HU1 : RT_MEMHEAP_IS_USED S1 (prev (items S1 b)) = true).
  { unfold RT_MEMHEAP_IS_USED, S1, free_mark. fsimp. fold P.
    unfold is_used in HuP. rewrite HuP. reflexivity. }
  assert (HU2 : RT_MEMHEAP_IS_USED S1 (next (items S1 b)) = true).
  { unfold RT_MEMHEAP_IS_USED, S1, free_mark. fsimp. fold N.
    unfold is_used in HuN. rewrite HuN. reflexivity. }
  pose proof (free_eq p (conj Hb Hused)) as Heq. cbv zeta in Heq. fold b S1 in Heq.
  rewrite (merge_prev_used b S1 HU1) in Heq.
  rewrite (merge_next_used b S1 HU2) in Heq.
  set (s' := rt_sem_release heap (list_insert_free heap b S1)) in *.
  exists s'. split; [exact Heq|]. clear Heq.
  assert (Vmg : forall a, magic (items s' a) =
            if a =? b then RT_MEMHEAP_MAGIC else magic (items s a)).
  { intros a. unfold s', rt_sem_release, S1, free_mark. autorewrite with fields.
    reflexivity. }
  assert (Vpl : forall a, pool_ptr (items s' a) = pool_ptr (items s a)).
  { intros a. unfold s', rt_sem_release, S1, free_mark. autorewrite with fields.
    reflexivity. }
  assert (Vnx : forall a, next (items s' a) = next (items s a)).
  { intros a. unfold s', rt_sem_release, S1, free_mark. autorewrite with fields.
    reflexivity. }
  assert (Vpv : forall a, prev (items s' a) = prev (items s a)).
  { intros a. unfold s', rt_sem_release, S1, free_mark. autorewrite with fields.
    reflexivity. }
  assert (Vnf : forall a, next_free (items s' a) =
            if a =? fh then b else if a =? b then next_free (items s fh)
            else next_free (items s a)).
  { intros a. unfold s', rt_sem_release, S1, free_mark. autorewrite with fields.
    reflexivity. }
  assert (Vpf : forall a, prev_free (items s' a) =
            if a =? next_free (items s fh) then b else if a =? b then fh
            else prev_free (items s a)).
  { intros a. unfold s', rt_sem_release, S1, free_mark. autorewrite with fields.
    reflexivity. }
  assert (Dst : start_addr (hget s' heap) = start_addr (hget s heap)).
  { unfold s', rt_sem_release, S1, free_mark. autorewrite with fields. reflexivity. }
  assert (Dps : pool_size (hget s' heap) = pool_size (hget s heap)).
  { unfold s', rt_sem_release, S1, free_mark. autorewrite with fields. reflexivity. }
  assert (Dbl : block_list (hget s' heap) = block_list (hget s heap)).
  { unfold s', rt_sem_release, S1, free_mark. autorewrite with fields. reflexivity. }
  assert (Dfl : free_list (hget s' heap) = fh).
  { unfold s', rt_sem_release, S1, free_mark. autorewrite with fields. reflexivity. }
  assert (Dlk : lock (hget s' heap) = 1).
  { unfold s', rt_sem_release, S1, free_mark. autorewrite with fields. reflexivity. }
  assert (Dmx : max_used_size (hget s' heap) = max_used_size (hget s heap)).
  { unfold s', rt_sem_release, S1, free_mark. autorewrite with fields. reflexivity. }
  assert (Dav : available_size (hget s' heap) = available_size (hget s heap) + payload s b).
  { unfold s', rt_sem_release, S1, free_mark, MEMITEM_SIZE. autorewrite with fields.
    fold N. unfold T, tailer in *. rewrite wB_eq in *. wrap_lia. lia. }
  assert (Dmem : is_memheap s' heap = true).
  { unfold s', rt_sem_release. apply is_memheap_set_lock. }
  assert (Dtl : tailer (hget s' heap) = T)
    by (unfold T, tailer; rewrite Dst, Dps; reflexivity).
  assert (Vby : forall a,
            (forall x, In x bs \/ x = tailer (hget s heap) \/ x = fh ->
                       x + HS <= a \/ a < x) ->
            bytes s' a = bytes s a).
  { intros a Haw. unfold s', S1, free_mark.
    repeat (autorewrite with bytesdb; autorewrite with fields).
    pose proof (aw_node OK heap bs fl s INV a Haw b Hb).
    pose proof (aw_fh OK heap bs fl s INV a Haw).
    pose proof (aw_next_free OK heap bs fl s INV a Haw fh (or_intror eq_refl)).
    split_ifs; rewrite !clobber_away by assumption; reflexivity. }
  clear HU1 HU2. clearbody s'. clear S1.
  assert (Hbfl : ~ In b fl) by (apply (inv_used_notin_fl INV b Hused)).
  split; [|split; [exact Dav|split; [exact Dmx|split; [exact Dtl|split; [exact Vby|]]]]].
  2: { intros a Hab Hnf. apply Vnx. }
  apply (heap_inv_intro heap _ _ s' _ _ _ _ _ _ Vmg Vpl Vnx Vpv Vnf Vpf);
    rewrite ?Dtl, ?Dst, ?Dps, ?Dbl, ?Dfl, ?Dlk, ?Dmx; auto.
  - apply (inv_nonnull _ _ _ _ INV).
  - apply (inv_block_list _ _ _ _ INV).
  - apply (inv_phys_ok INV).
  - intros a Ha. destruct (Z.eqb_spec a b); [auto|]. apply (inv_magic _ _ _ _ INV a Ha).
  - rewrite (proj2 (Z.eqb_neq T b)) by (specialize (Hrange _ Hb); lia).
    apply (inv_tailer _ _ _ _ INV).
  - apply (inv_pool _ _ _ _ INV).
  - intros a. simpl. split.
    + intros [<-|Ha].
      * rewrite Z.eqb_refl. auto.
      * rewrite (proj2 (Z.eqb_neq a b)) by (intros ->; contradiction).
        split; [apply (inv_fl_bs INV _ Ha)|apply (inv_fl_free INV _ Ha)].
    + intros [Ha Hm]. destruct (Z.eqb_spec a b); [auto|].
      right. apply (inv_fl _ _ _ _ INV). auto.
  - constructor; [exact Hbfl|apply (inv_fl_nodup _ _ _ _ INV)].
  - pose proof (inv_fl_NoDup OK INV) as Hnd. fold fh in Hnd.
    pose proof (inv_fh_notin_fl OK INV) as Hfh. fold fh in Hfh.
    pose proof (inv_free _ _ _ _ INV) as Hfs. fold fh in Hfs.
    apply (seg_insert (fun a => next_free (items s a)) (fun a => prev_free (items s a))
             _ _ fh [] b fl fh); auto.
    simpl. intros [e|Hin]; [congruence|contradiction].
  - (* coalesced *)
    pose proof (inv_coalesced _ _ _ _ INV) as Hco.
    pose proof (inv_bs_NoDup OK INV) as HndT. apply NoDup_cons_iff in HndT as [_ Hnd].
    rewrite Ebs in Hco, Hnd. rewrite Ebs.
    apply chain_app in Hco as [Hc1 Hc2]. apply chain_app. split.
    + (* up to b: the predecessor is used *)
      clear Hc2. destruct (list_snoc_cases l1) as [->|(l0 & q & ->)].
      * simpl. auto.
      * rewrite last_of_snoc in Hpb. rewrite <- app_assoc in Hc1 |- *. simpl in Hc1 |- *.
        apply chain_app in Hc1 as [Hc0 _]. apply chain_app. split.
        -- revert Hc0. apply chain_mono. intros x y Hx Hy HR.
           assert (x <> b /\ y <> b) as [Hxb Hyb].
           { apply NoDup_remove_2 in Hnd. rewrite !in_app_iff in *. simpl in *.
             split; intros ->; tauto. }
           rewrite (proj2 (Z.eqb_neq x b)), (proj2 (Z.eqb_neq y b)) by assumption.
           exact HR.
        -- simpl. split; [|auto]. intros [Hq _].
           destruct (Z.eqb_spec q b) as [e|_].
           ++ apply NoDup_remove_2 in Hnd. rewrite e in Hnd.
              apply Hnd. rewrite !in_app_iff. simpl. auto.
           ++ rewrite Hpb in HuP. unfold is_used in HuP.
              rewrite HuP in Hq. discriminate.
    + destruct l2 as [|e l2]; [simpl; auto|].
      apply chain_cons in Hc2 as [_ Hc2]. apply chain_cons. split.
      * simpl in Hnb. fold N in Hnb. rewrite <- Hnb.
        rewrite (proj2 (Z.eqb_neq N b)) by assumption.
        unfold is_used in HuN. rewrite HuN. intros [_ Hx]. discriminate.
      * revert Hc2. apply chain_mono. intros x y Hx Hy HR.
        assert (x <> b /\ y <> b) as [Hxb Hyb].
        { apply NoDup_remove_2 in Hnd. rewrite !in_app_iff in *.
          split; intros ->; tauto. }
        rewrite (proj2 (Z.eqb_neq x b)), (proj2 (Z.eqb_neq y b)) by assumption.
        exact HR.
  - rewrite Dav, (inv_avail _ _ _ _ INV). cbn [sumf fold_right].
    rewrite sum_payload_sumf. unfold sumf, payload. lia.
  - rewrite Dav. pose proof (inv_max_used _ _ _ _ INV).
    pose proof (inv_payload_range OK INV _ Hb). lia.
  - apply (inv_align _ _ _ _ INV).
Qed.

Lemma free_inv_uu p l1 l2 :
  let b := p - HS in
  bs = l1 ++ b :: l2 -> is_used s b ->
  is_used s (prev (items s b)) -> is_used s (next (items s b)) ->
  exists s', rt_memheap_free p s = Some s' /\
    heap_inv heap bs (b :: fl) s' /\
    available_size (hget s' heap) = available_size (hget s heap) + payload s b /\
    max_used_size (hget s' heap) = max_used_size (hget s heap) /\
    tailer (hget s' heap) = tailer (hget s heap) /\
    (forall a, a <> b -> ~ is_free s a -> next (items s' a) = next (items s a)).
Proof.
  intros b Ebs Hused HuP HuN.
  destruct (free_inv_uu_bytes p l1 l2 Ebs Hused HuP HuN)
    as (s' & X0 & X1 & X2 & X3 & X4 & _ & X5).
  exists s'. exact (conj X0 (conj X1 (conj X2 (conj X3 (conj X4 X5))))).
Qed.

(** *** The next neighbour is free *)

Lemma free_inv_uf_bytes p l1 r l2 flA flB :
  let b := p - HS in
  bs = l1 ++ b :: r :: l2 -> fl = flA ++ r :: flB -> is_used s b ->
  is_used s (prev (items s b)) ->
  exists s', rt_memheap_free p s = Some s' /\
    heap_inv heap (l1 ++ b :: l2) (b :: flA ++ flB) s' /\
    available_size (hget s' heap) = available_size (hget s heap) + payload s b + HS /\
    max_used_size (hget s' heap) = max_used_size (hget s heap) /\
    tailer (hget s' heap) = tailer (hget s heap) /\
    (forall a,
       (forall x, In x bs \/ x = tailer (hget s heap) \/ x = free_list (hget s heap) ->
                  x + HS <= a \/ a < x) ->
       bytes s' a = bytes s a) /\
    (forall a, a <> b -> ~ is_free s a -> next (items s' a) = next (items s a)).
Proof.
  intros b Ebs Efl Hused HuP.
  pose proof (HS_pos OK) as HH. pose proof (HSZ_bounds OK) as HHb.
  assert (Hb : In b bs) by (rewrite Ebs; apply in_app_iff; simpl; auto).
  assert (Hr : In r bs) by (rewrite Ebs; apply in_app_iff; simpl; auto).
  assert (Hrfl : In r fl) by (rewrite Efl; apply in_app_iff; simpl; auto).
  pose proof (inv_fl_free INV _ Hrfl) as Hfree.
  pose proof (inv_neighbours INV l1 b (r :: l2) Ebs) as (Hnb & Hpr & Hpb & Hnp).
  cbn [hd] in Hnb, Hpr.
  assert (Ebs' : bs = (l1 ++ [b]) ++ r :: l2) by (rewrite <- app_assoc; exact Ebs).
  pose proof (inv_neighbours INV _ r l2 Ebs') as (Hnr & _).
  set (T := tailer (hget s heap)) in *.
  set (N2 := hd T l2) in *.
  set (Pb := prev (items s b)) in *.
  pose proof (inv_addr_range OK INV _ Hb) as Hba.
  pose proof (inv_addr_range OK INV _ Hr) as Hra.
  pose proof (inv_next_range OK INV _ Hb) as Hbn. rewrite Hnb in Hbn.
  pose proof (inv_next_range OK INV _ Hr) as Hrn. rewrite Hnr in Hrn. fold T in Hrn.
  pose proof (inv_tailer_range OK INV) as Htl. fold T in Htl.
  pose proof (inv_avail_range OK INV) as Hav.
  pose proof (inv_avail_with OK INV b Hb (inv_used_notin_fl INV b Hused)) as Hav3.
  fold T in Hav3.
  pose proof (inv_avail_split OK INV _ _ _ Efl) as [Hav1 Hav2].
  pose proof (inv_region _ _ _ _ INV) as Hreg.
  pose proof (inv_sentinel _ _ _ _ INV) as Hsen.
  pose proof (inv_bs_range OK INV) as Hrange. fold T in Hrange.
  assert (Hpb' : payload s b = r - b - HS) by (unfold payload; rewrite Hnb; reflexivity).
  assert (Hpr' : payload s r = N2 - r - HS) by (unfold payload; rewrite Hnr; reflexivity).
  set (fh := free_list (hget s heap)) in *.
  assert (Hbfh : b <> fh).
  { specialize (Hrange _ Hb). unfold T, tailer in *. lia. }
  assert (HPb : Pb <> b).
  { intros e. destruct (last_of_in T l1) as [Hl|Hl].
    - specialize (Hrange _ Hb). rewrite Hpb, Hl in e. lia.
    - pose proof (po_split_order HH (inv_phys_ok INV) l1 b (r :: l2) Ebs) as [Ho1 _].
      specialize (Ho1 _ Hl). rewrite Hpb in e. lia. }
  set (nf1 := fun y => if y =? prev_free (items s r) then next_free (items s r)
                       else next_free (items s y)).
  set (pf1 := fun y => if y =? next_free (items s r) then prev_free (items s r)
                       else prev_free (items s y)).
  set (S1 := free_mark heap b (set_lock heap 0 s)).
  assert (HU1 : RT_MEMHEAP_IS_USED S1 (prev (items S1 b)) = true).
  { unfold RT_MEMHEAP_IS_USED, S1, free_mark. fsimp. fold Pb.
    unfold is_used in HuP. rewrite HuP. reflexivity. }
  assert (HU2 : RT_MEMHEAP_IS_USED S1 (next (items S1 b)) = false).
  { unfold RT_MEMHEAP_IS_USED, S1, free_mark. fsimp. rewrite Hnb.
    unfold is_free in Hfree. rewrite Hfree. reflexivity. }
  pose proof (free_eq p (conj Hb Hused)) as Heq. cbv zeta in Heq. fold b S1 in Heq.
  rewrite (merge_prev_used b S1 HU1) in Heq.
  rewrite (merge_next_free b S1 HU2) in Heq. cbv zeta in Heq.
  match type of Heq with _ = Some ?X => set (s' := X) in * end.
  exists s'. split; [exact Heq|]. clear Heq.
  assert (Vmg : forall a, magic (items s' a) =
            if a =? b then RT_MEMHEAP_MAGIC else magic (items s a)).
  { intros a. unfold s', rt_sem_release, S1, free_mark. autorewrite with fields.
    reflexivity. }
  assert (Vpl : forall a, pool_ptr (items s' a) = pool_ptr (items s a)).
  { intros a. unfold s', rt_sem_release, S1, free_mark. autorewrite with fields.
    reflexivity. }
  assert (Vnx : forall a, next (items s' a) =
            if a =? b then N2 else next (items s a)).
  { intros a. unfold s', rt_sem_release, S1, free_mark. fsimp. rewrite ?Hnb, ?Hnr.
    eqb_cases. }
  assert (Vpv : forall a, prev (items s' a) =
            if a =? N2 then b else prev (items s a)).
  { intros a. unfold s', rt_sem_release, S1, free_mark. fsimp. rewrite ?Hnb, ?Hnr.
    eqb_cases. }
  assert (Vnf : forall a, next_free (items s' a) =
            if a =? fh then b else if a =? b then nf1 fh else nf1 a).
  { intros a. unfold s', rt_sem_release, S1, free_mark. fsimp. rewrite ?Hnb, ?Hnr.
    unfold nf1. eqb_cases. }
  assert (Vpf : forall a, prev_free (items s' a) =
            if a =? nf1 fh then b else if a =? b then fh else pf1 a).
  { intros a. unfold s', rt_sem_release, S1, free_mark. fsimp. rewrite ?Hnb, ?Hnr.
    unfold nf1, pf1. eqb_cases. }
  assert (Dst : start_addr (hget s' heap) = start_addr (hget s heap)).
  { unfold s', rt_sem_release, S1, free_mark. autorewrite with fields. reflexivity. }
  assert (Dps : pool_size (hget s' heap) = pool_size (hget s heap)).
  { unfold s', rt_sem_release, S1, free_mark. autorewrite with fields. reflexivity. }
  assert (Dbl : block_list (hget s' heap) = block_list (hget s heap)).
  { unfold s', rt_sem_release, S1, free_mark. autorewrite with fields. reflexivity. }
  assert (Dfl : free_list (hget s' heap) = fh).
  { unfold s', rt_sem_release, S1, free_mark. autorewrite with fields. reflexivity. }
  assert (Dlk : lock (hget s' heap) = 1).
  { unfold s', rt_sem_release, S1, free_mark. autorewrite with fields. reflexivity. }
  assert (Dmx : max_used_size (hget s' heap) = max_used_size (hget s heap)).
  { unfold s', rt_sem_release, S1, free_mark. autorewrite with fields. reflexivity. }
  assert (Dav : available_size (hget s' heap)
                = available_size (hget s heap) + payload s b + HS).
  { unfold s', rt_sem_release, S1, free_mark, MEMITEM_SIZE. autorewrite with fields.
    rewrite Hnb. unfold T, tailer in *. rewrite wB_eq in *. wrap_lia. lia. }
  assert (Dmem : is_memheap s' heap = true).
  { unfold s', rt_sem_release. apply is_memheap_set_lock. }
  assert (Dtl : tailer (hget s' heap) = T)
    by (unfold T, tailer; rewrite Dst, Dps; reflexivity).
  assert (Vby : forall a,
            (forall x, In x bs \/ x = tailer (hget s heap) \/ x = fh ->
                       x + HS <= a \/ a < x) ->
            bytes s' a = bytes s a).
  { intros a Haw. unfold s', S1, free_mark.
    repeat (autorewrite with bytesdb; autorewrite with fields; rewrite ?Hnb).
    pose proof (aw_node OK heap bs fl s INV a Haw b Hb).
    pose proof (aw_node OK heap bs fl s INV a Haw r Hr).
    pose proof (aw_fh OK heap bs fl s INV a Haw).
    pose proof (aw_next OK heap bs fl s INV a Haw r (or_introl Hr)).
    pose proof (aw_next_free OK heap bs fl s INV a Haw r (or_introl Hrfl)).
    pose proof (aw_prev_free OK heap bs fl s INV a Haw r (or_introl Hrfl)).
    pose proof (aw_next_free OK heap bs fl s INV a Haw fh (or_intror eq_refl)).
    assert (Hrfh' : free_list (hget s heap) <> r).
    { intros e. apply (inv_fh_notin_fl OK INV). rewrite e. exact Hrfl. }
    rewrite ?(proj2 (Z.eqb_neq (free_list (hget s heap)) r)) by exact Hrfh'.
    split_ifs; rewrite !clobber_away by assumption; reflexivity. }
  clear HU1 HU2. clearbody s'. clear S1.
  pose proof (inv_phys_ok INV) as PO. rewrite Ebs' in PO. fold T in PO.
  assert (PO1 : phys_ok HS (start_addr (hget s heap)) T ((l1 ++ [b]) ++ l2)
                  (fun a => if a =? b then N2 else next (items s a))
                  (fun a => if a =? N2 then b else prev (items s a))).
  { eapply (phys_remove HH _ r _ PO); [destruct l1; discriminate| |];
      intros y; cbv beta; rewrite Hpr, Hnr; reflexivity. }
  rewrite <- app_assoc in PO1. simpl in PO1.
  pose proof (inv_bs_NoDup OK INV) as HndT. apply NoDup_cons_iff in HndT as [_ Hnd].
  assert (Hin' : forall a, In a (l1 ++ b :: l2) <-> In a bs /\ a <> r).
  { intros a. change (l1 ++ b :: l2) with (l1 ++ [b] ++ l2). rewrite app_assoc.
    rewrite Ebs'. apply in_removed. rewrite <- Ebs'. exact Hnd. }
  assert (Hfin : forall a, In a (flA ++ flB) <-> In a fl /\ a <> r).
  { intros a. rewrite Efl. apply in_removed. rewrite <- Efl.
    apply (inv_fl_nodup _ _ _ _ INV). }
  assert (Hbfl : ~ In b fl) by (apply (inv_used_notin_fl INV b Hused)).
  split; [|split; [exact Dav|split; [exact Dmx|split; [exact Dtl|split; [exact Vby|]]]]].
  2: { intros a Hab Hnf. rewrite Vnx. rewrite (proj2 (Z.eqb_neq a b)) by assumption.
       reflexivity. }
  apply (heap_inv_intro heap _ _ s' _ _ _ _ _ _ Vmg Vpl Vnx Vpv Vnf Vpf);
    rewrite ?Dtl, ?Dst, ?Dps, ?Dbl, ?Dfl, ?Dlk, ?Dmx; auto.
  - apply (inv_nonnull _ _ _ _ INV).
  - apply (inv_block_list _ _ _ _ INV).
  - intros a Ha. apply Hin' in Ha as [Ha _].
    destruct (Z.eqb_spec a b); [auto|]. apply (inv_magic _ _ _ _ INV a Ha).
  - rewrite (proj2 (Z.eqb_neq T b)) by (specialize (Hrange _ Hb); lia).
    apply (inv_tailer _ _ _ _ INV).
  - intros a Ha. apply Hin' in Ha as [Ha _]. apply (inv_pool _ _ _ _ INV a Ha).
  - intros a. simpl. rewrite Hfin, Hin'. split.
    + intros [<-|[Ha Har]].
      * rewrite Z.eqb_refl. split; [split; [exact Hb|lia]|reflexivity].
      * rewrite (proj2 (Z.eqb_neq a b)) by (intros ->; contradiction).
        split; [split; [apply (inv_fl_bs INV _ Ha)|exact Har]|apply (inv_fl_free INV _ Ha)].
    + intros [[Ha Har] Hm]. destruct (Z.eqb_spec a b); [auto|].
      right. split; [|exact Har]. apply (inv_fl _ _ _ _ INV). auto.
  - constructor.
    + rewrite Hfin. tauto.
    + pose proof (inv_fl_nodup _ _ _ _ INV) as Hnd'. rewrite Efl in Hnd'.
      apply NoDup_remove_1 in Hnd'. exact Hnd'.
  - pose proof (inv_fl_NoDup OK INV) as Hnd'. fold fh in Hnd'. rewrite Efl in Hnd'.
    pose proof (inv_fh_notin_fl OK INV) as Hfh. fold fh in Hfh. rewrite Efl in Hfh.
    pose proof (inv_free _ _ _ _ INV) as Hfs. fold fh in Hfs. rewrite Efl in Hfs.
    assert (S1 : seg nf1 pf1 fh (flA ++ flB) fh).
    { eapply (seg_remove _ _ nf1 pf1 fh flA r flB fh Hnd' Hfh Hfs); reflexivity. }
    apply (seg_insert nf1 pf1 _ _ fh [] b (flA ++ flB) fh).
    + simpl. apply NoDup_cons_iff in Hnd' as [Hx Hnd']. apply NoDup_remove in Hnd' as [Hnd' _].
      constructor; auto. rewrite in_app_iff in *. simpl in Hx. tauto.
    + simpl. rewrite in_app_iff in *. simpl in Hfh. tauto.
    + simpl. intros [e|Hin]; [congruence|]. apply Hfin in Hin as [Hin _]. contradiction.
    + exact Hbfh.
    + exact S1.
    + reflexivity.
    + reflexivity.
  - (* coalesced *)
    pose proof (inv_coalesced _ _ _ _ INV) as Hco. rewrite Ebs in Hco, Hnd.
    assert (Hnb' : ~ In b (l1 ++ l2)).
    { apply NoDup_remove_2 in Hnd. rewrite in_app_iff in *. simpl in Hnd. tauto. }
    assert (Hmono : forall l, (forall x, In x l -> In x (l1 ++ l2)) ->
              chain (fun a b => ~ (is_free s a /\ is_free s b)) l ->
              chain (fun x y => ~ ((if x =? b then RT_MEMHEAP_MAGIC else magic (items s x))
                                     = RT_MEMHEAP_MAGIC /\
                                   (if y =? b then RT_MEMHEAP_MAGIC else magic (items s y))
                                     = RT_MEMHEAP_MAGIC)) l).
    { intros l Hl. apply chain_mono. intros x y Hx Hy HR.
      rewrite (proj2 (Z.eqb_neq x b)) by (intros ->; apply Hnb', Hl, Hx).
      rewrite (proj2 (Z.eqb_neq y b)) by (intros ->; apply Hnb', Hl, Hy).
      exact HR. }
    apply chain_app in Hco as [Hc1 Hc2]. apply chain_app. split.
    + clear Hc2. destruct (list_snoc_cases l1) as [->|(l0 & q & ->)].
      * simpl. auto.
      * rewrite last_of_snoc in Hpb. rewrite <- app_assoc in Hc1 |- *. simpl in Hc1 |- *.
        apply chain_app in Hc1 as [Hc0 _]. apply chain_app. split.
        -- apply Hmono; [|exact Hc0]. intros x Hx. rewrite in_app_iff. auto.
        -- simpl. split; [|auto]. intros [Hq _].
           destruct (Z.eqb_spec q b) as [e|_].
           ++ apply Hnb'. rewrite <- e. rewrite !in_app_iff. simpl. auto.
           ++ rewrite Hpb in HuP. unfold is_used in HuP. rewrite HuP in Hq. discriminate.
    + apply chain_tail in Hc2. destruct l2 as [|e l2]; [simpl; auto|].
      apply chain_cons in Hc2 as [Hre Hc2]. apply chain_cons. split.
      * rewrite (proj2 (Z.eqb_neq e b))
          by (intros ->; apply Hnb'; rewrite in_app_iff; simpl; auto).
        unfold is_free in Hre, Hfree. tauto.
      * apply Hmono; [|exact Hc2]. intros x Hx. rewrite in_app_iff. auto.
  - (* accounting *)
    rewrite Dav, Hav1.
    change (b :: flA ++ flB) with ([b] ++ (flA ++ flB)). rewrite sumf_app.
    rewrite (sumf_ext (payload s)
               (fun a => (if a =? b then N2 else next (items s a)) - a - HS) (flA ++ flB)).
    + unfold sumf at 1. cbn [fold_right]. rewrite Z.eqb_refl.
      rewrite sum_payload_sumf. lia.
    + intros a Ha. apply Hfin in Ha as [Ha Har].
      rewrite (proj2 (Z.eqb_neq a b)) by (intros ->; contradiction). reflexivity.
  - rewrite Dav. pose proof (inv_max_used _ _ _ _ INV).
    pose proof (inv_payload_range OK INV _ Hb). lia.
  - intros Hm a Ha. apply Hin' in Ha as [Ha _]. apply (inv_align _ _ _ _ INV Hm a Ha).
Qed.

Lemma free_inv_uf p l1 r l2 flA flB :
  let b := p - HS in
  bs = l1 ++ b :: r :: l2 -> fl = flA ++ r :: flB -> is_used s b ->
  is_used s (prev (items s b)) ->
  exists s', rt_memheap_free p s = Some s' /\
    heap_inv heap (l1 ++ b :: l2) (b :: flA ++ flB) s' /\
    available_size (hget s' heap) = available_size (hget s heap) + payload s b + HS /\
    max_used_size (hget s' heap) = max_used_size (hget s heap) /\
    tailer (hget s' heap) = tailer (hget s heap) /\
    (forall a, a <> b -> ~ is_free s a -> next (items s' a) = next (items s a)).
Proof.
  intros b Ebs Efl Hused HuP.
  destruct (free_inv_uf_bytes p l1 r l2 flA flB Ebs Efl Hused HuP)
    as (s' & X0 & X1 & X2 & X3 & X4 & _ & X5).
  exists s'. exact (conj X0 (conj X1 (conj X2 (conj X3 (conj X4 X5))))).
Qed.

(** *** The previous neighbour is free *)

Lemma free_inv_fu_bytes p l1 q l2 :
  let b := p - HS in
  bs = l1 ++ q :: b :: l2 -> is_used s b -> is_free s q ->
  is_used s (next (items s b)) ->
  exists s', rt_memheap_free p s = Some s' /\
    heap_inv heap (l1 ++ q :: l2) fl s' /\
    available_size (hget s' heap) = available_size (hget s heap) + payload s b + HS /\
    max_used_size (hget s' heap) = max_used_size (hget s heap) /\
    tailer (hget s' heap) = tailer (hget s heap) /\
    (forall a,
       (forall x, In x bs \/ x = tailer (hget s heap) \/ x = free_list (hget s heap) ->
                  x + HS <= a \/ a < x) ->
       bytes s' a = bytes s a) /\
    (forall a, a <> b -> ~ is_free s a -> next (items s' a) = next (items s a)).
Proof.
  intros b Ebs Hused Hqfree HuN.
  pose proof (HS_pos OK) as HH. pose proof (HSZ_bounds OK) as HHb.
  assert (Hb : In b bs) by (rewrite Ebs; apply in_app_iff; simpl; auto).
  assert (Hq : In q bs) by (rewrite Ebs; apply in_app_iff; simpl; auto).
  assert (Hqfl : In q fl) by (apply (inv_fl _ _ _ _ INV); auto).
  pose proof (inv_neighbours INV l1 q (b :: l2) Ebs) as (Hnq & Hpb & _).
  cbn [hd] in Hnq, Hpb.
  assert (Ebs' : bs = (l1 ++ [q]) ++ b :: l2) by (rewrite <- app_assoc; exact Ebs).
  pose proof (inv_neighbours INV _ b l2 Ebs') as (Hnb & _).
  set (T := tailer (hget s heap)) in *.
  set (N := hd T l2) in *.
  pose proof (inv_addr_range OK INV _ Hb) as Hba.
  pose proof (inv_addr_range OK INV _ Hq) as Hqa.
  pose proof (inv_next_range OK INV _ Hb) as Hbn. rewrite Hnb in Hbn. fold T in Hbn.
  pose proof (inv_next_range OK INV _ Hq) as Hqn. rewrite Hnq in Hqn.
  pose proof (inv_tailer_range OK INV) as Htl. fold T in Htl.
  pose proof (inv_avail_range OK INV) as Hav.
  pose proof (inv_avail_with OK INV b Hb (inv_used_notin_fl INV b Hused)) as Hav3.
  fold T in Hav3.
  pose proof (inv_region _ _ _ _ INV) as Hreg.
  pose proof (inv_sentinel _ _ _ _ INV) as Hsen.
  pose proof (inv_bs_range OK INV) as Hrange. fold T in Hrange.
  assert (Hpb' : payload s b = N - b - HS) by (unfold payload; rewrite Hnb; reflexivity).
  assert (Hpq' : payload s q = b - q - HS) by (unfold payload; rewrite Hnq; reflexivity).
  set (fh := free_list (hget s heap)) in *.
  rewrite Hnb in HuN.
  set (S1 := free_mark heap b (set_lock heap 0 s)).
  assert (HU1 : RT_MEMHEAP_IS_USED S1 (prev (items S1 b)) = false).
  { unfold RT_MEMHEAP_IS_USED, S1, free_mark. fsimp. rewrite Hpb. fsimp.
    unfold is_free in Hqfree. rewrite Hqfree. reflexivity. }
  pose proof (free_eq p (conj Hb Hused)) as Heq. cbv zeta in Heq. fold b S1 in Heq.
  rewrite (merge_prev_free b S1 HU1) in Heq. cbv beta iota zeta in Heq.
  match type of Heq with
  | context [merge_next heap ?h ?X] =>
      assert (Eh : h = q);
      [ unfold S1, free_mark; fsimp; rewrite ?Hpb, ?Hnb; eqb_cases
      | rewrite Eh in Heq;
        assert (HU2 : RT_MEMHEAP_IS_USED X (next (items X q)) = true) ]
  end.
  { unfold RT_MEMHEAP_IS_USED, S1, free_mark. fsimp. rewrite ?Hpb, ?Hnb. fsimp.
    rewrite ?Hpb, ?Hnb. fsimp.
    unfold is_used in HuN. rewrite HuN. reflexivity. }
  rewrite (merge_next_used q _ HU2) in Heq.
  match type of Heq with _ = Some ?X => set (s' := X) in * end.
  exists s'. split; [exact Heq|]. clear Heq HU2 Eh.
  assert (Vmg : forall a, magic (items s' a) =
            if a =? b then RT_MEMHEAP_MAGIC else magic (items s a)).
  { intros a. unfold s', rt_sem_release, S1, free_mark. autorewrite with fields.
    reflexivity. }
  assert (Vpl : forall a, pool_ptr (items s' a) = pool_ptr (items s a)).
  { intros a. unfold s', rt_sem_release, S1, free_mark. autorewrite with fields.
    reflexivity. }
  assert (Vnx : forall a, next (items s' a) =
            if a =? q then N else next (items s a)).
  { intros a. unfold s', rt_sem_release, S1, free_mark. fsimp. rewrite ?Hpb, ?Hnb.
    eqb_cases. }
  assert (Vpv : forall a, prev (items s' a) =
            if a =? N then q else prev (items s a)).
  { intros a. unfold s', rt_sem_release, S1, free_mark. fsimp. rewrite ?Hpb, ?Hnb.
    fsimp. rewrite ?Hpb, ?Hnb. eqb_cases. }
  assert (Vnf : forall a, next_free (items s' a) = next_free (items s a)).
  { intros a. unfold s', rt_sem_release, S1, free_mark. autorewrite with fields.
    reflexivity. }
  assert (Vpf : forall a, prev_free (items s' a) = prev_free (items s a)).
  { intros a. unfold s', rt_sem_release, S1, free_mark. autorewrite with fields.
    reflexivity. }
  assert (Dst : start_addr (hget s' heap) = start_addr (hget s heap)).
  { unfold s', rt_sem_release, S1, free_mark. autorewrite with fields. reflexivity. }
  assert (Dps : pool_size (hget s' heap) = pool_size (hget s heap)).
  { unfold s', rt_sem_release, S1, free_mark. autorewrite with fields. reflexivity. }
  assert (Dbl : block_list (hget s' heap) = block_list (hget s heap)).
  { unfold s', rt_sem_release, S1, free_mark. autorewrite with fields. reflexivity. }
  assert (Dfl : free_list (hget s' heap) = fh).
  { unfold s', rt_sem_release, S1, free_mark. autorewrite with fields. reflexivity. }
  assert (Dlk : lock (hget s' heap) = 1).
  { unfold s', rt_sem_release, S1, free_mark. autorewrite with fields. reflexivity. }
  assert (Dmx : max_used_size (hget s' heap) = max_used_size (hget s heap)).
  { unfold s', rt_sem_release, S1, free_mark. autorewrite with fields. reflexivity. }
  assert (Dav : available_size (hget s' heap)
                = available_size (hget s heap) + payload s b + HS).
  { unfold s', rt_sem_release, S1, free_mark, MEMITEM_SIZE. autorewrite with fields.
    rewrite Hnb. unfold T, tailer in *. rewrite wB_eq in *. wrap_lia. lia. }
  assert (Dmem : is_memheap s' heap = true).
  { unfold s', rt_sem_release. apply is_memheap_set_lock. }
  assert (Dtl : tailer (hget s' heap) = T)
    by (unfold T, tailer; rewrite Dst, Dps; reflexivity).
  assert (Vby : forall a,
            (forall x, In x bs \/ x = tailer (hget s heap) \/ x = fh ->
                       x + HS <= a \/ a < x) ->
            bytes s' a = bytes s a).
  { intros a Haw. unfold s', S1, free_mark.
    repeat (autorewrite with bytesdb; autorewrite with fields; rewrite ?Hnb, ?Hpb).
    pose proof (aw_node OK heap bs fl s INV a Haw b Hb).
    pose proof (aw_node OK heap bs fl s INV a Haw q Hq).
    pose proof (aw_next OK heap bs fl s INV a Haw b (or_introl Hb)) as HaN. rewrite Hnb in HaN.
    split_ifs; rewrite !clobber_away by assumption; reflexivity. }
  clear HU1. clearbody s'. clear S1.
  pose proof (inv_phys_ok INV) as PO. rewrite Ebs' in PO. fold T in PO.
  assert (PO1 : phys_ok HS (start_addr (hget s heap)) T ((l1 ++ [q]) ++ l2)
                  (fun a => if a =? q then N else next (items s a))
                  (fun a => if a =? N then q else prev (items s a))).
  { eapply (phys_remove HH _ b _ PO); [destruct l1; discriminate| |];
      intros y; cbv beta; rewrite Hpb, Hnb; reflexivity. }
  rewrite <- app_assoc in PO1. simpl in PO1.
  pose proof (inv_bs_NoDup OK INV) as HndT. apply NoDup_cons_iff in HndT as [_ Hnd].
  assert (Hin' : forall a, In a (l1 ++ q :: l2) <-> In a bs /\ a <> b).
  { intros a. change (l1 ++ q :: l2) with (l1 ++ [q] ++ l2). rewrite app_assoc.
    rewrite Ebs'. apply in_removed. rewrite <- Ebs'. exact Hnd. }
  assert (Hbfl : ~ In b fl) by (apply (inv_used_notin_fl INV b Hused)).
  split; [|split; [exact Dav|split; [exact Dmx|split; [exact Dtl|split; [exact Vby|]]]]].
  2: { intros a Hab Hnf. rewrite Vnx.
       destruct (Z.eqb_spec a q) as [->|]; [contradiction|reflexivity]. }
  apply (heap_inv_intro heap _ _ s' _ _ _ _ _ _ Vmg Vpl Vnx Vpv Vnf Vpf);
    rewrite ?Dtl, ?Dst, ?Dps, ?Dbl, ?Dfl, ?Dlk, ?Dmx; auto.
  - apply (inv_nonnull _ _ _ _ INV).
  - apply (inv_block_list _ _ _ _ INV).
  - intros a Ha. apply Hin' in Ha as [Ha Hab].
    rewrite (proj2 (Z.eqb_neq a b)) by assumption. apply (inv_magic _ _ _ _ INV a Ha).
  - rewrite (proj2 (Z.eqb_neq T b)) by (specialize (Hrange _ Hb); lia).
    apply (inv_tailer _ _ _ _ INV).
  - intros a Ha. apply Hin' in Ha as [Ha _]. apply (inv_pool _ _ _ _ INV a Ha).
  - intros a. rewrite Hin'. split.
    + intros Ha. assert (a <> b) by (intros ->; contradiction).
      rewrite (proj2 (Z.eqb_neq a b)) by assumption.
      split; [split; [apply (inv_fl_bs INV _ Ha)|assumption]|apply (inv_fl_free INV _ Ha)].
    + intros [[Ha Hab] Hm]. rewrite (proj2 (Z.eqb_neq a b)) in Hm by assumption.
      apply (inv_fl _ _ _ _ INV). auto.
  - apply (inv_fl_nodup _ _ _ _ INV).
  - apply (inv_free _ _ _ _ INV).
  - (* coalesced *)
    pose proof (inv_coalesced _ _ _ _ INV) as Hco. rewrite Ebs in Hco, Hnd.
    assert (Hnb' : ~ In b (l1 ++ q :: l2)).
    { rewrite Hin'. tauto. }
    assert (Hmono : forall l, (forall x, In x l -> In x (l1 ++ q :: l2)) ->
              chain (fun a b => ~ (is_free s a /\ is_free s b)) l ->
              chain (fun x y => ~ ((if x =? b then RT_MEMHEAP_MAGIC else magic (items s x))
                                     = RT_MEMHEAP_MAGIC /\
                                   (if y =? b then RT_MEMHEAP_MAGIC else magic (items s y))
                                     = RT_MEMHEAP_MAGIC)) l).
    { intros l Hl. apply chain_mono. intros x y Hx Hy HR.
      rewrite (proj2 (Z.eqb_neq x b)) by (intros ->; apply Hnb', Hl, Hx).
      rewrite (proj2 (Z.eqb_neq y b)) by (intros ->; apply Hnb', Hl, Hy).
      exact HR. }
    apply chain_app in Hco as [Hc1 Hc2]. apply chain_app. split.
    + apply Hmono; [|exact Hc1]. intros x Hx. rewrite in_app_iff in *. simpl in *. tauto.
    + apply chain_tail in Hc2. destruct l2 as [|e l2]; [simpl; auto|].
      apply chain_cons in Hc2 as [_ Hc2]. apply chain_cons. split.
      * cbn [hd] in N. rewrite (proj2 (Z.eqb_neq e b))
          by (intros ->; apply Hnb'; rewrite in_app_iff; simpl; auto).
        unfold is_used in HuN. fold N. rewrite HuN. intros [_ Hx]. discriminate.
      * apply Hmono; [|exact Hc2]. intros x Hx. rewrite in_app_iff. simpl in *. tauto.
  - (* accounting *)
    rewrite Dav, (inv_avail _ _ _ _ INV), sum_payload_sumf.
    rewrite (sumf_update (payload s)
               (fun a => (if a =? q then N else next (items s a)) - a - HS) q fl
               (inv_fl_nodup _ _ _ _ INV) Hqfl).
    + rewrite Z.eqb_refl. lia.
    + intros a Ha Haq. rewrite (proj2 (Z.eqb_neq a q)) by assumption. reflexivity.
  - rewrite Dav. pose proof (inv_max_used _ _ _ _ INV).
    pose proof (inv_payload_range OK INV _ Hb). lia.
  - intros Hm a Ha. apply Hin' in Ha as [Ha _]. apply (inv_align _ _ _ _ INV Hm a Ha).
Qed.

Lemma free_inv_fu p l1 q l2 :
  let b := p - HS in
  bs = l1 ++ q :: b :: l2 -> is_used s b -> is_free s q ->
  is_used s (next (items s b)) ->
  exists s', rt_memheap_free p s = Some s' /\
    heap_inv heap (l1 ++ q :: l2) fl s' /\
    available_size (hget s' heap) = available_size (hget s heap) + payload s b + HS /\
    max_used_size (hget s' heap) = max_used_size (hget s heap) /\
    tailer (hget s' heap) = tailer (hget s heap) /\
    (forall a, a <> b -> ~ is_free s a -> next (items s' a) = next (items s a)).
Proof.
  intros b Ebs Hused Hqfree HuN.
  destruct (free_inv_fu_bytes p l1 q l2 Ebs Hused Hqfree HuN)
    as (s' & X0 & X1 & X2 & X3 & X4 & _ & X5).
  exists s'. exact (conj X0 (conj X1 (conj X2 (conj X3 (conj X4 X5))))).
Qed.

(** *** Both neighbours are free *)

Lemma free_inv_ff_bytes p l1 q r l2 flA flB :
  let b := p - HS in
  bs = l1 ++ q :: b :: r :: l2 -> fl = flA ++ r :: flB ->
  is_used s b -> is_free s q ->
  exists s', rt_memheap_free p s = Some s' /\
    heap_inv heap (l1 ++ q :: l2) (flA ++ flB) s' /\
    available_size (hget s' heap)
      = available_size (hget s heap) + payload s b + 2 * HS /\
    max_used_size (hget s' heap) = max_used_size (hget s heap) /\
    tailer (hget s' heap) = tailer (hget s heap) /\
    (forall a,
       (forall x, In x bs \/ x = tailer (hget s heap) \/ x = free_list (hget s heap) ->
                  x + HS <= a \/ a < x) ->
       bytes s' a = bytes s a) /\
    (forall a, a <> b -> ~ is_free s a -> next (items s' a) = next (items s a)).
Proof.
  intros b Ebs Efl Hused Hqfree.
  pose proof (HS_pos OK) as HH. pose proof (HSZ_bounds OK) as HHb.
  assert (Hb : In b bs) by (rewrite Ebs; apply in_app_iff; simpl; auto).
  assert (Hq : In q bs) by (rewrite Ebs; apply in_app_iff; simpl; auto).
  assert (Hr : In r bs) by (rewrite Ebs; apply in_app_iff; simpl; auto).
  assert (Hqfl : In q fl) by (apply (inv_fl _ _ _ _ INV); auto).
  assert (Hrfl : In r fl) by (rewrite Efl; apply in_app_iff; simpl; auto).
  pose proof (inv_fl_free INV _ Hrfl) as Hrfree.
  pose proof (inv_neighbours INV l1 q (b :: r :: l2) Ebs) as (Hnq & Hpb & _).
  cbn [hd] in Hnq, Hpb.
  assert (Ebs' : bs = (l1 ++ [q]) ++ b :: r :: l2) by (rewrite <- app_assoc; exact Ebs).
  pose proof (inv_neighbours INV _ b (r :: l2) Ebs') as (Hnb & Hpr & _).
  cbn [hd] in Hnb, Hpr.
  assert (Ebs'' : bs = (l1 ++ [q; b]) ++ r :: l2)
    by (rewrite <- app_assoc; exact Ebs).
  pose proof (inv_neighbours INV _ r l2 Ebs'') as (Hnr & _).
  set (T := tailer (hget s heap)) in *.
  set (N2 := hd T l2) in *.
  pose proof (inv_addr_range OK INV _ Hb) as Hba.
  pose proof (inv_addr_range OK INV _ Hq) as Hqa.
  pose proof (inv_addr_range OK INV _ Hr) as Hra.
  pose proof (inv_next_range OK INV _ Hb) as Hbn. rewrite Hnb in Hbn.
  pose proof (inv_next_range OK INV _ Hq) as Hqn. rewrite Hnq in Hqn.
  pose proof (inv_next_range OK INV _ Hr) as Hrn. rewrite Hnr in Hrn. fold T in Hrn.
  pose proof (inv_tailer_range OK INV) as Htl. fold T in Htl.
  pose proof (inv_avail_range OK INV) as Hav.
  pose proof (inv_avail_with OK INV b Hb (inv_used_notin_fl INV b Hused)) as Hav3.
  fold T in Hav3.
  pose proof (inv_avail_split OK INV _ _ _ Efl) as [Hav1 Hav2].
  pose proof (inv_region _ _ _ _ INV) as Hreg.
  pose proof (inv_sentinel _ _ _ _ INV) as Hsen.
  pose proof (inv_bs_range OK INV) as Hrange. fold T in Hrange.
  assert (Hpb' : payload s b = r - b - HS) by (unfold payload; rewrite Hnb; reflexivity).
  assert (Hpq' : payload s q = b - q - HS) by (unfold payload; rewrite Hnq; reflexivity).
  assert (Hpr' : payload s r = N2 - r - HS) by (unfold payload; rewrite Hnr; reflexivity).
  set (fh := free_list (hget s heap)) in *.
  set (nf1 := fun y => if y =? prev_free (items s r) then next_free (items s r)
                       else next_free (items s y)).
  set (pf1 := fun y => if y =? next_free (items s r) then prev_free (items s r)
                       else prev_free (items s y)).
  set (S1 := free_mark heap b (set_lock heap 0 s)).
  assert (HU1 : RT_MEMHEAP_IS_USED S1 (prev (items S1 b)) = false).
  { unfold RT_MEMHEAP_IS_USED, S1, free_mark. fsimp. rewrite Hpb. fsimp.
    unfold is_free in Hqfree. rewrite Hqfree. reflexivity. }
  pose proof (free_eq p (conj Hb Hused)) as Heq. cbv zeta in Heq. fold b S1 in Heq.
  rewrite (merge_prev_free b S1 HU1) in Heq. cbv beta iota zeta in Heq.
  match type of Heq with
  | context [merge_next heap ?h ?X] =>
      assert (Eh : h = q);
      [ unfold S1, free_mark; fsimp; rewrite ?Hpb, ?Hnb; eqb_cases
      | rewrite Eh in Heq;
        assert (HU2 : RT_MEMHEAP_IS_USED X (next (items X q)) = false) ]
  end.
  { unfold RT_MEMHEAP_IS_USED, S1, free_mark. fsimp. rewrite ?Hpb, ?Hnb. fsimp.
    rewrite ?Hpb, ?Hnb. fsimp.
    unfold is_free in Hrfree. rewrite Hrfree. reflexivity. }
  rewrite (merge_next_free q _ HU2) in Heq. cbv zeta in Heq.
  match type of Heq with _ = Some ?X => set (s' := X) in * end.
  exists s'. split; [exact Heq|]. clear Heq HU2 Eh.
  assert (Vmg : forall a, magic (items s' a) =
            if a =? b then RT_MEMHEAP_MAGIC else magic (items s a)).
  { intros a. unfold s', rt_sem_release, S1, free_mark. autorewrite with fields.
    reflexivity. }
  assert (Vpl : forall a, pool_ptr (items s' a) = pool_ptr (items s a)).
  { intros a. unfold s', rt_sem_release, S1, free_mark. autorewrite with fields.
    reflexivity. }
  assert (Vnx : forall a, next (items s' a) =
            if a =? q then N2 else next (items s a)).
  { intros a. unfold s', rt_sem_release, S1, free_mark. fsimp.
    rewrite ?Hpb, ?Hnb, ?Hnr. fsimp. rewrite ?Hpb, ?Hnb, ?Hnr. fsimp.
    rewrite ?Hpb, ?Hnb, ?Hnr. eqb_cases. }
  assert (Vpv : forall a, prev (items s' a) =
            if a =? N2 then q else if a =? r then q else prev (items s a)).
  { intros a. unfold s', rt_sem_release, S1, free_mark. fsimp.
    rewrite ?Hpb, ?Hnb, ?Hnr. fsimp. rewrite ?Hpb, ?Hnb, ?Hnr. fsimp.
    rewrite ?Hpb, ?Hnb, ?Hnr. eqb_cases. }
  assert (Vnf : forall a, next_free (items s' a) = nf1 a).
  { intros a. unfold s', rt_sem_release, S1, free_mark. fsimp.
    rewrite ?Hpb, ?Hnb, ?Hnr. fsimp. rewrite ?Hpb, ?Hnb, ?Hnr. fsimp.
    unfold nf1. eqb_cases. }
  assert (Vpf : forall a, prev_free (items s' a) = pf1 a).
  { intros a. unfold s', rt_sem_release, S1, free_mark. fsimp.
    rewrite ?Hpb, ?Hnb, ?Hnr. fsimp. rewrite ?Hpb, ?Hnb, ?Hnr. fsimp.
    unfold pf1. eqb_cases. }
  assert (Dst : start_addr (hget s' heap) = start_addr (hget s heap)).
  { unfold s', rt_sem_release, S1, free_mark. autorewrite with fields. reflexivity. }
  assert (Dps : pool_size (hget s' heap) = pool_size (hget s heap)).
  { unfold s', rt_sem_release, S1, free_mark. autorewrite with fields. reflexivity. }
  assert (Dbl : block_list (hget s' heap) = block_list (hget s heap)).
  { unfold s', rt_sem_release, S1, free_mark. autorewrite with fields. reflexivity. }
  assert (Dfl : free_list (hget s' heap) = fh).
  { unfold s', rt_sem_release, S1, free_mark. autorewrite with fields. reflexivity. }
  assert (Dlk : lock (hget s' heap) = 1).
  { unfold s', rt_sem_release, S1, free_mark. autorewrite with fields. reflexivity. }
  assert (Dmx : max_used_size (hget s' heap) = max_used_size (hget s heap)).
  { unfold s', rt_sem_release, S1, free_mark. autorewrite with fields. reflexivity. }
  assert (Dav : available_size (hget s' heap)
                = available_size (hget s heap) + payload s b + 2 * HS).
  { unfold s', rt_sem_release, S1, free_mark, MEMITEM_SIZE. autorewrite with fields.
    rewrite Hnb. unfold T, tailer in *. rewrite wB_eq in *. wrap_lia. lia. }
  assert (Dmem : is_memheap s' heap = true).
  { unfold s', rt_sem_release. apply is_memheap_set_lock. }
  assert (Dtl : tailer (hget s' heap) = T)
    by (unfold T, tailer; rewrite Dst, Dps; reflexivity).
  assert (Vby : forall a,
            (forall x, In x bs \/ x = tailer (hget s heap) \/ x = fh ->
                       x + HS <= a \/ a < x) ->
            bytes s' a = bytes s a).
  { intros a Haw. unfold s', S1, free_mark.
    repeat (autorewrite with bytesdb; autorewrite with fields; rewrite ?Hnb, ?Hpb).
    pose proof (aw_node OK heap bs fl s INV a Haw b Hb).
    pose proof (aw_node OK heap bs fl s INV a Haw q Hq).
    pose proof (aw_node OK heap bs fl s INV a Haw r Hr).
    pose proof (aw_next OK heap bs fl s INV a Haw r (or_introl Hr)) as HaN. rewrite ?Hnr in HaN.
    pose proof (aw_next_free OK heap bs fl s INV a Haw r (or_introl Hrfl)).
    pose proof (aw_prev_free OK heap bs fl s INV a Haw r (or_introl Hrfl)).
    rewrite ?Z.eqb_refl. rewrite ?(proj2 (Z.eqb_neq r q)) by lia. rewrite ?Hnr.
    split_ifs; rewrite !clobber_away by assumption; reflexivity. }
  clear HU1. clearbody s'. clear S1.
  pose proof (inv_phys_ok INV) as PO. rewrite Ebs' in PO. fold T in PO.
  set (nx1 := fun y => if y =? q then r else next (items s y)).
  set (pv1 := fun y => if y =? r then q else prev (items s y)).
  assert (PO1 : phys_ok HS (start_addr (hget s heap)) T ((l1 ++ [q]) ++ r :: l2) nx1 pv1).
  { eapply (phys_remove HH _ b _ PO); [destruct l1; discriminate| |];
      intros y; unfold nx1, pv1; rewrite Hpb, Hnb; reflexivity. }
  assert (PO2 : phys_ok HS (start_addr (hget s heap)) T ((l1 ++ [q]) ++ l2)
                  (fun y => if y =? pv1 r then nx1 r else nx1 y)
                  (fun y => if y =? nx1 r then pv1 r else pv1 y)).
  { eapply (phys_remove HH _ r _ PO1); [destruct l1; discriminate| |]; reflexivity. }
  rewrite <- app_assoc in PO2. simpl in PO2.
  assert (Hpv1r : pv1 r = q) by (unfold pv1; rewrite Z.eqb_refl; reflexivity).
  assert (Hnx1r : nx1 r = N2).
  { unfold nx1. rewrite (proj2 (Z.eqb_neq r q)) by lia. exact Hnr. }
  rewrite Hpv1r, Hnx1r in PO2.
  assert (PO3 : phys_ok HS (start_addr (hget s heap)) T (l1 ++ q :: l2)
                  (fun a => if a =? q then N2 else next (items s a))
                  (fun a => if a =? N2 then q else if a =? r then q
                            else prev (items s a))).
  { apply (phys_ok_ext _ _ _ _ _ _ _ _ PO2). intros x Hx.
    unfold nx1, pv1. split; eqb_cases. }
  pose proof (inv_bs_NoDup OK INV) as HndT. apply NoDup_cons_iff in HndT as [_ Hnd].
  assert (Hin' : forall a, In a (l1 ++ q :: l2) <-> In a bs /\ a <> b /\ a <> r).
  { intros a. rewrite Ebs in Hnd |- *.
    assert (Hnb' : ~ In b (l1 ++ q :: r :: l2)).
    { change (l1 ++ q :: b :: r :: l2) with (l1 ++ [q] ++ b :: r :: l2) in Hnd.
      rewrite app_assoc in Hnd. apply NoDup_remove_2 in Hnd.
      rewrite <- app_assoc in Hnd. exact Hnd. }
    assert (Hnr' : ~ In r (l1 ++ q :: b :: l2)).
    { change (l1 ++ q :: b :: r :: l2) with (l1 ++ [q; b] ++ r :: l2) in Hnd.
      rewrite app_assoc in Hnd. apply NoDup_remove_2 in Hnd.
      rewrite <- app_assoc in Hnd. exact Hnd. }
    rewrite !in_app_iff in *. simpl in *. split.
    - intros Ha. split; [tauto|]. split; intros ->; tauto.
    - intros [Ha [Hab Har]]. intuition congruence. }
  assert (Hfin : forall a, In a (flA ++ flB) <-> In a fl /\ a <> r).
  { intros a. rewrite Efl. apply in_removed. rewrite <- Efl.
    apply (inv_fl_nodup _ _ _ _ INV). }
  assert (Hbfl : ~ In b fl) by (apply (inv_used_notin_fl INV b Hused)).
  assert (Hqfl' : In q (flA ++ flB)) by (apply Hfin; split; [exact Hqfl|lia]).
  split; [|split; [exact Dav|split; [exact Dmx|split; [exact Dtl|split; [exact Vby|]]]]].
  2: { intros a Hab Hnf. rewrite Vnx.
       destruct (Z.eqb_spec a q) as [->|]; [contradiction|reflexivity]. }
  apply (heap_inv_intro heap _ _ s' _ _ _ _ _ _ Vmg Vpl Vnx Vpv Vnf Vpf);
    rewrite ?Dtl, ?Dst, ?Dps, ?Dbl, ?Dfl, ?Dlk, ?Dmx; auto.
  - apply (inv_nonnull _ _ _ _ INV).
  - apply (inv_block_list _ _ _ _ INV).
  - intros a Ha. apply Hin' in Ha as (Ha & Hab & _).
    rewrite (proj2 (Z.eqb_neq a b)) by assumption. apply (inv_magic _ _ _ _ INV a Ha).
  - rewrite (proj2 (Z.eqb_neq T b)) by (specialize (Hrange _ Hb); lia).
    apply (inv_tailer _ _ _ _ INV).
  - intros a Ha. apply Hin' in Ha as [Ha _]. apply (inv_pool _ _ _ _ INV a Ha).
  - intros a. rewrite Hfin, Hin'. split.
    + intros [Ha Har]. assert (a <> b) by (intros ->; contradiction).
      rewrite (proj2 (Z.eqb_neq a b)) by assumption.
      split; [split; [apply (inv_fl_bs INV _ Ha)|tauto]|apply (inv_fl_free INV _ Ha)].
    + intros [(Ha & Hab & Har) Hm]. rewrite (proj2 (Z.eqb_neq a b)) in Hm by assumption.
      split; [|exact Har]. apply (inv_fl _ _ _ _ INV). auto.
  - pose proof (inv_fl_nodup _ _ _ _ INV) as Hnd'. rewrite Efl in Hnd'.
    apply NoDup_remove_1 in Hnd'. exact Hnd'.
  - pose proof (inv_fl_NoDup OK INV) as Hnd'. fold fh in Hnd'. rewrite Efl in Hnd'.
    pose proof (inv_fh_notin_fl OK INV) as Hfh. fold fh in Hfh. rewrite Efl in Hfh.
    pose proof (inv_free _ _ _ _ INV) as Hfs. fold fh in Hfs. rewrite Efl in Hfs.
    eapply (seg_remove _ _ nf1 pf1 fh flA r flB fh Hnd' Hfh Hfs); reflexivity.
  - (* coalesced *)
    pose proof (inv_coalesced _ _ _ _ INV) as Hco. rewrite Ebs in Hco.
    assert (Hnb' : ~ In b (l1 ++ q :: l2)) by (rewrite Hin'; tauto).
    assert (Hmono : forall l, (forall x, In x l -> In x (l1 ++ q :: l2)) ->
              chain (fun a b => ~ (is_free s a /\ is_free s b)) l ->
              chain (fun x y => ~ ((if x =? b then RT_MEMHEAP_MAGIC else magic (items s x))
                                     = RT_MEMHEAP_MAGIC /\
                                   (if y =? b then RT_MEMHEAP_MAGIC else magic (items s y))
                                     = RT_MEMHEAP_MAGIC)) l).
    { intros l Hl. apply chain_mono. intros x y Hx Hy HR.
      rewrite (proj2 (Z.eqb_neq x b)) by (intros ->; apply Hnb', Hl, Hx).
      rewrite (proj2 (Z.eqb_neq y b)) by (intros ->; apply Hnb', Hl, Hy).
      exact HR. }
    apply chain_app in Hco as [Hc1 Hc2]. apply chain_app. split.
    + apply Hmono; [|exact Hc1]. intros x Hx. rewrite in_app_iff in *. simpl in *. tauto.
    + do 2 apply chain_tail in Hc2. destruct l2 as [|e l2]; [simpl; auto|].
      apply chain_cons in Hc2 as [Hre Hc2]. apply chain_cons. split.
      * rewrite (proj2 (Z.eqb_neq e b))
          by (intros ->; apply Hnb'; rewrite in_app_iff; simpl; auto).
        unfold is_free in Hre, Hrfree. tauto.
      * apply Hmono; [|exact Hc2]. intros x Hx. rewrite in_app_iff. simpl in *. tauto.
  - (* accounting *)
    rewrite Dav, Hav1, sum_payload_sumf.
    pose proof (inv_fl_nodup _ _ _ _ INV) as Hnd'. rewrite Efl in Hnd'.
    apply NoDup_remove_1 in Hnd'.
    rewrite (sumf_update (payload s)
               (fun a => (if a =? q then N2 else next (items s a)) - a - HS) q
               (flA ++ flB) Hnd' Hqfl').
    + rewrite Z.eqb_refl. lia.
    + intros a Ha Haq. rewrite (proj2 (Z.eqb_neq a q)) by assumption. reflexivity.
  - rewrite Dav. pose proof (inv_max_used _ _ _ _ INV).
    pose proof (inv_payload_range OK INV _ Hb). lia.
  - intros Hm a Ha. apply Hin' in Ha as [Ha _]. apply (inv_align _ _ _ _ INV Hm a Ha).
Qed.

Lemma free_inv_ff p l1 q r l2 flA flB :
  let b := p - HS in
  bs = l1 ++ q :: b :: r :: l2 -> fl = flA ++ r :: flB ->
  is_used s b -> is_free s q ->
  exists s', rt_memheap_free p s = Some s' /\
    heap_inv heap (l1 ++ q :: l2) (flA ++ flB) s' /\
    available_size (hget s' heap)
      = available_size (hget s heap) + payload s b + 2 * HS /\
    max_used_size (hget s' heap) = max_used_size (hget s heap) /\
    tailer (hget s' heap) = tailer (hget s heap) /\
    (forall a, a <> b -> ~ is_free s a -> next (items s' a) = next (items s a)).
Proof.
  intros b Ebs Efl Hused Hqfree.
  destruct (free_inv_ff_bytes p l1 q r l2 flA flB Ebs Efl Hused Hqfree)
    as (s' & X0 & X1 & X2 & X3 & X4 & _ & X5).
  exists s'. exact (conj X0 (conj X1 (conj X2 (conj X3 (conj X4 X5))))).
Qed.

(** The physical predecessor of a block of the list. *)
Lemma prev_free_or_used b :
  In b bs ->
  (is_used s (prev (items s b)) /\ exists l1 l2, bs = l1 ++ b :: l2) \/
  (is_free s (prev (items s b)) /\
   exists l1 l2, bs = l1 ++ prev (items s b) :: b :: l2).
Proof.
  intros Hb. destruct (in_split _ _ Hb) as (l1 & l2 & E).
  pose proof (inv_neighbours INV _ _ _ E) as (_ & _ & Hp & _).
  destruct (list_snoc_cases l1) as [->|(l0 & q & ->)].
  - left. split; [|exists [], l2; exact E]. rewrite Hp. apply (inv_tailer _ _ _ _ INV).
  - rewrite last_of_snoc in Hp. rewrite Hp.
    assert (Hq : In q bs) by (rewrite E, !in_app_iff; simpl; auto).
    destruct (inv_magic _ _ _ _ INV q Hq) as [Hf|Hu].
    + right. split; [exact Hf|]. exists l0, l2. rewrite E, <- app_assoc. reflexivity.
    + left. split; [exact Hu|eauto].
Qed.

Lemma free_b_of_free a : is_free s a -> free_b s a = true.
Proof. intros Hf. unfold free_b. apply Z.eqb_eq. exact Hf. Qed.

Lemma free_b_of_used a : is_used s a -> free_b s a = false.
Proof.
  intros Hu. unfold free_b. apply Z.eqb_neq. rewrite Hu.
  intros e. apply magic_cases_ne. symmetry. exact e.
Qed.

(** The outcomes of [rt_memheap_free] on a live pointer: the block becomes
    free and is merged with each free neighbour. *)
Lemma free_cases_bytes p :
  live bs s p ->
  let b := p - HS in
  exists s' bs' fl' c,
    rt_memheap_free p s = Some s' /\
    heap_inv heap bs' fl' s' /\
    max_used_size (hget s' heap) = max_used_size (hget s heap) /\
    tailer (hget s' heap) = tailer (hget s heap) /\
    available_size (hget s' heap)
      = available_size (hget s heap) + payload s b
        + HS * (Z.b2z (free_b s (prev (items s b))) + Z.b2z (free_b s (next (items s b)))) /\
    c = (if free_b s (prev (items s b)) then prev (items s b) else b) /\
    next (items s' c)
      = (if free_b s (next (items s b)) then next (items s (next (items s b)))
         else next (items s b)) /\
    In c fl' /\ c <= b /\ next (items s b) <= next (items s' c) /\
    (forall a, In a bs' -> In a bs) /\
    (forall a, In a bs -> is_used s a -> a <> b ->
       In a bs' /\ is_used s' a /\ next (items s' a) = next (items s a)) /\
    available_size (hget s heap) + payload s b <= available_size (hget s' heap)
      <= available_size (hget s heap) + payload s b + 2 * HS /\
    (forall a,
       (forall x, In x bs \/ x = tailer (hget s heap) \/ x = free_list (hget s heap) ->
                  x + HS <= a \/ a < x) ->
       bytes s' a = bytes s a).
Proof.
  intros [Hb Hused] b. fold b in Hb, Hused.
  pose proof (HS_pos OK) as HH.
  assert (Hkeep : forall s' bs' fl',
            heap_inv heap bs' fl' s' ->
            (forall a, a <> b -> ~ is_free s a -> next (items s' a) = next (items s a)) ->
            (forall a, In a bs -> a <> b -> ~ In a fl -> In a bs' /\ ~ In a fl') ->
            forall a, In a bs -> is_used s a -> a <> b ->
              In a bs' /\ is_used s' a /\ next (items s' a) = next (items s a)).
  { intros s' bs' fl' INV' Hnx' Hk a Ha Hu Hab.
    destruct (Hk a Ha Hab (inv_used_notin_fl INV a Hu)) as [H1 H2].
    split; [exact H1|]. split; [apply (inv_notin_fl_used INV' a H1 H2)|].
    apply Hnx'; [exact Hab|]. intros Hf. apply (free_not_used a Hf Hu). }
  destruct (prev_free_or_used b Hb) as [[HuP _]|[HfP (l1 & l2' & E)]];
    destruct (next_free_or_used heap bs fl s INV b Hb)
      as [[HuN (l1' & l2 & E')]|[HfN (l1' & l2 & flA & flB & E' & Efl)]].
  - destruct (free_inv_uu_bytes p l1' l2 E' Hused HuP HuN) as (s' & Hf & INV' & Hav & Hmx & Htl & Hby & Hnx').
    fold b in INV', Hav.
    pose proof (inv_payload_range OK INV _ Hb).
    exists s', bs, (b :: fl), b. split; [exact Hf|]. split; [exact INV'|].
    split; [exact Hmx|]. split; [exact Htl|].
    rewrite (free_b_of_used _ HuP), (free_b_of_used _ HuN). cbn [Z.b2z].
    split; [lia|]. split; [reflexivity|].
    assert (Hnx2 : next (items s' b) = next (items s b)).
    { pose proof (inv_neighbours INV _ _ _ E') as (H1 & _).
      pose proof (inv_neighbours INV' _ _ _ E') as (H2 & _). rewrite H1, H2, Htl.
      reflexivity. }
    split; [exact Hnx2|].
    split; [simpl; auto|]. split; [lia|].
    split; [rewrite Hnx2; lia|].
    split; [auto|]. split; [|split; [lia|exact Hby]].
    apply (Hkeep s' bs (b :: fl) INV' Hnx'). intros a Ha Hab Hn.
    split; [exact Ha|]. simpl. intros [e|Hin]; [congruence|contradiction].
  - set (r := next (items s b)) in *.
    destruct (free_inv_uf_bytes p l1' r l2 flA flB E' Efl Hused HuP)
      as (s' & Hf & INV' & Hav & Hmx & Htl & Hby & Hnx').
    fold b in INV', Hav.
    pose proof (inv_payload_range OK INV _ Hb).
    pose proof (inv_bs_NoDup OK INV) as HndT. apply NoDup_cons_iff in HndT as [_ Hnd].
    assert (Hinb : forall a, In a (l1' ++ b :: l2) <-> In a bs /\ a <> r).
    { intros a. change (l1' ++ b :: l2) with (l1' ++ [b] ++ l2). rewrite app_assoc.
      assert (E2 : bs = (l1' ++ [b]) ++ r :: l2) by (rewrite <- app_assoc; exact E').
      rewrite E2. apply in_removed. rewrite <- E2. exact Hnd. }
    exists s', (l1' ++ b :: l2), (b :: flA ++ flB), b.
    split; [exact Hf|]. split; [exact INV'|].
    split; [exact Hmx|]. split; [exact Htl|].
    rewrite (free_b_of_used _ HuP), (free_b_of_free _ HfN). cbn [Z.b2z].
    split; [lia|]. split; [reflexivity|].
    assert (Hnx2 : next (items s' b) = next (items s r)).
    { pose proof (inv_neighbours INV' l1' b l2 eq_refl) as (H2 & _). rewrite H2, Htl.
      assert (E2 : bs = (l1' ++ [b]) ++ r :: l2) by (rewrite <- app_assoc; exact E').
      pose proof (inv_neighbours INV _ r l2 E2) as (H3 & _). rewrite <- H3.
      reflexivity. }
    split; [exact Hnx2|].
    split; [simpl; auto|]. split; [lia|].
    split.
    { rewrite Hnx2.
      assert (Hr : In r bs) by (rewrite E'; apply in_app_iff; simpl; auto).
      pose proof (inv_next_range OK INV _ Hr). lia. }
    split; [intros a Ha; apply Hinb in Ha; tauto|]. split; [|split; [lia|exact Hby]].
    apply (Hkeep s' _ _ INV' Hnx'). intros a Ha Hab Hn.
    assert (Har : a <> r).
    { intros ->. apply Hn. rewrite Efl. apply in_app_iff. simpl. auto. }
    split; [apply Hinb; auto|]. simpl. intros [e|Hin]; [congruence|].
    apply Hn. rewrite Efl. rewrite in_app_iff in *. simpl. tauto.
  - set (q := prev (items s b)) in *.
    destruct (free_inv_fu_bytes p l1 q l2' E Hused HfP HuN)
      as (s' & Hf & INV' & Hav & Hmx & Htl & Hby & Hnx').
    fold b in INV', Hav.
    pose proof (inv_payload_range OK INV _ Hb).
    pose proof (inv_bs_NoDup OK INV) as HndT. apply NoDup_cons_iff in HndT as [_ Hnd].
    assert (E2 : bs = (l1 ++ [q]) ++ b :: l2') by (rewrite <- app_assoc; exact E).
    assert (Hinb : forall a, In a (l1 ++ q :: l2') <-> In a bs /\ a <> b).
    { intros a. change (l1 ++ q :: l2') with (l1 ++ [q] ++ l2'). rewrite app_assoc.
      rewrite E2. apply in_removed. rewrite <- E2. exact Hnd. }
    assert (Hq : In q bs) by (rewrite E; apply in_app_iff; simpl; auto).
    exists s', (l1 ++ q :: l2'), fl, q.
    split; [exact Hf|]. split; [exact INV'|].
    split; [exact Hmx|]. split; [exact Htl|].
    rewrite (free_b_of_free _ HfP), (free_b_of_used _ HuN). cbn [Z.b2z].
    split; [lia|]. split; [reflexivity|].
    assert (Hnx2 : next (items s' q) = next (items s b)).
    { pose proof (inv_neighbours INV' l1 q l2' eq_refl) as (H2 & _). rewrite H2, Htl.
      pose proof (inv_neighbours INV _ b l2' E2) as (H3 & _). rewrite H3. reflexivity. }
    split; [exact Hnx2|].
    split; [apply (inv_fl _ _ _ _ INV); auto|].
    split.
    { pose proof (inv_neighbours INV _ _ _ E) as (H1 & _). cbn [hd] in H1.
      pose proof (inv_next_range OK INV _ Hq). lia. }
    split; [rewrite Hnx2; lia|].
    split; [intros a Ha; apply Hinb in Ha; tauto|]. split; [|split; [lia|exact Hby]].
    apply (Hkeep s' _ _ INV' Hnx'). intros a Ha Hab Hn.
    split; [apply Hinb; auto|exact Hn].
  - set (q := prev (items s b)) in *. set (r := next (items s b)) in *.
    assert (El : l2' = r :: l2).
    { assert (E2 : bs = (l1 ++ [q]) ++ b :: l2') by (rewrite <- app_assoc; exact E).
      pose proof (inv_neighbours INV _ b l2' E2) as (H3 & _). fold r in H3.
      destruct l2' as [|e l2'']; cbn [hd] in H3.
      - exfalso. apply (free_not_used r HfN). rewrite H3. apply (inv_tailer _ _ _ _ INV).
      - subst e. f_equal.
        pose proof (inv_bs_NoDup OK INV) as HndT. apply NoDup_cons_iff in HndT as [_ Hnd].
        rewrite E2 in E'. rewrite E2 in Hnd.
        assert (Hsplit : forall (x : Z) (a1 a2 b1 b2 : list Z),
                  List.NoDup (a1 ++ x :: a2) -> a1 ++ x :: a2 = b1 ++ x :: b2 -> a2 = b2).
        { clear. intros x a1. induction a1 as [|y a1 IH]; intros a2 b1 b2 Hnd Heq.
          - destruct b1 as [|z b1]; simpl in Heq.
            + congruence.
            + injection Heq as <- Heq. exfalso. apply NoDup_cons_iff in Hnd as [Hx _].
              apply Hx. rewrite Heq. apply in_app_iff. simpl. auto.
          - destruct b1 as [|z b1]; simpl in Heq.
            + injection Heq as -> Heq. exfalso. simpl in Hnd.
              apply NoDup_cons_iff in Hnd as [Hx _]. apply Hx.
              apply in_app_iff. simpl. auto.
            + injection Heq as <- Heq. simpl in Hnd. apply NoDup_cons_iff in Hnd as [_ Hnd].
              apply (IH a2 b1 b2 Hnd Heq). }
        assert (Hx := Hsplit b (l1 ++ [q]) (r :: l2'') l1' (r :: l2) Hnd E').
        congruence. }
    subst l2'.
    destruct (free_inv_ff_bytes p l1 q r l2 flA flB E Efl Hused HfP)
      as (s' & Hf & INV' & Hav & Hmx & Htl & Hby & Hnx').
    fold b in INV', Hav.
    pose proof (inv_payload_range OK INV _ Hb).
    pose proof (inv_bs_NoDup OK INV) as HndT. apply NoDup_cons_iff in HndT as [_ Hnd].
    assert (Hq : In q bs) by (rewrite E; apply in_app_iff; simpl; auto).
    assert (Hr : In r bs) by (rewrite E; apply in_app_iff; simpl; auto).
    assert (Hinb : forall a, In a (l1 ++ q :: l2) <-> In a bs /\ a <> b /\ a <> r).
    { intros a. rewrite E in Hnd |- *.
      assert (Hnb' : ~ In b (l1 ++ q :: r :: l2)).
      { change (l1 ++ q :: b :: r :: l2) with (l1 ++ [q] ++ b :: r :: l2) in Hnd.
        rewrite app_assoc in Hnd. apply NoDup_remove_2 in Hnd.
        rewrite <- app_assoc in Hnd. exact Hnd. }
      assert (Hnr' : ~ In r (l1 ++ q :: b :: l2)).
      { change (l1 ++ q :: b :: r :: l2) with (l1 ++ [q; b] ++ r :: l2) in Hnd.
        rewrite app_assoc in Hnd. apply NoDup_remove_2 in Hnd.
        rewrite <- app_assoc in Hnd. exact Hnd. }
      rewrite !in_app_iff in *. simpl in *. split.
      - intros Ha. split; [tauto|]. split; intros ->; tauto.
      - intros [Ha [Hab Har]]. intuition congruence. }
    exists s', (l1 ++ q :: l2), (flA ++ flB), q.
    split; [exact Hf|]. split; [exact INV'|].
    split; [exact Hmx|]. split; [exact Htl|].
    rewrite (free_b_of_free _ HfP), (free_b_of_free _ HfN). cbn [Z.b2z].
    split; [lia|]. split; [reflexivity|].
    assert (Hnx2 : next (items s' q) = next (items s r)).
    { pose proof (inv_neighbours INV' l1 q l2 eq_refl) as (H2 & _). rewrite H2, Htl.
      assert (E3 : bs = (l1 ++ [q; b]) ++ r :: l2) by (rewrite <- app_assoc; exact E).
      pose proof (inv_neighbours INV _ r l2 E3) as (H3 & _). rewrite <- H3. reflexivity. }
    split; [exact Hnx2|].
    assert (Hqfl : In q fl) by (apply (inv_fl _ _ _ _ INV); auto).
    pose proof (inv_neighbours INV _ _ _ E) as (H1 & _). cbn [hd] in H1.
    pose proof (inv_next_range OK INV _ Hq) as Hqn. rewrite H1 in Hqn.
    split.
    { rewrite Efl in Hqfl. rewrite in_app_iff in *. simpl in Hqfl.
      pose proof (inv_next_range OK INV _ Hb) as Hbn. fold r in Hbn.
      destruct Hqfl as [?|[e|?]]; auto. lia. }
    split; [lia|].
    split.
    { rewrite Hnx2. pose proof (inv_next_range OK INV _ Hr). fold r. lia. }
    split; [intros a Ha; apply Hinb in Ha; tauto|]. split; [|split; [lia|exact Hby]].
    apply (Hkeep s' _ _ INV' Hnx'). intros a Ha Hab Hn.
    assert (Har : a <> r).
    { intros ->. apply Hn. rewrite Efl. apply in_app_iff. simpl. auto. }
    split; [apply Hinb; auto|].
    intros Hin. apply Hn. rewrite Efl. rewrite in_app_iff in *. simpl. tauto.
Qed.

Lemma free_cases p :
  live bs s p ->
  let b := p - HS in
  exists s' bs' fl' c,
    rt_memheap_free p s = Some s' /\
    heap_inv heap bs' fl' s' /\
    max_used_size (hget s' heap) = max_used_size (hget s heap) /\
    tailer (hget s' heap) = tailer (hget s heap) /\
    available_size (hget s' heap)
      = available_size (hget s heap) + payload s b
        + HS * (Z.b2z (free_b s (prev (items s b))) + Z.b2z (free_b s (next (items s b)))) /\
    c = (if free_b s (prev (items s b)) then prev (items s b) else b) /\
    next (items s' c)
      = (if free_b s (next (items s b)) then next (items s (next (items s b)))
         else next (items s b)) /\
    In c fl' /\ c <= b /\ next (items s b) <= next (items s' c) /\
    (forall a, In a bs' -> In a bs) /\
    (forall a, In a bs -> is_used s a -> a <> b ->
       In a bs' /\ is_used s' a /\ next (items s' a) = next (items s a)) /\
    available_size (hget s heap) + payload s b <= available_size (hget s' heap)
      <= available_size (hget s heap) + payload s b + 2 * HS.
Proof.
  intros Hlive b.
  destruct (free_cases_bytes p Hlive)
    as (s' & bs' & fl' & c & X1 & X2 & X3 & X4 & X5 & X6 & X7 & X8 & X9 & X10 & X11
        & X12 & X13 & _).
  exists s', bs', fl', c.
  exact (conj X1 (conj X2 (conj X3 (conj X4 (conj X5 (conj X6 (conj X7 (conj X8
          (conj X9 (conj X10 (conj X11 (conj X12 X13)))))))))))).
Qed.

(** [rt_memheap_free] returns on a live pointer and leaves the pool
    consistent; the pointer is no longer live, and the other blocks in use
    stay in use. *)
Lemma free_total p :
  live bs s p ->
  exists s' bs' fl',
    rt_memheap_free p s = Some s' /\
    heap_inv heap bs' fl' s' /\
    tailer (hget s' heap) = tailer (hget s heap) /\
    max_used_size (hget s' heap) = max_used_size (hget s heap) /\
    ~ live bs' s' p /\
    (forall a, In a bs -> is_used s a -> a <> p - HS ->
       In a bs' /\ is_used s' a /\ payload s' a = payload s a) /\
    available_size (hget s heap) + payload s (p - HS) <= available_size (hget s' heap).
Proof.
  intros Hlive.
  destruct (free_cases p Hlive)
    as (s' & bs' & fl' & c & Hf & INV' & Hmx & Htl & _ & _ & _ & Hc & Hle & Hnx & Hsub
        & Hkeep & Hav).
  exists s', bs', fl'. split; [exact Hf|]. split; [exact INV'|]. split; [exact Htl|].
  split; [exact Hmx|]. split; [|split; [|lia]].
  2: { intros a Ha Hu Hab. destruct (Hkeep a Ha Hu Hab) as (H1 & H2 & H3).
       split; [exact H1|]. split; [exact H2|]. unfold payload. rewrite H3. reflexivity. }
  intros [Hb' Hu']. destruct Hlive as [Hb Hu].
  pose proof (inv_next_range OK INV _ Hb) as Hbn. pose proof (HS_pos OK).
  assert (E : p - HS = c).
  { apply (inv_block_at OK INV' _ _ Hb' (inv_fl_bs INV' c Hc)); lia. }
  rewrite E in Hu'. apply (free_not_used c (inv_fl_free INV' c Hc) Hu').
Qed.

End Free.

(** ** rt_memheap_realloc under the invariant *)

Section NormalizedTwice.
Context `{Target} (OK : target_ok).

(** The request that [rt_memheap_realloc] passes on is normalized again by
    [rt_memheap_alloc], and does not shrink. *)
Lemma normalized_twice_ge n :
  0 <= n < wB -> normalized n <= normalized (normalized n).
Proof.
  intros Hn. pose proof (normalized_range OK n Hn) as Hr.
  pose proof (align_pos OK) as HA.
  unfold normalized at 1 3.
  destruct (Z.ltb_spec (RT_ALIGN n RT_ALIGN_SIZE) RT_MEMHEAP_MINIALLOC) as [Hlt|Hge].
  - pose proof (normalized_range OK RT_MEMHEAP_MINIALLOC
                  ltac:(unfold RT_MEMHEAP_MINIALLOC; rewrite wB_eq; lia)).
    unfold RT_MEMHEAP_MINIALLOC in *. lia.
  - assert (Hal : RT_ALIGN n RT_ALIGN_SIZE mod RT_ALIGN_SIZE = 0).
    { destruct (Z_lt_ge_dec (n + RT_ALIGN_SIZE - 1) wB).
      - apply (RT_ALIGN_spec OK); lia.
      - rewrite (RT_ALIGN_wraps OK) by lia. apply Z.mod_0_l. lia. }
    assert (Hb : 0 <= RT_ALIGN n RT_ALIGN_SIZE < wB).
    { revert Hr. unfold normalized.
      destruct (Z.ltb_spec (RT_ALIGN n RT_ALIGN_SIZE) RT_MEMHEAP_MINIALLOC);
        unfold RT_MEMHEAP_MINIALLOC in *; lia. }
    unfold normalized. rewrite (RT_ALIGN_fix OK (RT_ALIGN n RT_ALIGN_SIZE) Hb Hal).
    destruct (Z.ltb_spec (RT_ALIGN n RT_ALIGN_SIZE) RT_MEMHEAP_MINIALLOC); lia.
Qed.

End NormalizedTwice.

Section BytesOnly.
Context `{Target}.

(** The invariant reads descriptors and headers only. *)
Lemma heap_inv_same_fields heap bs fl s t :
  heaps t = heaps s -> items t = items s ->
  heap_inv heap bs fl s -> heap_inv heap bs fl t.
Proof.
  intros Hh Hi INV. destruct s, t. simpl in Hh, Hi. subst.
  destruct INV. constructor; assumption.
Qed.

Lemma heap_inv_memcpy heap bs fl s d src k :
  heap_inv heap bs fl s -> heap_inv heap bs fl (rt_memcpy d src k s).
Proof. apply heap_inv_same_fields; reflexivity. Qed.

End BytesOnly.

Section Realloc.
Context `{Target} (OK : target_ok).
Variables (heap : Z) (bs fl : list Z) (s : state).
Hypothesis INV : heap_inv heap bs fl s.

Local Abbreviation HS := RT_MEMHEAP_SIZE.

(** The block cannot grow in place: the call is an allocation, a copy of
    the old payload and a release of the old block. *)
Lemma realloc_move_eq p newsize :
  0 < newsize < wB ->
  live bs s p ->
  let b := p - HS in
  let n := normalized newsize in
  let old := payload s b in
  let r := next (items s b) in
  n + RT_MEMHEAP_MINIALLOC < wB ->
  old < n ->
  ~ (is_free s r /\ n + RT_MEMHEAP_MINIALLOC < payload s r + old) ->
  rt_memheap_realloc heap p newsize s =
  match rt_memheap_alloc heap n s with
  | None => None
  | Some (q, s1) =>
    if negb (q =? RT_NULL) then
      match rt_memheap_free p (rt_memcpy q p old s1) with
      | None => None
      | Some s2 => Some (q, s2)
      end
    else Some (q, s1)
  end.
Proof.
  intros Hsz [Hb Hused] b n old r Hnw Hgrow Hno.
  fold b in Hb, Hused.
  pose proof (HS_pos OK) as HH. pose proof (HSZ_bounds OK).
  pose proof (inv_addr_range OK INV _ Hb) as Hba.
  pose proof (inv_next_range OK INV _ Hb) as Hbn. fold r in Hbn.
  pose proof (inv_payload_range OK INV _ Hb) as Hbp. fold old in Hbp.
  pose proof (inv_tailer_range OK INV) as Htl.
  pose proof (normalized_range OK newsize ltac:(lia)) as Hn. fold n in Hn.
  unfold rt_memheap_realloc.
  rewrite (proj2 (Z.eqb_neq _ _) (inv_nonnull _ _ _ _ INV)).
  rewrite (inv_is_heap _ _ _ _ INV). cbn [negb].
  rewrite (proj2 (Z.eqb_neq newsize 0)) by lia.
  fold (normalized newsize). fold n. cbv zeta.
  rewrite (proj2 (Z.eqb_neq p RT_NULL)) by (unfold RT_NULL, b in *; lia).
  assert (Hwb : wrap (p - HS) = b) by (apply wrap_id; unfold b in *; rewrite wB_eq in *; lia).
  rewrite Hwb.
  rewrite (inv_MEMITEM_SIZE OK INV _ Hb). fold old.
  rewrite (proj2 (Z.ltb_lt _ _) Hgrow).
  rewrite (rt_sem_take_ok _ _ (inv_lock _ _ _ _ INV)).
  change (RT_EOK =? RT_EOK) with true. cbn [negb].
  rewrite items_set_lock. fold r.
  rewrite (proj2 (Z.ltb_lt b r)) by lia. cbn [negb].
  rewrite (lock_restore heap s (inv_is_heap _ _ _ _ INV) (inv_lock _ _ _ _ INV)).
  assert (Hcond : negb (RT_MEMHEAP_IS_USED (set_lock heap 0 s) r)
                  && (wrap (n + RT_MEMHEAP_MINIALLOC)
                      <? wrap (MEMITEM_SIZE (set_lock heap 0 s) r + old)) = false).
  { destruct (next_free_or_used heap bs fl s INV b Hb)
      as [[Hu _]|[Hf (l1 & l2 & flA & flB & E & _)]]; fold r in Hu || fold r in Hf, E.
    - change (RT_MEMHEAP_IS_USED (set_lock heap 0 s) r) with (RT_MEMHEAP_IS_USED s r).
      rewrite (inv_is_used_true r Hu). reflexivity.
    - assert (Hr : In r bs) by (rewrite E; apply in_app_iff; simpl; auto).
      pose proof (inv_payload_range OK INV _ Hr) as Hrp.
      change (MEMITEM_SIZE (set_lock heap 0 s) r) with (MEMITEM_SIZE s r).
      rewrite (inv_MEMITEM_SIZE OK INV _ Hr).
      assert (Hle : payload s r + old <= n + RT_MEMHEAP_MINIALLOC).
      { destruct (Z_lt_ge_dec (n + RT_MEMHEAP_MINIALLOC) (payload s r + old));
          [exfalso; apply Hno; auto|lia]. }
      unfold RT_MEMHEAP_MINIALLOC in *. unfold tailer in *. rewrite wB_eq in *.
      rewrite (wrap_id (n + 12)) by lia.
      rewrite (wrap_id (payload s r + old)) by lia.
      rewrite (proj2 (Z.ltb_ge _ _)) by lia.
      apply andb_false_r. }
  rewrite Hcond. reflexivity.
Qed.

(** The high-water mark never goes down. *)
Lemma update_max_used_mono st :
  max_used_size (hget st heap) <= max_used_size (hget (update_max_used heap st) heap).
Proof.
  unfold update_max_used.
  destruct (Z.ltb_spec (max_used_size (hget st heap))
              (wrap (pool_size (hget st heap) - available_size (hget st heap))));
    autorewrite with fields; lia.
Qed.

Lemma realloc_expand_max_used p b r n old st :
  max_used_size (hget st heap)
  <= max_used_size (hget (rt_sem_release heap (realloc_expand heap p b r n old st)) heap).
Proof.
  unfold rt_sem_release, realloc_expand. cbv zeta. autorewrite with fields.
  match goal with
  | |- context [update_max_used heap ?X] =>
      pose proof (update_max_used_mono X) as Hm; revert Hm
  end.
  autorewrite with fields. auto.
Qed.

Lemma realloc_shrink_max_used b n st :
  max_used_size (hget (rt_sem_release heap (realloc_shrink heap b n st)) heap)
  = max_used_size (hget st heap).
Proof.
  unfold rt_sem_release, realloc_shrink, shrink_merge. cbv zeta.
  match goal with
  | |- context [if ?c then _ else _] => destruct c
  end; autorewrite with fields; reflexivity.
Qed.

(** The in-place paths write the [next] of the block and of the block they
    create only. *)
Lemma realloc_expand_next p b r n old st new a :
  wrap (p + n) = new -> a <> b -> a <> new -> a <> prev (items st r) ->
  next (items (rt_sem_release heap (realloc_expand heap p b r n old st)) a)
  = next (items st a).
Proof.
  intros Hw Hab Han Hap. unfold rt_sem_release, realloc_expand. cbv zeta.
  rewrite Hw. autorewrite with fields.
  rewrite (proj2 (Z.eqb_neq a b)), (proj2 (Z.eqb_neq a new)) by assumption.
  rewrite (proj2 (Z.eqb_neq a _) Hap). reflexivity.
Qed.

Lemma realloc_shrink_next b n st new a :
  wrap (wrap (b + n) + HS) = new -> a <> b -> a <> new ->
  next (items (rt_sem_release heap (realloc_shrink heap b n st)) a)
  = next (items st a).
Proof.
  intros Hw Hab Han. unfold rt_sem_release, realloc_shrink, shrink_merge. cbv zeta.
  rewrite Hw.
  match goal with
  | |- context [if ?c then _ else _] => destruct c
  end; autorewrite with fields;
    rewrite ?(proj2 (Z.eqb_neq a b)), ?(proj2 (Z.eqb_neq a new)) by assumption;
    reflexivity.
Qed.

Lemma lock_restore_max v :
  max_used_size (hget (set_lock heap v s) heap) = max_used_size (hget s heap).
Proof. autorewrite with fields. reflexivity. Qed.

(** [rt_memheap_realloc] returns on a live pointer when the normalized
    request leaves room for the 12 bytes that the grow test adds, and leaves
    the pool consistent; the block returned holds the request, and the other
    blocks in use stay as they are. *)
Lemma realloc_total p newsize :
  0 < newsize < wB ->
  normalized newsize + RT_MEMHEAP_MINIALLOC < wB ->
  live bs s p ->
  let b := p - HS in
  let n := normalized newsize in
  exists q s' bs' fl',
    rt_memheap_realloc heap p newsize s = Some (q, s') /\
    heap_inv heap bs' fl' s' /\
    tailer (hget s' heap) = tailer (hget s heap) /\
    max_used_size (hget s heap) <= max_used_size (hget s' heap) /\
    (q = RT_NULL -> s' = s /\ rt_memheap_alloc heap n s = Some (RT_NULL, s)) /\
    (q <> RT_NULL ->
       live bs' s' q /\ n <= payload s' (q - HS) /\
       (q = p \/ (In (q - HS) fl /\ ~ live bs' s' p))) /\
    (forall a, In a bs -> is_used s a -> a <> b ->
       In a bs' /\ is_used s' a /\ payload s' a = payload s a).
Proof.
  intros Hsz Hnw Hlive b n. fold n in Hnw.
  pose proof (HS_pos OK) as HH. pose proof (HSZ_bounds OK) as HHb.
  pose proof (normalized_range OK newsize ltac:(lia)) as Hn. fold n in Hn.
  assert (Haln : RT_MEMHEAP_MINIALLOC mod RT_ALIGN_SIZE = 0 -> n mod RT_ALIGN_SIZE = 0).
  { intros Hm. apply (normalized_aligned OK); [lia|exact Hm]. }
  assert (Hn12 : RT_MEMHEAP_MINIALLOC <= n) by (unfold RT_MEMHEAP_MINIALLOC; lia).
  destruct Hlive as [Hb Hused]. fold b in Hb, Hused.
  pose proof (inv_addr_range OK INV _ Hb) as Hba.
  pose proof (inv_payload_range OK INV _ Hb) as Hbp.
  pose proof (inv_tailer_range OK INV) as Htlr.
  assert (Hpnull : p <> RT_NULL) by (unfold RT_NULL, b in *; lia).
  assert (Hpb : p - HS = b) by reflexivity.
  (* the paths that keep the block where it is *)
  assert (Hplace : forall s' l1 l2 fl',
            heap_inv heap (l1 ++ b :: (p + n) :: l2) ((p + n) :: fl') s' ->
            (forall a, In a bs -> is_used s a -> In a (l1 ++ b :: l2)) ->
            (forall a, In a fl' -> In a fl) ->
            ~ In (p + n) bs ->
            (forall a, a <> b -> a <> p + n -> next (items s' a) = next (items s a)) ->
            live (l1 ++ b :: (p + n) :: l2) s' p /\ n <= payload s' (p - HS) /\
            (forall a, In a bs -> is_used s a -> a <> b ->
               In a (l1 ++ b :: (p + n) :: l2) /\ is_used s' a /\
               payload s' a = payload s a)).
  { intros s' l1 l2 fl' INV' Hsub Hfl' Hnew Hfr.
    assert (Hin' : forall a, In a (l1 ++ b :: l2) -> In a (l1 ++ b :: (p + n) :: l2)).
    { intros a. rewrite !in_app_iff. simpl. tauto. }
    assert (Huse : forall a, In a bs -> is_used s a -> is_used s' a).
    { intros a Ha Hu. apply (inv_notin_fl_used INV' a (Hin' a (Hsub a Ha Hu))).
      simpl. intros [e|Hx].
      - apply Hnew. rewrite e. exact Ha.
      - apply (inv_used_notin_fl INV a Hu (Hfl' a Hx)). }
    split; [|split].
    - split; [rewrite Hpb; apply Hin', Hsub; auto|rewrite Hpb; apply Huse; auto].
    - pose proof (inv_neighbours INV' l1 b ((p + n) :: l2) eq_refl) as (Hx & _).
      cbn [hd] in Hx. rewrite Hpb. unfold payload. rewrite Hx. unfold b. lia.
    - intros a Ha Hu Hab. split; [apply Hin', Hsub; auto|]. split; [apply Huse; auto|].
      unfold payload. rewrite Hfr; [reflexivity|exact Hab|].
      intros ->. contradiction. }
  assert (Hnodup_new : forall s' l1 l2 fl',
            heap_inv heap (l1 ++ b :: (p + n) :: l2) fl' s' ->
            ~ In (p + n) (l1 ++ b :: l2)).
  { intros s' l1 l2 fl' INV'.
    pose proof (inv_bs_NoDup OK INV') as Hnd. apply NoDup_cons_iff in Hnd as [_ Hnd].
    change (l1 ++ b :: (p + n) :: l2) with (l1 ++ [b] ++ (p + n) :: l2) in Hnd.
    rewrite app_assoc in Hnd. apply NoDup_remove_2 in Hnd.
    rewrite <- app_assoc in Hnd. exact Hnd. }
  (* the path through a new block *)
  assert (Hmove : payload s b < n ->
            ~ (is_free s (next (items s b))
               /\ n + RT_MEMHEAP_MINIALLOC < payload s (next (items s b)) + payload s b) ->
            exists q s' bs' fl',
              rt_memheap_realloc heap p newsize s = Some (q, s') /\
              heap_inv heap bs' fl' s' /\
              tailer (hget s' heap) = tailer (hget s heap) /\
              max_used_size (hget s heap) <= max_used_size (hget s' heap) /\
              (q = RT_NULL -> s' = s /\ rt_memheap_alloc heap n s = Some (RT_NULL, s)) /\
              (q <> RT_NULL ->
                 live bs' s' q /\ n <= payload s' (q - HS) /\
                 (q = p \/ (In (q - HS) fl /\ ~ live bs' s' p))) /\
              (forall a, In a bs -> is_used s a -> a <> b ->
                 In a bs' /\ is_used s' a /\ payload s' a = payload s a)).
  { intros Hgrow Hno.
    pose proof (realloc_move_eq p newsize Hsz (conj Hb Hused) Hnw Hgrow Hno) as Heq.
    fold b n in Heq.
    destruct (alloc_total OK heap bs fl s INV n ltac:(lia))
      as (q & s1 & bs1 & fl1 & Ha & INV1 & Htl1 & Hmx1 & Hnull & Hnn & Hkeep1 & _).
    rewrite Ha in Heq.
    destruct (Z.eqb_spec q RT_NULL) as [Hq|Hq]; cbn [negb] in Heq.
    - subst q. specialize (Hnull eq_refl). subst s1.
      exists RT_NULL, s, bs, fl. split; [exact Heq|]. split; [exact INV|].
      split; [reflexivity|]. split; [lia|]. split; [intros _; split; [reflexivity|exact Ha]|].
      split; [intros Hx; contradiction|]. intros a Ha' Hu Hab. auto.
    - destruct (Hnn Hq) as (Hlq & Hqfl & Hpay).
      destruct (Hkeep1 b Hb Hused) as (Hb1 & Hu1 & Hp1).
      set (sm := rt_memcpy q p (payload s b) s1) in *.
      assert (INVm : heap_inv heap bs1 fl1 sm) by (apply heap_inv_memcpy; exact INV1).
      assert (Hlm : live bs1 sm p) by (split; [exact Hb1|exact Hu1]).
      destruct (free_total OK heap bs1 fl1 sm INVm p Hlm)
        as (s2 & bs2 & fl2 & Hf & INV2 & Htl2 & Hmx2 & Hnl & Hkeep2 & Hav2).
      rewrite Hf in Heq.
      assert (Hcb : q - HS <> b).
      { intros e. rewrite e in Hqfl. apply (inv_used_notin_fl INV b Hused Hqfl). }
      destruct Hlq as [Hc1 Hcu1].
      destruct (Hkeep2 (q - HS) Hc1 Hcu1 Hcb) as (Hc2 & Hcu2 & Hcp2).
      exists q, s2, bs2, fl2. split; [exact Heq|]. split; [exact INV2|].
      split; [rewrite Htl2; exact Htl1|].
      split; [rewrite Hmx2; exact Hmx1|].
      split; [intros Hx; contradiction|].
      split.
      + intros _. split; [split; assumption|]. split.
        * rewrite Hcp2. change (payload sm (q - HS)) with (payload s1 (q - HS)).
          pose proof (normalized_twice_ge OK newsize ltac:(lia)). fold n in H0. lia.
        * right. split; [exact Hqfl|exact Hnl].
      + intros a Ha' Hu Hab. destruct (Hkeep1 a Ha' Hu) as (Ha1 & Hau1 & Hap1).
        destruct (Hkeep2 a Ha1 Hau1 Hab) as (Ha2 & Hau2 & Hap2).
        split; [exact Ha2|]. split; [exact Hau2|].
        rewrite Hap2. exact Hap1. }
  destruct (Z_lt_ge_dec (payload s b) n) as [Hgrow|Hfits].
  - (* the request is larger than the block *)
    destruct (next_free_or_used heap bs fl s INV b Hb)
      as [[Hu _]|[Hf (l1 & l2 & flA & flB & E & Efl)]].
    + apply Hmove; [exact Hgrow|]. intros [Hf _]. apply (free_not_used _ Hf Hu).
    + set (r := next (items s b)) in *.
      destruct (Z_lt_ge_dec (n + RT_MEMHEAP_MINIALLOC) (payload s r + payload s b))
        as [Hroom|Hnoroom]; [|apply Hmove; [exact Hgrow|intros [_ Hx]; lia]].
      pose proof (realloc_expand_eq OK heap bs fl s INV p newsize Hsz (conj Hb Hused)
                    Hf Hgrow Hroom) as Heq.
      pose proof (realloc_expand_inv OK heap bs fl s INV p n l1 r l2 flA flB E Efl
                    Hused Hgrow Hroom Haln) as Hinv.
      cbv zeta in Hinv. fold b n r in Heq. fold b in Hinv.
      assert (Hr : In r bs) by (rewrite E; apply in_app_iff; simpl; auto).
      pose proof (inv_payload_range OK INV _ Hr) as Hrp.
      pose proof (inv_neighbours INV l1 b (r :: l2) E) as (Hnb & Hpr & _).
      cbn [hd] in Hnb, Hpr.
      assert (Hw : wrap (p + n) = p + n).
      { apply wrap_id. unfold payload in *. fold r in Hbp, Hroom, Hgrow.
        unfold RT_MEMHEAP_MINIALLOC in *. unfold tailer in *. rewrite wB_eq in *.
        unfold b in *. lia. }
      pose proof (realloc_expand_max_used p b r n (payload s b) (set_lock heap 0 s)) as Hmx.
      assert (Hfr : forall a, a <> b -> a <> p + n ->
                next (items (rt_sem_release heap
                       (realloc_expand heap p b r n (payload s b) (set_lock heap 0 s))) a)
                = next (items s a)).
      { intros a Hab Han.
        rewrite (realloc_expand_next p b r n (payload s b) (set_lock heap 0 s) (p + n) a
                   Hw Hab Han); [reflexivity|].
        rewrite items_set_lock, Hpr. exact Hab. }
      set (s' := rt_sem_release heap
                   (realloc_expand heap p b r n (payload s b) (set_lock heap 0 s))) in *.
      clearbody s'. destruct Hinv as (INV' & _ & Htl).
      assert (Hnew : ~ In (p + n) bs).
      { rewrite E. intros Hin. apply in_app_iff in Hin.
        apply (Hnodup_new s' l1 l2 _ INV'). apply in_app_iff.
        destruct Hin as [Hin|[e|[e|Hin]]]; [auto|simpl; auto| |simpl; auto].
        exfalso. unfold payload in Hgrow. fold r in Hgrow. unfold b in *. lia. }
      destruct (Hplace s' l1 l2 (flA ++ flB) INV') as (Hl & Hp' & Hk); auto.
      { intros a Ha Hu. rewrite E in Ha. rewrite in_app_iff in *. simpl in *.
        destruct Ha as [?|[?|[e|?]]]; auto.
        exfalso. rewrite <- e in Hu. apply (free_not_used r Hf Hu). }
      { intros a Ha. rewrite Efl. rewrite in_app_iff in *. simpl. tauto. }
      exists p, s', (l1 ++ b :: (p + n) :: l2), ((p + n) :: flA ++ flB).
      split; [exact Heq|]. split; [exact INV'|]. split; [exact Htl|].
      split; [rewrite lock_restore_max in Hmx; exact Hmx|].
      split; [intros; contradiction|]. split; [|exact Hk].
      intros _. split; [exact Hl|]. split; [exact Hp'|auto].
  - (* the request fits in the block *)
    destruct (Z_le_gt_dec (payload s b - n) (HS + RT_MEMHEAP_MINIALLOC)) as [Hk|Hk].
    { exists p, s, bs, fl.
      split; [apply (realloc_keep OK heap bs fl s INV p newsize Hsz (conj Hb Hused));
              fold b n; lia|].
      split; [exact INV|]. split; [reflexivity|]. split; [lia|].
      split; [intros Hx; contradiction|].
      split; [intros _; split; [split; assumption|split; [fold b; lia|auto]]|].
      intros a Ha Hu Hab. auto. }
    assert (Hfit : n + HS + RT_MEMHEAP_MINIALLOC < payload s b) by lia.
    pose proof (realloc_shrink_eq OK heap bs fl s INV p newsize Hsz (conj Hb Hused) Hfit)
      as Heq. fold b n in Heq.
    assert (Hw : wrap (wrap (b + n) + HS) = p + n).
    { unfold RT_MEMHEAP_MINIALLOC in *. unfold tailer in *. rewrite wB_eq in *.
      unfold b in *. wrap_lia. lia. }
    pose proof (realloc_shrink_max_used b n (set_lock heap 0 s)) as Hmx.
    assert (Hfr : forall a, a <> b -> a <> p + n ->
              next (items (rt_sem_release heap
                     (realloc_shrink heap b n (set_lock heap 0 s))) a)
              = next (items s a)).
    { intros a Hab Han.
      apply (realloc_shrink_next b n (set_lock heap 0 s) (p + n) a Hw Hab Han). }
    destruct (next_free_or_used heap bs fl s INV b Hb)
      as [[Hu (l1 & l2 & E)]|[Hf (l1 & l2 & flA & flB & E & Efl)]].
    + pose proof (realloc_shrink_inv_used OK heap bs fl s INV p n l1 l2 E Hused Hu
                    Hn12 Hfit Haln) as Hinv.
      cbv zeta in Hinv. fold b in Hinv.
      set (s' := rt_sem_release heap (realloc_shrink heap b n (set_lock heap 0 s))) in *.
      clearbody s'. destruct Hinv as (INV' & _ & Htl).
      assert (Hnew : ~ In (p + n) bs).
      { rewrite E. apply (Hnodup_new s' l1 l2 _ INV'). }
      destruct (Hplace s' l1 l2 fl INV') as (Hl & Hp' & Hk'); auto.
      { intros a Ha Hu'. rewrite <- E. exact Ha. }
      exists p, s', (l1 ++ b :: (p + n) :: l2), ((p + n) :: fl).
      split; [exact Heq|]. split; [exact INV'|]. split; [exact Htl|].
      split; [rewrite Hmx, lock_restore_max; lia|].
      split; [intros; contradiction|]. split; [|exact Hk'].
      intros _. split; [exact Hl|]. split; [exact Hp'|auto].
    + set (r := next (items s b)) in *.
      pose proof (realloc_shrink_inv_free OK heap bs fl s INV p n l1 r l2 flA flB E Efl
                    Hused Hn12 Hfit Haln) as Hinv.
      cbv zeta in Hinv. fold b in Hinv.
      set (s' := rt_sem_release heap (realloc_shrink heap b n (set_lock heap 0 s))) in *.
      clearbody s'. destruct Hinv as (INV' & _ & Htl).
      assert (Hnew : ~ In (p + n) bs).
      { rewrite E. intros Hin. apply in_app_iff in Hin.
        apply (Hnodup_new s' l1 l2 _ INV'). apply in_app_iff.
        destruct Hin as [Hin|[e|[e|Hin]]]; [auto|simpl; auto| |simpl; auto].
        exfalso. unfold payload in Hfit. fold r in Hfit.
        unfold RT_MEMHEAP_MINIALLOC in *. unfold b in *. lia. }
      destruct (Hplace s' l1 l2 (flA ++ flB) INV') as (Hl & Hp' & Hk'); auto.
      { intros a Ha Hu. rewrite E in Ha. rewrite in_app_iff in *. simpl in *.
        destruct Ha as [?|[?|[e|?]]]; auto.
        exfalso. rewrite <- e in Hu. apply (free_not_used r Hf Hu). }
      { intros a Ha. rewrite Efl. rewrite in_app_iff in *. simpl. tauto. }
      exists p, s', (l1 ++ b :: (p + n) :: l2), ((p + n) :: flA ++ flB).
      split; [exact Heq|]. split; [exact INV'|]. split; [exact Htl|].
      split; [rewrite Hmx, lock_restore_max; lia|].
      split; [intros; contradiction|]. split; [|exact Hk'].
      intros _. split; [exact Hl|]. split; [exact Hp'|auto].
Qed.

End Realloc.

(** * The allocator on a consistent pool *)

(** ** Blocks of a consistent pool do not overlap *)

Section Apart.
Context `{Target} (OK : target_ok).
Variables (heap : Z) (bs fl : list Z) (s : state).
Hypothesis INV : heap_inv heap bs fl s.

Local Abbreviation HS := RT_MEMHEAP_SIZE.

Lemma live_apart p q :
  live bs s p -> live bs s q -> p <> q ->
  p + payload s (p - HS) <= q - HS \/ q + payload s (q - HS) <= p - HS.
Proof.
  intros [Hp _] [Hq _] Hne.
  destruct (inv_blocks_apart OK heap bs fl s INV (p - HS) (q - HS) Hp Hq ltac:(lia))
    as [Hle|Hle];
    unfold payload; [left|right]; lia.
Qed.

Lemma live_in_pool p :
  live bs s p ->
  start_addr (hget s heap) + HS <= p /\
  0 <= payload s (p - HS) /\
  p + payload s (p - HS) <= tailer (hget s heap).
Proof.
  intros [Hp _].
  pose proof (inv_bs_range OK INV _ Hp) as [H1 H2].
  pose proof (inv_next_range OK INV _ Hp) as [H3 H4].
  unfold payload. lia.
Qed.

End Apart.

Lemma mod0_add a b m : 0 < m -> a mod m = 0 -> b mod m = 0 -> (a + b) mod m = 0.
Proof.
  intros Hm Ha Hb. rewrite Z.add_mod by lia. rewrite Ha, Hb. apply Z.mod_0_l. lia.
Qed.

Section AllocProps.
Context `{Target} (OK : target_ok).
Variables (heap : Z) (bs fl : list Z) (s : state).
Hypothesis INV : heap_inv heap bs fl s.

Local Abbreviation HS := RT_MEMHEAP_SIZE.

(** X1 (allocation keeps the pool consistent): on a consistent pool
    [rt_memheap_alloc] returns for every request that fits a word, and the
    pool is consistent afterwards.  A NULL result leaves the state as it was;
    a block handed out is in use and holds at least the normalized request;
    every block that was in use is still in use with the payload it had. *)
Theorem alloc_keeps_invariant size :
  0 <= size < wB ->
  exists p s' bs' fl',
    rt_memheap_alloc heap size s = Some (p, s') /\
    heap_inv heap bs' fl' s' /\
    (p = RT_NULL -> s' = s) /\
    (p <> RT_NULL -> live bs' s' p /\ normalized size <= payload s' (p - HS)) /\
    (forall q, live bs s q ->
       live bs' s' q /\ payload s' (q - HS) = payload s (q - HS)).
Proof.
  intros Hsz.
  destruct (alloc_total OK heap bs fl s INV size Hsz)
    as (p & s' & bs' & fl' & Heq & INV' & _ & _ & Hnull & Hok & Hkeep & _).
  exists p, s', bs', fl'. split; [exact Heq|]. split; [exact INV'|].
  split; [exact Hnull|]. split.
  - intros Hp. destruct (Hok Hp) as (Hl & _ & Hn & _). auto.
  - intros q [Hq Hu]. destruct (Hkeep _ Hq Hu) as (H1 & H2 & H3).
    split; [split; assumption|exact H3].
Qed.

(** X2 (when allocation fails): on a consistent pool [rt_memheap_alloc]
    returns NULL exactly when the normalized request is not smaller than
    [available_size] or no free block has a payload that holds it. *)
Theorem alloc_null_iff size :
  0 <= size < wB ->
  exists p s',
    rt_memheap_alloc heap size s = Some (p, s') /\
    (p = RT_NULL <->
     available_size (hget s heap) <= normalized size \/
     forall x, In x fl -> payload s x < normalized size).
Proof.
  intros Hsz.
  destruct (alloc_cases OK heap bs fl s INV size Hsz)
    as [[Heq Hwhy]|(flA & c & flB & l1 & l2 & s' & Efl & Ebs & Hsmall & Hfit & Hav & Heq & _)].
  - exists RT_NULL, s. split; [exact Heq|]. split; [intros _; exact Hwhy|reflexivity].
  - exists (c + HS), s'. split; [exact Heq|].
    assert (Hcfl : In c fl) by (rewrite Efl; apply in_app_iff; simpl; auto).
    pose proof (inv_addr_range OK INV c (inv_fl_bs INV c Hcfl)) as Hca.
    pose proof (HS_pos OK) as HH.
    split.
    + unfold RT_NULL. lia.
    + intros [Hle|Hno]; [lia|]. specialize (Hno c Hcfl). lia.
Qed.

(** X3 (first fit): the block [rt_memheap_alloc] hands out is the first
    block in free-list order whose payload holds the normalized request. *)
Theorem alloc_first_fit size :
  0 <= size < wB ->
  exists p s',
    rt_memheap_alloc heap size s = Some (p, s') /\
    (p <> RT_NULL ->
     exists flA flB,
       fl = flA ++ (p - HS) :: flB /\
       (forall x, In x flA -> payload s x < normalized size) /\
       normalized size <= payload s (p - HS)).
Proof.
  intros Hsz.
  destruct (alloc_cases OK heap bs fl s INV size Hsz)
    as [[Heq Hwhy]|(flA & c & flB & l1 & l2 & s' & Efl & Ebs & Hsmall & Hfit & Hav & Heq & _)].
  - exists RT_NULL, s. split; [exact Heq|]. intros Hp. contradiction.
  - exists (c + HS), s'. split; [exact Heq|]. intros _.
    replace (c + HS - HS) with c by lia.
    exists flA, flB. auto.
Qed.

(** X4 (split rule and accounting): when the block found has at least
    [n + H + MINIALLOC] bytes, for the normalized request [n], the caller
    gets exactly [n] bytes, the rest becomes a free block right behind them
    and [available_size] drops by [n + H]; otherwise the caller gets the
    whole block and [available_size] drops by its payload. *)
Theorem alloc_split_rule size :
  0 <= size < wB ->
  exists p s',
    rt_memheap_alloc heap size s = Some (p, s') /\
    (p <> RT_NULL ->
     let n := normalized size in
     let c := p - HS in
     if n + HS + RT_MEMHEAP_MINIALLOC <=? payload s c
     then payload s' c = n /\
          is_free s' (p + n) /\
          payload s' (p + n) = payload s c - n - HS /\
          available_size (hget s' heap) = available_size (hget s heap) - n - HS
     else payload s' c = payload s c /\
          available_size (hget s' heap) = available_size (hget s heap) - payload s c).
Proof.
  intros Hsz.
  destruct (alloc_cases OK heap bs fl s INV size Hsz)
    as [[Heq Hwhy]|(flA & c & flB & l1 & l2 & s' & Efl & Ebs & Hsmall & Hfit & Hav & Heq
                    & Htl & _ & _ & Hcase)].
  - exists RT_NULL, s. split; [exact Heq|]. intros Hp. contradiction.
  - exists (c + HS), s'. split; [exact Heq|]. intros _. cbv zeta.
    replace (c + HS - HS) with c by lia.
    destruct Hcase as [(Hsp & INV' & Hav' & Hpay)|(Hsp & INV' & Hav' & Hpay)].
    + rewrite (proj2 (Z.leb_le _ _) Hsp).
      split; [exact Hpay|].
      assert (Hnew : In (c + HS + normalized size) (c + HS + normalized size :: flA ++ flB))
        by (simpl; auto).
      split; [apply (inv_fl_free INV' _ Hnew)|]. split; [|exact Hav'].
      assert (E' : l1 ++ c :: c + HS + normalized size :: l2
                   = (l1 ++ [c]) ++ (c + HS + normalized size) :: l2)
        by (rewrite <- app_assoc; reflexivity).
      pose proof (inv_neighbours INV' _ _ _ E') as (Hx & _).
      pose proof (inv_neighbours INV _ _ _ Ebs) as (Hy & _).
      unfold payload. rewrite Hx, Hy, Htl. lia.
    + rewrite (proj2 (Z.leb_gt _ _) Hsp). auto.
Qed.

(** X5 (the block holds the request): for a request that the alignment
    rounding does not wrap, the block handed out holds at least [size]
    bytes; and when [MINIALLOC] is a multiple of the alignment and the pool
    starts at an aligned address, the pointer returned is aligned. *)
Theorem alloc_block_fits size :
  0 <= size -> size + RT_ALIGN_SIZE <= wB ->
  exists p s',
    rt_memheap_alloc heap size s = Some (p, s') /\
    (p <> RT_NULL ->
     size <= payload s' (p - HS) /\
     (RT_MEMHEAP_MINIALLOC mod RT_ALIGN_SIZE = 0 ->
      start_addr (hget s heap) mod RT_ALIGN_SIZE = 0 ->
      p mod RT_ALIGN_SIZE = 0)).
Proof.
  intros Hsz Hnw. pose proof (align_pos OK) as HA.
  destruct (alloc_total OK heap bs fl s INV size ltac:(lia))
    as (p & s' & bs' & fl' & Heq & INV' & _ & _ & _ & Hok & _).
  exists p, s'. split; [exact Heq|]. intros Hp.
  destruct (Hok Hp) as (_ & Hfl & Hn & _).
  split.
  - pose proof (normalized_ge OK size Hsz ltac:(lia)). lia.
  - intros Hm Hst.
    pose proof (inv_align _ _ _ _ INV Hm _ (inv_fl_bs INV _ Hfl)) as Hal.
    pose proof (HSZ_spec OK) as [_ Hh].
    replace p with ((p - HS - start_addr (hget s heap)) + (start_addr (hget s heap) + HS))
      by lia.
    apply mod0_add; [exact HA|exact Hal|]. apply mod0_add; assumption.
Qed.

(** X6 (a new block is disjoint from the blocks in use): the payload of a
    block handed out by [rt_memheap_alloc] lies between the first header and
    the tailer of the pool and shares no byte with the payload or the header
    of a block that was in use before the call. *)
Theorem alloc_block_fresh size :
  0 <= size < wB ->
  exists p s',
    rt_memheap_alloc heap size s = Some (p, s') /\
    (p <> RT_NULL ->
     start_addr (hget s heap) + HS <= p /\
     p + payload s' (p - HS) <= tailer (hget s heap) /\
     forall q, live bs s q ->
       p + payload s' (p - HS) <= q - HS \/ q + payload s (q - HS) <= p - HS).
Proof.
  intros Hsz.
  destruct (alloc_total OK heap bs fl s INV size Hsz)
    as (p & s' & bs' & fl' & Heq & INV' & Htl & _ & _ & Hok & Hkeep & _).
  exists p, s'. split; [exact Heq|]. intros Hp.
  destruct (Hok Hp) as (Hl & Hfl & Hn & Hle).
  pose proof (inv_bs_range OK INV _ (inv_fl_bs INV _ Hfl)) as [H1 _].
  pose proof (live_in_pool OK heap bs' fl' s' INV' p Hl) as (_ & _ & H3).
  split; [lia|]. split; [rewrite <- Htl; exact H3|].
  intros q [Hq Hu]. destruct (Hkeep _ Hq Hu) as (Hq' & Hu' & Hpq).
  assert (Hne : p <> q).
  { intros ->. apply (free_not_used _ (inv_fl_free INV _ Hfl) Hu). }
  destruct (live_apart OK heap bs' fl' s' INV' p q Hl (conj Hq' Hu') Hne) as [Hd|Hd].
  - left. exact Hd.
  - right. rewrite <- Hpq. exact Hd.
Qed.

End AllocProps.

Section AllocExamples.
Local Existing Instance target32.

Lemma alloc_keeps_invariant_witness :
  exists p s' bs' fl',
    rt_memheap_alloc ex_heap 100 ex32_alloc = Some (p, s') /\
    heap_inv ex_heap bs' fl' s' /\
    (p = RT_NULL -> s' = ex32_alloc) /\
    (p <> RT_NULL ->
     live bs' s' p /\ normalized 100 <= payload s' (p - RT_MEMHEAP_SIZE)) /\
    (forall q, live [0x1000; 0x107C] ex32_alloc q ->
       live bs' s' q /\
       payload s' (q - RT_MEMHEAP_SIZE) = payload ex32_alloc (q - RT_MEMHEAP_SIZE)).
Proof.
  apply (alloc_keeps_invariant target32_ok ex_heap [0x1000; 0x107C] [0x107C]
           ex32_alloc ex32_alloc_inv 100).
  rewrite wB_eq. lia.
Defined.

Lemma alloc_null_iff_witness :
  exists p s',
    rt_memheap_alloc ex_heap 100 ex32_alloc = Some (p, s') /\
    (p = RT_NULL <->
     available_size (hget ex32_alloc ex_heap) <= normalized 100 \/
     forall x, In x [0x107C] -> payload ex32_alloc x < normalized 100).
Proof.
  apply (alloc_null_iff target32_ok ex_heap [0x1000; 0x107C] [0x107C]
           ex32_alloc ex32_alloc_inv 100).
  rewrite wB_eq. lia.
Defined.

Lemma alloc_first_fit_witness :
  exists p s',
    rt_memheap_alloc ex_heap 100 ex32_alloc = Some (p, s') /\
    (p <> RT_NULL ->
     exists flA flB,
       [0x107C] = flA ++ (p - RT_MEMHEAP_SIZE) :: flB /\
       (forall x, In x flA -> payload ex32_alloc x < normalized 100) /\
       normalized 100 <= payload ex32_alloc (p - RT_MEMHEAP_SIZE)).
Proof.
  apply (alloc_first_fit target32_ok ex_heap [0x1000; 0x107C] [0x107C]
           ex32_alloc ex32_alloc_inv 100).
  rewrite wB_eq. lia.
Defined.

Lemma alloc_split_rule_witness :
  exists p s',
    rt_memheap_alloc ex_heap 100 ex32_alloc = Some (p, s') /\
    (p <> RT_NULL ->
     if normalized 100 + RT_MEMHEAP_SIZE + RT_MEMHEAP_MINIALLOC
        <=? payload ex32_alloc (p - RT_MEMHEAP_SIZE)
     then payload s' (p - RT_MEMHEAP_SIZE) = normalized 100 /\
          is_free s' (p + normalized 100) /\
          payload s' (p + normalized 100)
            = payload ex32_alloc (p - RT_MEMHEAP_SIZE) - normalized 100 - RT_MEMHEAP_SIZE /\
          available_size (hget s' ex_heap)
            = available_size (hget ex32_alloc ex_heap) - normalized 100 - RT_MEMHEAP_SIZE
     else payload s' (p - RT_MEMHEAP_SIZE) = payload ex32_alloc (p - RT_MEMHEAP_SIZE) /\
          available_size (hget s' ex_heap)
            = available_size (hget ex32_alloc ex_heap)
              - payload ex32_alloc (p - RT_MEMHEAP_SIZE)).
Proof.
  apply (alloc_split_rule target32_ok ex_heap [0x1000; 0x107C] [0x107C]
           ex32_alloc ex32_alloc_inv 100).
  rewrite wB_eq. lia.
Defined.

Lemma alloc_block_fits_witness :
  exists p s',
    rt_memheap_alloc ex_heap 100 ex32_alloc = Some (p, s') /\
    (p <> RT_NULL ->
     100 <= payload s' (p - RT_MEMHEAP_SIZE) /\
     (RT_MEMHEAP_MINIALLOC mod RT_ALIGN_SIZE = 0 ->
      start_addr (hget ex32_alloc ex_heap) mod RT_ALIGN_SIZE = 0 ->
      p mod RT_ALIGN_SIZE = 0)).
Proof.
  apply (alloc_block_fits target32_ok ex_heap [0x1000; 0x107C] [0x107C]
           ex32_alloc ex32_alloc_inv 100).
  - lia.
  - vm_compute. discriminate.
Defined.

Lemma alloc_block_fresh_witness :
  exists p s',
    rt_memheap_alloc ex_heap 100 ex32_alloc = Some (p, s') /\
    (p <> RT_NULL ->
     start_addr (hget ex32_alloc ex_heap) + RT_MEMHEAP_SIZE <= p /\
     p + payload s' (p - RT_MEMHEAP_SIZE) <= tailer (hget ex32_alloc ex_heap) /\
     forall q, live [0x1000; 0x107C] ex32_alloc q ->
       p + payload s' (p - RT_MEMHEAP_SIZE) <= q - RT_MEMHEAP_SIZE \/
       q + payload ex32_alloc (q - RT_MEMHEAP_SIZE) <= p - RT_MEMHEAP_SIZE).
Proof.
  apply (alloc_block_fresh target32_ok ex_heap [0x1000; 0x107C] [0x107C]
           ex32_alloc ex32_alloc_inv 100).
  rewrite wB_eq. lia.
Defined.

End AllocExamples.

(** * Giving blocks back *)

Section FreeMagic.
Context `{Target}.

Lemma magic_merge_next heap x st a :
  magic (items (merge_next heap x st) a) = magic (items st a).
Proof.
  unfold merge_next. destruct (negb (RT_MEMHEAP_IS_USED st (next (items st x)))).
  - cbv zeta. rewrite magic_list_remove_free. autorewrite with fields. reflexivity.
  - reflexivity.
Qed.

Lemma magic_merge_prev heap x st a :
  magic (items (snd (merge_prev heap x st)) a) = magic (items st a).
Proof.
  unfold merge_prev. destruct (negb (RT_MEMHEAP_IS_USED st (prev (items st x)))).
  - cbv zeta. cbn [snd]. autorewrite with fields. reflexivity.
  - reflexivity.
Qed.

Lemma magic_free_mark heap x st :
  magic (items (free_mark heap x st) x) = RT_MEMHEAP_MAGIC.
Proof.
  unfold free_mark. cbv zeta. autorewrite with fields.
  rewrite Z.eqb_refl. apply lor_freed.
Qed.

End FreeMagic.

Section FreeProps.
Context `{Target} (OK : target_ok).
Variables (heap : Z) (bs fl : list Z) (s : state).
Hypothesis INV : heap_inv heap bs fl s.

Local Abbreviation HS := RT_MEMHEAP_SIZE.

(** The header of a block given back reads as free afterwards, also when
    the block was merged into its predecessor. *)
Lemma free_magic p s' :
  live bs s p -> rt_memheap_free p s = Some s' ->
  magic (items s' (p - HS)) = RT_MEMHEAP_MAGIC.
Proof.
  intros Hl Hf. rewrite (free_eq OK heap bs fl s INV p Hl) in Hf.
  injection Hf as <-. cbv zeta.
  unfold rt_sem_release. rewrite items_set_lock.
  pose proof (magic_merge_prev heap (p - HS) (free_mark heap (p - HS) (set_lock heap 0 s))
                (p - HS)) as Hmp.
  destruct (merge_prev heap (p - HS) (free_mark heap (p - HS) (set_lock heap 0 s)))
    as [[h ins] s2].
  cbn [snd] in Hmp. rewrite magic_free_mark in Hmp.
  destruct ins.
  - rewrite magic_list_insert_free, magic_merge_next. exact Hmp.
  - rewrite magic_merge_next. exact Hmp.
Qed.

(** X7 (giving back keeps the pool consistent): on a consistent pool
    [rt_memheap_free] returns for every pointer in use; afterwards the pool
    is consistent, the pointer is no longer in use, every other block in use
    keeps its payload, the high-water mark is as before, and
    [available_size] has grown by at least the payload given back. *)
Theorem free_keeps_invariant p :
  live bs s p ->
  exists s' bs' fl',
    rt_memheap_free p s = Some s' /\
    heap_inv heap bs' fl' s' /\
    ~ live bs' s' p /\
    (forall q, live bs s q -> q <> p ->
       live bs' s' q /\ payload s' (q - HS) = payload s (q - HS)) /\
    max_used_size (hget s' heap) = max_used_size (hget s heap) /\
    available_size (hget s heap) + payload s (p - HS) <= available_size (hget s' heap).
Proof.
  intros Hl.
  destruct (free_total OK heap bs fl s INV p Hl)
    as (s' & bs' & fl' & Hf & INV' & _ & Hmx & Hdead & Hkeep & Hav).
  exists s', bs', fl'. split; [exact Hf|]. split; [exact INV'|]. split; [exact Hdead|].
  split; [|split; [exact Hmx|exact Hav]].
  intros q [Hq Hu] Hne.
  destruct (Hkeep _ Hq Hu ltac:(lia)) as (H1 & H2 & H3).
  split; [split; assumption|exact H3].
Qed.

(** X8 (eager coalescing): [rt_memheap_free] merges the block with each
    physical neighbour that is free.  The free block that results starts at
    the predecessor when that was free, at the block itself otherwise, and
    ends where the successor ended when that was free; [available_size]
    grows by the payload and by one header for each neighbour merged. *)
Theorem free_coalesces p :
  live bs s p ->
  let b := p - HS in
  let P := prev (items s b) in
  let N := next (items s b) in
  exists s' c,
    rt_memheap_free p s = Some s' /\
    c = (if free_b s P then P else b) /\
    is_free s' c /\
    next (items s' c) = (if free_b s N then next (items s N) else N) /\
    available_size (hget s' heap)
      = available_size (hget s heap) + payload s b
        + HS * (Z.b2z (free_b s P) + Z.b2z (free_b s N)).
Proof.
  intros Hl b P N.
  destruct (free_cases OK heap bs fl s INV p Hl)
    as (s' & bs' & fl' & c & Hf & INV' & _ & _ & Hav & Hc & Hnx & Hcfl & _).
  exists s', c. split; [exact Hf|]. split; [exact Hc|].
  split; [apply (inv_fl_free INV' c Hcfl)|]. split; [exact Hnx|exact Hav].
Qed.

(** X9 (a second free is caught): after [rt_memheap_free] of a pointer in
    use, the header in front of the pointer no longer carries the used
    mark, and a second [rt_memheap_free] of the same pointer stops at the
    assertion on the magic word. *)
Theorem double_free_rejected p :
  live bs s p ->
  exists s',
    rt_memheap_free p s = Some s' /\
    rt_memheap_free p s' = None.
Proof.
  intros Hl.
  destruct (free_total OK heap bs fl s INV p Hl) as (s' & bs' & fl' & Hf & _).
  exists s'. split; [exact Hf|].
  pose proof (free_magic p s' Hl Hf) as Hm.
  destruct Hl as [Hb _].
  pose proof (inv_addr_range OK INV _ Hb) as Hba. pose proof (HS_pos OK) as HH.
  pose proof (HSZ_bounds OK).
  unfold rt_memheap_free.
  rewrite (proj2 (Z.eqb_neq p RT_NULL)) by (unfold RT_NULL; lia).
  cbv zeta.
  rewrite (wrap_id (p - HS)) by (rewrite wB_eq in *; lia).
  rewrite Hm.
  rewrite (proj2 (Z.eqb_neq _ _) magic_cases_ne). reflexivity.
Qed.

End FreeProps.

(** ** Allocation followed by release *)

Section RoundTrip.
Context `{Target} (OK : target_ok).
Variables (heap : Z) (bs fl : list Z) (s : state).
Hypothesis INV : heap_inv heap bs fl s.

Local Abbreviation HS := RT_MEMHEAP_SIZE.

Lemma chain_pair (R : Z -> Z -> Prop) l1 a b l2 :
  chain R (l1 ++ a :: b :: l2) -> R a b.
Proof.
  intros Hc. apply (proj1 (chain_app R l1 a (b :: l2))) in Hc as [_ Hc].
  apply (proj1 (chain_cons R a b l2)) in Hc as [Hab _]. exact Hab.
Qed.

(** The physical neighbours of a free block are in use. *)
Lemma inv_free_prev_used c :
  In c bs -> is_free s c -> is_used s (prev (items s c)).
Proof.
  intros Hc Hf.
  destruct (prev_free_or_used heap bs fl s INV c Hc) as [[Hu _]|[Hfp (l1 & l2 & E)]];
    [exact Hu|].
  exfalso. pose proof (inv_coalesced _ _ _ _ INV) as Hco. rewrite E in Hco.
  apply (chain_pair _ _ _ _ _ Hco). split; assumption.
Qed.

Lemma inv_free_next_used c :
  In c bs -> is_free s c -> is_used s (next (items s c)).
Proof.
  intros Hc Hf.
  destruct (next_free_or_used heap bs fl s INV c Hc)
    as [[Hu _]|[Hfn (l1 & l2 & flA & flB & E & _)]]; [exact Hu|].
  exfalso. pose proof (inv_coalesced _ _ _ _ INV) as Hco. rewrite E in Hco.
  apply (chain_pair _ _ _ _ _ Hco). split; assumption.
Qed.

(** In two consistent states over the same block list and tailer, the
    blocks have the same extent. *)
Lemma inv_next_determined fl2 s2 :
  heap_inv heap bs fl2 s2 -> tailer (hget s2 heap) = tailer (hget s heap) ->
  forall a, In a bs -> next (items s2 a) = next (items s a).
Proof.
  intros INV2 Htl a Ha. destruct (in_split _ _ Ha) as (l1 & l2 & E).
  pose proof (inv_neighbours INV _ _ _ E) as (H1 & _).
  pose proof (inv_neighbours INV2 _ _ _ E) as (H2 & _).
  rewrite H1, H2, Htl. reflexivity.
Qed.

End RoundTrip.

Section RoundTripThm.
Context `{Target} (OK : target_ok).
Variables (heap : Z) (bs fl : list Z) (s : state).
Hypothesis INV : heap_inv heap bs fl s.

Local Abbreviation HS := RT_MEMHEAP_SIZE.

(** X10 (allocation followed by release): when [rt_memheap_alloc] hands out
    a block and [rt_memheap_free] takes it back at once, the pool has the
    physical blocks it had before, each with the payload it had, the same
    set of free blocks, and the same [available_size]. *)
Theorem alloc_free_roundtrip size :
  0 <= size < wB ->
  exists p s1,
    rt_memheap_alloc heap size s = Some (p, s1) /\
    (p <> RT_NULL ->
     exists s2 fl2,
       rt_memheap_free p s1 = Some s2 /\
       heap_inv heap bs fl2 s2 /\
       (forall a, In a fl2 <-> In a fl) /\
       (forall a, In a bs -> payload s2 a = payload s a) /\
       available_size (hget s2 heap) = available_size (hget s heap)).
Proof.
  intros Hsz. pose proof (HS_pos OK) as HH.
  destruct (alloc_cases OK heap bs fl s INV size Hsz)
    as [[Heq _]|(flA & c & flB & l1 & l2 & s' & Efl & Ebs & Hsmall & Hfit & Hav & Heq
                 & Htl & _ & Hnx & Hcase)].
  { exists RT_NULL, s. split; [exact Heq|]. intros Hp. contradiction. }
  exists (c + HS), s'. split; [exact Heq|]. intros _.
  assert (Hcfl : In c fl) by (rewrite Efl; apply in_app_iff; simpl; auto).
  assert (Hc : In c bs) by (apply (inv_fl_bs INV _ Hcfl)).
  pose proof (inv_fl_free INV _ Hcfl) as Hfree.
  pose proof (inv_free_prev_used heap bs fl s INV c Hc Hfree) as HuP.
  pose proof (inv_free_next_used heap bs fl s INV c Hc Hfree) as HuN.
  pose proof (normalized_range OK size Hsz) as Hn.
  assert (Hpc : c + HS - HS = c) by lia.
  assert (Hfin : forall a, In a (flA ++ flB) <-> In a fl /\ a <> c).
  { intros a. rewrite Efl. apply in_removed. rewrite <- Efl.
    apply (inv_fl_nodup _ _ _ _ INV). }
  assert (Hfl2 : forall a, In a (c :: flA ++ flB) <-> In a fl).
  { intros a. simpl. rewrite Hfin. split.
    - intros [<-|[Ha _]]; assumption.
    - intros Ha. destruct (Z.eq_dec c a); auto. }
  pose proof (inv_neighbours INV _ _ _ Ebs) as (HnS & _ & HpS & _).
  destruct Hcase as [(Hsp & INV' & Hav' & Hpay)|(Hsp & INV' & Hav' & Hpay)].
  - set (new := c + HS + normalized size) in *.
    assert (Hnewbs : ~ In new bs).
    { intros Hin. pose proof (inv_bs_NoDup OK INV') as Hnd.
      apply NoDup_cons_iff in Hnd as [_ Hnd].
      change (l1 ++ c :: new :: l2) with (l1 ++ [c] ++ new :: l2) in Hnd.
      rewrite app_assoc in Hnd. apply NoDup_remove_2 in Hnd. apply Hnd.
      rewrite <- app_assoc. simpl. rewrite <- Ebs. exact Hin. }
    assert (Hin' : forall a, In a (l1 ++ c :: new :: l2) <-> a = new \/ In a bs).
    { intros a. rewrite Ebs. rewrite !in_app_iff. simpl. intuition congruence. }
    assert (Hcu : is_used s' c).
    { apply (inv_notin_fl_used INV'); [apply Hin'; auto|].
      simpl. rewrite Hfin. intros [e|[_ e]]; [|congruence].
      apply Hnewbs. rewrite e. exact Hc. }
    pose proof (inv_neighbours INV' l1 c (new :: l2) eq_refl) as (_ & _ & HpS' & _).
    assert (HuP' : is_used s' (prev (items s' c))).
    { rewrite HpS', Htl. destruct (last_of_in (tailer (hget s heap)) l1) as [e|Hin].
      - rewrite e, <- Htl. apply (inv_tailer _ _ _ _ INV').
      - assert (Hq : In (last_of (tailer (hget s heap)) l1) bs)
          by (rewrite Ebs; apply in_app_iff; auto).
        rewrite HpS in HuP.
        apply (inv_notin_fl_used INV'); [apply Hin'; auto|].
        simpl. rewrite Hfin. intros [e|[Hx _]].
        + apply Hnewbs. rewrite e. exact Hq.
        + apply (inv_used_notin_fl INV _ HuP Hx). }
    assert (Ebs' : l1 ++ c :: new :: l2 = l1 ++ (c + HS - HS) :: new :: l2)
      by (rewrite Hpc; reflexivity).
    assert (Efl' : new :: flA ++ flB = [] ++ new :: (flA ++ flB)) by reflexivity.
    destruct (free_inv_uf OK heap _ _ s' INV' (c + HS) l1 new l2 [] (flA ++ flB)
                Ebs' Efl' ltac:(rewrite Hpc; exact Hcu) ltac:(rewrite Hpc; exact HuP'))
      as (s2 & Hf & INV2 & Hav2 & _ & Htl2 & _).
    rewrite Hpc in INV2, Hav2. rewrite <- Ebs in INV2. cbn [app] in INV2.
    exists s2, (c :: flA ++ flB). split; [exact Hf|]. split; [exact INV2|].
    split; [exact Hfl2|]. split; [|lia].
    intros a Ha. unfold payload.
    rewrite (inv_next_determined heap bs fl s INV _ s2 INV2 ltac:(congruence) a Ha).
    reflexivity.
  - assert (Hcu : is_used s' c).
    { apply (inv_notin_fl_used INV' c Hc). rewrite Hfin. tauto. }
    assert (Hstay : forall a, a = tailer (hget s heap) \/ In a bs ->
              is_used s a -> is_used s' a).
    { intros a [->|Ha] Hu.
      - rewrite <- Htl. apply (inv_tailer _ _ _ _ INV').
      - apply (inv_notin_fl_used INV' a Ha). rewrite Hfin. intros [Hx _].
        apply (inv_used_notin_fl INV _ Hu Hx). }
    pose proof (inv_neighbours INV' l1 c l2 Ebs) as (HnS' & _ & HpS' & _).
    assert (HuP' : is_used s' (prev (items s' c))).
    { rewrite HpS', Htl, <- HpS. apply Hstay; [|exact HuP].
      rewrite HpS. destruct (last_of_in (tailer (hget s heap)) l1) as [e|Hin]; [auto|].
      right. rewrite Ebs. apply in_app_iff. auto. }
    assert (HuN' : is_used s' (next (items s' c))).
    { rewrite HnS', Htl, <- HnS. apply Hstay; [|exact HuN].
      rewrite HnS. destruct l2 as [|e l2]; cbn [hd]; [auto|].
      right. rewrite Ebs. apply in_app_iff. simpl. auto. }
    assert (Ebs' : bs = l1 ++ (c + HS - HS) :: l2) by (rewrite Hpc; exact Ebs).
    destruct (free_inv_uu OK heap _ _ s' INV' (c + HS) l1 l2
                Ebs' ltac:(rewrite Hpc; exact Hcu) ltac:(rewrite Hpc; exact HuP')
                ltac:(rewrite Hpc; exact HuN'))
      as (s2 & Hf & INV2 & Hav2 & _ & Htl2 & _).
    rewrite Hpc in INV2, Hav2.
    exists s2, (c :: flA ++ flB). split; [exact Hf|]. split; [exact INV2|].
    split; [exact Hfl2|]. split; [|lia].
    intros a Ha. unfold payload.
    rewrite (inv_next_determined heap bs fl s INV _ s2 INV2 ltac:(congruence) a Ha).
    reflexivity.
Qed.

End RoundTripThm.

Section FreeExamples.
Local Existing Instance target32.

Lemma ex32_alloc_live : live [0x1000; 0x107C] ex32_alloc 0x1018.
Proof. vm_compute. split; [left; reflexivity|reflexivity]. Qed.

Lemma free_keeps_invariant_witness :
  exists s' bs' fl',
    rt_memheap_free 0x1018 ex32_alloc = Some s' /\
    heap_inv ex_heap bs' fl' s' /\
    ~ live bs' s' 0x1018 /\
    (forall q, live [0x1000; 0x107C] ex32_alloc q -> q <> 0x1018 ->
       live bs' s' q /\
       payload s' (q - RT_MEMHEAP_SIZE) = payload ex32_alloc (q - RT_MEMHEAP_SIZE)) /\
    max_used_size (hget s' ex_heap) = max_used_size (hget ex32_alloc ex_heap) /\
    available_size (hget ex32_alloc ex_heap) + payload ex32_alloc (0x1018 - RT_MEMHEAP_SIZE)
      <= available_size (hget s' ex_heap).
Proof.
  apply (free_keeps_invariant target32_ok ex_heap [0x1000; 0x107C] [0x107C]
           ex32_alloc ex32_alloc_inv 0x1018).
  exact ex32_alloc_live.
Defined.

Lemma free_coalesces_witness :
  exists s' c,
    rt_memheap_free 0x1018 ex32_alloc = Some s' /\
    c = (if free_b ex32_alloc (prev (items ex32_alloc (0x1018 - RT_MEMHEAP_SIZE)))
         then prev (items ex32_alloc (0x1018 - RT_MEMHEAP_SIZE))
         else 0x1018 - RT_MEMHEAP_SIZE) /\
    is_free s' c /\
    next (items s' c)
      = (if free_b ex32_alloc (next (items ex32_alloc (0x1018 - RT_MEMHEAP_SIZE)))
         then next (items ex32_alloc (next (items ex32_alloc (0x1018 - RT_MEMHEAP_SIZE))))
         else next (items ex32_alloc (0x1018 - RT_MEMHEAP_SIZE))) /\
    available_size (hget s' ex_heap)
      = available_size (hget ex32_alloc ex_heap)
        + payload ex32_alloc (0x1018 - RT_MEMHEAP_SIZE)
        + RT_MEMHEAP_SIZE
          * (Z.b2z (free_b ex32_alloc (prev (items ex32_alloc (0x1018 - RT_MEMHEAP_SIZE))))
             + Z.b2z (free_b ex32_alloc
                        (next (items ex32_alloc (0x1018 - RT_MEMHEAP_SIZE))))).
Proof.
  apply (free_coalesces target32_ok ex_heap [0x1000; 0x107C] [0x107C]
           ex32_alloc ex32_alloc_inv 0x1018).
  exact ex32_alloc_live.
Defined.

Lemma double_free_rejected_witness :
  exists s',
    rt_memheap_free 0x1018 ex32_alloc = Some s' /\
    rt_memheap_free 0x1018 s' = None.
Proof.
  apply (double_free_rejected target32_ok ex_heap [0x1000; 0x107C] [0x107C]
           ex32_alloc ex32_alloc_inv 0x1018).
  exact ex32_alloc_live.
Defined.

Lemma alloc_free_roundtrip_witness :
  exists p s1,
    rt_memheap_alloc ex_heap 100 ex32_alloc = Some (p, s1) /\
    (p <> RT_NULL ->
     exists s2 fl2,
       rt_memheap_free p s1 = Some s2 /\
       heap_inv ex_heap [0x1000; 0x107C] fl2 s2 /\
       (forall a, In a fl2 <-> In a [0x107C]) /\
       (forall a, In a [0x1000; 0x107C] -> payload s2 a = payload ex32_alloc a) /\
       available_size (hget s2 ex_heap) = available_size (hget ex32_alloc ex_heap)).
Proof.
  apply (alloc_free_roundtrip target32_ok ex_heap [0x1000; 0x107C] [0x107C]
           ex32_alloc ex32_alloc_inv 100).
  rewrite wB_eq. lia.
Defined.

End FreeExamples.

(** * Resizing on a consistent pool *)

Section ReallocProps.
Context `{Target} (OK : target_ok).
Variables (heap : Z) (bs fl : list Z) (s : state).
Hypothesis INV : heap_inv heap bs fl s.

Local Abbreviation HS := RT_MEMHEAP_SIZE.

(** X11 (resizing keeps the pool consistent): on a consistent pool, for a
    pointer in use and a request other than 0 whose normalized size leaves
    room for the 12 bytes the grow test adds, [rt_memheap_realloc] returns
    and the pool is consistent afterwards.  A NULL result leaves the state
    as it was, the old block included; a block returned is in use and holds
    the normalized request, and it is the old block or the old pointer is no
    longer in use; every other block in use keeps its payload; the
    high-water mark does not go down. *)
Theorem realloc_keeps_invariant p newsize :
  0 < newsize < wB ->
  normalized newsize + RT_MEMHEAP_MINIALLOC < wB ->
  live bs s p ->
  exists q s' bs' fl',
    rt_memheap_realloc heap p newsize s = Some (q, s') /\
    heap_inv heap bs' fl' s' /\
    (q = RT_NULL -> s' = s) /\
    (q <> RT_NULL ->
       live bs' s' q /\ normalized newsize <= payload s' (q - HS) /\
       (q = p \/ ~ live bs' s' p)) /\
    (forall r, live bs s r -> r <> p ->
       live bs' s' r /\ payload s' (r - HS) = payload s (r - HS)) /\
    max_used_size (hget s heap) <= max_used_size (hget s' heap).
Proof.
  intros Hsz Hnw Hl.
  destruct (realloc_total OK heap bs fl s INV p newsize Hsz Hnw Hl)
    as (q & s' & bs' & fl' & Heq & INV' & _ & Hmx & Hnull & Hok & Hkeep).
  exists q, s', bs', fl'. split; [exact Heq|]. split; [exact INV'|].
  split; [intros Hq; apply (Hnull Hq)|]. split; [|split; [|exact Hmx]].
  - intros Hq. destruct (Hok Hq) as (Hlq & Hn & Hwhere).
    split; [exact Hlq|]. split; [exact Hn|].
    destruct Hwhere as [e|[_ Hd]]; auto.
  - intros r [Hr Hu] Hne.
    destruct (Hkeep _ Hr Hu ltac:(lia)) as (H1 & H2 & H3).
    split; [split; assumption|exact H3].
Qed.

End ReallocProps.

Section ReallocExamples.
Local Existing Instance target32.

Lemma realloc_keeps_invariant_witness :
  exists q s' bs' fl',
    rt_memheap_realloc ex_heap 0x1018 200 ex32_alloc = Some (q, s') /\
    heap_inv ex_heap bs' fl' s' /\
    (q = RT_NULL -> s' = ex32_alloc) /\
    (q <> RT_NULL ->
       live bs' s' q /\ normalized 200 <= payload s' (q - RT_MEMHEAP_SIZE) /\
       (q = 0x1018 \/ ~ live bs' s' 0x1018)) /\
    (forall r, live [0x1000; 0x107C] ex32_alloc r -> r <> 0x1018 ->
       live bs' s' r /\
       payload s' (r - RT_MEMHEAP_SIZE) = payload ex32_alloc (r - RT_MEMHEAP_SIZE)) /\
    max_used_size (hget ex32_alloc ex_heap) <= max_used_size (hget s' ex_heap).
Proof.
  apply (realloc_keeps_invariant target32_ok ex_heap [0x1000; 0x107C] [0x107C]
           ex32_alloc ex32_alloc_inv 0x1018 200).
  - rewrite wB_eq. lia.
  - vm_compute. reflexivity.
  - exact ex32_alloc_live.
Defined.

End ReallocExamples.

(** * rt_calloc *)

Section Memset.
Context `{Target}.


End Memset.

Section Calloc.
Context `{Target} (OK : target_ok).
Variables (bs fl : list Z) (s : state).
Hypothesis INV : heap_inv sys_heap bs fl s.

Local Abbreviation HS := RT_MEMHEAP_SIZE.


End Calloc.

Section CallocExample.
Local Existing Instance target32.



(** The call for 0x40000001 elements of 4 bytes returns a block of 12
    bytes, 4 of them zeroed. *)
Example calloc_small_block :
  exists s', rt_calloc 0x40000001 4 ex32_sys = Some (0x1018, s') /\
    payload s' 0x1000 = 12 /\
    bytes s' 0x101B = Some 0 /\ bytes s' 0x101C = Some 28.
Proof.
  eexists. split; [apply some_ptr_state; vm_compute; reflexivity|].
  vm_compute. repeat split; reflexivity.
Qed.

End CallocExample.

(** * Reports on a pool *)

Section DumpWalk.
Context `{Target}.
Variables (st : state) (T : Z).

(** The line [rt_memheap_dump] prints for the block at [a]. *)
Local Abbreviation line_of :=
  (fun a : Z =>
     mk_dump_line
       (RT_MEMHEAP_IS_USED st a
        && negb (Z.land (magic (items st a)) RT_MEMHEAP_MASK =? RT_MEMHEAP_MAGIC))
       (wrap (a + sizeof_item)) (MEMITEM_SIZE st a)
       (magic (items st a) =? Z.lor RT_MEMHEAP_MAGIC RT_MEMHEAP_USED)).

Lemma dump_walk_seg l : forall a fuel,
  seg (fun x => next (items st x)) (fun x => prev (items st x)) a l T ->
  (forall x, In x l -> x < T) ->
  (length l < fuel)%nat ->
  dump_walk st T fuel (next (items st a)) = Some (map line_of l).
Proof.
  induction l as [|b l IH]; intros a fuel Hseg Hlt Hfuel.
  - destruct Hseg as [Hn _]. rewrite Hn.
    destruct fuel as [|fuel]; [simpl in Hfuel; lia|].
    cbn [dump_walk]. rewrite Z.ltb_irrefl. reflexivity.
  - destruct Hseg as (Hn & _ & Hseg). rewrite Hn.
    destruct fuel as [|fuel]; [simpl in Hfuel; lia|].
    cbn [dump_walk].
    rewrite (proj2 (Z.ltb_lt b T)) by (apply Hlt; simpl; auto).
    rewrite (IH b fuel Hseg); [reflexivity| |simpl in Hfuel; lia].
    intros x Hx. apply Hlt. simpl. auto.
Qed.

End DumpWalk.

Section Reports.
Context `{Target} (OK : target_ok).
Variables (heap : Z) (bs fl : list Z) (s : state).
Hypothesis INV : heap_inv heap bs fl s.

Local Abbreviation HS := RT_MEMHEAP_SIZE.

Lemma inv_block_count : (length bs < search_fuel s heap)%nat.
Proof.
  unfold search_fuel.
  pose proof (HS_pos OK) as HH. pose proof (HSZ_bounds OK) as HHb.
  pose proof (inv_bs_NoDup OK INV) as Hnd. apply NoDup_cons_iff in Hnd as [_ Hnd].
  destruct (po_sum_bound HH (inv_phys_ok INV) bs Hnd (fun a Ha => Ha)) as [H1 H2].
  unfold tailer in H2.
  assert (Z.of_nat (length bs) <= pool_size (hget s heap)) by nia.
  lia.
Qed.

(** X14 (the dump walks the pool): on a consistent pool [rt_memheap_dump]
    prints one line for each physical block before the tailer, in address
    order, with the address behind the header structure, the payload size
    of the block and whether it is in use; no block is reported as damaged;
    the lock is taken and released, and the state after the call is the
    state before it. *)
Theorem dump_lists_blocks :
  rt_memheap_dump heap s
  = Some (map (fun a => mk_dump_line false (a + sizeof_item) (payload s a) (used_b s a))
              bs, s).
Proof.
  pose proof (HS_pos OK) as HH. pose proof (HSZ_bounds OK) as HHb.
  pose proof (inv_region _ _ _ _ INV) as Hreg.
  pose proof (inv_pool_size OK INV) as Hps.
  unfold rt_memheap_dump.
  rewrite (proj2 (Z.eqb_neq _ _) (inv_nonnull _ _ _ _ INV)).
  rewrite (inv_is_heap _ _ _ _ INV). cbn [negb].
  rewrite (rt_sem_take_ok _ _ (inv_lock _ _ _ _ INV)).
  autorewrite with fields.
  assert (Hend : wrap (wrap (start_addr (hget s heap) + pool_size (hget s heap)) - HS)
                 = tailer (hget s heap)).
  { unfold tailer, wrap. rewrite Zminus_mod_idemp_l. apply Z.mod_small.
    rewrite wB_eq in *. lia. }
  rewrite Hend.
  pose proof (inv_phys _ _ _ _ INV) as Hseg.
  assert (Hstart : next (items s (tailer (hget s heap))) = block_list (hget s heap)).
  { rewrite (inv_block_list _ _ _ _ INV).
    pose proof (inv_first _ _ _ _ INV) as Hf.
    destruct bs as [|b l]; [discriminate|]. injection Hf as <-.
    destruct Hseg as [Hn _]. exact Hn. }
  rewrite <- Hstart.
  change (next (items s (tailer (hget s heap))))
    with (next (items (set_lock heap 0 s) (tailer (hget s heap)))).
  rewrite (dump_walk_seg (set_lock heap 0 s) (tailer (hget s heap)) bs
             (tailer (hget s heap)) (search_fuel (set_lock heap 0 s) heap)).
  - rewrite (lock_restore heap s (inv_is_heap _ _ _ _ INV) (inv_lock _ _ _ _ INV)).
    f_equal. f_equal. apply map_ext_in. intros a Ha.
    pose proof (inv_addr_range OK INV a Ha) as Hr.
    pose proof (HSZ_spec OK) as [Hsi _]. pose proof (item_lo OK) as Hlo.
    unfold RT_MEMHEAP_MINIALLOC in Hlo.
    rewrite (wrap_id (a + sizeof_item)) by (rewrite wB_eq in *; lia).
    change (MEMITEM_SIZE (set_lock heap 0 s) a) with (MEMITEM_SIZE s a).
    rewrite (inv_MEMITEM_SIZE OK INV a Ha).
    change (items (set_lock heap 0 s) a) with (items s a).
    change (RT_MEMHEAP_IS_USED (set_lock heap 0 s) a) with (RT_MEMHEAP_IS_USED s a).
    rewrite (magic_mask_ok s a (inv_magic _ _ _ _ INV a Ha)), Z.eqb_refl.
    cbn [negb]. rewrite andb_false_r. reflexivity.
  - exact Hseg.
  - intros x Hx. pose proof (inv_bs_range OK INV x Hx). lia.
  - pose proof inv_block_count as Hc. unfold search_fuel in *.
    autorewrite with fields. exact Hc.
Qed.

End Reports.

Section SystemHeap.
Context `{Target} (OK : target_ok).
Variables (bs fl : list Z) (s : state).
Hypothesis INV : heap_inv sys_heap bs fl s.

Local Abbreviation HS := RT_MEMHEAP_SIZE.


End SystemHeap.

Section ReportExamples.
Local Existing Instance target32.

Lemma dump_lists_blocks_witness :
  rt_memheap_dump ex_heap ex32_alloc
  = Some (map (fun a => mk_dump_line false (a + sizeof_item) (payload ex32_alloc a)
                          (used_b ex32_alloc a)) [0x1000; 0x107C], ex32_alloc).
Proof.
  exact (dump_lists_blocks target32_ok ex_heap [0x1000; 0x107C] [0x107C]
           ex32_alloc ex32_alloc_inv).
Defined.


End ReportExamples.

(** * Any sequence of requests *)

Section ListAt.

Lemma lookup_split (l : list Z) k p :
  l !! k = Some p -> exists l1 l2, l = l1 ++ p :: l2 /\ k = length l1.
Proof.
  revert k. induction l as [|a l IH]; intros k Hk; [discriminate|].
  destruct k as [|k]; simpl in Hk.
  - injection Hk as ->. exists [], l. auto.
  - destruct (IH k Hk) as (l1 & l2 & -> & ->). exists (a :: l1), l2. auto.
Qed.

Lemma delete_at (l1 : list Z) x l2 : delete (length l1) (l1 ++ x :: l2) = l1 ++ l2.
Proof. induction l1 as [|a l1 IH]; simpl; [reflexivity|]. f_equal. exact IH. Qed.

Lemma insert_at (l1 : list Z) x y l2 :
  <[length l1 := y]> (l1 ++ x :: l2) = l1 ++ y :: l2.
Proof. induction l1 as [|a l1 IH]; simpl; [reflexivity|]. f_equal. exact IH. Qed.

Lemma NoDup_put (l1 : list Z) x l2 :
  List.NoDup (l1 ++ l2) -> ~ In x (l1 ++ l2) -> List.NoDup (l1 ++ x :: l2).
Proof.
  induction l1 as [|a l1 IH]; simpl; intros Hnd Hx.
  - constructor; assumption.
  - apply NoDup_cons_iff in Hnd as [Ha Hnd]. constructor.
    + rewrite in_app_iff in *. simpl. intros [?|[?|?]]; subst; tauto.
    + apply IH; tauto.
Qed.

End ListAt.

Section ClientRun.
Context `{Target} (OK : target_ok).
Variable heap : Z.

Local Abbreviation HS := RT_MEMHEAP_SIZE.

Lemma serve_settled r held s :
  sane r -> settled heap held s ->
  exists held' s', serve heap r (held, s) = Some (held', s') /\ settled heap held' s'.
Proof.
  intros Hsane (bs & fl & INV & Hnd & Hlive).
  pose proof (HS_pos OK) as HH.
  destruct r as [size|k|k size]; cbn [serve sane] in *.
  - destruct (alloc_total OK heap bs fl s INV size Hsane)
      as (p & s' & bs' & fl' & Heq & INV' & _ & _ & Hnull & Hok & Hkeep & _).
    rewrite Heq.
    assert (Hold : forall q, In q held -> live bs' s' q).
    { intros q Hq. destruct (Hlive q Hq) as [H1 H2].
      destruct (Hkeep _ H1 H2) as (H3 & H4 & _). split; assumption. }
    destruct (Z.eqb_spec p RT_NULL) as [Hp|Hp].
    + exists held, s'. split; [reflexivity|]. exists bs', fl'. auto.
    + destruct (Hok Hp) as (Hl & Hfl & _).
      exists (p :: held), s'. split; [reflexivity|]. exists bs', fl'.
      split; [exact INV'|]. split.
      * constructor; [|exact Hnd]. intros Hin. destruct (Hlive p Hin) as [_ Hu].
        apply (free_not_used _ (inv_fl_free INV _ Hfl) Hu).
      * intros q [<-|Hq]; [exact Hl|apply Hold; exact Hq].
  - destruct (held !! k) as [p|] eqn:Hk.
    2: { exists held, s. split; [reflexivity|]. exists bs, fl. auto. }
    destruct (lookup_split held k p Hk) as (l1 & l2 & -> & ->).
    assert (Hp : live bs s p) by (apply Hlive; apply in_app_iff; simpl; auto).
    destruct (free_total OK heap bs fl s INV p Hp)
      as (s' & bs' & fl' & Hf & INV' & _ & _ & _ & Hkeep & _).
    rewrite Hf. rewrite delete_at.
    exists (l1 ++ l2), s'. split; [reflexivity|]. exists bs', fl'.
    split; [exact INV'|]. split; [apply (NoDup_remove_1 _ _ _ Hnd)|].
    intros q Hq.
    assert (Hqp : q <> p).
    { intros ->. apply (NoDup_remove_2 _ _ _ Hnd). exact Hq. }
    assert (Hq' : In q (l1 ++ p :: l2))
      by (rewrite in_app_iff in *; simpl; tauto).
    destruct (Hlive q Hq') as [H1 H2].
    destruct (Hkeep _ H1 H2 ltac:(lia)) as (H3 & H4 & _). split; assumption.
  - destruct (held !! k) as [p|] eqn:Hk.
    2: { exists held, s. split; [reflexivity|]. exists bs, fl. auto. }
    destruct (lookup_split held k p Hk) as (l1 & l2 & -> & ->).
    assert (Hp : live bs s p) by (apply Hlive; apply in_app_iff; simpl; auto).
    destruct Hsane as [Hsz Hnw].
    destruct (realloc_total OK heap bs fl s INV p size Hsz Hnw Hp)
      as (q & s' & bs' & fl' & Heq & INV' & _ & _ & Hnull & Hok & Hkeep).
    rewrite Heq.
    destruct (Z.eqb_spec q RT_NULL) as [Hq|Hq].
    + destruct (Hnull Hq) as [-> _].
      exists (l1 ++ p :: l2), s. split; [reflexivity|]. exists bs, fl. auto.
    + rewrite insert_at.
      destruct (Hok Hq) as (Hlq & _ & Hwhere).
      exists (l1 ++ q :: l2), s'. split; [reflexivity|]. exists bs', fl'.
      split; [exact INV'|].
      assert (Hrest : forall r, In r (l1 ++ l2) -> r <> p /\ live bs' s' r).
      { intros r Hr.
        assert (Hrp : r <> p).
        { intros ->. apply (NoDup_remove_2 _ _ _ Hnd). exact Hr. }
        split; [exact Hrp|].
        assert (Hr' : In r (l1 ++ p :: l2))
          by (rewrite in_app_iff in *; simpl; tauto).
        destruct (Hlive r Hr') as [H1 H2].
        destruct (Hkeep _ H1 H2 ltac:(lia)) as (H3 & H4 & _). split; assumption. }
      split.
      * apply NoDup_put; [apply (NoDup_remove_1 _ _ _ Hnd)|].
        intros Hin. destruct (Hrest q Hin) as [Hqp Hlq'].
        destruct Hwhere as [e|[Hfl _]]; [contradiction|].
        assert (Hq' : In q (l1 ++ p :: l2))
          by (rewrite in_app_iff in *; simpl; tauto).
        destruct (Hlive q Hq') as [_ Hu].
        apply (free_not_used _ (inv_fl_free INV _ Hfl) Hu).
      * intros r Hr. apply in_app_iff in Hr. simpl in Hr.
        destruct Hr as [Hr|[<-|Hr]]; [|exact Hlq|];
          apply Hrest; apply in_app_iff; auto.
Qed.

Lemma run_settled rs : forall held s,
  Forall sane rs -> settled heap held s ->
  exists held' s', run heap rs (held, s) = Some (held', s') /\ settled heap held' s'.
Proof.
  induction rs as [|r rs IH]; intros held s Hs Hset.
  - exists held, s. split; [reflexivity|exact Hset].
  - apply Forall_cons_iff in Hs as [Hr Hrs].
    destruct (serve_settled r held s Hr Hset) as (held1 & s1 & Hserve & Hset1).
    destruct (IH held1 s1 Hrs Hset1) as (held' & s' & Hrun & Hset').
    exists held', s'. split; [|exact Hset'].
    cbn [run]. rewrite Hserve. exact Hrun.
Qed.

(** X15 (any sequence of requests): from a consistent pool in which the
    pointers a program holds are distinct and in use, every sequence of
    allocations, releases of pointers held and resizes of pointers held goes
    through without stopping at an assertion; at the end the pool is
    consistent, the pointers held are distinct and in use, and the payloads
    of any two of them are apart, with a header between them. *)
Theorem client_run_safe rs held s bs fl :
  heap_inv heap bs fl s ->
  List.NoDup held ->
  (forall p, In p held -> live bs s p) ->
  Forall sane rs ->
  exists held' s' bs' fl',
    run heap rs (held, s) = Some (held', s') /\
    heap_inv heap bs' fl' s' /\
    List.NoDup held' /\
    (forall p, In p held' -> live bs' s' p) /\
    (forall p q, In p held' -> In q held' -> p <> q ->
       p + payload s' (p - HS) <= q - HS \/ q + payload s' (q - HS) <= p - HS).
Proof.
  intros INV Hnd Hlive Hs.
  destruct (run_settled rs held s Hs) as (held' & s' & Hrun & bs' & fl' & INV' & Hnd' & Hl').
  { exists bs, fl. auto. }
  exists held', s', bs', fl'. split; [exact Hrun|]. split; [exact INV'|].
  split; [exact Hnd'|]. split; [exact Hl'|].
  intros p q Hp Hq Hne.
  apply (live_apart OK heap bs' fl' s' INV' p q (Hl' p Hp) (Hl' q Hq) Hne).
Qed.

End ClientRun.

Section ClientExample.
Local Existing Instance target32.

Lemma client_run_safe_witness :
  exists held' s' bs' fl',
    run ex_heap [Alloc 40; Realloc 1 200; Free 0; Alloc 0] ([0x1018], ex32_alloc)
      = Some (held', s') /\
    heap_inv ex_heap bs' fl' s' /\
    List.NoDup held' /\
    (forall p, In p held' -> live bs' s' p) /\
    (forall p q, In p held' -> In q held' -> p <> q ->
       p + payload s' (p - RT_MEMHEAP_SIZE) <= q - RT_MEMHEAP_SIZE \/
       q + payload s' (q - RT_MEMHEAP_SIZE) <= p - RT_MEMHEAP_SIZE).
Proof.
  apply (client_run_safe target32_ok ex_heap
           [Alloc 40; Realloc 1 200; Free 0; Alloc 0] [0x1018] ex32_alloc
           [0x1000; 0x107C] [0x107C] ex32_alloc_inv).
  - constructor; [simpl; tauto|constructor].
  - intros p [<-|[]]. exact ex32_alloc_live.
  - repeat constructor; vm_compute; auto; try discriminate.
Defined.

End ClientExample.

(** * The facade over the system heap alone *)

Section Facade.
Context `{Target} (OK : target_ok).
Variables (bs fl : list Z) (s : state).
Hypothesis INV : heap_inv sys_heap bs fl s.
Hypothesis REG : registry s = [sys_heap].

Local Abbreviation HS := RT_MEMHEAP_SIZE.



End Facade.

(** * The first allocation *)

Section FirstAlloc.
Context `{Target} (OK : target_ok).

Local Abbreviation HS := RT_MEMHEAP_SIZE.

(** X17 (the first allocation): after [rt_memheap_init] of a pool, a first
    [rt_memheap_alloc] succeeds exactly when the normalized request is
    smaller than [available_size], and the block it hands out is the first
    of the pool, at [start + H]; otherwise it returns NULL and leaves the
    state as it is. *)
Theorem init_then_alloc memheap start size s n :
  memheap <> RT_NULL ->
  0 < start -> 0 <= size < wB -> start + size <= wB ->
  3 * RT_MEMHEAP_SIZE + RT_MEMHEAP_MINIALLOC <= size ->
  (free_header_of memheap + RT_MEMHEAP_SIZE <= start \/
   start + size <= free_header_of memheap) ->
  0 <= n < wB ->
  exists s1 p s2,
    rt_memheap_init memheap start size s = Some s1 /\
    rt_memheap_alloc memheap n s1 = Some (p, s2) /\
    (normalized n < available_size (hget s1 memheap) -> p = start + HS) /\
    (available_size (hget s1 memheap) <= normalized n -> p = RT_NULL /\ s2 = s1).
Proof.
  intros Hn Hs Hsz Hreg Hbig Hfh Hreq.
  destruct (init_inv OK memheap start size s Hn Hs Hsz Hreg Hbig Hfh) as (s1 & Hinit & INV).
  pose proof (inv_avail _ _ _ _ INV) as Hav. cbn [sum_payload fold_right] in Hav.
  exists s1.
  destruct (alloc_cases OK memheap [start] [start] s1 INV n Hreq)
    as [[Heq Hwhy]|(flA & c & flB & l1 & l2 & s2 & Efl & _ & _ & Hfit & Hlt & Heq & _)].
  - exists RT_NULL, s1. split; [exact Hinit|]. split; [exact Heq|].
    split; [|auto]. intros Hlt. exfalso.
    destruct Hwhy as [Hle|Hsmall]; [lia|].
    specialize (Hsmall start ltac:(simpl; auto)). lia.
  - exists (c + HS), s2. split; [exact Hinit|]. split; [exact Heq|].
    assert (Hc : c = start).
    { assert (Hin : In c [start]) by (rewrite Efl; apply in_app_iff; simpl; auto).
      destruct Hin as [e|[]]. auto. }
    split; [intros _; rewrite Hc; reflexivity|]. intros Hle. lia.
Qed.

End FirstAlloc.

Section FacadeExamples.
Local Existing Instance target32.


Lemma init_then_alloc_witness :
  exists s1 p s2,
    rt_memheap_init ex_heap ex_start 1024 state0 = Some s1 /\
    rt_memheap_alloc ex_heap 100 s1 = Some (p, s2) /\
    (normalized 100 < available_size (hget s1 ex_heap) -> p = ex_start + RT_MEMHEAP_SIZE) /\
    (available_size (hget s1 ex_heap) <= normalized 100 -> p = RT_NULL /\ s2 = s1).
Proof.
  apply (init_then_alloc target32_ok ex_heap ex_start 1024 state0 100).
  - discriminate.
  - vm_compute. reflexivity.
  - vm_compute. split; [discriminate|reflexivity].
  - vm_compute. discriminate.
  - vm_compute. discriminate.
  - left. vm_compute. discriminate.
  - vm_compute. split; [discriminate|reflexivity].
Defined.

End FacadeExamples.

(** * What the calls leave in the payloads

    The allocator stores to headers only: a header that is split off, the
    links of the neighbours, the nodes of the free list.  The bytes of a
    payload are written by [rt_memcpy], in a realloc that moves the block. *)

Section Frames.
Context `{Target} (OK : target_ok).
Variables (heap : Z) (bs fl : list Z) (s : state).
Hypothesis INV : heap_inv heap bs fl s.

Local Abbreviation HS := RT_MEMHEAP_SIZE.

(** A byte of a payload lies in no header of the pool. *)
Lemma payload_nodes x a :
  In x bs -> x + HS <= a < next (items s x) ->
  forall y, In y bs \/ y = tailer (hget s heap) \/ y = free_list (hget s heap) ->
            y + HS <= a \/ a < y.
Proof.
  intros Hx Ha.
  apply (payload_away OK heap bs fl s INV (x + HS) a).
  - replace (x + HS - HS) with x by lia. exact Hx.
  - replace (x + HS - HS) with x by lia. exact Ha.
Qed.

(** An allocation leaves the payloads of the blocks in use as they were. *)
Lemma alloc_frame size p s' :
  0 <= size < wB ->
  rt_memheap_alloc heap size s = Some (p, s') ->
  forall x a, In x bs -> is_used s x -> x + HS <= a < next (items s x) ->
    bytes s' a = bytes s a.
Proof.
  intros Hsz Heq x a Hx Hu Ha.
  pose proof (HS_pos OK) as HH.
  pose proof (normalized_range OK size Hsz) as Hn.
  destruct (alloc_cases OK heap bs fl s INV size Hsz)
    as [[Heq' _]|(flA & c & flB & l1 & l2 & s2 & Efl & Ebs & Hsmall & Hfit & Hav & _)].
  { rewrite Heq in Heq'. injection Heq' as _ ->. reflexivity. }
  pose proof (alloc_fit OK heap bs fl s INV size flA c flB Hsz Hav Efl Hsmall Hfit) as Heq2.
  cbv zeta in Heq2. rewrite Heq in Heq2. injection Heq2 as _ Es.
  assert (Hcfl : In c fl) by (rewrite Efl; apply in_app_iff; simpl; auto).
  assert (Hc : In c bs) by (apply (inv_fl_bs INV _ Hcfl)).
  assert (Hxc : x <> c).
  { intros ->. apply (inv_used_notin_fl INV c Hu Hcfl). }
  pose proof (payload_nodes x a Hx Ha) as Haw.
  assert (Haln : RT_MEMHEAP_MINIALLOC mod RT_ALIGN_SIZE = 0 ->
                 normalized size mod RT_ALIGN_SIZE = 0).
  { intros Hm. apply (normalized_aligned OK); [lia|exact Hm]. }
  assert (Hn12 : RT_MEMHEAP_MINIALLOC <= normalized size)
    by (unfold RT_MEMHEAP_MINIALLOC; lia).
  rewrite Es.
  destruct (Z.leb_spec (normalized size + HS + RT_MEMHEAP_MINIALLOC) (payload s c))
    as [Hsp|Hsp].
  - pose proof (alloc_split_inv_bytes OK heap bs fl s INV (normalized size) l1 c l2 flA flB
                  Ebs Efl Hn12 Hsp Haln) as Hinv.
    cbv zeta in Hinv. destruct Hinv as (_ & _ & _ & _ & Hby & _).
    apply Hby; [exact Haw|].
    unfold payload, RT_MEMHEAP_MINIALLOC in Hsp.
    destruct (inv_blocks_apart OK heap bs fl s INV x c Hx Hc Hxc) as [Hle|Hle]; lia.
  - pose proof (alloc_whole_inv_bytes OK heap bs fl s INV c flA flB Efl) as Hinv.
    cbv zeta in Hinv. destruct Hinv as (_ & _ & _ & _ & Hby & _).
    apply Hby. exact Haw.
Qed.

(** A release leaves every payload of the pool as it was. *)
Lemma free_frame p s' :
  live bs s p ->
  rt_memheap_free p s = Some s' ->
  forall x a, In x bs -> x + HS <= a < next (items s x) -> bytes s' a = bytes s a.
Proof.
  intros Hl Heq x a Hx Ha.
  pose proof (free_cases_bytes OK heap bs fl s INV p Hl) as Hc. cbv zeta in Hc.
  destruct Hc as (s2 & bs' & fl' & c & Hf & _ & _ & _ & _ & _ & _ & _ & _ & _ & _ & _ & _
                  & Hby).
  rewrite Heq in Hf. injection Hf as <-.
  apply Hby. apply (payload_nodes x a Hx Ha).
Qed.

End Frames.

Section ReallocContents.
Context `{Target} (OK : target_ok).
Variables (heap : Z) (bs fl : list Z) (s : state).
Hypothesis INV : heap_inv heap bs fl s.

Local Abbreviation HS := RT_MEMHEAP_SIZE.


(** X18 (an allocation leaves the data alone): [rt_memheap_alloc] on a
    consistent pool returns, and every byte of the payload of a block that is
    in use reads after the call as it read before it. *)
Theorem alloc_keeps_contents size :
  0 <= size < wB ->
  exists p s',
    rt_memheap_alloc heap size s = Some (p, s') /\
    forall q a, live bs s q -> q <= a < q + payload s (q - HS) ->
      bytes s' a = bytes s a.
Proof.
  intros Hsz.
  destruct (alloc_total OK heap bs fl s INV size Hsz) as (p & s' & bs' & fl' & Heq & _).
  exists p, s'. split; [exact Heq|].
  intros q a [Hq Hu] Ha.
  apply (alloc_frame OK heap bs fl s INV size p s' Hsz Heq (q - HS) a Hq Hu).
  unfold payload in Ha. lia.
Qed.

(** X19 (a release leaves the data alone): [rt_memheap_free] of a live
    pointer stores to headers only; every byte of every payload of the pool,
    that of the released block included, reads after the call as it read
    before it. *)
Theorem free_keeps_contents p :
  live bs s p ->
  exists s',
    rt_memheap_free p s = Some s' /\
    forall x a, In x bs -> x + HS <= a < x + HS + payload s x ->
      bytes s' a = bytes s a.
Proof.
  intros Hl.
  destruct (free_total OK heap bs fl s INV p Hl) as (s' & bs' & fl' & Heq & _).
  exists s'. split; [exact Heq|].
  intros x a Hx Ha.
  apply (free_frame OK heap bs fl s INV p s' Hl Heq x a Hx).
  unfold payload in Ha. lia.
Qed.


End ReallocContents.

Section ContentsExamples.
Local Existing Instance target32.

Lemma alloc_keeps_contents_witness :
  exists p s',
    rt_memheap_alloc ex_heap 40 ex32_alloc = Some (p, s') /\
    forall q a, live [0x1000; 0x107C] ex32_alloc q ->
      q <= a < q + payload ex32_alloc (q - RT_MEMHEAP_SIZE) ->
      bytes s' a = bytes ex32_alloc a.
Proof.
  apply (alloc_keeps_contents target32_ok ex_heap [0x1000; 0x107C] [0x107C]
           ex32_alloc ex32_alloc_inv 40).
  rewrite wB_eq. lia.
Defined.

Lemma free_keeps_contents_witness :
  exists s',
    rt_memheap_free 0x1018 ex32_alloc = Some s' /\
    forall x a, In x [0x1000; 0x107C] ->
      x + RT_MEMHEAP_SIZE <= a < x + RT_MEMHEAP_SIZE + payload ex32_alloc x ->
      bytes s' a = bytes ex32_alloc a.
Proof.
  apply (free_keeps_contents target32_ok ex_heap [0x1000; 0x107C] [0x107C]
           ex32_alloc ex32_alloc_inv 0x1018).
  exact ex32_alloc_live.
Defined.


(** Four zeroed words, a second block behind them, and a realloc to 200
    bytes: the block moves from 0x1018 to 0x1068 and starts with the 16
    zeros; the byte behind them is the one the pool held there. *)
Example realloc_moves_zeros :
  bind (rt_calloc 4 4 ex32_sys) (fun '(p, s1) =>
  bind (rt_malloc 16 s1) (fun '(r, s2) =>
  bind (rt_realloc p 200 s2) (fun '(q, s3) =>
    Some (p, r, q, bytes s3 q, bytes s3 (q + 15), bytes s3 (q + 16)))))
  = Some (0x1018, 0x1040, 0x1068, Some 0, Some 0, Some 120).
Proof. vm_compute. reflexivity. Qed.

End ContentsExamples.
